(** * Viewshed engines: a shallow embedding of [backend/app/viewshed.py]

    The module computes, for an observer on an elevation raster, which cells
    are visible.  The embedding follows the Python source function by
    function.  Python's [float] is kept abstract behind the interface
    [PyFloat]; the instance [binary64] interprets it as IEEE-754 binary64
    (what CPython uses), the instance [exact] as exact real arithmetic.
    [math.atan2] is a parameter of its own ([PyAtan2]).

    Properties that hold whatever the arithmetic are proved over the
    interface; those that rest on the order of floats are proved from the
    laws [PyFloatOrder], which both instances satisfy; those that rounding
    or overflow breaks are proved in exact arithmetic and refuted in
    binary64 on a concrete grid. *)

From Stdlib Require Import ZArith List Bool Lia String Floats Reals Lra Permutation Sorted.
From stdpp Require Import base list.

Local Open Scope Z_scope.

(** ** Python exceptions and results *)

Inductive exn : Type :=
| ValueError (msg : string)
| IndexError (msg : string).

Inductive result (A : Type) : Type :=
| Ok (a : A)
| Raise (e : exn).
Arguments Ok {A} a.
Arguments Raise {A} e.

#[global] Instance result_ret : MRet result := fun A a => Ok a.
#[global] Instance result_bind : MBind result := fun A B k m =>
  match m with
  | Ok a => k a
  | Raise e => Raise e
  end.

(** ** The float interface

    Every operation the source applies to a Python [float].
    [of_int] is the implicit conversion of an [int] operand, [flt x y] is
    [x < y] and [fle x y] is [x <= y] (both false when an operand is NaN),
    [floor] is [int(math.floor(x))] (Python raises on NaN and on the
    infinities; the engines only take the floor of a sample coordinate
    [obs + d * (k / steps)], which is built from grid indices). *)

Class PyFloat (F : Type) : Type := {
  of_int : Z -> F;
  nan : F;
  neg_inf : F;
  epsilon : F;
  isnan : F -> bool;
  fadd : F -> F -> F;
  fsub : F -> F -> F;
  fmul : F -> F -> F;
  fdiv : F -> F -> F;
  flt : F -> F -> bool;
  fle : F -> F -> bool;
  floor : F -> Z;
  hypot : F -> F -> F
}.

(** [math.atan2], the one operation of the radial engine that IEEE-754
    arithmetic does not define. *)
Class PyAtan2 (F : Type) : Type := {
  atan2 : F -> F -> F
}.

(** ** numpy arrays: a shape and the elements in row-major order *)

Record ndarray (A : Type) : Type := mk_ndarray {
  shape : list nat;
  data : list A
}.
Arguments mk_ndarray {A} shape data.
Arguments shape {A} _.
Arguments data {A} _.

Definition ndim {A} (a : ndarray A) : nat := length (shape a).

(** [rows, cols = a.shape] *)
Definition shape2 {A} (a : ndarray A) : nat * nat :=
  match shape a with
  | [rows; cols] => (rows, cols)
  | _ => (0%nat, 0%nat)
  end.

Definition wf_array {A} (a : ndarray A) : Prop :=
  length (data a) = foldr Nat.mul 1%nat (shape a).

Definition in_bounds (rows cols : nat) (r c : Z) : bool :=
  (0 <=? r) && (r <? Z.of_nat rows) && (0 <=? c) && (c <? Z.of_nat cols).

Definition flat_index (cols : nat) (r c : Z) : nat :=
  Z.to_nat (r * Z.of_nat cols + c).

(** [a[r, c]] for a rank-2 array; [None] is numpy's IndexError. *)
Definition getitem2 {A} (a : ndarray A) (r c : Z) : option A :=
  let '(rows, cols) := shape2 a in
  if in_bounds rows cols r c then data a !! flat_index cols r c else None.

(** [a[r, c] = v] *)
Definition setitem2 {A} (a : ndarray A) (r c : Z) (v : A) : ndarray A :=
  let '(rows, cols) := shape2 a in
  if in_bounds rows cols r c
  then mk_ndarray (shape a) (<[flat_index cols r c := v]> (data a))
  else a.

(** [range(n)] and [range(lo, hi)] *)
Definition range (n : nat) : list Z := map Z.of_nat (seq 0 n).
Definition range_from (lo hi : Z) : list Z :=
  map (fun k => lo + Z.of_nat k) (seq 0 (Z.to_nat (hi - lo))).

(** All indices of a [rows] x [cols] grid in the order of the nested loops
    [for r in range(rows): for c in range(cols)]. *)
Definition cells (rows cols : nat) : list (Z * Z) :=
  r ← range rows; c ← range cols; [(r, c)].

(** [np.zeros((rows, cols), dtype=bool)] *)
Definition zeros (rows cols : nat) : ndarray bool :=
  mk_ndarray [rows; cols] (replicate (rows * cols) false).

Section Engines.
Context {F : Type} {PF : PyFloat F}.

Definition EARTH_RADIUS_M : F := of_int 6371000.

(** [float(dem[r, c])]; the engines only read validated indices. *)
Definition elevation (dem : ndarray F) (r c : Z) : F :=
  default nan (getitem2 dem r c).

Definition _validate_inputs (dem : ndarray F) (observer_rc : Z * Z)
    (observer_height_m cell_size_m : F) : result unit :=
  if negb (ndim dem =? 2)%nat then Raise (ValueError "DEM must be a 2D array.")
  else if fle cell_size_m (of_int 0) then Raise (ValueError "cell_size_m must be positive.")
  else if flt observer_height_m (of_int 0)
       then Raise (ValueError "observer_height_m must be non-negative.")
  else
    let '(rows, cols) := shape2 dem in
    let '(obs_r, obs_c) := observer_rc in
    if negb ((0 <=? obs_r) && (obs_r <? Z.of_nat rows)
             && ((0 <=? obs_c) && (obs_c <? Z.of_nat cols)))
    then Raise (IndexError "Observer index out of bounds.")
    else Ok tt.

Definition _curvature_drop (distance_m : F) : F :=
  fdiv (fmul distance_m distance_m) (fmul (of_int 2) EARTH_RADIUS_M).

Definition _bilinear_sample (dem : ndarray F) (row col : F) : F :=
  let '(rows, cols) := shape2 dem in
  let r0 := floor row in
  let c0 := floor col in
  let r1 := Z.min (r0 + 1) (Z.of_nat rows - 1) in
  let c1 := Z.min (c0 + 1) (Z.of_nat cols - 1) in
  if (r0 <? 0) || (c0 <? 0) || (r0 >=? Z.of_nat rows) || (c0 >=? Z.of_nat cols)
  then nan
  else
    let dr := fsub row (of_int r0) in
    let dc := fsub col (of_int c0) in
    let e00 := elevation dem r0 c0 in
    let e10 := elevation dem r1 c0 in
    let e01 := elevation dem r0 c1 in
    let e11 := elevation dem r1 c1 in
    if existsb isnan [e00; e10; e01; e11] then nan
    else
      fadd (fadd (fadd (fmul (fmul e00 (fsub (of_int 1) dr)) (fsub (of_int 1) dc))
                       (fmul (fmul e10 dr) (fsub (of_int 1) dc)))
                 (fmul (fmul e01 (fsub (of_int 1) dr)) dc))
           (fmul (fmul e11 dr) dc).

(** The body of [for step in range(1, steps)], with its early returns. *)
Fixpoint los_loop (dem : ndarray F) (observer_elevation target_effective : F)
    (obs_r obs_c dr dc steps : Z) (total_distance : F) (curvature_enabled : bool)
    (todo : list Z) : bool :=
  match todo with
  | [] => true
  | step :: todo' =>
      let t := fdiv (of_int step) (of_int steps) in
      let r := fadd (of_int obs_r) (fmul (of_int dr) t) in
      let c := fadd (of_int obs_c) (fmul (of_int dc) t) in
      let terrain := _bilinear_sample dem r c in
      if isnan terrain then false
      else
        let distance := fmul total_distance t in
        let expected :=
          fadd observer_elevation (fmul (fsub target_effective observer_elevation) t) in
        let terrain :=
          if curvature_enabled && flt (of_int 0) distance
          then fsub terrain (_curvature_drop distance) else terrain in
        if flt expected terrain then false
        else los_loop dem observer_elevation target_effective obs_r obs_c dr dc steps
               total_distance curvature_enabled todo'
  end.

Definition _line_of_sight (dem : ndarray F) (observer_elevation target_elevation : F)
    (observer_rc target_rc : Z * Z) (cell_size_m : F) (curvature_enabled : bool) : bool :=
  let '(obs_r, obs_c) := observer_rc in
  let '(tgt_r, tgt_c) := target_rc in
  let dr := tgt_r - obs_r in
  let dc := tgt_c - obs_c in
  let steps := Z.max (Z.abs dr) (Z.abs dc) in
  if steps =? 0 then true
  else
    let total_distance := fmul (hypot (of_int dr) (of_int dc)) cell_size_m in
    let target_effective :=
      if curvature_enabled && flt (of_int 0) total_distance
      then fsub target_elevation (_curvature_drop total_distance)
      else target_elevation in
    los_loop dem observer_elevation target_effective obs_r obs_c dr dc steps
      total_distance curvature_enabled (range_from 1 steps).

(** One iteration of the baseline engine's double loop. *)
Definition baseline_cell (dem : ndarray F) (observer_elevation : F) (obs_r obs_c : Z)
    (cell_size_m : F) (curvature_enabled : bool)
    (visibility : ndarray bool) (rc : Z * Z) : ndarray bool :=
  let '(r, c) := rc in
  if (r =? obs_r) && (c =? obs_c) then visibility
  else
    let target := elevation dem r c in
    if isnan target then visibility
    else if _line_of_sight dem observer_elevation target (obs_r, obs_c) (r, c)
              cell_size_m curvature_enabled
    then setitem2 visibility r c true
    else visibility.

Definition _compute_viewshed_baseline (dem : ndarray F) (observer_rc : Z * Z)
    (observer_height_m cell_size_m : F) (curvature_enabled : bool)
    : result (ndarray bool) :=
  _ ← _validate_inputs dem observer_rc observer_height_m cell_size_m;
  let '(rows, cols) := shape2 dem in
  let '(obs_r, obs_c) := observer_rc in
  let observer_ground := elevation dem obs_r obs_c in
  if isnan observer_ground then Raise (ValueError "Observer elevation is NaN.")
  else
    let observer_elevation := fadd observer_ground observer_height_m in
    let visibility := setitem2 (zeros rows cols) obs_r obs_c true in
    Ok (fold_left
          (baseline_cell dem observer_elevation obs_r obs_c cell_size_m curvature_enabled)
          (cells rows cols) visibility).

End Engines.

Section Radial.
Context {F : Type} {PF : PyFloat F} {PA : PyAtan2 F}.

(** A ray member [(g, r, c, angle)]: distance multiplier, cell, elevation angle. *)
Definition entry : Type := Z * Z * Z * F.

Definition entry_g (e : entry) : Z := e.1.1.1.
Definition entry_cell (e : entry) : Z * Z := (e.1.1.2, e.1.2).
Definition entry_angle (e : entry) : F := e.2.

Definition direction_eqb (d1 d2 : Z * Z) : bool :=
  (d1.1 =? d2.1) && (d1.2 =? d2.2).

(** [rays.setdefault(direction, []).append(e)]; a Python dict keeps its keys
    in insertion order, which is the order of the association list. *)
Fixpoint setdefault_append (rays : list ((Z * Z) * list entry))
    (direction : Z * Z) (e : entry) : list ((Z * Z) * list entry) :=
  match rays with
  | [] => [(direction, [e])]
  | (d, entries) :: rays' =>
      if direction_eqb d direction then (d, entries ++ [e]) :: rays'
      else (d, entries) :: setdefault_append rays' direction e
  end.

(** One iteration of the bucketing double loop of the radial engine. *)
Definition radial_cell (dem : ndarray F) (observer_elevation : F) (obs_r obs_c : Z)
    (cell_size_m : F) (curvature_enabled : bool)
    (rays : list ((Z * Z) * list entry)) (rc : Z * Z) : list ((Z * Z) * list entry) :=
  let '(r, c) := rc in
  if (r =? obs_r) && (c =? obs_c) then rays
  else
    let target := elevation dem r c in
    if isnan target then rays
    else
      let dr := r - obs_r in
      let dc := c - obs_c in
      let g := Z.gcd (Z.abs dr) (Z.abs dc) in
      if g =? 0 then rays
      else
        let direction := (dr / g, dc / g) in
        let distance := fmul (hypot (of_int dr) (of_int dc)) cell_size_m in
        let target_effective :=
          if curvature_enabled && flt (of_int 0) distance
          then fsub target (_curvature_drop distance) else target in
        let angle := atan2 (fsub target_effective observer_elevation) distance in
        setdefault_append rays direction (g, r, c, angle).

(** [entries.sort(key=lambda item: item[0])]: a stable sort on the multiplier. *)
Fixpoint insert_entry (e : entry) (sorted : list entry) : list entry :=
  match sorted with
  | [] => [e]
  | x :: sorted' =>
      if entry_g e <=? entry_g x then e :: x :: sorted'
      else x :: insert_entry e sorted'
  end.

Definition sort_entries (entries : list entry) : list entry :=
  foldr insert_entry [] entries.

(** The horizon sweep along one sorted ray (the inner [for] of the second loop). *)
Fixpoint sweep (entries : list entry) (max_angle : F) (visibility : ndarray bool)
    : ndarray bool :=
  match entries with
  | [] => visibility
  | (_, r, c, angle) :: entries' =>
      if fle (fsub max_angle epsilon) angle then
        let visibility := setitem2 visibility r c true in
        if flt max_angle angle then sweep entries' angle visibility
        else sweep entries' max_angle visibility
      else sweep entries' max_angle visibility
  end.

(** The dict [rays] once the bucketing loop has run. *)
Definition radial_rays (dem : ndarray F) (observer_elevation : F) (obs_r obs_c : Z)
    (cell_size_m : F) (curvature_enabled : bool) : list ((Z * Z) * list entry) :=
  let '(rows, cols) := shape2 dem in
  fold_left
    (radial_cell dem observer_elevation obs_r obs_c cell_size_m curvature_enabled)
    (cells rows cols) [].

Definition sweep_ray (visibility : ndarray bool) (ray : (Z * Z) * list entry)
    : ndarray bool :=
  sweep (sort_entries ray.2) neg_inf visibility.

Definition _compute_viewshed_radial (dem : ndarray F) (observer_rc : Z * Z)
    (observer_height_m cell_size_m : F) (curvature_enabled : bool)
    : result (ndarray bool) :=
  _ ← _validate_inputs dem observer_rc observer_height_m cell_size_m;
  let '(rows, cols) := shape2 dem in
  let '(obs_r, obs_c) := observer_rc in
  let observer_ground := elevation dem obs_r obs_c in
  if isnan observer_ground then Raise (ValueError "Observer elevation is NaN.")
  else
    let observer_elevation := fadd observer_ground observer_height_m in
    let visibility := setitem2 (zeros rows cols) obs_r obs_c true in
    let rays :=
      radial_rays dem observer_elevation obs_r obs_c cell_size_m curvature_enabled in
    Ok (fold_left sweep_ray rays visibility).

(** The public entry points. *)
Definition compute_viewshed (dem : ndarray F) (observer_rc : Z * Z)
    (observer_height_m cell_size_m : F) (curvature_enabled : bool)
    : result (ndarray bool) :=
  _compute_viewshed_baseline dem observer_rc observer_height_m cell_size_m
    curvature_enabled.

Definition compute_viewshed_radial (dem : ndarray F) (observer_rc : Z * Z)
    (observer_height_m cell_size_m : F) (curvature_enabled : bool)
    : result (ndarray bool) :=
  _compute_viewshed_radial dem observer_rc observer_height_m cell_size_m
    curvature_enabled.

Definition compute_viewshed_baseline (dem : ndarray F) (observer_rc : Z * Z)
    (observer_height_m cell_size_m : F) (curvature_enabled : bool)
    : result (ndarray bool) :=
  _compute_viewshed_baseline dem observer_rc observer_height_m cell_size_m
    curvature_enabled.

End Radial.

(** ** The mask postprocessor *)

(** Build a [rows] x [cols] array from its elements. *)
Definition tabulate2 {A} (rows cols : nat) (f : Z -> Z -> A) : ndarray A :=
  mk_ndarray [rows; cols] (map (fun rc : Z * Z => f rc.1 rc.2) (cells rows cols)).

(** [mask.astype(np.uint8)] *)
Definition astype_uint8 (mask : ndarray bool) : ndarray Z :=
  mk_ndarray (shape mask) (map (fun b : bool => if b then 1 else 0) (data mask)).

(** [a.astype(bool)] *)
Definition astype_bool (a : ndarray Z) : ndarray bool :=
  mk_ndarray (shape a) (map (fun x => negb (x =? 0)) (data a)).

(** [np.pad(a, 1, mode="constant", constant_values=0)] *)
Definition np_pad (a : ndarray Z) : ndarray Z :=
  let '(rows, cols) := shape2 a in
  tabulate2 (rows + 2) (cols + 2) (fun i j => default 0 (getitem2 a (i - 1) (j - 1))).

(** The slice [padded[dr : dr + rows, dc : dc + cols]] of the padded array,
    where [rows] x [cols] is the shape before padding: [0:-2] is offset 0,
    [1:-1] offset 1 and [2:] offset 2. *)
Definition window (padded : ndarray Z) (dr dc : Z) : ndarray Z :=
  let '(prows, pcols) := shape2 padded in
  tabulate2 (prows - 2) (pcols - 2)
    (fun i j => default 0 (getitem2 padded (i + dr) (j + dc))).

(** Elementwise [+] of two uint8 arrays. *)
Definition uint8_add (a b : ndarray Z) : ndarray Z :=
  mk_ndarray (shape a) (zip_with (fun x y => (x + y) mod 256) (data a) (data b)).

(** [(window_sum >= required).astype(np.uint8)] *)
Definition ge_uint8 (a : ndarray Z) (required : Z) : ndarray Z :=
  mk_ndarray (shape a) (map (fun x => if required <=? x then 1 else 0) (data a)).

Definition smooth_pass (threshold : option Z) (current : ndarray Z) : ndarray Z :=
  let padded := np_pad current in
  let window_sum :=
    uint8_add (uint8_add (uint8_add (uint8_add (uint8_add (uint8_add (uint8_add (uint8_add
      (window padded 0 0)
      (window padded 0 1))
      (window padded 0 2))
      (window padded 1 0))
      (window padded 1 1))
      (window padded 1 2))
      (window padded 2 0))
      (window padded 2 1))
      (window padded 2 2) in
  let required := match threshold with Some t => t | None => 5 end in
  ge_uint8 window_sum required.

Definition smooth_visibility_mask (mask : ndarray bool) (passes : Z)
    (threshold : option Z) : result (ndarray bool) :=
  if negb (ndim mask =? 2)%nat then Raise (ValueError "mask must be a 2D array.")
  else if passes <? 1 then Ok mask
  else
    Ok (astype_bool
          (Nat.iter (Z.to_nat passes) (smooth_pass threshold) (astype_uint8 mask))).

(** ** Python floats as IEEE-754 binary64 *)

Module Binary64.

(** [float(n)] for an [int]: the nearest double, ties to even. *)
Definition of_int64 (n : Z) : float :=
  SF2Prim (binary_normalize prec emax n 0 false).

(** [int(math.floor(x))] for a finite [x]; on NaN and on the infinities
    Python raises, and the value chosen here is not to be read as a result:
    statements about the floor of a coordinate assume the coordinate finite. *)
Definition floor64 (x : float) : Z :=
  match Prim2SF x with
  | S754_finite s m e =>
      let v := if s then Zneg m else Zpos m in
      if 0 <=? e then v * 2 ^ e else Z.shiftr v (- e)
  | _ => 0
  end.

(** [math.hypot] on two doubles: the correctly rounded square root of the sum
    of the squares (the engines pass integer offsets, whose squares add up
    without rounding). *)
Definition hypot64 (x y : float) : float :=
  PrimFloat.sqrt (x * x + y * y)%float.

(** The literal [1e-12]. *)
Definition epsilon64 : float := 0x1.19799812dea11p-40%float.

#[global] Instance binary64 : PyFloat float := {
  of_int := of_int64;
  nan := PrimFloat.nan;
  neg_inf := PrimFloat.neg_infinity;
  epsilon := epsilon64;
  isnan := PrimFloat.is_nan;
  fadd := PrimFloat.add;
  fsub := PrimFloat.sub;
  fmul := PrimFloat.mul;
  fdiv := PrimFloat.div;
  flt := PrimFloat.ltb;
  fle := PrimFloat.leb;
  floor := floor64;
  hypot := hypot64
}.

End Binary64.


(** ** Python floats as exact extended reals

    The same operations without rounding and without overflow: a value is
    NaN, an infinity or a real number. *)

Module Exact.

Inductive xreal : Type :=
| XNaN
| XInf (negative : bool)
| XFin (x : R).

Definition Rltb (x y : R) : bool := if Rlt_dec x y then true else false.
Definition Rleb (x y : R) : bool := if Rle_dec x y then true else false.

Definition xisnan (a : xreal) : bool :=
  match a with XNaN => true | _ => false end.

Definition xopp (a : xreal) : xreal :=
  match a with
  | XNaN => XNaN
  | XInf s => XInf (negb s)
  | XFin x => XFin (- x)
  end.

Definition xadd (a b : xreal) : xreal :=
  match a, b with
  | XNaN, _ | _, XNaN => XNaN
  | XInf s, XInf s' => if Bool.eqb s s' then XInf s else XNaN
  | XInf s, XFin _ => XInf s
  | XFin _, XInf s => XInf s
  | XFin x, XFin y => XFin (x + y)
  end.

Definition xsub (a b : xreal) : xreal := xadd a (xopp b).

Definition xmul (a b : xreal) : xreal :=
  match a, b with
  | XNaN, _ | _, XNaN => XNaN
  | XInf s, XInf s' => XInf (xorb s s')
  | XInf s, XFin x | XFin x, XInf s =>
      if Rltb 0 x then XInf s else if Rltb x 0 then XInf (negb s) else XNaN
  | XFin x, XFin y => XFin (x * y)
  end.

(** Python raises ZeroDivisionError on a zero divisor; the engines divide by
    [steps >= 1] and by [2.0 * EARTH_RADIUS_M] only. *)
Definition xdiv (a b : xreal) : xreal :=
  match a, b with
  | XNaN, _ | _, XNaN => XNaN
  | XInf _, XInf _ => XNaN
  | XInf s, XFin y => if Rltb y 0 then XInf (negb s) else XInf s
  | XFin _, XInf _ => XFin 0
  | XFin x, XFin y => XFin (x / y)
  end.

Definition xlt (a b : xreal) : bool :=
  match a, b with
  | XNaN, _ | _, XNaN => false
  | XInf s, XInf s' => s && negb s'
  | XInf s, XFin _ => s
  | XFin _, XInf s => negb s
  | XFin x, XFin y => Rltb x y
  end.

Definition xle (a b : xreal) : bool :=
  match a, b with
  | XNaN, _ | _, XNaN => false
  | XInf s, XInf s' => s || negb s'
  | XInf s, XFin _ => s
  | XFin _, XInf s => negb s
  | XFin x, XFin y => Rleb x y
  end.

Definition xfloor (a : xreal) : Z :=
  match a with
  | XFin x => Int_part x
  | _ => 0%Z
  end.

Definition xhypot (a b : xreal) : xreal :=
  match a, b with
  | XInf _, _ | _, XInf _ => XInf false
  | XNaN, _ | _, XNaN => XNaN
  | XFin x, XFin y => XFin (sqrt (x * x + y * y))
  end.

(** The angle of the point [(x, y)], in [(-PI, PI]]. *)
Definition Ratan2 (y x : R) : R :=
  if Rlt_dec 0 x then atan (y / x)
  else if Rlt_dec x 0 then
    if Rle_dec 0 y then atan (y / x) + PI else atan (y / x) - PI
  else if Rlt_dec 0 y then PI / 2
  else if Rlt_dec y 0 then - (PI / 2)
  else 0.

Definition signed (negative : bool) (x : R) : R := if negative then - x else x.

Definition xatan2 (a b : xreal) : xreal :=
  match a, b with
  | XNaN, _ | _, XNaN => XNaN
  | XInf s, XInf false => XFin (signed s (PI / 4))
  | XInf s, XInf true => XFin (signed s (3 * PI / 4))
  | XInf s, XFin _ => XFin (signed s (PI / 2))
  | XFin y, XInf false => XFin 0
  | XFin y, XInf true => XFin (if Rlt_dec y 0 then - PI else PI)
  | XFin y, XFin x => XFin (Ratan2 y x)
  end.

#[global] Instance exact : PyFloat xreal := {
  of_int := fun n => XFin (IZR n);
  nan := XNaN;
  neg_inf := XInf true;
  epsilon := XFin (/ IZR (10 ^ 12));
  isnan := xisnan;
  fadd := xadd;
  fsub := xsub;
  fmul := xmul;
  fdiv := xdiv;
  flt := xlt;
  fle := xle;
  floor := xfloor;
  hypot := xhypot
}.

#[global] Instance exact_atan2 : PyAtan2 xreal := {
  atan2 := xatan2
}.

End Exact.

(** ** Observations on masks and on the sweep *)

(** [mask[r, c]] is [True]. *)
Definition visible (mask : ndarray bool) (r c : Z) : Prop :=
  getitem2 mask r c = Some true.

(** A [rows] x [cols] boolean array. *)
Definition is_mask (rows cols : nat) (mask : ndarray bool) : Prop :=
  shape mask = [rows; cols] /\ length (data mask) = (rows * cols)%nat.

(** The mask filled with one value, [np.full((rows, cols), b)]. *)
Definition full (rows cols : nat) (b : bool) : ndarray bool :=
  mk_ndarray [rows; cols] (replicate (rows * cols) b).

Section SweepObservations.
Context {F : Type} {PF : PyFloat F}.

(** The cells the sweep sets, in order: the projection of [sweep] on its writes. *)
Fixpoint marked (entries : list (@entry F)) (max_angle : F) : list (Z * Z) :=
  match entries with
  | [] => []
  | (_, r, c, angle) :: entries' =>
      if fle (fsub max_angle epsilon) angle then
        (r, c) :: (if flt max_angle angle then marked entries' angle
                   else marked entries' max_angle)
      else marked entries' max_angle
  end.

(** The running maximum after the sweep has gone through [entries]: the
    projection of [sweep] on its variable [max_angle]. *)
Fixpoint horizon (entries : list (@entry F)) (max_angle : F) : F :=
  match entries with
  | [] => max_angle
  | (_, r, c, angle) :: entries' =>
      if fle (fsub max_angle epsilon) angle then
        if flt max_angle angle then horizon entries' angle
        else horizon entries' max_angle
      else horizon entries' max_angle
  end.

(** The preconditions both engines check before any per-cell work. *)
Definition valid_input (dem : ndarray F) (observer_rc : Z * Z)
    (observer_height_m cell_size_m : F) : Prop :=
  ndim dem = 2%nat /\
  fle cell_size_m (of_int 0) = false /\
  flt observer_height_m (of_int 0) = false /\
  in_bounds (shape2 dem).1 (shape2 dem).2 observer_rc.1 observer_rc.2 = true /\
  isnan (elevation dem observer_rc.1 observer_rc.2) = false.

End SweepObservations.

(** The order laws of IEEE-754 comparison and of subtracting the tolerance,
    which the sweep relies on: comparison is a total preorder away from NaN,
    and [x - epsilon] is monotone and never above [x]. *)
Class PyFloatOrder (F : Type) {PF : PyFloat F} : Prop := {
  nan_is_nan : isnan nan = true;
  neg_inf_not_nan : isnan neg_inf = false;
  neg_inf_le : forall x, isnan x = false -> fle neg_inf x = true;
  fle_not_nan : forall x y, fle x y = true -> isnan x = false /\ isnan y = false;
  flt_not_nan : forall x y, flt x y = true -> isnan x = false /\ isnan y = false;
  fle_refl : forall x, isnan x = false -> fle x x = true;
  fle_trans : forall x y z, fle x y = true -> fle y z = true -> fle x z = true;
  flt_fle : forall x y, flt x y = true -> fle x y = true;
  fle_total : forall x y,
    isnan x = false -> isnan y = false -> flt x y = false -> fle y x = true;
  sub_epsilon_le : forall x, isnan x = false -> fle (fsub x epsilon) x = true;
  sub_epsilon_mono : forall x y,
    fle x y = true -> fle (fsub x epsilon) (fsub y epsilon) = true
}.

(** Setting a list of cells, one after the other. *)
Definition mark_cells (l : list (Z * Z)) (mask : ndarray bool) : ndarray bool :=
  fold_left (fun m rc => setitem2 m rc.1 rc.2 true) l mask.


Section BaselineObservations.
Context {F : Type} {PF : PyFloat F}.

(** The condition under which the baseline loop sets a cell. *)
Definition baseline_visible (dem : ndarray F) (observer_elevation : F) (obs_r obs_c : Z)
    (cell_size_m : F) (curvature_enabled : bool) (rc : Z * Z) : bool :=
  negb ((rc.1 =? obs_r) && (rc.2 =? obs_c))
  && negb (isnan (elevation dem rc.1 rc.2))
  && _line_of_sight dem observer_elevation (elevation dem rc.1 rc.2)
       (obs_r, obs_c) rc cell_size_m curvature_enabled.

End BaselineObservations.

(** The four failures of an engine call. *)
Definition shape_error : exn := ValueError "DEM must be a 2D array.".
Definition out_of_bounds_error : exn := IndexError "Observer index out of bounds.".
Definition no_data_error : exn := ValueError "Observer elevation is NaN.".
Definition invalid_parameter_error (e : exn) : Prop :=
  e = ValueError "cell_size_m must be positive." \/
  e = ValueError "observer_height_m must be non-negative.".

Section RadialObservations.
Context {F : Type} {PF : PyFloat F} {PA : PyAtan2 F}.

(** What the bucketing loop appends for one cell, and under which key;
    [None] when the cell is skipped. *)
Definition radial_entry (dem : ndarray F) (observer_elevation : F) (obs_r obs_c : Z)
    (cell_size_m : F) (curvature_enabled : bool) (rc : Z * Z)
    : option ((Z * Z) * @entry F) :=
  let '(r, c) := rc in
  if (r =? obs_r) && (c =? obs_c) then None
  else
    let target := elevation dem r c in
    if isnan target then None
    else
      let dr := r - obs_r in
      let dc := c - obs_c in
      let g := Z.gcd (Z.abs dr) (Z.abs dc) in
      if g =? 0 then None
      else
        let direction := (dr / g, dc / g) in
        let distance := fmul (hypot (of_int dr) (of_int dc)) cell_size_m in
        let target_effective :=
          if curvature_enabled && flt (of_int 0) distance
          then fsub target (_curvature_drop distance) else target in
        let angle := atan2 (fsub target_effective observer_elevation) distance in
        Some (direction, (g, r, c, angle)).

(** Every appended entry with its key, in the order of the bucketing loop. *)
Definition radial_entries (dem : ndarray F) (observer_elevation : F) (obs_r obs_c : Z)
    (cell_size_m : F) (curvature_enabled : bool) : list ((Z * Z) * @entry F) :=
  omap (radial_entry dem observer_elevation obs_r obs_c cell_size_m curvature_enabled)
    (cells (shape2 dem).1 (shape2 dem).2).

End RadialObservations.

(** The entries appended under one key, in order. *)
Definition entries_of {F : Type} (d : Z * Z) (des : list ((Z * Z) * @entry F))
    : list (@entry F) :=
  map snd (List.filter (fun de => direction_eqb d de.1) des).

(** The dict built by appending each entry under its key. *)
Definition group {F : Type} (des : list ((Z * Z) * @entry F))
    : list ((Z * Z) * list (@entry F)) :=
  fold_left (fun rays de => setdefault_append rays de.1 de.2) des [].

(** The dict holds, under each key that occurs, the entries appended under it. *)
Definition rays_of {F : Type} (rays : list ((Z * Z) * list (@entry F)))
    (des : list ((Z * Z) * @entry F)) : Prop :=
  NoDup (map fst rays) /\
  forall d es, (d, es) ∈ rays <-> es = entries_of d des /\ es <> [].

(** The cells all the sweeps of the second loop set, ray after ray. *)
Definition radial_marked {F : Type} {PF : PyFloat F}
    (rays : list ((Z * Z) * list (@entry F))) : list (Z * Z) :=
  concat (map (fun ray => marked (sort_entries ray.2) neg_inf) rays).

Section CheckedCall.
Context {F : Type} {PF : PyFloat F}.

(** The outcome of any computation that runs the validator, then checks the
    observer's elevation, then returns a mask. *)
Definition checked_call (dem : ndarray F) (observer_rc : Z * Z) (h cs : F)
    (work : ndarray bool) : result (ndarray bool) :=
  match _validate_inputs dem observer_rc h cs with
  | Raise e => Raise e
  | Ok _ =>
      if isnan (elevation dem observer_rc.1 observer_rc.2) then Raise no_data_error
      else Ok work
  end.

End CheckedCall.

Section EngineMasks.
Context {F : Type} {PF : PyFloat F} {PA : PyAtan2 F}.

(** The mask the baseline loop builds once the checks have passed. *)
Definition baseline_mask (dem : ndarray F) (observer_rc : Z * Z) (h cs : F)
    (curv : bool) : ndarray bool :=
  mark_cells
    (List.filter
       (baseline_visible dem (fadd (elevation dem observer_rc.1 observer_rc.2) h)
          observer_rc.1 observer_rc.2 cs curv)
       (cells (shape2 dem).1 (shape2 dem).2))
    (setitem2 (zeros (shape2 dem).1 (shape2 dem).2) observer_rc.1 observer_rc.2 true).

(** The mask the radial sweeps build once the checks have passed. *)
Definition radial_mask (dem : ndarray F) (observer_rc : Z * Z) (h cs : F)
    (curv : bool) : ndarray bool :=
  mark_cells
    (radial_marked
       (group (radial_entries dem (fadd (elevation dem observer_rc.1 observer_rc.2) h)
                 observer_rc.1 observer_rc.2 cs curv)))
    (setitem2 (zeros (shape2 dem).1 (shape2 dem).2) observer_rc.1 observer_rc.2 true).

End EngineMasks.

(** What the claim on failures says of one call: each failure under its
    condition, the checks in the order of the source, the first failing check
    deciding, and a mask only when every check passes. *)
Definition failure_spec {F : Type} {PF : PyFloat F} (dem : ndarray F)
    (observer_rc : Z * Z) (h cs : F) (res : result (ndarray bool)) : Prop :=
  let inside :=
    in_bounds (shape2 dem).1 (shape2 dem).2 observer_rc.1 observer_rc.2 in
  (res = Raise shape_error <-> ndim dem <> 2%nat) /\
  ((exists e, res = Raise e /\ invalid_parameter_error e) <->
     ndim dem = 2%nat /\ (fle cs (of_int 0) = true \/ flt h (of_int 0) = true)) /\
  (res = Raise out_of_bounds_error <->
     ndim dem = 2%nat /\ fle cs (of_int 0) = false /\ flt h (of_int 0) = false /\
     inside = false) /\
  (res = Raise no_data_error <->
     ndim dem = 2%nat /\ fle cs (of_int 0) = false /\ flt h (of_int 0) = false /\
     inside = true /\ isnan (elevation dem observer_rc.1 observer_rc.2) = true) /\
  ((exists m, res = Ok m) <-> valid_input dem observer_rc h cs) /\
  (forall e, res = Raise e ->
     e = shape_error \/ invalid_parameter_error e \/ e = out_of_bounds_error \/
     e = no_data_error).

(** ** Concrete grids *)

Module Scenarios.
Import Binary64.

(** A stand-in for [math.atan2] where a statement about every
    implementation is instantiated: the slope [y / x]. *)
Definition slope_atan2 : PyAtan2 float := {| atan2 := fun y x => (y / x)%float |}.

(** The literal [1.7]. *)
Definition height_1_7 : float := 0x1.b333333333333p+0%float.

(** [[1, 2], [3, 4]] *)
Definition dem_2x2 : ndarray float := mk_ndarray [2; 2]%nat [1; 2; 3; 4]%float.

(** A transect whose middle cell holds no data: [[0, nan, 0]]. *)
Definition dem_gap : ndarray float :=
  mk_ndarray [1; 3]%nat [0%float; PrimFloat.nan; 0%float].

(** A rank-1 array, [[0, 0, 0]] as [np.array([0., 0., 0.])]. *)
Definition dem_rank1 : ndarray float := mk_ndarray [3]%nat [0; 0; 0]%float.

(** The 5 x 5 flat grid of elevation 0. *)
Definition dem_flat_5x5 : ndarray float :=
  mk_ndarray [5; 5]%nat (replicate 25 0%float).

(** A 3 x 4 grid of uniform elevation [1000.1]. *)
Definition dem_uniform_3x4 : ndarray float :=
  mk_ndarray [3; 4]%nat (replicate 12 0x1.f40cccccccccdp+9%float).

(** The literal [1e-13]. *)
Definition height_1em13 : float := 0x1.c25c268497682p-44%float.

(** A transect with a 5 m bump between observer and target: [[0, 5, 0]]. *)
Definition dem_bump : ndarray float := mk_ndarray [1; 3]%nat [0; 5; 0]%float.


(** A single cell of infinite elevation: [[inf]]. *)
Definition dem_inf : ndarray float := mk_ndarray [1; 1]%nat [PrimFloat.infinity].

(** A transect with an infinite elevation in the middle: [[0, inf, 0]]. *)
Definition dem_inf_transect : ndarray float :=
  mk_ndarray [1; 3]%nat [0%float; PrimFloat.infinity; 0%float].

(** A coarse stand-in for [math.atan2] that only tells below, level and
    above: it returns numbers on numbers and never falls with distance. *)
Definition level_atan2 : PyAtan2 float :=
  {| atan2 := fun y x =>
       if PrimFloat.ltb y 0 then (-1)%float
       else if PrimFloat.ltb 0 y then 1%float else 0%float |}.

(** The same transect [[0, 5, 0]] in exact arithmetic. *)
Definition dem_bump_exact : ndarray Exact.xreal :=
  mk_ndarray [1; 3]%nat [Exact.XFin 0; Exact.XFin 5; Exact.XFin 0].






End Scenarios.


(** The uint8 array of zeros, [np.zeros((rows, cols), dtype=np.uint8)]. *)
Definition zeros_uint8 (rows cols : nat) : ndarray Z :=
  mk_ndarray [rows; cols] (replicate (rows * cols) 0).

(** A [rows] x [cols] uint8 array of zeros and ones. *)
Definition is_uint8_mask (rows cols : nat) (a : ndarray Z) : Prop :=
  shape a = [rows; cols] /\ length (data a) = (rows * cols)%nat /\
  Forall (fun x => 0 <= x <= 1) (data a).

(** [a[r, c]], read as 0 outside the array. *)
Definition item_or_0 (a : ndarray Z) (r c : Z) : Z := default 0 (getitem2 a r c).

(** The update of [max_angle] by one ray member, as the sweep makes it. *)
Definition sweep_step {F : Type} {PF : PyFloat F} (max_angle : F) (e : @entry F) : F :=
  if fle (fsub max_angle epsilon) (entry_angle e) then
    if flt max_angle (entry_angle e) then entry_angle e else max_angle
  else max_angle.

(** A float that is a number: an infinity, a zero or a finite value. *)
Definition SFnum (f : spec_float) : bool :=
  match f with S754_nan => false | _ => true end.

(** ** Rounding of doubles, on integers

    The value of a finite double is an integer multiple of [2 ^ -1074].
    These definitions restate the rounding of [SpecFloat] on such integers. *)

(** Round to nearest, ties to even, of [q + r / p2]. *)
Definition rne_up (q r p2 : Z) : bool :=
  match 2 * r ?= p2 with
  | Lt => false
  | Eq => negb (Z.even q)
  | Gt => true
  end.

(** [m / p2] rounded to the nearest integer, ties to even. *)
Definition rne_quotient (m p2 : Z) : Z :=
  if rne_up (m / p2) (m mod p2) p2 then m / p2 + 1 else m / p2.

(** The last step of [binary_round_aux]: renormalise after a carry, then
    check the exponent. *)
Definition finish (s : bool) (m1 e' : Z) : spec_float :=
  let '(mrs'', e'') := shr_fexp prec emax m1 e' loc_Exact in
  match shr_m mrs'' with
  | Z0 => S754_zero s
  | Zpos m => if e'' <=? emax - prec then S754_finite s m e'' else S754_infinity s
  | Zneg _ => S754_nan
  end.

(** A rounded mantissa and its exponent, after the carry [2 ^ 53]. *)
Definition normal_pair (m1 e : Z) : Z * Z :=
  if m1 =? 2 ^ 53 then (2 ^ 52, e + 1) else (m1, e).

(** The double of a sign, a mantissa and an exponent; an infinity beyond the
    largest exponent. *)
Definition encode (s : bool) (me : Z * Z) : spec_float :=
  match me.1 with
  | Z0 => S754_zero s
  | Zpos m => if me.2 <=? 971 then S754_finite s m me.2 else S754_infinity s
  | Zneg _ => S754_nan
  end.

(** The order of (mantissa, exponent) pairs: by exponent, then mantissa. *)
Definition lex_le (a b : Z * Z) : Prop := a.2 < b.2 \/ (a.2 = b.2 /\ a.1 <= b.1).

(** The mantissa and exponent of the double nearest to [V * 2 ^ -1074], for
    an integer [V > 0]: all but the leading 53 bits are rounded away. *)
Definition round_pair (V : Z) : Z * Z :=
  let k := Z.max (Zdigits2 V - 53) 0 in
  normal_pair (rne_quotient V (2 ^ k)) (k - 1074).

(** The double nearest to [n * 2 ^ -1074], for every integer [n]. *)
Definition RoundZ (n : Z) : spec_float :=
  match n with
  | Z0 => S754_zero false
  | Zpos p => encode false (round_pair (Zpos p))
  | Zneg p => encode true (round_pair (Zpos p))
  end.

(** The value of a finite double, in units of [2 ^ -1074]. *)
Definition IV (f : spec_float) : Z :=
  match f with
  | S754_finite s m e => cond_Zopp s (Zpos m * 2 ^ (e + 1074))
  | _ => 0
  end.

(** A zero or a finite double. *)
Definition SFfinite (f : spec_float) : bool :=
  match f with S754_zero _ | S754_finite _ _ _ => true | _ => false end.

(** A double in [[0, 1]]. *)
Definition SFweight (f : spec_float) : Prop :=
  SpecFloat.valid_binary prec emax f = true /\ SFfinite f = true /\ 0 <= IV f <= 2 ^ 1074.

(** A grid of doubles without infinite elevations. *)
Definition finite_grid64 (dem : ndarray float) : Prop :=
  Forall (fun x => PrimFloat.is_infinity x = false) (data dem).

(** Ascending order of the distance multiplier. *)
Definition g_le {F : Type} (e1 e2 : @entry F) : Prop := entry_g e1 <= entry_g e2.

(** The row (or column) coordinate of the sample the baseline takes at
    [step / steps] of the way from the observer: [obs + d * t]. *)
Definition sample_coordinate {F : Type} {PF : PyFloat F} (obs d steps step : Z) : F :=
  fadd (of_int obs) (fmul (of_int d) (fdiv (of_int step) (of_int steps))).

(** An exact grid whose cells are real numbers or NaN, no infinities. *)
Definition finite_or_nan (a : Exact.xreal) : Prop :=
  match a with Exact.XInf _ => False | _ => True end.

Definition finite_grid (dem : ndarray Exact.xreal) : Prop :=
  Forall finite_or_nan (data dem).

(** The exact grid of one elevation, [np.full((rows, cols), E)]. *)
Definition uniform_grid (rows cols : nat) (E : R) : ndarray Exact.xreal :=
  mk_ndarray [rows; cols] (replicate (rows * cols) (Exact.XFin E)).

(** ** Observations for the cell-by-cell rules *)

Section SampleTest.
Context {F : Type} {PF : PyFloat F}.

(** The test the sample loop makes at one step: the sample holds data and
    the terrain there does not rise above the sight line. *)
Definition sample_clear (dem : ndarray F) (observer_elevation target_effective : F)
    (obs_r obs_c dr dc steps : Z) (total_distance : F) (curvature_enabled : bool)
    (step : Z) : bool :=
  let t := fdiv (of_int step) (of_int steps) in
  let r := fadd (of_int obs_r) (fmul (of_int dr) t) in
  let c := fadd (of_int obs_c) (fmul (of_int dc) t) in
  let terrain := _bilinear_sample dem r c in
  if isnan terrain then false
  else
    let distance := fmul total_distance t in
    let expected :=
      fadd observer_elevation (fmul (fsub target_effective observer_elevation) t) in
    let terrain :=
      if curvature_enabled && flt (of_int 0) distance
      then fsub terrain (_curvature_drop distance) else terrain in
    negb (flt expected terrain).

End SampleTest.

Section SampleCorners.
Context {F : Type} {PF : PyFloat F}.

(** The four cells [_bilinear_sample] reads at [(row, col)]. *)
Definition corners (dem : ndarray F) (row col : F) : list (Z * Z) :=
  let '(rows, cols) := shape2 dem in
  let r0 := floor row in
  let c0 := floor col in
  let r1 := Z.min (r0 + 1) (Z.of_nat rows - 1) in
  let c1 := Z.min (c0 + 1) (Z.of_nat cols - 1) in
  [(r0, c0); (r1, c0); (r0, c1); (r1, c1)].

End SampleCorners.

Section RadialAngles.
Context {F : Type} {PF : PyFloat F} {PA : PyAtan2 F}.

(** The elevation angle the bucketing loop computes for the cell [rc]. *)
Definition cell_angle (dem : ndarray F) (observer_elevation : F) (obs_r obs_c : Z)
    (cell_size_m : F) (curvature_enabled : bool) (rc : Z * Z) : F :=
  let target := elevation dem rc.1 rc.2 in
  let dr := rc.1 - obs_r in
  let dc := rc.2 - obs_c in
  let distance := fmul (hypot (of_int dr) (of_int dc)) cell_size_m in
  let target_effective :=
    if curvature_enabled && flt (of_int 0) distance
    then fsub target (_curvature_drop distance) else target in
  atan2 (fsub target_effective observer_elevation) distance.

End RadialAngles.

(** The cell [k] steps of the direction [d] away from the observer. *)
Definition ray_cell (obs_r obs_c : Z) (d : Z * Z) (k : Z) : Z * Z :=
  (obs_r + k * d.1, obs_c + k * d.2).

(** Strictly ascending order of the distance multiplier. *)
Definition g_lt {F : Type} (e1 e2 : @entry F) : Prop := entry_g e1 < entry_g e2.

(** Two doubles that are the same up to the sign of zero. *)
Definition same_double (a b : spec_float) : Prop :=
  a = b \/ exists s s', a = S754_zero s /\ b = S754_zero s'.

(** The vote of the cell [(r, c)] in the majority filter: 1 when the cell
    lies in the mask and is set, 0 otherwise (the zero padding). *)
Definition vote (mask : ndarray bool) (r c : Z) : Z :=
  match getitem2 mask r c with
  | Some true => 1
  | _ => 0
  end.

(** The votes of the 3 x 3 neighbourhood of [(r, c)]. *)
Definition votes (mask : ndarray bool) (r c : Z) : Z :=
  vote mask (r - 1) (c - 1) + vote mask (r - 1) c + vote mask (r - 1) (c + 1)
  + vote mask r (c - 1) + vote mask r c + vote mask r (c + 1)
  + vote mask (r + 1) (c - 1) + vote mask (r + 1) c + vote mask (r + 1) (c + 1).

(** The same sum on a uint8 array. *)
Definition window_total (a : ndarray Z) (r c : Z) : Z :=
  item_or_0 a (r - 1) (c - 1) + item_or_0 a (r - 1) c + item_or_0 a (r - 1) (c + 1)
  + item_or_0 a r (c - 1) + item_or_0 a r c + item_or_0 a r (c + 1)
  + item_or_0 a (r + 1) (c - 1) + item_or_0 a (r + 1) c + item_or_0 a (r + 1) (c + 1).

(** [threshold if threshold is not None else 5] *)
Definition required_votes (threshold : option Z) : Z :=
  match threshold with Some t => t | None => 5 end.

(** ** Rounding of sums, products, quotients and square roots *)

(** A double that is a number and not negative. *)
Definition SFnonneg (f : spec_float) : bool := SFleb (S754_zero false) f.

(** The mantissa and exponent of the double nearest to [V * 2 ^ -2148], for
    an integer [V > 0]: the product of two doubles is such a value. *)
Definition round_pair2 (V : Z) : Z * Z :=
  let k := Z.max (Zdigits2 V - 53) 1074 in
  normal_pair (rne_quotient V (2 ^ k)) (k - 2148).

(** The double nearest to [n * 2 ^ -2148], for every integer [n]. *)
Definition RoundZ2 (n : Z) : spec_float :=
  match n with
  | Z0 => S754_zero false
  | Zpos p => encode false (round_pair2 (Zpos p))
  | Zneg p => encode true (round_pair2 (Zpos p))
  end.

(** The integer nearest to the square root of [n]. *)
Definition sqrt_nearest (n : Z) : Z :=
  if Z.sqrt n <? n - Z.sqrt n * Z.sqrt n then Z.sqrt n + 1 else Z.sqrt n.

(** The binary64 grid of one elevation, [np.full((rows, cols), E)]. *)
Definition uniform_grid64 (rows cols : nat) (E : float) : ndarray float :=
  mk_ndarray [rows; cols] (replicate (rows * cols) E).

(** ** The engines with their work recorded

    The engines once more, statement by statement, with a record of the work
    they have done when they return or raise: the allocation of the mask
    ([np.zeros]), each iteration of the double loop over the cells, and each
    iteration of the loop over the rays.  The checks themselves touch no cell
    but the observer's ([float(dem[obs_r, obs_c])]). *)

Inductive event : Type :=
| Allocate (rows cols : nat)
| Visit (r c : Z)
| Sweep (direction : Z * Z).

(** A computation that records events and may raise: the events recorded up
    to the return or up to the raise, and the outcome. *)
Definition traced (A : Type) : Type := list event * result A.

#[global] Instance traced_ret : MRet traced := fun A a => ([], Ok a).
#[global] Instance traced_bind : MBind traced := fun A B k m =>
  match m.2 with
  | Ok a => (m.1 ++ (k a).1, (k a).2)
  | Raise e => (m.1, Raise e)
  end.

Definition tick (ev : event) : traced unit := ([ev], Ok tt).
Definition raise {A} (e : exn) : traced A := ([], Raise e).
Definition untraced {A} (res : result A) : traced A := ([], res).

(** [for x in l: s = body(s, x)] *)
Fixpoint for_each {A S : Type} (l : list A) (body : S -> A -> traced S) (s : S)
    : traced S :=
  match l with
  | [] => mret s
  | x :: l' => s' ← body s x; for_each l' body s'
  end.

Section TracedEngines.
Context {F : Type} {PF : PyFloat F} {PA : PyAtan2 F}.

Definition _compute_viewshed_baseline_traced (dem : ndarray F) (observer_rc : Z * Z)
    (observer_height_m cell_size_m : F) (curvature_enabled : bool)
    : traced (ndarray bool) :=
  _ ← untraced (_validate_inputs dem observer_rc observer_height_m cell_size_m);
  let '(rows, cols) := shape2 dem in
  let '(obs_r, obs_c) := observer_rc in
  let observer_ground := elevation dem obs_r obs_c in
  if isnan observer_ground then raise (ValueError "Observer elevation is NaN.")
  else
    let observer_elevation := fadd observer_ground observer_height_m in
    _ ← tick (Allocate rows cols);
    let visibility := setitem2 (zeros rows cols) obs_r obs_c true in
    for_each (cells rows cols)
      (fun visibility rc =>
         _ ← tick (Visit rc.1 rc.2);
         mret (baseline_cell dem observer_elevation obs_r obs_c cell_size_m
                 curvature_enabled visibility rc))
      visibility.

Definition _compute_viewshed_radial_traced (dem : ndarray F) (observer_rc : Z * Z)
    (observer_height_m cell_size_m : F) (curvature_enabled : bool)
    : traced (ndarray bool) :=
  _ ← untraced (_validate_inputs dem observer_rc observer_height_m cell_size_m);
  let '(rows, cols) := shape2 dem in
  let '(obs_r, obs_c) := observer_rc in
  let observer_ground := elevation dem obs_r obs_c in
  if isnan observer_ground then raise (ValueError "Observer elevation is NaN.")
  else
    let observer_elevation := fadd observer_ground observer_height_m in
    _ ← tick (Allocate rows cols);
    let visibility := setitem2 (zeros rows cols) obs_r obs_c true in
    rays ← for_each (cells rows cols)
      (fun rays rc =>
         _ ← tick (Visit rc.1 rc.2);
         mret (radial_cell dem observer_elevation obs_r obs_c cell_size_m
                 curvature_enabled rays rc))
      [];
    for_each rays
      (fun visibility ray => _ ← tick (Sweep ray.1); mret (sweep_ray visibility ray))
      visibility.

(** The work of a call that passes every check. *)
Definition baseline_work (dem : ndarray F) : list event :=
  Allocate (shape2 dem).1 (shape2 dem).2
  :: map (fun rc => Visit rc.1 rc.2) (cells (shape2 dem).1 (shape2 dem).2).

Definition radial_work (dem : ndarray F) (observer_rc : Z * Z)
    (observer_height_m cell_size_m : F) (curvature_enabled : bool) : list event :=
  baseline_work dem
  ++ map (fun ray : (Z * Z) * list entry => Sweep ray.1)
       (radial_rays dem
          (fadd (elevation dem observer_rc.1 observer_rc.2) observer_height_m)
          observer_rc.1 observer_rc.2 cell_size_m curvature_enabled).

(** What the claim on failures says of the work of one call: the recorded
    computation has the outcome [res]; when it raises, nothing has been
    recorded (no mask allocated, no cell visited, no ray swept); when it
    returns, [work] has been. *)
Definition fail_fast_spec (run : traced (ndarray bool)) (res : result (ndarray bool))
    (work : list event) : Prop :=
  run.2 = res /\
  (forall e, res = Raise e -> run.1 = []) /\
  (forall m, res = Ok m -> run.1 = work).

End TracedEngines.

(** * Properties *)

(** ** Ranges and cells *)

Lemma elem_of_range (n : nat) (z : Z) : z ∈ range n <-> 0 <= z < Z.of_nat n.
Proof.
  unfold range. rewrite list_elem_of_fmap. split.
  - intros (k & -> & Hk). apply elem_of_seq in Hk. lia.
  - intros Hz. exists (Z.to_nat z). split; [lia|]. apply elem_of_seq. lia.
Qed.

Lemma in_bounds_spec (rows cols : nat) (r c : Z) :
  in_bounds rows cols r c = true <->
  0 <= r < Z.of_nat rows /\ 0 <= c < Z.of_nat cols.
Proof.
  unfold in_bounds. rewrite !andb_true_iff, !Z.leb_le, !Z.ltb_lt. lia.
Qed.

Lemma elem_of_cells (rows cols : nat) (r c : Z) :
  (r, c) ∈ cells rows cols <-> in_bounds rows cols r c = true.
Proof.
  rewrite in_bounds_spec. unfold cells. rewrite list_elem_of_bind. split.
  - intros (r' & Hin & Hr). apply list_elem_of_bind in Hin as (c' & Hin & Hc).
    apply list_elem_of_singleton in Hin. injection Hin as -> ->.
    apply elem_of_range in Hr, Hc. lia.
  - intros H. exists r. split.
    + apply list_elem_of_bind. exists c. split; [by apply list_elem_of_singleton|].
      apply elem_of_range. lia.
    + apply elem_of_range. lia.
Qed.

Lemma range_S (n : nat) : range (S n) = range n ++ [Z.of_nat n].
Proof. unfold range. rewrite seq_S, map_app. reflexivity. Qed.

Lemma length_range (n : nat) : length (range n) = n.
Proof. unfold range. rewrite length_map, length_seq. reflexivity. Qed.

Lemma lookup_range (n k : nat) : (k < n)%nat -> range n !! k = Some (Z.of_nat k).
Proof.
  intros H. unfold range. rewrite list_lookup_fmap, lookup_seq_lt by done. reflexivity.
Qed.

Lemma cells_S (rows cols : nat) :
  cells (S rows) cols = cells rows cols ++ map (fun c => (Z.of_nat rows, c)) (range cols).
Proof.
  unfold cells. rewrite range_S, bind_app. f_equal. simpl. rewrite app_nil_r.
  induction (range cols) as [|c l IH]; simpl; [reflexivity|]. by f_equal.
Qed.

Lemma length_cells (rows cols : nat) : length (cells rows cols) = (rows * cols)%nat.
Proof.
  induction rows as [|rows IH]; [reflexivity|].
  rewrite cells_S, length_app, length_map, length_range, IH. lia.
Qed.

Lemma flat_index_lt (rows cols : nat) (r c : Z) :
  in_bounds rows cols r c = true -> (flat_index cols r c < rows * cols)%nat.
Proof. rewrite in_bounds_spec. unfold flat_index. intros H. nia. Qed.

Lemma flat_index_inj (rows cols : nat) (r c r' c' : Z) :
  in_bounds rows cols r c = true -> in_bounds rows cols r' c' = true ->
  flat_index cols r c = flat_index cols r' c' -> r = r' /\ c = c'.
Proof.
  rewrite !in_bounds_spec. unfold flat_index. intros H H' Heq.
  assert (r * Z.of_nat cols + c = r' * Z.of_nat cols + c') as E by nia.
  assert (r = r') as ->.
  { destruct (Z.lt_trichotomy r r') as [Hlt|[?|Hlt]]; [exfalso| done |exfalso].
    - assert (1 * Z.of_nat cols <= (r' - r) * Z.of_nat cols)
        by (apply Z.mul_le_mono_nonneg_r; lia). lia.
    - assert (1 * Z.of_nat cols <= (r - r') * Z.of_nat cols)
        by (apply Z.mul_le_mono_nonneg_r; lia). lia. }
  split; [done|]. lia.
Qed.

Lemma lookup_cells (rows cols : nat) (r c : Z) :
  in_bounds rows cols r c = true ->
  cells rows cols !! flat_index cols r c = Some (r, c).
Proof.
  induction rows as [|rows IH]; intros H.
  - apply in_bounds_spec in H. lia.
  - rewrite cells_S. destruct (decide (r = Z.of_nat rows)) as [->|Hne].
    + apply in_bounds_spec in H.
      rewrite lookup_app_r; rewrite length_cells; [|unfold flat_index; nia].
      rewrite list_lookup_fmap.
      replace (flat_index cols (Z.of_nat rows) c - rows * cols)%nat with (Z.to_nat c)
        by (unfold flat_index; nia).
      rewrite lookup_range by lia.
      simpl. do 2 f_equal. lia.
    + assert (in_bounds rows cols r c = true) as H'
        by (apply in_bounds_spec; apply in_bounds_spec in H; lia).
      rewrite lookup_app_l by (rewrite length_cells; eapply flat_index_lt; done).
      apply IH, H'.
Qed.

(** ** Masks *)

Lemma shape2_mask (rows cols : nat) (m : ndarray bool) :
  is_mask rows cols m -> shape2 m = (rows, cols).
Proof. intros [Hs _]. unfold shape2. rewrite Hs. reflexivity. Qed.

Lemma is_mask_zeros (rows cols : nat) : is_mask rows cols (zeros rows cols).
Proof. split; [reflexivity|]. simpl. apply length_replicate. Qed.

Lemma is_mask_full (rows cols : nat) (b : bool) : is_mask rows cols (full rows cols b).
Proof. split; [reflexivity|]. simpl. apply length_replicate. Qed.

Lemma is_mask_setitem2 (rows cols : nat) (m : ndarray bool) (r c : Z) (v : bool) :
  is_mask rows cols m -> is_mask rows cols (setitem2 m r c v).
Proof.
  intros Hm. unfold setitem2. rewrite (shape2_mask _ _ _ Hm).
  destruct (in_bounds rows cols r c); [|exact Hm].
  destruct Hm as [Hs Hl]. split; simpl; [exact Hs|]. rewrite length_insert. exact Hl.
Qed.

Lemma getitem2_setitem2 (rows cols : nat) (m : ndarray bool) (r c r' c' : Z) (v : bool) :
  is_mask rows cols m ->
  getitem2 (setitem2 m r c v) r' c' =
    if decide (in_bounds rows cols r c = true /\ r' = r /\ c' = c) then Some v
    else getitem2 m r' c'.
Proof.
  intros Hm. pose proof (is_mask_setitem2 _ _ _ r c v Hm) as Hm'.
  unfold getitem2. rewrite (shape2_mask _ _ _ Hm), (shape2_mask _ _ _ Hm').
  unfold setitem2. rewrite (shape2_mask _ _ _ Hm).
  destruct (in_bounds rows cols r c) eqn:Hrc.
  - simpl. destruct (in_bounds rows cols r' c') eqn:Hrc'.
    + destruct (decide (flat_index cols r' c' = flat_index cols r c)) as [E|E].
      * destruct (flat_index_inj _ _ _ _ _ _ Hrc' Hrc E) as [-> ->].
        rewrite decide_True by done.
        apply list_lookup_insert_eq. destruct Hm as [_ ->]. eapply flat_index_lt, Hrc.
      * rewrite decide_False by (intros (_ & -> & ->); done).
        apply list_lookup_insert_ne. congruence.
    + rewrite decide_False; [done|]. intros (_ & -> & ->). congruence.
  - rewrite decide_False by (intros (? & _); done). reflexivity.
Qed.

Lemma visible_setitem2 (rows cols : nat) (m : ndarray bool) (r c r' c' : Z) :
  is_mask rows cols m ->
  visible (setitem2 m r c true) r' c' <->
  (in_bounds rows cols r c = true /\ r' = r /\ c' = c) \/ visible m r' c'.
Proof.
  intros Hm. unfold visible. rewrite (getitem2_setitem2 _ _ _ _ _ _ _ _ Hm).
  destruct (decide _) as [H|H]; [tauto|]. tauto.
Qed.

Lemma getitem2_in_bounds {A} (a : ndarray A) (r c : Z) (v : A) :
  getitem2 a r c = Some v -> in_bounds (shape2 a).1 (shape2 a).2 r c = true.
Proof.
  unfold getitem2. destruct (shape2 a) as [rows cols]. simpl.
  destruct (in_bounds rows cols r c); [done|discriminate].
Qed.

Lemma visible_in_bounds (rows cols : nat) (m : ndarray bool) (r c : Z) :
  is_mask rows cols m -> visible m r c -> in_bounds rows cols r c = true.
Proof.
  intros Hm Hv. apply getitem2_in_bounds in Hv. by rewrite (shape2_mask _ _ _ Hm) in Hv.
Qed.

Lemma getitem2_full (rows cols : nat) (b : bool) (r c : Z) :
  in_bounds rows cols r c = true -> getitem2 (full rows cols b) r c = Some b.
Proof.
  intros H. unfold getitem2. simpl. rewrite H.
  apply lookup_replicate. split; [done|]. eapply flat_index_lt, H.
Qed.

Lemma not_visible_zeros (rows cols : nat) (r c : Z) : ~ visible (zeros rows cols) r c.
Proof.
  unfold visible. intros H. pose proof (getitem2_in_bounds _ _ _ _ H) as Hb. simpl in Hb.
  change (zeros rows cols) with (full rows cols false) in H.
  rewrite getitem2_full in H by done. discriminate.
Qed.

Lemma is_mask_mark_cells (rows cols : nat) (l : list (Z * Z)) (m : ndarray bool) :
  is_mask rows cols m -> is_mask rows cols (mark_cells l m).
Proof.
  revert m. induction l as [|rc l IH]; intros m Hm; [exact Hm|].
  simpl. apply IH, is_mask_setitem2, Hm.
Qed.

Lemma visible_mark_cells (rows cols : nat) (l : list (Z * Z)) (m : ndarray bool) (r c : Z) :
  is_mask rows cols m ->
  visible (mark_cells l m) r c <->
  visible m r c \/ ((r, c) ∈ l /\ in_bounds rows cols r c = true).
Proof.
  revert m. induction l as [|[r0 c0] l IH]; intros m Hm; simpl.
  - split; [tauto|]. intros [H|[H _]]; [done|]. by apply elem_of_nil in H.
  - unfold mark_cells in IH. rewrite IH by (apply is_mask_setitem2, Hm).
    rewrite (visible_setitem2 _ _ _ _ _ _ _ Hm). simpl. rewrite elem_of_cons. split.
    + intros [[(Hb & -> & ->)|H]|[H Hb]]; [right|left|right]; auto.
    + intros [H|[[H|H] Hb]]; [tauto| |tauto].
      injection H as -> ->. tauto.
Qed.

Lemma mark_cells_app (l1 l2 : list (Z * Z)) (m : ndarray bool) :
  mark_cells (l1 ++ l2) m = mark_cells l2 (mark_cells l1 m).
Proof. unfold mark_cells. apply fold_left_app. Qed.

(** ** The validator and the shape of an engine call *)

Section EngineShape.
Context {F : Type} {PF : PyFloat F}.

Lemma shape_of_ndim2 {A} (a : ndarray A) :
  ndim a = 2%nat -> shape a = [(shape2 a).1; (shape2 a).2].
Proof.
  unfold ndim, shape2. destruct (shape a) as [|x [|y [|z l]]]; simpl; try discriminate.
  reflexivity.
Qed.


(** What an engine call does before any per-cell work: the validator, then
    the check of the observer's own elevation. *)
Lemma validate_inputs_cases (dem : ndarray F) (observer_rc : Z * Z) (h cs : F) :
  (ndim dem <> 2%nat /\ _validate_inputs dem observer_rc h cs = Raise shape_error) \/
  (ndim dem = 2%nat /\ fle cs (of_int 0) = true /\
   _validate_inputs dem observer_rc h cs = Raise (ValueError "cell_size_m must be positive.")) \/
  (ndim dem = 2%nat /\ fle cs (of_int 0) = false /\ flt h (of_int 0) = true /\
   _validate_inputs dem observer_rc h cs
     = Raise (ValueError "observer_height_m must be non-negative.")) \/
  (ndim dem = 2%nat /\ fle cs (of_int 0) = false /\ flt h (of_int 0) = false /\
   in_bounds (shape2 dem).1 (shape2 dem).2 observer_rc.1 observer_rc.2 = false /\
   _validate_inputs dem observer_rc h cs = Raise out_of_bounds_error) \/
  (ndim dem = 2%nat /\ fle cs (of_int 0) = false /\ flt h (of_int 0) = false /\
   in_bounds (shape2 dem).1 (shape2 dem).2 observer_rc.1 observer_rc.2 = true /\
   _validate_inputs dem observer_rc h cs = Ok tt).
Proof.
  unfold _validate_inputs, in_bounds. destruct observer_rc as [obs_r obs_c].
  destruct (shape2 dem) as [rows cols]. simpl.
  destruct (Nat.eqb_spec (ndim dem) 2); simpl; [|left; done].
  destruct (fle cs (of_int 0)); [right; left; done|].
  destruct (flt h (of_int 0)); [right; right; left; done|].
  rewrite andb_assoc.
  destruct ((0 <=? obs_r) && (obs_r <? Z.of_nat rows) && (0 <=? obs_c)
            && (obs_c <? Z.of_nat cols)); simpl.
  - do 4 right. done.
  - do 3 right. left. done.
Qed.

Lemma baseline_cell_mark (dem : ndarray F) (oe : F) (obs_r obs_c : Z) (cs : F)
    (curv : bool) (m : ndarray bool) (rc : Z * Z) :
  baseline_cell dem oe obs_r obs_c cs curv m rc =
    if baseline_visible dem oe obs_r obs_c cs curv rc then setitem2 m rc.1 rc.2 true else m.
Proof.
  unfold baseline_cell, baseline_visible. destruct rc as [r c]. simpl.
  destruct ((r =? obs_r) && (c =? obs_c)); simpl; [reflexivity|].
  destruct (isnan (elevation dem r c)); simpl; reflexivity.
Qed.

Lemma baseline_fold_mark (dem : ndarray F) (oe : F) (obs_r obs_c : Z) (cs : F)
    (curv : bool) (l : list (Z * Z)) (m : ndarray bool) :
  fold_left (baseline_cell dem oe obs_r obs_c cs curv) l m =
    mark_cells (List.filter (baseline_visible dem oe obs_r obs_c cs curv) l) m.
Proof.
  revert m. induction l as [|rc l IH]; intros m; simpl; [reflexivity|].
  rewrite IH, baseline_cell_mark.
  destruct (baseline_visible dem oe obs_r obs_c cs curv rc); reflexivity.
Qed.

(** The baseline engine, unfolded: the four checks, then the per-cell loop. *)
Lemma baseline_unfold (dem : ndarray F) (observer_rc : Z * Z) (h cs : F) (curv : bool) :
  _compute_viewshed_baseline dem observer_rc h cs curv =
    match _validate_inputs dem observer_rc h cs with
    | Raise e => Raise e
    | Ok _ =>
        if isnan (elevation dem observer_rc.1 observer_rc.2) then Raise no_data_error
        else
          Ok (mark_cells
                (List.filter
                   (baseline_visible dem
                      (fadd (elevation dem observer_rc.1 observer_rc.2) h)
                      observer_rc.1 observer_rc.2 cs curv)
                   (cells (shape2 dem).1 (shape2 dem).2))
                (setitem2 (zeros (shape2 dem).1 (shape2 dem).2)
                   observer_rc.1 observer_rc.2 true))
    end.
Proof.
  unfold _compute_viewshed_baseline. destruct (_validate_inputs dem observer_rc h cs); simpl;
    [|reflexivity].
  destruct (shape2 dem) as [rows cols], observer_rc as [obs_r obs_c]. simpl.
  destruct (isnan (elevation dem obs_r obs_c)); [reflexivity|].
  rewrite baseline_fold_mark. reflexivity.
Qed.

End EngineShape.

(** ** The ray dictionary *)

Lemma direction_eqb_eq (d1 d2 : Z * Z) : direction_eqb d1 d2 = true <-> d1 = d2.
Proof.
  unfold direction_eqb. destruct d1, d2. simpl.
  rewrite andb_true_iff, !Z.eqb_eq. split; [intros [-> ->]; done|].
  intros H. injection H as -> ->. done.
Qed.

Lemma direction_eqb_refl (d : Z * Z) : direction_eqb d d = true.
Proof. by apply direction_eqb_eq. Qed.

Lemma direction_eqb_neq (d1 d2 : Z * Z) : d1 <> d2 -> direction_eqb d1 d2 = false.
Proof.
  intros H. destruct (direction_eqb d1 d2) eqn:E; [|done].
  by apply direction_eqb_eq in E.
Qed.

Section Grouping.
Context {F : Type}.
Implicit Types (rays : list ((Z * Z) * list (@entry F))) (e : @entry F) (d : Z * Z).
Implicit Types (des : list ((Z * Z) * @entry F)).

Lemma entries_of_snoc d des d' e :
  entries_of d (des ++ [(d', e)]) =
    entries_of d des ++ (if direction_eqb d d' then [e] else []).
Proof.
  unfold entries_of. rewrite List.filter_app, List.map_app. simpl.
  destruct (direction_eqb d d'); reflexivity.
Qed.

Lemma setdefault_append_keys rays d e :
  map fst (setdefault_append rays d e) =
    if decide (d ∈ map fst rays) then map fst rays else map fst rays ++ [d].
Proof.
  induction rays as [|[d0 es0] rays IH].
  - destruct (decide _) as [H|H]; [by apply elem_of_nil in H|done].
  - cbn [setdefault_append]. destruct (direction_eqb d0 d) eqn:E.
    + apply direction_eqb_eq in E as ->. clear IH.
      destruct (decide _) as [H|H]; [done|]. exfalso. apply H. simpl. apply elem_of_cons. by left.
    + cbn [map fst]. rewrite IH. clear IH.
      destruct (decide (d ∈ map fst rays)) as [Hin|Hin];
        destruct (decide _) as [H|H]; try done.
      * exfalso. apply H. apply elem_of_cons. by right.
      * exfalso. apply elem_of_cons in H as [->|H]; [|done].
        by rewrite direction_eqb_refl in E.
Qed.

Lemma setdefault_append_spec rays d e d' es' :
  NoDup (map fst rays) ->
  (d', es') ∈ setdefault_append rays d e <->
  (d' <> d /\ (d', es') ∈ rays) \/
  (d' = d /\ ((exists es, (d, es) ∈ rays /\ es' = es ++ [e]) \/
              ((d ∉ map fst rays) /\ es' = [e]))).
Proof.
  induction rays as [|[d0 es0] rays IH]; intros Hnd; simpl.
  - rewrite list_elem_of_singleton. split.
    + intros H. injection H as -> ->. right. split; [done|]. right.
      split; [apply not_elem_of_nil|done].
    + intros [[_ H]|[-> [(es & H & _)|[_ ->]]]]; [by apply elem_of_nil in H| |done].
      by apply elem_of_nil in H.
  - apply NoDup_cons in Hnd as [Hd0 Hnd]. specialize (IH Hnd).
    destruct (direction_eqb d0 d) eqn:E.
    + apply direction_eqb_eq in E as ->. rewrite elem_of_cons. split.
      * intros [H|H].
        -- injection H as -> ->. right. split; [done|]. left. exists es0.
           split; [apply elem_of_cons; by left|done].
        -- left. split; [|apply elem_of_cons; by right].
           intros ->. apply Hd0. apply list_elem_of_fmap. exists (d, es'). done.
      * intros [[Hne H]|[-> [(es & H & ->)|[H _]]]].
        -- apply elem_of_cons in H as [H|H]; [congruence|by right].
        -- apply elem_of_cons in H as [H|H]; [injection H as ->; by left|].
           exfalso. apply Hd0. apply list_elem_of_fmap. exists (d, es). done.
        -- exfalso. apply H. apply elem_of_cons. by left.
    + assert (d0 <> d) as Hne by (intros ->; by rewrite direction_eqb_refl in E).
      rewrite elem_of_cons, IH. split.
      * intros [H|[[Hne' H]|[-> [(es & H & ->)|[H ->]]]]].
        -- injection H as -> ->. left. split; [done|]. apply elem_of_cons. by left.
        -- left. split; [done|]. apply elem_of_cons. by right.
        -- right. split; [done|]. left. exists es. split; [|done].
           apply elem_of_cons. by right.
        -- right. split; [done|]. right. split; [|done].
           rewrite elem_of_cons. intros [?|?]; [congruence|done].
      * intros [[Hne' H]|[-> [(es & H & ->)|[H ->]]]].
        -- apply elem_of_cons in H as [H|H]; [by left|]. right. left. done.
        -- apply elem_of_cons in H as [H|H]; [congruence|].
           right. right. split; [done|]. left. by exists es.
        -- right. right. split; [done|]. right. split; [|done].
           intros Hin. apply H. apply elem_of_cons. by right.
Qed.

Lemma rays_of_step rays des d e :
  rays_of rays des -> rays_of (setdefault_append rays d e) (des ++ [(d, e)]).
Proof.
  intros [Hnd Hspec]. split.
  - rewrite setdefault_append_keys. destruct (decide _) as [Hin|Hin]; [done|].
    apply NoDup_app. split; [done|]. split; [|apply NoDup_singleton].
    intros x Hx Hx'. apply list_elem_of_singleton in Hx' as ->. done.
  - intros d' es'. rewrite setdefault_append_spec by done. rewrite entries_of_snoc. split.
    + intros [[Hne H]|[-> [(es & H & ->)|[H ->]]]].
      * apply Hspec in H as [-> Hnil]. rewrite direction_eqb_neq by done.
        rewrite app_nil_r. done.
      * apply Hspec in H as [-> Hnil]. rewrite direction_eqb_refl.
        split; [done|]. by destruct (entries_of d des).
      * rewrite direction_eqb_refl. split; [|done].
        destruct (entries_of d des) as [|x l] eqn:E; [done|]. exfalso. apply H.
        apply list_elem_of_fmap. exists (d, x :: l). split; [done|].
        apply Hspec. rewrite E. done.
    + intros [-> Hnil]. destruct (decide (d' = d)) as [->|Hne].
      * right. split; [done|]. rewrite direction_eqb_refl.
        destruct (entries_of d des) as [|x l] eqn:E.
        -- right. split; [|done]. intros Hin. apply list_elem_of_fmap in Hin as ([d0 es0] & -> & Hin).
           simpl in E. apply Hspec in Hin as [-> Hn]. by rewrite E in Hn.
        -- left. exists (x :: l). split; [|done]. apply Hspec. rewrite E. done.
      * left. split; [done|]. rewrite direction_eqb_neq in Hnil |- * by done.
        rewrite app_nil_r in Hnil |- *. apply Hspec. done.
Qed.

Lemma rays_of_fold des : forall rays done,
  rays_of rays done ->
  rays_of (fold_left (fun rays de => setdefault_append rays de.1 de.2) des rays)
          (done ++ des).
Proof.
  induction des as [|[d e] des IH]; intros rays done H; simpl.
  - by rewrite app_nil_r.
  - replace (done ++ (d, e) :: des) with ((done ++ [(d, e)]) ++ des)
      by (rewrite <- app_assoc; done).
    apply IH, rays_of_step, H.
Qed.

Lemma rays_of_group des : rays_of (group des) des.
Proof.
  apply (rays_of_fold des [] []). split; [apply NoDup_nil_2|].
  intros d es. split; [intros H; by apply elem_of_nil in H|].
  intros [-> H]. done.
Qed.

End Grouping.

(** ** The radial engine as bucketing, sorting and sweeping *)

Section RadialShape.
Context {F : Type} {PF : PyFloat F} {PA : PyAtan2 F}.
Implicit Types (e : @entry F) (es : list (@entry F)).

Lemma radial_cell_entry (dem : ndarray F) (oe : F) (obs_r obs_c : Z) (cs : F)
    (curv : bool) (rays : list ((Z * Z) * list (@entry F))) (rc : Z * Z) :
  radial_cell dem oe obs_r obs_c cs curv rays rc =
    match radial_entry dem oe obs_r obs_c cs curv rc with
    | Some de => setdefault_append rays de.1 de.2
    | None => rays
    end.
Proof.
  unfold radial_cell, radial_entry. destruct rc as [r c].
  destruct ((r =? obs_r) && (c =? obs_c)); [reflexivity|].
  destruct (isnan (elevation dem r c)); [reflexivity|].
  destruct (Z.gcd (Z.abs (r - obs_r)) (Z.abs (c - obs_c)) =? 0); reflexivity.
Qed.

Lemma radial_fold_group (dem : ndarray F) (oe : F) (obs_r obs_c : Z) (cs : F)
    (curv : bool) (l : list (Z * Z)) (rays : list ((Z * Z) * list (@entry F))) :
  fold_left (radial_cell dem oe obs_r obs_c cs curv) l rays =
    fold_left (fun rays de => setdefault_append rays de.1 de.2)
      (omap (radial_entry dem oe obs_r obs_c cs curv) l) rays.
Proof.
  revert rays. induction l as [|rc l IH]; intros rays; [reflexivity|].
  cbn [fold_left omap list_omap]. rewrite IH, radial_cell_entry.
  destruct (radial_entry dem oe obs_r obs_c cs curv rc); reflexivity.
Qed.

Lemma radial_rays_group (dem : ndarray F) (oe : F) (obs_r obs_c : Z) (cs : F)
    (curv : bool) :
  radial_rays dem oe obs_r obs_c cs curv = group (radial_entries dem oe obs_r obs_c cs curv).
Proof.
  unfold radial_rays, radial_entries, group. destruct (shape2 dem) as [rows cols].
  apply radial_fold_group.
Qed.

Lemma sweep_marked es (M : F) (m : ndarray bool) :
  sweep es M m = mark_cells (marked es M) m.
Proof.
  revert M m. induction es as [|[[[g r] c] a] es IH]; intros M m; [reflexivity|].
  cbn [sweep marked]. destruct (fle (fsub M epsilon) a); [|apply IH].
  destruct (flt M a); cbn [mark_cells fold_left]; apply IH.
Qed.

Lemma sweep_rays_marked (rays : list ((Z * Z) * list (@entry F))) (m : ndarray bool) :
  fold_left sweep_ray rays m = mark_cells (radial_marked rays) m.
Proof.
  revert m. induction rays as [|ray rays IH]; intros m; [reflexivity|].
  cbn [fold_left]. rewrite IH. unfold radial_marked. cbn [map concat].
  rewrite mark_cells_app. unfold sweep_ray. rewrite sweep_marked. reflexivity.
Qed.

(** The radial engine, unfolded: the four checks, then bucketing and sweeps. *)
Lemma radial_unfold (dem : ndarray F) (observer_rc : Z * Z) (h cs : F) (curv : bool) :
  _compute_viewshed_radial dem observer_rc h cs curv =
    match _validate_inputs dem observer_rc h cs with
    | Raise e => Raise e
    | Ok _ =>
        if isnan (elevation dem observer_rc.1 observer_rc.2) then Raise no_data_error
        else
          Ok (mark_cells
                (radial_marked
                   (group (radial_entries dem
                             (fadd (elevation dem observer_rc.1 observer_rc.2) h)
                             observer_rc.1 observer_rc.2 cs curv)))
                (setitem2 (zeros (shape2 dem).1 (shape2 dem).2)
                   observer_rc.1 observer_rc.2 true))
    end.
Proof.
  unfold _compute_viewshed_radial. destruct (_validate_inputs dem observer_rc h cs); simpl;
    [|reflexivity].
  rewrite <- radial_rays_group.
  destruct (shape2 dem) as [rows cols], observer_rc as [obs_r obs_c]. simpl.
  destruct (isnan (elevation dem obs_r obs_c)); [reflexivity|].
  rewrite sweep_rays_marked. reflexivity.
Qed.

Lemma marked_subset es (M : F) (rc : Z * Z) :
  rc ∈ marked es M -> rc ∈ map entry_cell es.
Proof.
  revert M. induction es as [|[[[g r] c] a] es IH]; intros M; cbn [marked map].
  - done.
  - destruct (fle (fsub M epsilon) a).
    + rewrite elem_of_cons. intros [->|H]; [apply elem_of_cons; by left|].
      apply elem_of_cons. right. destruct (flt M a); eapply IH, H.
    + intros H. apply elem_of_cons. right. eapply IH, H.
Qed.

End RadialShape.

(** ** The stable sort on the distance multiplier *)

Section Sorting.
Context {F : Type}.
Implicit Types (e : @entry F) (es : list (@entry F)).

Lemma insert_entry_perm e es : Permutation (insert_entry e es) (e :: es).
Proof.
  induction es as [|x es IH]; cbn [insert_entry]; [done|].
  destruct (entry_g e <=? entry_g x); [done|].
  rewrite IH. apply perm_swap.
Qed.

Lemma sort_entries_perm es : Permutation (sort_entries es) es.
Proof.
  induction es as [|e es IH]; [done|].
  cbn [sort_entries foldr]. fold (sort_entries es).
  rewrite insert_entry_perm. by constructor.
Qed.

Lemma insert_entry_sorted e es :
  StronglySorted g_le es -> StronglySorted g_le (insert_entry e es).
Proof.
  induction es as [|x es IH]; intros Hs; cbn [insert_entry].
  - repeat constructor.
  - apply StronglySorted_inv in Hs as [Hs Hx].
    destruct (Z.leb_spec (entry_g e) (entry_g x)) as [Hle|Hlt].
    + constructor; [by constructor|]. constructor; [done|].
      eapply Forall_impl; [exact Hx|]. unfold g_le. simpl. intros; lia.
    + constructor; [by apply IH|].
      rewrite insert_entry_perm.
      constructor; [unfold g_le; lia|done].
Qed.

Lemma sort_entries_sorted es : StronglySorted g_le (sort_entries es).
Proof.
  induction es as [|e es IH]; [constructor|].
  cbn [sort_entries foldr]. by apply insert_entry_sorted.
Qed.

Lemma insert_entry_least e es : Forall (g_le e) es -> insert_entry e es = e :: es.
Proof.
  destruct es as [|x es]; [reflexivity|]. intros H. apply Forall_cons in H as [H _].
  cbn [insert_entry]. destruct (Z.leb_spec (entry_g e) (entry_g x)); [reflexivity|].
  unfold g_le in H. lia.
Qed.

(** The sort is stable, so it commutes with dropping entries. *)
Lemma insert_entry_filter (p : @entry F -> bool) e es :
  StronglySorted g_le es ->
  List.filter p (insert_entry e es) =
    if p e then insert_entry e (List.filter p es) else List.filter p es.
Proof.
  induction es as [|x es IH]; intros Hs; cbn [insert_entry List.filter].
  - destruct (p e); reflexivity.
  - apply StronglySorted_inv in Hs as [Hs Hx]. specialize (IH Hs).
    destruct (Z.leb_spec (entry_g e) (entry_g x)) as [Hle|Hlt]; cbn [List.filter].
    + destruct (p e) eqn:Hpe; [|reflexivity].
      symmetry. apply insert_entry_least.
      assert (Forall (g_le e) (x :: es)) as Hall.
      { constructor; [done|]. eapply Forall_impl; [exact Hx|]. unfold g_le. intros; lia. }
      change (Forall (g_le e) (List.filter p (x :: es))).
      apply Forall_forall. intros y Hy. apply list_elem_of_In, filter_In in Hy as [Hy _].
      eapply Forall_forall in Hall; [exact Hall|]. by apply list_elem_of_In.
    + rewrite IH. destruct (p e), (p x); cbn [insert_entry]; try reflexivity.
      destruct (Z.leb_spec (entry_g e) (entry_g x)); [lia|reflexivity].
Qed.

Lemma sort_entries_filter (p : @entry F -> bool) es :
  sort_entries (List.filter p es) = List.filter p (sort_entries es).
Proof.
  induction es as [|e es IH]; [reflexivity|].
  cbn [sort_entries foldr List.filter]. fold (sort_entries es).
  rewrite insert_entry_filter by apply sort_entries_sorted.
  destruct (p e); [|exact IH].
  cbn [sort_entries foldr]. fold (sort_entries (List.filter p es)). by rewrite IH.
Qed.

End Sorting.

(** ** Failures of an engine call *)

Section Failures.
Context {F : Type} {PF : PyFloat F}.

Lemma checked_call_outcome (dem : ndarray F) (observer_rc : Z * Z) (h cs : F)
    (work : ndarray bool) :
  let res := checked_call dem observer_rc h cs work in
  let inside :=
    in_bounds (shape2 dem).1 (shape2 dem).2 observer_rc.1 observer_rc.2 in
  (res = Raise shape_error <-> ndim dem <> 2%nat) /\
  ((exists e, res = Raise e /\ invalid_parameter_error e) <->
     ndim dem = 2%nat /\ (fle cs (of_int 0) = true \/ flt h (of_int 0) = true)) /\
  (res = Raise out_of_bounds_error <->
     ndim dem = 2%nat /\ fle cs (of_int 0) = false /\ flt h (of_int 0) = false /\
     inside = false) /\
  (res = Raise no_data_error <->
     ndim dem = 2%nat /\ fle cs (of_int 0) = false /\ flt h (of_int 0) = false /\
     inside = true /\ isnan (elevation dem observer_rc.1 observer_rc.2) = true) /\
  (res = Ok work <-> valid_input dem observer_rc h cs) /\
  (forall e, res = Raise e ->
     e = shape_error \/ invalid_parameter_error e \/ e = out_of_bounds_error \/
     e = no_data_error) /\
  (forall m, res = Ok m -> m = work).
Proof.
  intros res inside. subst res inside. unfold checked_call, valid_input, invalid_parameter_error.
  destruct (validate_inputs_cases dem observer_rc h cs)
    as [(H1 & ->)|[(H1 & H2 & ->)|[(H1 & H2 & H3 & ->)|[(H1 & H2 & H3 & H4 & ->)
       |(H1 & H2 & H3 & H4 & ->)]]]];
    [| | | |destruct (isnan (elevation dem observer_rc.1 observer_rc.2)) eqn:H5];
    rewrite ?H2, ?H3, ?H4;
    unfold shape_error, out_of_bounds_error, no_data_error;
    repeat split;
    try (intros; discriminate); try (intros; congruence); try tauto;
    try (intros (? & ? & [?|?]); congruence);
    try (intros (? & [?|?]); congruence);
    try (intros (? & ? & ? & ?); congruence);
    try (intros (? & ? & ? & ? & ?); congruence);
    try (intros ? ?; simplify_eq; tauto);
    try (intros _; eexists; split; [reflexivity|tauto]);
    try match goal with
        | H : exists _, _ |- _ => destruct H as (? & ? & [?|?]); congruence
        end.
Qed.

End Failures.

(** ** Both engines: checks first, then a mask grown from the observer's cell *)

Section EngineResults.
Context {F : Type} {PF : PyFloat F} {PA : PyAtan2 F}.

Lemma baseline_checked (dem : ndarray F) (observer_rc : Z * Z) (h cs : F) (curv : bool) :
  _compute_viewshed_baseline dem observer_rc h cs curv =
    checked_call dem observer_rc h cs (baseline_mask dem observer_rc h cs curv).
Proof. apply baseline_unfold. Qed.

Lemma radial_checked (dem : ndarray F) (observer_rc : Z * Z) (h cs : F) (curv : bool) :
  _compute_viewshed_radial dem observer_rc h cs curv =
    checked_call dem observer_rc h cs (radial_mask dem observer_rc h cs curv).
Proof. apply radial_unfold. Qed.

Lemma checked_call_ok (dem : ndarray F) (observer_rc : Z * Z) (h cs : F)
    (work m : ndarray bool) :
  checked_call dem observer_rc h cs work = Ok m ->
  m = work /\ valid_input dem observer_rc h cs.
Proof.
  intros H. pose proof (checked_call_outcome dem observer_rc h cs work)
    as (_ & _ & _ & _ & Hok & _ & Hm).
  simpl in Hok, Hm. apply Hm in H as Hw. subst m. split; [done|]. by apply Hok.
Qed.

Lemma checked_call_valid (dem : ndarray F) (observer_rc : Z * Z) (h cs : F)
    (work : ndarray bool) :
  valid_input dem observer_rc h cs -> checked_call dem observer_rc h cs work = Ok work.
Proof.
  intros H. by apply (checked_call_outcome dem observer_rc h cs work).
Qed.

(** A mask grown by [mark_cells] from the observer's cell. *)
Lemma grown_mask (dem : ndarray F) (observer_rc : Z * Z) (h cs : F) (l : list (Z * Z)) :
  valid_input dem observer_rc h cs ->
  let m := mark_cells l (setitem2 (zeros (shape2 dem).1 (shape2 dem).2)
                           observer_rc.1 observer_rc.2 true) in
  is_mask (shape2 dem).1 (shape2 dem).2 m /\
  shape m = shape dem /\
  forall r c, visible m r c <->
    (r = observer_rc.1 /\ c = observer_rc.2) \/
    ((r, c) ∈ l /\ in_bounds (shape2 dem).1 (shape2 dem).2 r c = true).
Proof.
  intros (Hnd & _ & _ & Hin & _) m.
  assert (is_mask (shape2 dem).1 (shape2 dem).2
            (setitem2 (zeros (shape2 dem).1 (shape2 dem).2)
               observer_rc.1 observer_rc.2 true)) as Hm0
    by apply is_mask_setitem2, is_mask_zeros.
  assert (is_mask (shape2 dem).1 (shape2 dem).2 m) as Hm by apply is_mask_mark_cells, Hm0.
  split; [exact Hm|]. split.
  - destruct Hm as [-> _]. symmetry. by apply shape_of_ndim2.
  - intros r c. subst m. rewrite (visible_mark_cells _ _ _ _ _ _ Hm0).
    rewrite (visible_setitem2 _ _ _ _ _ _ _ (is_mask_zeros _ _)).
    pose proof (not_visible_zeros (shape2 dem).1 (shape2 dem).2 r c). tauto.
Qed.

End EngineResults.

(** ** The work an engine has done when it returns or raises *)

Section TraceLemmas.
Context {F : Type} {PF : PyFloat F} {PA : PyAtan2 F}.

Lemma traced_bind_ok {A B : Type} (l : list event) (a : A) (k : A -> traced B) :
  ((l, Ok a) : traced A) ≫= k = (l ++ (k a).1, (k a).2).
Proof. reflexivity. Qed.

Lemma untraced_ok {A B : Type} (a : A) (k : A -> traced B) : untraced (Ok a) ≫= k = k a.
Proof. unfold untraced. rewrite traced_bind_ok. by destruct (k a). Qed.

Lemma tick_bind {B : Type} (ev : event) (k : unit -> traced B) :
  tick ev ≫= k = (ev :: (k tt).1, (k tt).2).
Proof. reflexivity. Qed.

Lemma for_each_tick {A S : Type} (ev : A -> event) (f : S -> A -> S) (l : list A) (s : S) :
  for_each l (fun s x => _ ← tick (ev x); mret (f s x)) s =
    (map ev l, Ok (fold_left f l s)).
Proof.
  revert s. induction l as [|x l IH]; intros s; [reflexivity|].
  cbn [for_each]. rewrite tick_bind. cbn [mret traced_ret fst snd].
  rewrite traced_bind_ok, IH. reflexivity.
Qed.

Lemma baseline_traced_unfold (dem : ndarray F) (observer_rc : Z * Z) (h cs : F)
    (curv : bool) :
  _compute_viewshed_baseline_traced dem observer_rc h cs curv =
    match _compute_viewshed_baseline dem observer_rc h cs curv with
    | Ok m => (baseline_work dem, Ok m)
    | Raise e => ([], Raise e)
    end.
Proof.
  unfold _compute_viewshed_baseline_traced, _compute_viewshed_baseline, baseline_work.
  destruct (_validate_inputs dem observer_rc h cs) as [[]|e]; [|reflexivity].
  rewrite untraced_ok. cbn [mbind result_bind].
  destruct (shape2 dem) as [rows cols], observer_rc as [obs_r obs_c]. cbn [fst snd].
  destruct (isnan (elevation dem obs_r obs_c)); [reflexivity|].
  rewrite tick_bind, (for_each_tick (fun rc : Z * Z => Visit rc.1 rc.2)). reflexivity.
Qed.

Lemma radial_traced_unfold (dem : ndarray F) (observer_rc : Z * Z) (h cs : F)
    (curv : bool) :
  _compute_viewshed_radial_traced dem observer_rc h cs curv =
    match _compute_viewshed_radial dem observer_rc h cs curv with
    | Ok m => (radial_work dem observer_rc h cs curv, Ok m)
    | Raise e => ([], Raise e)
    end.
Proof.
  unfold _compute_viewshed_radial_traced, _compute_viewshed_radial, radial_work,
    baseline_work, radial_rays.
  destruct (_validate_inputs dem observer_rc h cs) as [[]|e]; [|reflexivity].
  rewrite untraced_ok. cbn [mbind result_bind].
  destruct (shape2 dem) as [rows cols], observer_rc as [obs_r obs_c]. cbn [fst snd].
  destruct (isnan (elevation dem obs_r obs_c)); [reflexivity|].
  rewrite tick_bind, (for_each_tick (fun rc : Z * Z => Visit rc.1 rc.2)).
  rewrite traced_bind_ok, (for_each_tick (fun ray : (Z * Z) * list entry => Sweep ray.1)).
  cbn [fst snd app]. reflexivity.
Qed.

Lemma fail_fast_of_unfold (run : traced (ndarray bool)) (res : result (ndarray bool))
    (work : list event) :
  run = match res with Ok m => (work, Ok m) | Raise e => ([], Raise e) end ->
  fail_fast_spec run res work.
Proof.
  intros ->. unfold fail_fast_spec. destruct res as [m|e]; cbn; repeat split; congruence.
Qed.

End TraceLemmas.

Section EngineProperties.
Context {F : Type} {PF : PyFloat F} {PA : PyAtan2 F}.

Lemma checked_call_failure_spec (dem : ndarray F) (observer_rc : Z * Z) (h cs : F)
    (work : ndarray bool) :
  failure_spec dem observer_rc h cs (checked_call dem observer_rc h cs work).
Proof.
  pose proof (checked_call_outcome dem observer_rc h cs work)
    as (H1 & H2 & H3 & H4 & H5 & H6 & H7). simpl in *.
  unfold failure_spec.
  split; [exact H1|]. split; [exact H2|]. split; [exact H3|]. split; [exact H4|].
  split; [|exact H6]. split.
  - intros [m Hm]. apply H5. by rewrite (H7 _ Hm) in Hm.
  - intros Hv. exists work. by apply H5.
Qed.

(** C4: whenever an engine call succeeds, the returned mask is a boolean
    array of the shape of the input grid (its shape is the grid's shape
    [(rows, cols)] and it holds [rows * cols] elements) and the observer's own
    cell is true; this holds for the baseline engine and for the radial
    engine. *)
Theorem engine_mask_shape_and_observer (dem : ndarray F) (observer_rc : Z * Z)
    (h cs : F) (curv : bool) (m : ndarray bool) :
  _compute_viewshed_baseline dem observer_rc h cs curv = Ok m \/
  _compute_viewshed_radial dem observer_rc h cs curv = Ok m ->
  is_mask (shape2 dem).1 (shape2 dem).2 m /\
  shape m = shape dem /\ visible m observer_rc.1 observer_rc.2.
Proof.
  rewrite baseline_checked, radial_checked.
  intros [H|H]; apply checked_call_ok in H as [-> Hv];
    [unfold baseline_mask | unfold radial_mask];
    match goal with
    | |- context [mark_cells ?l _] =>
        pose proof (grown_mask dem observer_rc h cs l Hv) as (Hm & Hs & Hvis)
    end;
    (split; [exact Hm|]); (split; [exact Hs|]); apply Hvis; by left.
Qed.

(** C5, as amended: an engine call makes its four checks in the order shape,
    parameters, bounds, observer elevation; the first check that fails
    decides the error, each error is raised exactly under its condition given
    that the earlier checks passed, no other error is raised, and a mask is
    returned exactly when every check passes.  All four errors are raised
    before any per-cell work: when a call raises, no mask has been allocated,
    no cell visited and no ray swept, whereas a call that returns has
    allocated the mask and visited every cell (and, in the radial engine,
    swept every ray).  Both engines. *)
Theorem engine_failures_in_order (dem : ndarray F) (observer_rc : Z * Z)
    (h cs : F) (curv : bool) :
  failure_spec dem observer_rc h cs
    (_compute_viewshed_baseline dem observer_rc h cs curv) /\
  failure_spec dem observer_rc h cs
    (_compute_viewshed_radial dem observer_rc h cs curv) /\
  fail_fast_spec (_compute_viewshed_baseline_traced dem observer_rc h cs curv)
    (_compute_viewshed_baseline dem observer_rc h cs curv) (baseline_work dem) /\
  fail_fast_spec (_compute_viewshed_radial_traced dem observer_rc h cs curv)
    (_compute_viewshed_radial dem observer_rc h cs curv)
    (radial_work dem observer_rc h cs curv).
Proof.
  split; [|split; [|split]].
  - rewrite baseline_checked. apply checked_call_failure_spec.
  - rewrite radial_checked. apply checked_call_failure_spec.
  - apply fail_fast_of_unfold, baseline_traced_unfold.
  - apply fail_fast_of_unfold, radial_traced_unfold.
Qed.

Lemma radial_entry_some (dem : ndarray F) (oe : F) (obs_r obs_c : Z) (cs : F)
    (curv : bool) (rc : Z * Z) (d : Z * Z) (e : @entry F) :
  radial_entry dem oe obs_r obs_c cs curv rc = Some (d, e) ->
  entry_cell e = rc /\ rc <> (obs_r, obs_c) /\
  isnan (elevation dem rc.1 rc.2) = false /\
  entry_g e = Z.gcd (Z.abs (rc.1 - obs_r)) (Z.abs (rc.2 - obs_c)) /\
  0 < entry_g e /\
  d = ((rc.1 - obs_r) / entry_g e, (rc.2 - obs_c) / entry_g e).
Proof.
  unfold radial_entry. destruct rc as [r c]. simpl.
  destruct ((r =? obs_r) && (c =? obs_c)) eqn:Hobs; [discriminate|].
  destruct (isnan (elevation dem r c)) eqn:Hnan; [discriminate|].
  destruct (Z.eqb_spec (Z.gcd (Z.abs (r - obs_r)) (Z.abs (c - obs_c))) 0) as [|Hg];
    [discriminate|].
  intros H. injection H as <- <-. unfold entry_cell, entry_g. simpl.
  repeat split; try done.
  - intros H. injection H as -> ->. rewrite !Z.eqb_refl in Hobs. discriminate.
  - pose proof (Z.gcd_nonneg (Z.abs (r - obs_r)) (Z.abs (c - obs_c))). lia.
Qed.

Lemma elem_of_radial_marked (rays : list ((Z * Z) * list (@entry F))) (rc : Z * Z) :
  rc ∈ radial_marked rays <->
  exists d es, (d, es) ∈ rays /\ rc ∈ marked (sort_entries es) neg_inf.
Proof.
  unfold radial_marked. rewrite list_elem_of_In, in_concat. split.
  - intros (l & Hl & Hrc). apply list_elem_of_In, list_elem_of_fmap in Hl
      as ([d es] & -> & Hray).
    exists d, es. split; [done|]. by apply list_elem_of_In.
  - intros (d & es & Hray & Hrc). exists (marked (sort_entries es) neg_inf).
    split; [|by apply list_elem_of_In].
    apply list_elem_of_In, list_elem_of_fmap. by exists (d, es).
Qed.

Lemma group_entry_origin (des : list ((Z * Z) * @entry F)) (d : Z * Z)
    (es : list (@entry F)) (e : @entry F) :
  (d, es) ∈ group des -> e ∈ es -> (d, e) ∈ des.
Proof.
  intros Hray He. apply (rays_of_group des) in Hray as [-> _].
  unfold entries_of in He. apply list_elem_of_fmap in He as ([d' e'] & -> & Hin).
  apply list_elem_of_In, filter_In in Hin as [Hin Hd]. simpl in Hd.
  apply direction_eqb_eq in Hd as ->. by apply list_elem_of_In.
Qed.

Lemma radial_marked_origin (dem : ndarray F) (oe : F) (obs_r obs_c : Z) (cs : F)
    (curv : bool) (rc : Z * Z) :
  rc ∈ radial_marked (group (radial_entries dem oe obs_r obs_c cs curv)) ->
  exists d e, radial_entry dem oe obs_r obs_c cs curv rc = Some (d, e).
Proof.
  intros H. apply elem_of_radial_marked in H as (d & es & Hray & Hrc).
  apply marked_subset in Hrc. apply list_elem_of_fmap in Hrc as (e & -> & He).
  rewrite sort_entries_perm in He.
  pose proof (group_entry_origin _ _ _ _ Hray He) as Hde.
  unfold radial_entries in Hde. apply list_elem_of_omap in Hde as (rc & _ & Hrc).
  destruct (radial_entry_some _ _ _ _ _ _ _ _ _ Hrc) as (<- & _). by exists d, e.
Qed.

(** C9: on every valid input, a cell other than the observer's whose own
    elevation is NaN is not visible in the returned mask, and the call
    returns a mask (missing data met during the per-cell work raises
    nothing); both engines. *)
Theorem nan_cells_excluded_without_raise (dem : ndarray F) (observer_rc : Z * Z)
    (h cs : F) (curv : bool) :
  valid_input dem observer_rc h cs ->
  (exists m, _compute_viewshed_baseline dem observer_rc h cs curv = Ok m /\
     forall r c, (r, c) <> observer_rc -> isnan (elevation dem r c) = true ->
       ~ visible m r c) /\
  (exists m, _compute_viewshed_radial dem observer_rc h cs curv = Ok m /\
     forall r c, (r, c) <> observer_rc -> isnan (elevation dem r c) = true ->
       ~ visible m r c).
Proof.
  intros Hv. rewrite baseline_checked, radial_checked.
  rewrite !(checked_call_valid _ _ _ _ _ Hv). split.
  - eexists. split; [reflexivity|]. intros r c Hne Hnan Hvis.
    unfold baseline_mask in Hvis.
    apply (grown_mask dem observer_rc h cs _ Hv) in Hvis as [[-> ->]|[Hin _]].
    + apply Hne. by destruct observer_rc.
    + apply list_elem_of_In, filter_In in Hin as [_ Hb]. unfold baseline_visible in Hb.
      simpl in Hb. rewrite Hnan in Hb. simpl in Hb. rewrite andb_false_r in Hb. done.
  - eexists. split; [reflexivity|]. intros r c Hne Hnan Hvis.
    unfold radial_mask in Hvis.
    apply (grown_mask dem observer_rc h cs _ Hv) in Hvis as [[-> ->]|[Hin _]].
    + apply Hne. by destruct observer_rc.
    + apply radial_marked_origin in Hin as (d & e & He).
      apply radial_entry_some in He as (_ & _ & Hn & _). simpl in Hn. congruence.
Qed.

End EngineProperties.

(** ** The engines on concrete grids, in binary64 *)

Section Binary64Scenarios.
Import Binary64 Scenarios.

Lemma engine_mask_shape_and_observer_witness :
  is_mask 2 2 (full 2 2 true) /\
  shape (full 2 2 true) = shape dem_2x2 /\ visible (full 2 2 true) 0 0.
Proof.
  apply (@engine_mask_shape_and_observer float binary64 slope_atan2
           dem_2x2 (0, 0) height_1_7 10%float false).
  left. vm_compute. reflexivity.
Defined.

Lemma nan_cells_excluded_without_raise_witness :
  (exists m, _compute_viewshed_baseline dem_gap (0, 0) height_1_7 10%float false = Ok m /\
     forall r c, (r, c) <> (0, 0) -> isnan (elevation dem_gap r c) = true ->
       ~ visible m r c) /\
  (exists m, @_compute_viewshed_radial float binary64 slope_atan2
               dem_gap (0, 0) height_1_7 10%float false = Ok m /\
     forall r c, (r, c) <> (0, 0) -> isnan (elevation dem_gap r c) = true ->
       ~ visible m r c).
Proof.
  apply (@nan_cells_excluded_without_raise float binary64 slope_atan2
           dem_gap (0, 0) height_1_7 10%float false).
  repeat split; vm_compute; reflexivity.
Defined.

(** C5, the claim as stated fails: on a rank-1 grid with [cell_size_m = 0]
    the call raises the shape error, so the invalid-parameter error is not
    raised although [cell_size_m <= 0] holds. *)
Lemma invalid_parameter_hidden_by_shape_error :
  ~ ((exists e, _compute_viewshed_baseline dem_rank1 (0, 0) height_1_7 0%float false
                  = Raise e /\ invalid_parameter_error e) <->
     (fle 0%float (of_int 0) = true \/ flt height_1_7 (of_int 0) = true)).
Proof.
  intros [_ H]. destruct H as (e & He & Hi); [left; reflexivity|].
  vm_compute in He. injection He as <-. destruct Hi as [Hi|Hi]; discriminate Hi.
Qed.

(** C1, the code at the failing input: [compute_viewshed] is the baseline
    engine on every input, and on the transect [[0, nan, 0]] seen from its
    first cell it returns [[True, False, False]], where
    [compute_viewshed_radial] returns [[True, False, True]] as soon as
    [atan2] returns a number for the far cell. *)
Theorem compute_viewshed_runs_baseline :
  (forall (F : Type) (PF : PyFloat F) dem observer_rc h cs curv,
     compute_viewshed dem observer_rc h cs curv =
     _compute_viewshed_baseline dem observer_rc h cs curv) /\
  compute_viewshed dem_gap (0, 0) height_1_7 10%float false =
    Ok (mk_ndarray [1; 3]%nat [true; false; false]) /\
  (forall PA : PyAtan2 float,
     @compute_viewshed_radial float binary64 PA dem_gap (0, 0) height_1_7 10%float false =
       Ok (mk_ndarray [1; 3]%nat
             [true; false;
              PrimFloat.leb PrimFloat.neg_infinity
                (atan2 (0 - height_1_7)%float 20%float)])).
Proof.
  split; [reflexivity|]. split; [vm_compute; reflexivity|].
  intros PA. vm_compute.
  destruct (PrimFloat.leb _ _); [destruct (PrimFloat.ltb _ _)|]; reflexivity.
Qed.

(** C7, the claim as stated fails: on the 1 x 1 grid [[inf]] the floor of
    [(0.0, 0.0)] is inside the grid and no corner is NaN, and the sampler
    returns NaN all the same ([inf * 0.0] is NaN).  The same happens at a
    coordinate the baseline engine queries: on [[0, inf, 0]], half way from
    cell (0, 0) to cell (0, 2), at [(0.0, 1.0)]. *)
Lemma bilinear_sample_nan_from_infinity :
  (let r0 := floor 0%float in
   let c0 := floor 0%float in
   in_bounds 1 1 r0 c0 = true /\
   existsb isnan
     [elevation dem_inf r0 c0; elevation dem_inf (Z.min (r0 + 1) 0) c0;
      elevation dem_inf r0 (Z.min (c0 + 1) 0);
      elevation dem_inf (Z.min (r0 + 1) 0) (Z.min (c0 + 1) 0)] = false /\
   isnan (_bilinear_sample dem_inf 0%float 0%float) = true) /\
  (let t := fdiv (of_int 1) (of_int 2) in
   let row := fadd (of_int 0) (fmul (of_int 0) t) in
   let col := fadd (of_int 0) (fmul (of_int 2) t) in
   let r0 := floor row in
   let c0 := floor col in
   PrimFloat.is_nan row = false /\ PrimFloat.is_infinity row = false /\
   PrimFloat.is_nan col = false /\ PrimFloat.is_infinity col = false /\
   in_bounds 1 3 r0 c0 = true /\
   existsb isnan
     [elevation dem_inf_transect r0 c0; elevation dem_inf_transect (Z.min (r0 + 1) 0) c0;
      elevation dem_inf_transect r0 (Z.min (c0 + 1) 2);
      elevation dem_inf_transect (Z.min (r0 + 1) 0) (Z.min (c0 + 1) 2)] = false /\
   isnan (_bilinear_sample dem_inf_transect row col) = true).
Proof. vm_compute. repeat split. Qed.

(** C8, the claim as stated fails: on a uniform grid of elevation 1000.1
    seen from a corner at height 1e-13 > 0, curvature disabled, the baseline
    engine leaves cell (1, 3) not visible (two thirds of the way, the height
    of the sight line rounds down to the ground elevation and the
    interpolated terrain rounds up to the next double). *)
Lemma flat_grid_cell_hidden_by_rounding :
  flt (of_int 0) height_1em13 = true /\
  exists m, _compute_viewshed_baseline dem_uniform_3x4 (0, 0) height_1em13 10%float false
              = Ok m /\ ~ visible m 1 3.
Proof.
  split; [vm_compute; reflexivity|]. eexists. split; [vm_compute; reflexivity|].
  vm_compute. discriminate.
Qed.

(** The concrete scenario of C8 for the baseline engine. *)
Lemma baseline_flat_5x5 :
  _compute_viewshed_baseline dem_flat_5x5 (2, 2) height_1_7 10%float false =
    Ok (full 5 5 true).
Proof. vm_compute. reflexivity. Qed.


End Binary64Scenarios.

(** ** The mask postprocessor *)

Lemma map_const_replicate {A B} (f : A -> B) (v : B) (l : list A) :
  (forall x, x ∈ l -> f x = v) -> map f l = replicate (length l) v.
Proof.
  induction l as [|x l IH]; intros H; [reflexivity|]. simpl. f_equal.
  - apply H. apply elem_of_cons. by left.
  - apply IH. intros y Hy. apply H. apply elem_of_cons. by right.
Qed.

Lemma tabulate2_const {A} (rows cols : nat) (f : Z -> Z -> A) (v : A) :
  (forall r c, in_bounds rows cols r c = true -> f r c = v) ->
  tabulate2 rows cols f = mk_ndarray [rows; cols] (replicate (rows * cols) v).
Proof.
  intros H. unfold tabulate2. f_equal. rewrite <- (length_cells rows cols).
  apply map_const_replicate. intros [r c] Hrc. simpl. apply H. by apply elem_of_cells.
Qed.

Lemma getitem2_replicate {A} (rows cols n : nat) (v : A) (r c : Z) :
  default v (getitem2 (mk_ndarray [rows; cols] (replicate n v)) r c) = v.
Proof.
  unfold getitem2. simpl. destruct (in_bounds rows cols r c); [|reflexivity].
  destruct (replicate n v !! flat_index cols r c) as [x|] eqn:E; [|reflexivity].
  apply lookup_replicate in E as [-> _]. reflexivity.
Qed.

Lemma np_pad_zeros (rows cols : nat) :
  np_pad (zeros_uint8 rows cols) = zeros_uint8 (rows + 2) (cols + 2).
Proof.
  unfold np_pad, zeros_uint8. simpl. apply tabulate2_const. intros r c _.
  apply getitem2_replicate.
Qed.

Lemma window_zeros (rows cols : nat) (dr dc : Z) :
  window (zeros_uint8 (rows + 2) (cols + 2)) dr dc = zeros_uint8 rows cols.
Proof.
  unfold window, zeros_uint8. simpl. rewrite !Nat.add_sub.
  apply tabulate2_const. intros r c _. apply getitem2_replicate.
Qed.

Lemma uint8_add_zeros (rows cols : nat) :
  uint8_add (zeros_uint8 rows cols) (zeros_uint8 rows cols) = zeros_uint8 rows cols.
Proof.
  unfold uint8_add, zeros_uint8. simpl. f_equal.
  induction (rows * cols)%nat as [|n IH]; [reflexivity|]. simpl. by rewrite IH.
Qed.

Lemma ge_uint8_zeros (rows cols : nat) (required : Z) :
  0 < required -> ge_uint8 (zeros_uint8 rows cols) required = zeros_uint8 rows cols.
Proof.
  intros H. unfold ge_uint8, zeros_uint8. simpl. f_equal.
  induction (rows * cols)%nat as [|n IH]; [reflexivity|]. simpl. rewrite IH.
  destruct (Z.leb_spec required 0); [lia|reflexivity].
Qed.

Lemma smooth_pass_zeros (rows cols : nat) :
  smooth_pass None (zeros_uint8 rows cols) = zeros_uint8 rows cols.
Proof.
  unfold smooth_pass. rewrite np_pad_zeros, !window_zeros, !uint8_add_zeros.
  apply ge_uint8_zeros. lia.
Qed.

Lemma smooth_iter_zeros (rows cols n : nat) :
  Nat.iter n (smooth_pass None) (zeros_uint8 rows cols) = zeros_uint8 rows cols.
Proof.
  induction n as [|n IH]; [reflexivity|]. simpl. rewrite IH. apply smooth_pass_zeros.
Qed.

Lemma astype_uint8_full_false (rows cols : nat) :
  astype_uint8 (full rows cols false) = zeros_uint8 rows cols.
Proof.
  unfold astype_uint8, full, zeros_uint8. simpl. f_equal.
  induction (rows * cols)%nat as [|n IH]; [reflexivity|]. simpl. by rewrite IH.
Qed.

Lemma astype_bool_zeros (rows cols : nat) :
  astype_bool (zeros_uint8 rows cols) = full rows cols false.
Proof.
  unfold astype_bool, full, zeros_uint8. simpl. f_equal.
  induction (rows * cols)%nat as [|n IH]; [reflexivity|]. simpl. by rewrite IH.
Qed.

(** *** The corner cell under zero padding *)

Lemma getitem2_tabulate2 {A} (rows cols : nat) (f : Z -> Z -> A) (r c : Z) :
  getitem2 (tabulate2 rows cols f) r c =
    if in_bounds rows cols r c then Some (f r c) else None.
Proof.
  unfold getitem2, tabulate2. simpl. destruct (in_bounds rows cols r c) eqn:Hb; [|done].
  rewrite list_lookup_fmap, lookup_cells by done. reflexivity.
Qed.

Lemma item_uint8_mask (rows cols : nat) (a : ndarray Z) (r c : Z) :
  is_uint8_mask rows cols a -> 0 <= item_or_0 a r c <= 1.
Proof.
  intros (Hs & Hl & H01). unfold item_or_0, getitem2, shape2. rewrite Hs.
  destruct (in_bounds rows cols r c); [|simpl; lia].
  destruct (data a !! flat_index cols r c) as [x|] eqn:E; [|simpl; lia].
  simpl. eapply Forall_lookup_1 in H01; [|exact E]. exact H01.
Qed.

Lemma item_out_of_bounds (rows cols : nat) (a : ndarray Z) (r c : Z) :
  shape a = [rows; cols] -> in_bounds rows cols r c = false -> item_or_0 a r c = 0.
Proof.
  intros Hs Hb. unfold item_or_0, getitem2, shape2. rewrite Hs, Hb. reflexivity.
Qed.

Lemma item_uint8_add (a b : ndarray Z) (r c : Z) :
  shape a = shape b -> length (data a) = length (data b) ->
  item_or_0 (uint8_add a b) r c = (item_or_0 a r c + item_or_0 b r c) mod 256.
Proof.
  intros Hs Hl. unfold item_or_0, getitem2.
  change (shape2 (uint8_add a b)) with (shape2 a).
  replace (shape2 b) with (shape2 a) by (unfold shape2; by rewrite Hs).
  destruct (shape2 a) as [rows cols].
  destruct (in_bounds rows cols r c); [|reflexivity].
  unfold uint8_add. cbn [data]. rewrite lookup_zip_with.
  destruct (data a !! flat_index cols r c) as [x|] eqn:Ea; simpl.
  - destruct (data b !! flat_index cols r c) as [y|] eqn:Eb; simpl; [reflexivity|].
    apply lookup_lt_Some in Ea. apply lookup_ge_None in Eb. lia.
  - destruct (data b !! flat_index cols r c) as [y|] eqn:Eb; simpl; [|reflexivity].
    apply lookup_lt_Some in Eb. apply lookup_ge_None in Ea. lia.
Qed.

Lemma item_window (rows cols : nat) (padded : ndarray Z) (dr dc r c : Z) :
  shape padded = [(rows + 2)%nat; (cols + 2)%nat] ->
  item_or_0 (window padded dr dc) r c =
    if in_bounds rows cols r c then item_or_0 padded (r + dr) (c + dc) else 0.
Proof.
  intros Hs. unfold item_or_0 at 1. unfold window, shape2. rewrite Hs.
  rewrite !Nat.add_sub, getitem2_tabulate2.
  destruct (in_bounds rows cols r c); reflexivity.
Qed.

Lemma item_np_pad (rows cols : nat) (a : ndarray Z) (i j : Z) :
  shape a = [rows; cols] ->
  item_or_0 (np_pad a) i j = item_or_0 a (i - 1) (j - 1).
Proof.
  intros Hs. unfold item_or_0 at 1. unfold np_pad, shape2. rewrite Hs.
  rewrite getitem2_tabulate2.
  destruct (in_bounds (rows + 2) (cols + 2) i j) eqn:Hb; [reflexivity|]. simpl.
  symmetry. apply (item_out_of_bounds rows cols); [done|].
  destruct (in_bounds rows cols (i - 1) (j - 1)) eqn:Hb'; [|done].
  apply in_bounds_spec in Hb'.
  assert (in_bounds (rows + 2) (cols + 2) i j = true) by (apply in_bounds_spec; lia).
  congruence.
Qed.

Lemma shape_window (rows cols : nat) (padded : ndarray Z) (dr dc : Z) :
  shape padded = [(rows + 2)%nat; (cols + 2)%nat] ->
  shape (window padded dr dc) = [rows; cols] /\
  length (data (window padded dr dc)) = (rows * cols)%nat.
Proof.
  intros Hs. unfold window, shape2. rewrite Hs, !Nat.add_sub. simpl.
  by rewrite length_map, length_cells.
Qed.

Lemma shape_np_pad (rows cols : nat) (a : ndarray Z) :
  shape a = [rows; cols] -> shape (np_pad a) = [(rows + 2)%nat; (cols + 2)%nat].
Proof. intros Hs. unfold np_pad, shape2. rewrite Hs. reflexivity. Qed.

Lemma shape_uint8_add (rows cols : nat) (a b : ndarray Z) :
  (shape a = [rows; cols] /\ length (data a) = (rows * cols)%nat) ->
  (shape b = [rows; cols] /\ length (data b) = (rows * cols)%nat) ->
  shape (uint8_add a b) = [rows; cols] /\
  length (data (uint8_add a b)) = (rows * cols)%nat.
Proof.
  intros [Hsa Hla] [Hsb Hlb]. unfold uint8_add. simpl. split; [done|].
  rewrite length_zip_with. lia.
Qed.

Lemma item_ge_uint8_below (a : ndarray Z) (required : Z) (r c : Z) :
  0 <= item_or_0 a r c < required -> item_or_0 (ge_uint8 a required) r c = 0.
Proof.
  unfold item_or_0, getitem2. change (shape2 (ge_uint8 a required)) with (shape2 a).
  destruct (shape2 a) as [rows cols]. destruct (in_bounds rows cols r c); [|done].
  unfold ge_uint8. cbn [data]. rewrite list_lookup_fmap.
  destruct (data a !! flat_index cols r c) as [x|]; [|done]. simpl. intros H.
  destruct (Z.leb_spec required x); [lia|reflexivity].
Qed.

Lemma in_bounds_negative (rows cols : nat) (r c : Z) :
  r < 0 \/ c < 0 -> in_bounds rows cols r c = false.
Proof.
  intros H. destruct (in_bounds rows cols r c) eqn:E; [|done].
  apply in_bounds_spec in E. lia.
Qed.

Lemma smooth_pass_shape (rows cols : nat) (threshold : option Z) (a : ndarray Z) :
  shape a = [rows; cols] ->
  shape (smooth_pass threshold a) = [rows; cols] /\
  length (data (smooth_pass threshold a)) = (rows * cols)%nat.
Proof.
  intros Hs. pose proof (shape_np_pad rows cols a Hs) as Hp.
  unfold smooth_pass, ge_uint8. cbn [shape data]. rewrite length_map.
  repeat apply shape_uint8_add; by apply shape_window.
Qed.

Lemma smooth_pass_uint8_mask (rows cols : nat) (threshold : option Z) (a : ndarray Z) :
  shape a = [rows; cols] -> is_uint8_mask rows cols (smooth_pass threshold a).
Proof.
  intros Hs. destruct (smooth_pass_shape rows cols threshold a Hs) as [H1 H2].
  split; [exact H1|]. split; [exact H2|].
  unfold smooth_pass, ge_uint8. cbn [data]. apply Forall_fmap, Forall_true.
  intros x. simpl. destruct (_ <=? x); lia.
Qed.

(** One pass leaves the corner cell at 0: of its nine neighbours only four
    lie in the grid. *)
Lemma smooth_pass_corner (rows cols : nat) (a : ndarray Z) :
  is_uint8_mask rows cols a -> item_or_0 (smooth_pass None a) 0 0 = 0.
Proof.
  intros Ha. pose proof Ha as (Hs & Hl & _).
  pose proof (shape_np_pad rows cols a Hs) as Hp.
  unfold smooth_pass. apply item_ge_uint8_below.
  assert (forall dr dc, shape (window (np_pad a) dr dc) = [rows; cols] /\
            length (data (window (np_pad a) dr dc)) = (rows * cols)%nat) as Hw
    by (intros; by apply shape_window).
  repeat
    (rewrite item_uint8_add;
     [|etransitivity; [|symmetry; apply Hw]; repeat apply shape_uint8_add; apply Hw
      |etransitivity; [|symmetry; apply Hw]; repeat apply shape_uint8_add; apply Hw]).
  rewrite !(item_window rows cols) by done.
  destruct (in_bounds rows cols 0 0); [|simpl; Z.div_mod_to_equations; lia].
  rewrite !(item_np_pad rows cols) by done. simpl.
  rewrite !(item_out_of_bounds rows cols a (-1)) by (done || apply in_bounds_negative; lia).
  rewrite !(item_out_of_bounds rows cols a _ (-1)) by (done || apply in_bounds_negative; lia).
  change (0 + 1 - 1) with 0. change (0 + 2 - 1) with 1.
  pose proof (item_uint8_mask rows cols a 0 0 Ha).
  pose proof (item_uint8_mask rows cols a 0 1 Ha).
  pose proof (item_uint8_mask rows cols a 1 0 Ha).
  pose proof (item_uint8_mask rows cols a 1 1 Ha).
  Z.div_mod_to_equations. lia.
Qed.

Lemma astype_uint8_mask (rows cols : nat) (mask : ndarray bool) :
  is_mask rows cols mask -> is_uint8_mask rows cols (astype_uint8 mask).
Proof.
  intros [Hs Hl]. unfold astype_uint8. split; [exact Hs|]. cbn [data].
  split; [by rewrite length_map|]. apply Forall_fmap, Forall_true.
  intros []; simpl; lia.
Qed.

Lemma smooth_iter_uint8_mask (rows cols : nat) (a : ndarray Z) (n : nat) :
  is_uint8_mask rows cols a ->
  is_uint8_mask rows cols (Nat.iter n (smooth_pass None) a).
Proof.
  intros Ha. induction n as [|n IH]; [exact Ha|]. simpl.
  apply smooth_pass_uint8_mask. by destruct IH.
Qed.

Lemma visible_astype_bool (a : ndarray Z) (r c : Z) :
  visible (astype_bool a) r c -> item_or_0 a r c <> 0.
Proof.
  unfold visible, item_or_0, getitem2. change (shape2 (astype_bool a)) with (shape2 a).
  destruct (shape2 a) as [rows cols]. destruct (in_bounds rows cols r c); [|done].
  unfold astype_bool. cbn [data]. rewrite list_lookup_fmap.
  destruct (data a !! flat_index cols r c) as [x|]; [|done]. simpl.
  destruct (Z.eqb_spec x 0); [done|]. done.
Qed.

(** Whatever the mask, after at least one pass with the default threshold
    the corner cell (0, 0) is not set. *)
Lemma smooth_clears_corner (rows cols : nat) (mask : ndarray bool) (passes : Z) :
  is_mask rows cols mask -> 1 <= passes ->
  exists m, smooth_visibility_mask mask passes None = Ok m /\ ~ visible m 0 0.
Proof.
  intros Hm Hp. unfold smooth_visibility_mask.
  assert (ndim mask = 2%nat) as -> by (unfold ndim; by destruct Hm as [-> _]).
  simpl negb. cbv iota. destruct (Z.ltb_spec passes 1); [lia|].
  eexists. split; [reflexivity|]. intros Hv. apply visible_astype_bool in Hv. apply Hv.
  destruct (Z.to_nat passes) as [|n] eqn:E; [lia|]. simpl.
  apply (smooth_pass_corner rows cols), smooth_iter_uint8_mask, astype_uint8_mask, Hm.
Qed.

(** C2, the claim as stated fails: one pass over the 3 x 3 all-true mask
    clears its four corners (a corner has 4 of its 9 neighbours in the grid,
    the rest is zero padding, and 4 < 5). *)
Lemma smooth_erodes_all_true_mask :
  smooth_visibility_mask (full 3 3 true) 1 None =
    Ok (mk_ndarray [3; 3]%nat
          [false; true; false; true; true; true; false; true; false]) /\
  smooth_visibility_mask (full 3 3 true) 1 None <> Ok (full 3 3 true).
Proof. split; [vm_compute; reflexivity|]. vm_compute. discriminate. Qed.

Lemma smooth_all_false (rows cols : nat) (passes : Z) :
  1 <= passes ->
  smooth_visibility_mask (full rows cols false) passes None =
    Ok (full rows cols false).
Proof.
  intros Hp. unfold smooth_visibility_mask.
  change (ndim (full rows cols false)) with 2%nat. simpl negb. cbv iota.
  destruct (Z.ltb_spec passes 1); [lia|].
  by rewrite astype_uint8_full_false, smooth_iter_zeros, astype_bool_zeros.
Qed.

(** C2, as amended: a uniformly all-false 2D mask is returned unchanged by
    [smooth_visibility_mask] for every [passes >= 1] with the default
    threshold; a uniformly all-true mask with at least one cell never is:
    its corner cell (0, 0) comes back false. *)
Theorem smooth_uniform_masks (rows cols : nat) (passes : Z) :
  1 <= passes ->
  smooth_visibility_mask (full rows cols false) passes None =
    Ok (full rows cols false) /\
  ((0 < rows)%nat -> (0 < cols)%nat ->
   exists m, smooth_visibility_mask (full rows cols true) passes None = Ok m /\
     ~ visible m 0 0 /\ m <> full rows cols true).
Proof.
  intros Hp. split; [by apply smooth_all_false|]. intros Hr Hc.
  destruct (smooth_clears_corner rows cols (full rows cols true) passes
              (is_mask_full rows cols true) Hp) as (m & Hm & Hv).
  exists m. split; [exact Hm|]. split; [exact Hv|]. intros ->. apply Hv.
  apply getitem2_full, in_bounds_spec. lia.
Qed.

Lemma smooth_uniform_masks_witness :
  smooth_visibility_mask (full 4 6 false) 3 None = Ok (full 4 6 false) /\
  exists m, smooth_visibility_mask (full 4 6 true) 3 None = Ok m /\
    ~ visible m 0 0 /\ m <> full 4 6 true.
Proof.
  split.
  - apply (smooth_uniform_masks 4 6 3). lia.
  - apply (smooth_uniform_masks 4 6 3); lia.
Defined.

(** ** The elevation sampler *)

Section Sampler.
Context {F : Type} {PF : PyFloat F}.

(** The cases of the sampler: NaN when the floor of the queried coordinate
    lies outside the grid and when one of the four corner values is NaN; the
    [+1] neighbour clamped to the last row and column; in every other case
    the weighted sum of the four corners as the arithmetic computes it. *)
Lemma bilinear_sample_unfold (dem : ndarray F) (row col : F) :
  let rows := (shape2 dem).1 in
  let cols := (shape2 dem).2 in
  let r0 := floor row in
  let c0 := floor col in
  let r1 := Z.min (r0 + 1) (Z.of_nat rows - 1) in
  let c1 := Z.min (c0 + 1) (Z.of_nat cols - 1) in
  let dr := fsub row (of_int r0) in
  let dc := fsub col (of_int c0) in
  let e00 := elevation dem r0 c0 in
  let e10 := elevation dem r1 c0 in
  let e01 := elevation dem r0 c1 in
  let e11 := elevation dem r1 c1 in
  (in_bounds rows cols r0 c0 = false -> _bilinear_sample dem row col = nan) /\
  (in_bounds rows cols r0 c0 = true ->
     (existsb isnan [e00; e10; e01; e11] = true -> _bilinear_sample dem row col = nan) /\
     (existsb isnan [e00; e10; e01; e11] = false ->
        _bilinear_sample dem row col =
          fadd (fadd (fadd (fmul (fmul e00 (fsub (of_int 1) dr)) (fsub (of_int 1) dc))
                           (fmul (fmul e10 dr) (fsub (of_int 1) dc)))
                     (fmul (fmul e01 (fsub (of_int 1) dr)) dc))
               (fmul (fmul e11 dr) dc)) /\
     in_bounds rows cols r1 c1 = true /\
     (r0 < Z.of_nat rows - 1 -> r1 = r0 + 1) /\ (r0 = Z.of_nat rows - 1 -> r1 = r0) /\
     (c0 < Z.of_nat cols - 1 -> c1 = c0 + 1) /\ (c0 = Z.of_nat cols - 1 -> c1 = c0)).
Proof.
  intros rows cols r0 c0 r1 c1 dr dc e00 e10 e01 e11.
  assert (((r0 <? 0) || (c0 <? 0) || (r0 >=? Z.of_nat rows) || (c0 >=? Z.of_nat cols))
          = negb (in_bounds rows cols r0 c0)) as Hout.
  { unfold in_bounds. rewrite Z.geb_leb, Z.geb_leb.
    destruct (Z.ltb_spec r0 0), (Z.ltb_spec c0 0), (Z.leb_spec (Z.of_nat rows) r0),
      (Z.leb_spec (Z.of_nat cols) c0), (Z.leb_spec 0 r0), (Z.leb_spec 0 c0),
      (Z.ltb_spec r0 (Z.of_nat rows)), (Z.ltb_spec c0 (Z.of_nat cols));
      simpl; try reflexivity; lia. }
  unfold _bilinear_sample. fold rows cols.
  replace (shape2 dem) with (rows, cols) by (subst rows cols; by destruct (shape2 dem)).
  fold r0 c0 r1 c1 dr dc e00 e10 e01 e11. rewrite Hout. split.
  - intros ->. reflexivity.
  - intros Hin. rewrite Hin. simpl negb. cbv iota.
    split; [intros ->; reflexivity|]. split; [intros ->; reflexivity|].
    apply in_bounds_spec in Hin. rewrite in_bounds_spec. subst r1 c1. lia.
Qed.

End Sampler.

(** ** The horizon sweep, member by member *)

Section SweepRule.
Context {F : Type} {PF : PyFloat F}.
Implicit Types (e : @entry F) (es : list (@entry F)) (M : F).

Lemma horizon_cons e es M : horizon (e :: es) M = horizon es (sweep_step M e).
Proof.
  destruct e as [[[g r] c] a]. cbn [horizon]. unfold sweep_step, entry_angle. simpl.
  destruct (fle (fsub M epsilon) a); [destruct (flt M a)|]; reflexivity.
Qed.

Lemma marked_cons e es M :
  marked (e :: es) M =
    (if fle (fsub M epsilon) (entry_angle e) then [entry_cell e] else [])
    ++ marked es (sweep_step M e).
Proof.
  destruct e as [[[g r] c] a]. cbn [marked]. unfold sweep_step, entry_angle, entry_cell.
  simpl. destruct (fle (fsub M epsilon) a); [destruct (flt M a)|]; reflexivity.
Qed.

Lemma horizon_app es1 es2 M : horizon (es1 ++ es2) M = horizon es2 (horizon es1 M).
Proof.
  revert M. induction es1 as [|e es1 IH]; intros M; [reflexivity|].
  rewrite <- app_comm_cons, !horizon_cons. apply IH.
Qed.

Lemma marked_app es1 es2 M :
  marked (es1 ++ es2) M = marked es1 M ++ marked es2 (horizon es1 M).
Proof.
  revert M. induction es1 as [|e es1 IH]; intros M; [reflexivity|].
  rewrite <- app_comm_cons, !marked_cons, horizon_cons, IH, app_assoc. reflexivity.
Qed.

Lemma horizon_take_S es M k e :
  es !! k = Some e ->
  horizon (take (S k) es) M = sweep_step (horizon (take k es) M) e.
Proof.
  intros H. rewrite (take_S_r _ _ _ H), horizon_app, horizon_cons. reflexivity.
Qed.

(** The running maximum moves only onto a strictly greater angle. *)
Lemma sweep_step_cases M e :
  sweep_step M e = M \/
  (sweep_step M e = entry_angle e /\ flt M (entry_angle e) = true).
Proof.
  unfold sweep_step. destruct (fle (fsub M epsilon) (entry_angle e)); [|by left].
  destruct (flt M (entry_angle e)); [by right|by left].
Qed.

Lemma marked_position es M k e :
  NoDup (map entry_cell es) -> es !! k = Some e ->
  entry_cell e ∈ marked es M <->
  fle (fsub (horizon (take k es) M) epsilon) (entry_angle e) = true.
Proof.
  intros Hnd Hk. rewrite <- (take_drop_middle _ _ _ Hk) in Hnd |- * at 1.
  rewrite map_app in Hnd. cbn [map] in Hnd.
  apply NoDup_app in Hnd as (_ & Hdisj & Hnd). apply NoDup_cons in Hnd as [Hnotin _].
  rewrite marked_app, marked_cons, !elem_of_app. split.
  - intros [H|[H|H]].
    + exfalso. apply marked_subset in H. eapply Hdisj; [exact H|]. apply elem_of_cons. by left.
    + destruct (fle _ _); [done|]. by apply elem_of_nil in H.
    + exfalso. apply marked_subset in H. done.
  - intros ->. right. left. apply elem_of_cons. by left.
Qed.

(** A ray on which no member falls below an earlier one by more than the
    tolerance is marked throughout. *)
Lemma marked_all_direct es M :
  Forall (fun e => fle (fsub M epsilon) (entry_angle e) = true) es ->
  StronglySorted
    (fun e1 e2 => fle (fsub (entry_angle e1) epsilon) (entry_angle e2) = true) es ->
  marked es M = map entry_cell es.
Proof.
  revert M. induction es as [|e es IH]; intros M HM Hs; [reflexivity|].
  apply Forall_cons in HM as [He HM]. apply StronglySorted_inv in Hs as [Hs Hes].
  rewrite marked_cons, He. cbn [app map]. f_equal.
  apply IH; [|exact Hs]. destruct (sweep_step_cases M e) as [->|[-> _]]; done.
Qed.

End SweepRule.

(** ** Every cell has one entry at most *)

Lemma NoDup_range (n : nat) : NoDup (range n).
Proof.
  unfold range. apply (NoDup_fmap_2 Z.of_nat). apply NoDup_seq.
Qed.

Lemma NoDup_cells (rows cols : nat) : NoDup (cells rows cols).
Proof.
  unfold cells. apply NoDup_bind; [| |apply NoDup_range].
  - intros r1 r2 rc _ _ H1 H2.
    apply list_elem_of_bind in H1 as (c1 & H1 & _), H2 as (c2 & H2 & _).
    apply list_elem_of_singleton in H1, H2. congruence.
  - intros r _. apply NoDup_bind; [| |apply NoDup_range].
    + intros c1 c2 rc _ _ H1 H2. apply list_elem_of_singleton in H1, H2. congruence.
    + intros c _. apply NoDup_singleton.
Qed.

Lemma NoDup_omap_inverse {A B} (f : A -> option B) (g : B -> A) (l : list A) :
  (forall x y, f x = Some y -> g y = x) -> NoDup l -> NoDup (map g (omap f l)).
Proof.
  intros Hfg. induction 1 as [|x l Hx Hnd IH]; [constructor|].
  cbn [omap list_omap]. destruct (f x) as [y|] eqn:E; [|exact IH].
  cbn [map]. constructor; [|exact IH]. rewrite (Hfg _ _ E).
  intros Hin. apply Hx. apply list_elem_of_fmap in Hin as (y' & -> & Hy').
  apply list_elem_of_omap in Hy' as (x' & Hx' & E'). by rewrite (Hfg _ _ E').
Qed.

Lemma NoDup_map_filter {A B} (g : A -> B) (p : A -> bool) (l : list A) :
  NoDup (map g l) -> NoDup (map g (List.filter p l)).
Proof.
  induction l as [|x l IH]; [done|]. cbn [map List.filter]. intros Hnd.
  apply NoDup_cons in Hnd as [Hx Hnd]. destruct (p x); [|by apply IH].
  cbn [map]. constructor; [|by apply IH]. intros Hin. apply Hx.
  apply list_elem_of_fmap in Hin as (y & -> & Hy).
  apply list_elem_of_In, filter_In in Hy as [Hy _].
  apply list_elem_of_fmap. exists y. split; [done|]. by apply list_elem_of_In.
Qed.

Section EntryCells.
Context {F : Type} {PF : PyFloat F} {PA : PyAtan2 F}.

Lemma NoDup_radial_entries (dem : ndarray F) (oe : F) (obs_r obs_c : Z) (cs : F)
    (curv : bool) :
  NoDup (map (fun de => entry_cell de.2) (radial_entries dem oe obs_r obs_c cs curv)).
Proof.
  unfold radial_entries. apply NoDup_omap_inverse; [|apply NoDup_cells].
  intros rc [d e] H. simpl. by apply radial_entry_some in H as (-> & _).
Qed.

Lemma NoDup_entries_of (des : list ((Z * Z) * @entry F)) (d : Z * Z) :
  NoDup (map (fun de => entry_cell de.2) des) ->
  NoDup (map entry_cell (entries_of d des)).
Proof.
  intros H. unfold entries_of. rewrite map_map.
  by apply (NoDup_map_filter (fun de : (Z * Z) * @entry F => entry_cell de.2)).
Qed.

(** A cell marked by some ray's sweep is marked by the sweep of the ray that
    holds its entry. *)
Lemma radial_marked_own_ray (des : list ((Z * Z) * @entry F)) (d : Z * Z)
    (es : list (@entry F)) (e : @entry F) :
  NoDup (map (fun de => entry_cell de.2) des) ->
  (d, es) ∈ group des -> e ∈ es ->
  entry_cell e ∈ radial_marked (group des) <->
  entry_cell e ∈ marked (sort_entries es) neg_inf.
Proof.
  intros Hnd Hray He. rewrite elem_of_radial_marked. split.
  - intros (d' & es' & Hray' & Hm).
    pose proof (marked_subset _ _ _ Hm) as Hs.
    apply list_elem_of_fmap in Hs as (e' & Hc & He').
    rewrite sort_entries_perm in He'.
    pose proof (group_entry_origin _ _ _ _ Hray He) as Hde.
    pose proof (group_entry_origin _ _ _ _ Hray' He') as Hde'.
    apply list_elem_of_lookup in Hde as (i & Hi), Hde' as (j & Hj).
    assert (i = j) as <-.
    { eapply NoDup_lookup; [exact Hnd| |].
      - rewrite list_lookup_fmap, Hi. reflexivity.
      - rewrite list_lookup_fmap, Hj. simpl. by rewrite Hc. }
    rewrite Hi in Hj. injection Hj as <- <-.
    apply (rays_of_group des) in Hray as [-> _], Hray' as [-> _].
    exact Hm.
  - intros Hm. by exists d, es.
Qed.

End EntryCells.

Section RadialRule.
Context {F : Type} {PF : PyFloat F} {PA : PyAtan2 F}.

Lemma radial_entries_cell (dem : ndarray F) (oe : F) (obs_r obs_c : Z) (cs : F)
    (curv : bool) (d : Z * Z) (e : @entry F) :
  (d, e) ∈ radial_entries dem oe obs_r obs_c cs curv ->
  radial_entry dem oe obs_r obs_c cs curv (entry_cell e) = Some (d, e) /\
  in_bounds (shape2 dem).1 (shape2 dem).2 (entry_cell e).1 (entry_cell e).2 = true /\
  entry_cell e <> (obs_r, obs_c).
Proof.
  unfold radial_entries. intros H. apply list_elem_of_omap in H as ([r c] & Hin & He).
  apply elem_of_cells in Hin.
  pose proof (radial_entry_some _ _ _ _ _ _ _ _ _ He) as (Hc & Hne & _).
  rewrite Hc. done.
Qed.

(** C6: in the radial engine the members of each ray bucket are swept in
    ascending order of their distance multiplier; a member's cell is visible
    in the returned mask if and only if its angle is at least the running
    maximum before it minus the tolerance [epsilon] (1e-12); and the running
    maximum changes only onto a member's angle that is strictly greater. *)
Theorem radial_sweep_rule (dem : ndarray F) (observer_rc : Z * Z) (h cs : F)
    (curv : bool) (m : ndarray bool) (d : Z * Z) (es : list (@entry F))
    (k : nat) (e : @entry F) :
  _compute_viewshed_radial dem observer_rc h cs curv = Ok m ->
  (d, es) ∈ radial_rays dem (fadd (elevation dem observer_rc.1 observer_rc.2) h)
              observer_rc.1 observer_rc.2 cs curv ->
  sort_entries es !! k = Some e ->
  let sorted := sort_entries es in
  let before := horizon (take k sorted) neg_inf in
  let after := horizon (take (S k) sorted) neg_inf in
  sorted ≡ₚ es /\ StronglySorted g_le sorted /\
  (visible m (entry_cell e).1 (entry_cell e).2 <->
     fle (fsub before epsilon) (entry_angle e) = true) /\
  (after = before \/ (after = entry_angle e /\ flt before (entry_angle e) = true)).
Proof.
  rewrite radial_checked. intros H. apply checked_call_ok in H as [-> Hv].
  intros Hray Hk sorted before after. rewrite radial_rays_group in Hray.
  split; [apply sort_entries_perm|]. split; [apply sort_entries_sorted|]. split.
  - set (des := radial_entries dem (fadd (elevation dem observer_rc.1 observer_rc.2) h)
                  observer_rc.1 observer_rc.2 cs curv) in *.
    pose proof (NoDup_radial_entries dem
                  (fadd (elevation dem observer_rc.1 observer_rc.2) h)
                  observer_rc.1 observer_rc.2 cs curv) as Hnd. fold des in Hnd.
    assert (e ∈ es) as He.
    { rewrite <- (sort_entries_perm es). apply list_elem_of_lookup. by exists k. }
    pose proof (group_entry_origin _ _ _ _ Hray He) as Hde.
    apply radial_entries_cell in Hde as (_ & Hin & Hne).
    unfold radial_mask. fold des.
    rewrite (proj2 (proj2 (grown_mask dem observer_rc h cs _ Hv))).
    rewrite <- surjective_pairing, (radial_marked_own_ray des d es e Hnd Hray He).
    assert (NoDup (map entry_cell sorted)) as Hnds.
    { subst sorted. rewrite sort_entries_perm.
      apply (rays_of_group des) in Hray as [-> _]. by apply NoDup_entries_of. }
    fold sorted. rewrite (marked_position sorted neg_inf k e Hnds Hk). fold before.
    split; [|tauto]. intros [[H1 H2]|[H _]]; [|done].
    exfalso. apply Hne. destruct (entry_cell e). simpl in *. congruence.
  - subst after before. rewrite (horizon_take_S _ _ _ _ Hk). apply sweep_step_cases.
Qed.

End RadialRule.

Section Binary64Rule.
Import Binary64 Scenarios.

Lemma radial_sweep_rule_witness :
  let es : list (@entry float) :=
    [(1, 0, 1, (PrimFloat.sub 5 1 / 10)%float);
     (2, 0, 2, (PrimFloat.sub 0 1 / 20)%float)] in
  let e : @entry float := (2, 0, 2, (PrimFloat.sub 0 1 / 20)%float) in
  let m := mk_ndarray [1; 3]%nat [true; true; false] in
  let sorted := sort_entries es in
  let before := horizon (take 1 sorted) neg_inf in
  let after := horizon (take 2 sorted) neg_inf in
  sorted ≡ₚ es /\ StronglySorted g_le sorted /\
  (visible m 0 2 <-> fle (fsub before epsilon) (entry_angle e) = true) /\
  (after = before \/ (after = entry_angle e /\ flt before (entry_angle e) = true)).
Proof.
  intros es e m.
  apply (@radial_sweep_rule float binary64 slope_atan2 dem_bump (0, 0) 1%float 10%float
           false m (0, 1) es 1%nat e).
  - vm_compute. reflexivity.
  - vm_compute. apply list_elem_of_here.
  - vm_compute. reflexivity.
Defined.

End Binary64Rule.

(** ** Dropping entries from a ray never hides another member *)

Section SweepMonotone.
Context {F : Type} {PF : PyFloat F} {PO : PyFloatOrder F}.
Implicit Types (e : @entry F) (es : list (@entry F)) (M : F).

Lemma sweep_step_not_nan M e : isnan M = false -> isnan (sweep_step M e) = false.
Proof.
  intros HM. destruct (sweep_step_cases M e) as [->|[-> H]]; [done|].
  by apply flt_not_nan in H as [_ H].
Qed.

Lemma sweep_step_ge M e : isnan M = false -> fle M (sweep_step M e) = true.
Proof.
  intros HM. destruct (sweep_step_cases M e) as [->|[-> H]]; [by apply fle_refl|].
  by apply flt_fle.
Qed.

Lemma sweep_step_mono M M' e :
  isnan M = false -> isnan M' = false -> fle M' M = true ->
  fle (sweep_step M' e) (sweep_step M e) = true.
Proof.
  intros HM HM' Hle. unfold sweep_step at 1.
  destruct (fle (fsub M' epsilon) (entry_angle e)) eqn:Hvis';
    [destruct (flt M' (entry_angle e)) eqn:Hgt'|].
  - (* the smaller maximum moves onto the angle *)
    pose proof (flt_not_nan _ _ Hgt') as [_ Ha].
    unfold sweep_step. destruct (fle (fsub M epsilon) (entry_angle e)) eqn:Hvis.
    + destruct (flt M (entry_angle e)) eqn:Hgt; [by apply fle_refl|].
      by apply fle_total.
    + destruct (flt M (entry_angle e)) eqn:Hgt; [|by apply fle_total].
      exfalso. apply flt_fle in Hgt.
      pose proof (fle_trans _ _ _ (sub_epsilon_le M HM) Hgt). congruence.
  - eapply fle_trans; [exact Hle|]. by apply sweep_step_ge.
  - eapply fle_trans; [exact Hle|]. by apply sweep_step_ge.
Qed.

Lemma marked_filter_mono (p : @entry F -> bool) es M M' (rc : Z * Z) :
  isnan M = false -> isnan M' = false -> fle M' M = true ->
  (forall e, e ∈ es -> entry_cell e = rc -> p e = true) ->
  rc ∈ marked es M -> rc ∈ marked (List.filter p es) M'.
Proof.
  revert M M'. induction es as [|e es IH]; intros M M' HM HM' Hle Hp; [done|].
  rewrite marked_cons, elem_of_app. cbn [List.filter]. intros [H|H].
  - destruct (fle (fsub M epsilon) (entry_angle e)) eqn:Hvis; [|by apply elem_of_nil in H].
    apply list_elem_of_singleton in H as ->.
    rewrite (Hp e) by (done || apply elem_of_cons; by left).
    rewrite marked_cons, elem_of_app. left.
    rewrite (fle_trans _ _ _ (sub_epsilon_mono _ _ Hle) Hvis).
    apply elem_of_cons. by left.
  - assert (forall e', e' ∈ es -> entry_cell e' = rc -> p e' = true) as Hp'
      by (intros e' He'; apply Hp, elem_of_cons; by right).
    destruct (p e).
    + rewrite marked_cons, elem_of_app. right.
      apply (IH (sweep_step M e) (sweep_step M' e)); try done.
      * by apply sweep_step_not_nan.
      * by apply sweep_step_not_nan.
      * by apply sweep_step_mono.
    + apply (IH (sweep_step M e) M'); try done.
      * by apply sweep_step_not_nan.
      * eapply fle_trans; [exact Hle|]. by apply sweep_step_ge.
Qed.

End SweepMonotone.

(** ** Replacing a cell's elevation by NaN *)

Section MissingCell.
Context {F : Type} {PF : PyFloat F} {PA : PyAtan2 F}.

Lemma shape_setitem2 {A} (a : ndarray A) (r c : Z) (v : A) :
  shape (setitem2 a r c v) = shape a.
Proof.
  unfold setitem2. destruct (shape2 a) as [rows cols].
  destruct (in_bounds rows cols r c); reflexivity.
Qed.

Lemma shape2_setitem2 {A} (a : ndarray A) (r c : Z) (v : A) :
  shape2 (setitem2 a r c v) = shape2 a.
Proof. unfold shape2. by rewrite shape_setitem2. Qed.

Lemma getitem2_setitem2_ne {A} (a : ndarray A) (r c r' c' : Z) (v : A) :
  (r', c') <> (r, c) -> getitem2 (setitem2 a r c v) r' c' = getitem2 a r' c'.
Proof.
  intros Hne. unfold getitem2. rewrite shape2_setitem2.
  unfold setitem2. destruct (shape2 a) as [rows cols].
  destruct (in_bounds rows cols r' c') eqn:Hb'; [|reflexivity].
  destruct (in_bounds rows cols r c) eqn:Hb; [|reflexivity]. simpl.
  apply list_lookup_insert_ne. intros E.
  destruct (flat_index_inj _ _ _ _ _ _ Hb Hb' E) as [-> ->]. done.
Qed.

Lemma elevation_setitem2_ne (dem : ndarray F) (r c r' c' : Z) (v : F) :
  (r', c') <> (r, c) -> elevation (setitem2 dem r c v) r' c' = elevation dem r' c'.
Proof. intros H. unfold elevation. by rewrite getitem2_setitem2_ne. Qed.

Lemma elevation_setitem2_nan (dem : ndarray F) (r c : Z) :
  in_bounds (shape2 dem).1 (shape2 dem).2 r c = true ->
  elevation (setitem2 dem r c nan) r c = nan.
Proof.
  intros Hb. unfold elevation, getitem2. rewrite shape2_setitem2.
  unfold setitem2. destruct (shape2 dem) as [rows cols]. simpl in Hb. rewrite Hb. simpl.
  destruct (decide (flat_index cols r c < length (data dem))%nat) as [Hlt|Hge].
  - by rewrite list_lookup_insert_eq.
  - rewrite list_insert_ge by lia. rewrite lookup_ge_None_2 by lia. reflexivity.
Qed.

Lemma valid_input_setitem2 (dem : ndarray F) (observer_rc : Z * Z) (h cs : F)
    (k : Z * Z) (v : F) :
  k <> observer_rc -> valid_input dem observer_rc h cs ->
  valid_input (setitem2 dem k.1 k.2 v) observer_rc h cs.
Proof.
  intros Hne (H1 & H2 & H3 & H4 & H5). unfold valid_input, ndim.
  rewrite shape_setitem2, shape2_setitem2, elevation_setitem2_ne; [done|].
  destruct k, observer_rc. simpl. congruence.
Qed.

Lemma radial_entry_setitem2_ne (dem : ndarray F) (oe : F) (obs_r obs_c : Z) (cs : F)
    (curv : bool) (k rc : Z * Z) (v : F) :
  rc <> k ->
  radial_entry (setitem2 dem k.1 k.2 v) oe obs_r obs_c cs curv rc =
  radial_entry dem oe obs_r obs_c cs curv rc.
Proof.
  intros Hne. unfold radial_entry. destruct rc as [r c].
  rewrite elevation_setitem2_ne; [reflexivity|]. destruct k. done.
Qed.

Context {PO : PyFloatOrder F}.

Lemma radial_entry_setitem2_nan (dem : ndarray F) (oe : F) (obs_r obs_c : Z) (cs : F)
    (curv : bool) (k : Z * Z) :
  in_bounds (shape2 dem).1 (shape2 dem).2 k.1 k.2 = true ->
  radial_entry (setitem2 dem k.1 k.2 nan) oe obs_r obs_c cs curv k = None.
Proof.
  intros Hb. unfold radial_entry. destruct k as [r c]. simpl in *.
  destruct ((r =? obs_r) && (c =? obs_c)); [reflexivity|].
  by rewrite elevation_setitem2_nan, nan_is_nan.
Qed.

Lemma omap_radial_entry_setitem2 (dem : ndarray F) (oe : F) (obs_r obs_c : Z) (cs : F)
    (curv : bool) (k : Z * Z) (l : list (Z * Z)) :
  (forall rc, rc ∈ l -> in_bounds (shape2 dem).1 (shape2 dem).2 rc.1 rc.2 = true) ->
  omap (radial_entry (setitem2 dem k.1 k.2 nan) oe obs_r obs_c cs curv) l =
  List.filter (fun de => negb (direction_eqb (entry_cell de.2) k))
    (omap (radial_entry dem oe obs_r obs_c cs curv) l).
Proof.
  induction l as [|rc l IH]; intros Hl; [reflexivity|].
  cbn [omap list_omap]. rewrite IH by (intros; apply Hl, elem_of_cons; by right).
  destruct (decide (rc = k)) as [->|Hne].
  - rewrite radial_entry_setitem2_nan by (apply Hl, elem_of_cons; by left).
    destruct (radial_entry dem oe obs_r obs_c cs curv k) as [[d e]|] eqn:E; [|reflexivity].
    apply radial_entry_some in E as (E & _). simpl. rewrite E.
    by rewrite direction_eqb_refl.
  - rewrite radial_entry_setitem2_ne by done.
    destruct (radial_entry dem oe obs_r obs_c cs curv rc) as [[d e]|] eqn:E; [|reflexivity].
    apply radial_entry_some in E as (E & _). simpl. rewrite E.
    by rewrite direction_eqb_neq.
Qed.

Lemma radial_entries_setitem2 (dem : ndarray F) (oe : F) (obs_r obs_c : Z) (cs : F)
    (curv : bool) (k : Z * Z) :
  radial_entries (setitem2 dem k.1 k.2 nan) oe obs_r obs_c cs curv =
  List.filter (fun de => negb (direction_eqb (entry_cell de.2) k))
    (radial_entries dem oe obs_r obs_c cs curv).
Proof.
  unfold radial_entries. rewrite shape2_setitem2. apply omap_radial_entry_setitem2.
  intros [r c] H. by apply elem_of_cells.
Qed.

Lemma entries_of_filter (p : @entry F -> bool) (d : Z * Z)
    (des : list ((Z * Z) * @entry F)) :
  entries_of d (List.filter (fun de => p de.2) des) = List.filter p (entries_of d des).
Proof.
  unfold entries_of. induction des as [|[d' e] des IH]; [reflexivity|].
  cbn [List.filter]. simpl.
  destruct (p e) eqn:Hp, (direction_eqb d d') eqn:Hd; cbn [List.filter map]; simpl;
    rewrite ?Hp, ?Hd; cbn [map]; rewrite ?IH; try reflexivity.
  all: simpl; rewrite ?Hp; reflexivity.
Qed.

(** C10, the radial half: on every valid input, replacing the elevation of
    a cell other than the observer's by NaN never turns another cell of the
    radial engine's mask from visible to not visible. *)
Lemma radial_nan_never_occludes (dem : ndarray F) (observer_rc : Z * Z) (h cs : F)
    (curv : bool) (k : Z * Z) (m : ndarray bool) :
  k <> observer_rc ->
  _compute_viewshed_radial dem observer_rc h cs curv = Ok m ->
  exists m',
    _compute_viewshed_radial (setitem2 dem k.1 k.2 nan) observer_rc h cs curv = Ok m' /\
    forall r c, (r, c) <> k -> visible m r c -> visible m' r c.
Proof.
  intros Hk. rewrite !radial_checked. intros H. apply checked_call_ok in H as [-> Hv].
  pose proof (valid_input_setitem2 dem observer_rc h cs k nan Hk Hv) as Hv'.
  rewrite (checked_call_valid _ _ _ _ _ Hv'). eexists. split; [reflexivity|].
  intros r c Hne. unfold radial_mask.
  rewrite (proj2 (proj2 (grown_mask dem observer_rc h cs _ Hv))).
  rewrite (proj2 (proj2 (grown_mask _ observer_rc h cs _ Hv'))).
  rewrite shape2_setitem2. intros [Hobs|[Hm Hb]]; [by left|]. right. split; [|exact Hb].
  rewrite elevation_setitem2_ne by (destruct k, observer_rc; simpl; congruence).
  rewrite radial_entries_setitem2.
  set (des := radial_entries dem (fadd (elevation dem observer_rc.1 observer_rc.2) h)
                observer_rc.1 observer_rc.2 cs curv) in *.
  set (p := fun e : @entry F => negb (direction_eqb (entry_cell e) k)).
  apply elem_of_radial_marked in Hm as (d & es & Hray & Hm).
  apply elem_of_radial_marked. exists d, (List.filter p es).
  assert ((r, c) ∈ marked (sort_entries (List.filter p es)) neg_inf) as Hm'.
  { rewrite sort_entries_filter.
    apply (marked_filter_mono p _ neg_inf neg_inf); try done.
    - apply neg_inf_not_nan.
    - apply neg_inf_not_nan.
    - apply fle_refl, neg_inf_not_nan.
    - intros e _ He. subst p. simpl. rewrite He. by rewrite direction_eqb_neq. }
  split; [|exact Hm'].
  apply (rays_of_group (List.filter (fun de => p de.2) des)).
  apply (rays_of_group des) in Hray as [-> _].
  split; [by rewrite entries_of_filter|].
  intros Hnil. rewrite Hnil in Hm'. by apply elem_of_nil in Hm'.
Qed.

End MissingCell.

(** ** Exact arithmetic satisfies the order laws *)

Section ExactOrder.
Import Exact.
Local Open Scope R_scope.

Lemma Rltb_true (x y : R) : Rltb x y = true <-> x < y.
Proof. unfold Rltb. destruct (Rlt_dec x y); split; (done || lra || discriminate). Qed.

Lemma Rltb_false (x y : R) : Rltb x y = false <-> y <= x.
Proof. unfold Rltb. destruct (Rlt_dec x y); split; (done || lra || discriminate). Qed.

Lemma Rleb_true (x y : R) : Rleb x y = true <-> x <= y.
Proof. unfold Rleb. destruct (Rle_dec x y); split; (done || lra || discriminate). Qed.

Lemma Rleb_false (x y : R) : Rleb x y = false <-> y < x.
Proof. unfold Rleb. destruct (Rle_dec x y); split; (done || lra || discriminate). Qed.

Lemma epsilon_pos : 0 < / IZR (10 ^ 12).
Proof. apply Rinv_0_lt_compat. apply IZR_lt. reflexivity. Qed.

#[global] Instance exact_order : PyFloatOrder xreal.
Proof.
  pose proof epsilon_pos as Heps.
  split; simpl.
  - reflexivity.
  - reflexivity.
  - intros [| |x] H; simpl in *; done.
  - intros [|s|x] [|s'|y] H; simpl in *; done.
  - intros [|s|x] [|s'|y] H; simpl in *; done.
  - intros [|[]|x] H; simpl in *; try done. by apply Rleb_true, Rle_refl.
  - intros [|[]|x] [|[]|y] [|[]|z]; simpl; try done.
    rewrite !Rleb_true. lra.
  - intros [|[]|x] [|[]|y]; simpl; try done. rewrite Rltb_true, Rleb_true. lra.
  - intros [|[]|x] [|[]|y] Hx Hy; simpl in *; try done. rewrite Rltb_false, Rleb_true. lra.
  - intros [|[]|x] H; simpl in *; try done. apply Rleb_true. lra.
  - intros [|[]|x] [|[]|y]; simpl; try done. rewrite !Rleb_true. lra.
Qed.

End ExactOrder.

(** ** Rounding of doubles

    [binary_normalize] rounds an integer mantissa with its exponent to the
    nearest double, ties to even; it is a monotone function of the value. *)

(** The number of bits of a mantissa. *)
Lemma digits2_pos_bounds (p : positive) :
  2 ^ (Zpos (digits2_pos p) - 1) <= Zpos p < 2 ^ Zpos (digits2_pos p).
Proof.
  induction p as [p IH|p IH|]; cbn [digits2_pos].
  - rewrite Pos2Z.inj_succ. replace (Z.succ (Zpos (digits2_pos p)) - 1) with (Zpos (digits2_pos p)) by lia.
    rewrite Z.pow_succ_r by lia.
    replace (Zpos (digits2_pos p)) with (Z.succ (Zpos (digits2_pos p) - 1)) at 1 by lia.
    rewrite Z.pow_succ_r by lia. lia.
  - rewrite Pos2Z.inj_succ. replace (Z.succ (Zpos (digits2_pos p)) - 1) with (Zpos (digits2_pos p)) by lia.
    rewrite Z.pow_succ_r by lia.
    replace (Zpos (digits2_pos p)) with (Z.succ (Zpos (digits2_pos p) - 1)) at 1 by lia.
    rewrite Z.pow_succ_r by lia. lia.
  - simpl. lia.
Qed.

Lemma pow2_lt_inv (a b : Z) : 0 <= b -> 2 ^ a < 2 ^ b -> a < b.
Proof. intros Hb H. apply (Z.pow_lt_mono_r_iff 2); lia. Qed.

Lemma digits_unique (d : Z) (p : positive) :
  0 < d -> 2 ^ (d - 1) <= Zpos p < 2 ^ d -> Zpos (digits2_pos p) = d.
Proof.
  intros Hd [H1 H2]. pose proof (digits2_pos_bounds p) as [H3 H4].
  assert (d - 1 < Zpos (digits2_pos p)) by (apply pow2_lt_inv; lia).
  assert (Zpos (digits2_pos p) - 1 < d) by (apply pow2_lt_inv; lia).
  lia.
Qed.

Lemma iter_pos_nat {A} (f : A -> A) (p : positive) (x : A) :
  SpecFloat.iter_pos f p x = Nat.iter (Pos.to_nat p) f x.
Proof.
  revert x. induction p as [p IH|p IH|]; intros x; cbn [SpecFloat.iter_pos].
  - rewrite !IH, Pos2Nat.inj_xI. 
    replace (S (2 * Pos.to_nat p)) with (Pos.to_nat p + (Pos.to_nat p + 1))%nat by lia.
    rewrite !Nat.iter_add. simpl. reflexivity.
  - rewrite !IH, Pos2Nat.inj_xO.
    replace (2 * Pos.to_nat p)%nat with (Pos.to_nat p + Pos.to_nat p)%nat by lia.
    rewrite Nat.iter_add. reflexivity.
  - reflexivity.
Qed.

Lemma shr_1_nonneg (m : Z) (r s : bool) :
  0 <= m ->
  shr_1 {| shr_m := m; shr_r := r; shr_s := s |} =
    {| shr_m := m / 2; shr_r := Z.odd m; shr_s := r || s |}.
Proof.
  intros Hm. destruct m as [|[p|p|]|p]; try lia; cbn [shr_1].
  - reflexivity.
  - f_equal. rewrite Pos2Z.inj_xI. apply (Z.div_unique _ _ _ 1); lia.
  - f_equal. rewrite Pos2Z.inj_xO. apply (Z.div_unique _ _ _ 0); lia.
  - reflexivity.
Qed.

(** The record after [S n] one-bit shifts of [m]. *)
Lemma shr_iter_state (m : Z) (n : nat) :
  0 <= m ->
  Nat.iter (S n) shr_1 {| shr_m := m; shr_r := false; shr_s := false |} =
    {| shr_m := m / 2 ^ Z.of_nat (S n);
       shr_r := Z.odd (m / 2 ^ Z.of_nat n);
       shr_s := negb (m mod 2 ^ Z.of_nat n =? 0) |}.
Proof.
  intros Hm. induction n as [|n IH].
  - cbn [Nat.iter]. rewrite shr_1_nonneg by done. f_equal.
    + change (2 ^ Z.of_nat 0) with 1. by rewrite Z.div_1_r.
    + change (2 ^ Z.of_nat 0) with 1. by rewrite Z.mod_1_r.
  - rewrite (Nat.iter_succ (S n)), IH.
    assert (0 < 2 ^ Z.of_nat n) as Hp by (apply Z.pow_pos_nonneg; lia).
    assert (0 < 2 ^ Z.of_nat (S n)) as Hp' by (apply Z.pow_pos_nonneg; lia).
    rewrite shr_1_nonneg by (apply Z.div_pos; lia).
    assert (2 ^ Z.of_nat (S n) = 2 ^ Z.of_nat n * 2) as E
      by (rewrite Nat2Z.inj_succ, Z.pow_succ_r by lia; lia).
    assert (2 ^ Z.of_nat (S (S n)) = 2 ^ Z.of_nat (S n) * 2) as E'
      by (rewrite (Nat2Z.inj_succ (S n)), Z.pow_succ_r by lia; lia).
    f_equal.
    + rewrite E', Z.div_div by lia. reflexivity.
    + (* sticky *)
      pose proof (Z.div_mod m (2 ^ Z.of_nat n) ltac:(lia)) as Hdm.
      pose proof (Z.mod_pos_bound m (2 ^ Z.of_nat n) Hp) as Hb.
      set (a := m / 2 ^ Z.of_nat n) in *. set (b := m mod 2 ^ Z.of_nat n) in *.
      assert (m mod 2 ^ Z.of_nat (S n) = (a mod 2) * 2 ^ Z.of_nat n + b) as Hr.
      { symmetry. apply (Z.mod_unique_pos _ _ (a / 2)).
        - pose proof (Z.mod_pos_bound a 2 ltac:(lia)). rewrite E. nia.
        - pose proof (Z.div_mod a 2 ltac:(lia)). rewrite E. nia. }
      rewrite Hr. rewrite Zodd_mod.
      pose proof (Z.mod_pos_bound a 2 ltac:(lia)).
      destruct (Z.eqb_spec (a mod 2) 1) as [E1|E1].
      * rewrite E1. simpl. destruct (Z.eqb_spec (1 * 2 ^ Z.of_nat n + b) 0); [lia|done].
      * assert (a mod 2 = 0) as -> by lia. simpl. reflexivity.
Qed.

Lemma round_after_shift (m : Z) (p : positive) :
  0 <= m ->
  let mrs := SpecFloat.iter_pos shr_1 p {| shr_m := m; shr_r := false; shr_s := false |} in
  round_nearest_even (shr_m mrs) (loc_of_shr_record mrs) = rne_quotient m (2 ^ Zpos p).
Proof.
  intros Hm mrs. subst mrs. rewrite iter_pos_nat.
  destruct (Pos.to_nat p) as [|n] eqn:En; [lia|].
  assert (Zpos p = Z.of_nat (S n)) as -> by lia.
  rewrite shr_iter_state by done.
  assert (0 < 2 ^ Z.of_nat n) as Hp by (apply Z.pow_pos_nonneg; lia).
  assert (2 ^ Z.of_nat (S n) = 2 ^ Z.of_nat n * 2) as E
    by (rewrite Nat2Z.inj_succ, Z.pow_succ_r by lia; lia).
  pose proof (Z.div_mod m (2 ^ Z.of_nat n) ltac:(lia)) as Hdm.
  pose proof (Z.mod_pos_bound m (2 ^ Z.of_nat n) Hp) as Hb.
  set (a := m / 2 ^ Z.of_nat n) in *. set (b := m mod 2 ^ Z.of_nat n) in *.
  pose proof (Z.mod_pos_bound a 2 ltac:(lia)) as Ha2.
  pose proof (Z.div_mod a 2 ltac:(lia)) as Ha.
  assert (m mod 2 ^ Z.of_nat (S n) = (a mod 2) * 2 ^ Z.of_nat n + b) as Hr.
  { symmetry. apply (Z.mod_unique_pos _ _ (a / 2)); rewrite E; nia. }
  assert (m / 2 ^ Z.of_nat (S n) = a / 2) as Hq.
  { rewrite E. subst a. rewrite Z.div_div by lia. reflexivity. }
  unfold rne_quotient, rne_up. rewrite Hr, Hq, E. cbn [shr_m]. rewrite Zodd_mod.
  destruct (Z.eqb_spec (a mod 2) 1) as [E1|E1].
  - rewrite E1. destruct (Z.eqb_spec b 0) as [E0|E0]; simpl negb; cbn [loc_of_shr_record].
    + rewrite E0. replace (2 * (1 * 2 ^ Z.of_nat n + 0)) with (2 ^ Z.of_nat n * 2) by lia.
      rewrite Z.compare_refl. cbn [round_nearest_even].
      destruct (Z.even (a / 2)); reflexivity.
    + assert ((2 * (1 * 2 ^ Z.of_nat n + b) ?= 2 ^ Z.of_nat n * 2) = Gt) as Hgt
        by (apply Z.compare_gt_iff; lia).
      rewrite Hgt. reflexivity.
  - assert (a mod 2 = 0) as -> by lia.
    assert ((2 * (0 * 2 ^ Z.of_nat n + b) ?= 2 ^ Z.of_nat n * 2) = Lt) as Hlt
      by (apply Z.compare_lt_iff; lia).
    rewrite Hlt.
    destruct (Z.eqb_spec b 0); reflexivity.
Qed.

Lemma rne_quotient_scale (m p c : Z) :
  0 < p -> 0 < c -> rne_quotient (m * c) (p * c) = rne_quotient m p.
Proof.
  intros Hp Hc. unfold rne_quotient, rne_up.
  rewrite Z.div_mul_cancel_r by lia. rewrite Z.mul_mod_distr_r by lia.
  assert ((2 * (m mod p * c) ?= p * c) = (2 * (m mod p) ?= p)) as ->; [|reflexivity].
  destruct (Z.compare_spec (2 * (m mod p)) p) as [E|E|E].
  - apply Z.compare_eq_iff. nia.
  - apply Z.compare_lt_iff. nia.
  - apply Z.compare_gt_iff. nia.
Qed.

Lemma rne_quotient_exact (m : Z) : rne_quotient m 1 = m.
Proof.
  unfold rne_quotient, rne_up. rewrite Z.div_1_r, Z.mod_1_r. reflexivity.
Qed.

Lemma rne_quotient_bounds (m p : Z) :
  0 < p -> m / p <= rne_quotient m p <= m / p + 1.
Proof. intros Hp. unfold rne_quotient. destruct (rne_up _ _ _); lia. Qed.

(** Rounding to nearest, ties to even, is monotone. *)
Lemma rne_quotient_mono (m m' p : Z) :
  0 < p -> m <= m' -> rne_quotient m p <= rne_quotient m' p.
Proof.
  intros Hp Hle.
  pose proof (Z.div_le_mono m m' p Hp Hle) as Hq.
  pose proof (rne_quotient_bounds m p Hp). pose proof (rne_quotient_bounds m' p Hp).
  destruct (Z.eq_dec (m / p) (m' / p)) as [E|E]; [|lia].
  pose proof (Z.div_mod m p ltac:(lia)). pose proof (Z.div_mod m' p ltac:(lia)).
  assert (m mod p <= m' mod p) as Hr by nia.
  unfold rne_quotient, rne_up. rewrite <- E.
  destruct (Z.compare_spec (2 * (m mod p)) p), (Z.compare_spec (2 * (m' mod p)) p);
    try lia; destruct (Z.even (m / p)); simpl; lia.
Qed.

Lemma digits2_pos_shift (m : positive) (j : Z) (p : positive) :
  0 <= j -> Zpos p = Zpos m * 2 ^ j -> Zpos (digits2_pos p) = Zpos (digits2_pos m) + j.
Proof.
  intros Hj Hp. apply digits_unique; [lia|]. rewrite Hp.
  pose proof (digits2_pos_bounds m) as [H1 H2].
  assert (0 < 2 ^ j) by (apply Z.pow_pos_nonneg; lia).
  replace (Zpos (digits2_pos m) + j - 1) with (Zpos (digits2_pos m) - 1 + j) by lia.
  rewrite !Z.pow_add_r by lia. nia.
Qed.

Lemma pos_iter_xO (m d : positive) : Zpos (Pos.iter xO m d) = Zpos m * 2 ^ Zpos d.
Proof.
  change (Pos.iter xO m d) with (shift_pos d m). rewrite shift_pos_correct.
  rewrite Zpower_pos_nat, Zpower_nat_Z, positive_nat_Z. lia.
Qed.

Lemma fexp_eq (e : Z) : fexp prec emax e = Z.max (e - 53) (-1074).
Proof. reflexivity. Qed.

Lemma shr_no_shift (mrs : shr_record) (e n : Z) : n <= 0 -> shr mrs e n = (mrs, e).
Proof. intros H. destruct n; try reflexivity. lia. Qed.

Lemma finish_char (s : bool) (m1 e' : Z) :
  -1074 <= e' -> 0 <= m1 <= 2 ^ 53 -> finish s m1 e' = encode s (normal_pair m1 e').
Proof.
  intros He Hm. unfold finish, shr_fexp, normal_pair. rewrite fexp_eq.
  destruct (Z.eqb_spec m1 (2 ^ 53)) as [->|Hne].
  - change (Zdigits2 (2 ^ 53)) with 54.
    replace (Z.max (54 + e' - 53) (-1074) - e') with 1 by lia.
    cbn [shr shr_record_of_loc SpecFloat.iter_pos]. 
    change (shr_1 {| shr_m := 2 ^ 53; shr_r := false; shr_s := false |})
      with {| shr_m := 2 ^ 52; shr_r := false; shr_s := false |}.
    cbn [shr_m]. unfold encode. cbn [fst snd]. reflexivity.
  - destruct m1 as [|p|p]; [| |lia].
    + rewrite shr_no_shift by (cbn [Zdigits2]; lia). reflexivity.
    + assert (Zpos (digits2_pos p) <= 53) as Hd.
      { pose proof (digits2_pos_bounds p) as [H1 _].
        assert (Zpos (digits2_pos p) - 1 < 53) by (apply pow2_lt_inv; lia). lia. }
      rewrite shr_no_shift by (cbn [Zdigits2]; lia).
      cbn [shr_record_of_loc shr_m]. unfold encode. cbn [fst snd]. reflexivity.
Qed.

Lemma binary_round_aux_char (s : bool) (mz : positive) (ez : Z) :
  let n := fexp prec emax (Zpos (digits2_pos mz) + ez) - ez in
  0 <= n ->
  binary_round_aux prec emax s (Zpos mz) ez loc_Exact =
    encode s (normal_pair (rne_quotient (Zpos mz) (2 ^ n)) (ez + n)).
Proof.
  intros n Hn.
  pose proof (digits2_pos_bounds mz) as [Hd1 Hd2].
  assert (0 < 2 ^ n) as Hpn by (apply Z.pow_pos_nonneg; lia).
  assert (rne_quotient (Zpos mz) (2 ^ n) <= 2 ^ 53) as Hm1.
  { pose proof (rne_quotient_bounds (Zpos mz) (2 ^ n) Hpn) as [_ H].
    assert (Zpos mz / 2 ^ n < 2 ^ 53); [|lia].
    apply Z.div_lt_upper_bound; [lia|]. rewrite <- Z.pow_add_r by lia.
    eapply Z.lt_le_trans; [exact Hd2|]. apply Z.pow_le_mono_r; [lia|].
    subst n. rewrite fexp_eq. lia. }
  assert (0 <= rne_quotient (Zpos mz) (2 ^ n)) as Hm0.
  { pose proof (rne_quotient_bounds (Zpos mz) (2 ^ n) Hpn) as [H _].
    assert (0 <= Zpos mz / 2 ^ n) by (apply Z.div_pos; lia). lia. }
  rewrite <- finish_char by (subst n; rewrite ?fexp_eq in *; lia).
  unfold binary_round_aux, finish, shr_fexp at 1. cbn [Zdigits2]. fold n.
  cbn [shr_record_of_loc]. destruct n as [|p|p] eqn:En; [| |lia].
  - cbn [shr shr_m loc_of_shr_record round_nearest_even].
    change (2 ^ 0) with 1. rewrite rne_quotient_exact, Z.add_0_r. reflexivity.
  - cbn [shr]. rewrite (round_after_shift (Zpos mz) p) by lia. reflexivity.
Qed.

Lemma Zdigits2_scaled (m : positive) (j : Z) :
  0 <= j -> Zdigits2 (Zpos m * 2 ^ j) = Zpos (digits2_pos m) + j.
Proof.
  intros Hj. assert (0 < 2 ^ j) by (apply Z.pow_pos_nonneg; lia).
  destruct (Zpos m * 2 ^ j) as [|p|p] eqn:E; [lia| |lia].
  cbn [Zdigits2]. apply digits2_pos_shift; [lia|]. by rewrite E.
Qed.

Lemma binary_round_char (s : bool) (m : positive) (e : Z) :
  -1074 <= e ->
  binary_round prec emax s m e = encode s (round_pair (Zpos m * 2 ^ (e + 1074))).
Proof.
  intros He. unfold binary_round, round_pair.
  rewrite Zdigits2_scaled by lia. rewrite fexp_eq.
  set (d := Zpos (digits2_pos m)). set (fe := Z.max (d + e - 53) (-1074)).
  replace (Z.max (d + (e + 1074) - 53) 0) with (fe + 1074) by lia.
  replace (fe + 1074 - 1074) with fe by lia.
  unfold shl_align. destruct (fe - e) as [|p|p] eqn:En.
  - (* already aligned *)
    rewrite binary_round_aux_char by (rewrite ?fexp_eq; fold d fe; lia).
    rewrite fexp_eq. fold d fe. rewrite En, Z.add_0_r. change (2 ^ 0) with 1.
    replace fe with e by lia. rewrite rne_quotient_exact.
    rewrite <- (Z.mul_1_l (2 ^ (e + 1074))) at 2.
    rewrite rne_quotient_scale by (try apply Z.pow_pos_nonneg; lia).
    by rewrite rne_quotient_exact.
  - (* the mantissa has bits to drop *)
    rewrite binary_round_aux_char by (rewrite ?fexp_eq; fold d fe; lia).
    rewrite fexp_eq. fold d fe. rewrite En.
    replace (e + Zpos p) with fe by lia.
    replace (fe + 1074) with (Zpos p + (e + 1074)) by lia.
    rewrite (Z.pow_add_r 2 (Zpos p)) by lia.
    rewrite rne_quotient_scale by (apply Z.pow_pos_nonneg; lia). reflexivity.
  - (* the mantissa is shifted left *)
    assert (Zpos (Pos.iter xO m p) = Zpos m * 2 ^ Zpos p) as Hmz by apply pos_iter_xO.
    assert (Zpos (digits2_pos (Pos.iter xO m p)) = d + Zpos p) as Hdz
      by (apply digits2_pos_shift; [lia|exact Hmz]).
    assert (fexp prec emax (Zpos (digits2_pos (Pos.iter xO m p)) + fe) - fe = 0) as Hn
      by (rewrite fexp_eq, Hdz; lia).
    rewrite binary_round_aux_char by (rewrite ?Hn; lia).
    rewrite Hn, Z.add_0_r. change (2 ^ 0) with 1. rewrite rne_quotient_exact, Hmz.
    replace (e + 1074) with (Zpos p + (fe + 1074)) by lia.
    rewrite (Z.pow_add_r 2 (Zpos p)) by lia. rewrite Z.mul_assoc.
    rewrite <- (Z.mul_1_l (2 ^ (fe + 1074))) at 2.
    rewrite rne_quotient_scale by (try apply Z.pow_pos_nonneg; lia).
    by rewrite rne_quotient_exact.
Qed.

Lemma encode_leb_pos (a b : Z * Z) :
  0 < a.1 -> 0 < b.1 -> lex_le a b -> SFleb (encode false a) (encode false b) = true.
Proof.
  destruct a as [[|m|m] e], b as [[|m'|m'] e']; cbn [fst snd]; try lia.
  intros _ _ Hle. unfold lex_le in Hle. cbn [fst snd] in Hle. unfold encode. cbn [fst snd].
  destruct (Z.leb_spec e 971), (Z.leb_spec e' 971); unfold SFleb; cbn [SFcompare];
    try reflexivity; [|lia].
  change (Pos.compare_cont Eq m m') with (m ?= m')%positive.
  destruct (Z.compare_spec e e'); [|reflexivity|lia].
  destruct (Pos.compare_spec m m'); try reflexivity. lia.
Qed.

Lemma encode_leb_neg (a b : Z * Z) :
  0 < a.1 -> 0 < b.1 -> lex_le a b -> SFleb (encode true b) (encode true a) = true.
Proof.
  destruct a as [[|m|m] e], b as [[|m'|m'] e']; cbn [fst snd]; try lia.
  intros _ _ Hle. unfold lex_le in Hle. cbn [fst snd] in Hle. unfold encode. cbn [fst snd].
  destruct (Z.leb_spec e 971), (Z.leb_spec e' 971); unfold SFleb; cbn [SFcompare];
    try reflexivity; [|lia].
  change (Pos.compare_cont Eq m' m) with (m' ?= m)%positive.
  destruct (Z.compare_spec e' e); [|lia|reflexivity].
  destruct (Pos.compare_spec m' m); try reflexivity. lia.
Qed.

(** The exponent shift and the quotient of a positive scaled value. *)
Lemma round_quotient_bounds (V : Z) :
  0 < V ->
  let k := Z.max (Zdigits2 V - 53) 0 in
  0 < 2 ^ k /\ 1 <= V / 2 ^ k < 2 ^ 53 /\ (0 < k -> 2 ^ 52 <= V / 2 ^ k) /\
  2 ^ (Zdigits2 V - 1) <= V < 2 ^ Zdigits2 V /\ 0 < Zdigits2 V.
Proof.
  intros HV k. destruct V as [|p|p]; try lia. cbn [Zdigits2] in *.
  pose proof (digits2_pos_bounds p) as [H1 H2]. set (d := Zpos (digits2_pos p)) in *.
  assert (0 < 2 ^ k) as Hk by (apply Z.pow_pos_nonneg; lia).
  split; [exact Hk|]. split; [|split; [|split; [split; assumption|lia]]].
  - split.
    + apply Z.div_le_lower_bound; [lia|]. rewrite Z.mul_1_r.
      eapply Z.le_trans; [|exact H1]. apply Z.pow_le_mono_r; lia.
    + apply Z.div_lt_upper_bound; [lia|]. rewrite <- Z.pow_add_r by lia.
      eapply Z.lt_le_trans; [exact H2|]. apply Z.pow_le_mono_r; lia.
  - intros Hpos. apply Z.div_le_lower_bound; [lia|]. rewrite <- Z.pow_add_r by lia.
    eapply Z.le_trans; [|exact H1]. apply Z.pow_le_mono_r; lia.
Qed.

Lemma round_pair_pos (V : Z) : 0 < V -> 0 < (round_pair V).1.
Proof.
  intros HV. unfold round_pair, normal_pair.
  pose proof (round_quotient_bounds V HV) as (Hk & [Hq1 Hq2] & _). cbv zeta in *.
  pose proof (rne_quotient_bounds V _ Hk).
  destruct (_ =? 2 ^ 53); cbn [fst]; lia.
Qed.

Lemma round_pair_mono (V V' : Z) : 0 < V <= V' -> lex_le (round_pair V) (round_pair V').
Proof.
  intros [HV Hle]. assert (0 < V') as HV' by lia.
  pose proof (round_quotient_bounds V HV) as (Hk & [Hq1 Hq2] & Hn & [Hd1 Hd2] & Hd).
  pose proof (round_quotient_bounds V' HV') as (Hk' & [Hq1' Hq2'] & Hn' & [Hd1' Hd2'] & Hd').
  cbv zeta in *. unfold round_pair.
  set (k := Z.max (Zdigits2 V - 53) 0) in *. set (k' := Z.max (Zdigits2 V' - 53) 0) in *.
  pose proof (rne_quotient_bounds V _ Hk) as Hm. pose proof (rne_quotient_bounds V' _ Hk') as Hm'.
  assert (Zdigits2 V <= Zdigits2 V') as Hdd.
  { assert (Zdigits2 V - 1 < Zdigits2 V') by (apply pow2_lt_inv; lia). lia. }
  assert (k <= k') as Hkk by lia.
  unfold lex_le, normal_pair.
  destruct (Z.eq_dec k k') as [E|E].
  - rewrite <- E in *. pose proof (rne_quotient_mono V V' (2 ^ k) Hk Hle).
    destruct (Z.eqb_spec (rne_quotient V (2 ^ k)) (2 ^ 53)),
      (Z.eqb_spec (rne_quotient V' (2 ^ k)) (2 ^ 53)); cbn [fst snd]; lia.
  - assert (0 < k') as Hpos by lia. specialize (Hn' Hpos).
    destruct (Z.eqb_spec (rne_quotient V (2 ^ k)) (2 ^ 53)),
      (Z.eqb_spec (rne_quotient V' (2 ^ k')) (2 ^ 53)); cbn [fst snd]; lia.
Qed.

Lemma encode_shape (s : bool) (a : Z * Z) :
  0 < a.1 ->
  (exists m e, encode s a = S754_finite s m e) \/ encode s a = S754_infinity s.
Proof.
  destruct a as [[|m|m] e]; cbn [fst]; try lia. intros _. unfold encode. cbn [fst snd].
  destruct (e <=? 971); [left; by exists m, e|by right].
Qed.

Lemma RoundZ_shape (n : Z) :
  match n with
  | Z0 => RoundZ n = S754_zero false
  | Zpos _ => (exists m e, RoundZ n = S754_finite false m e) \/ RoundZ n = S754_infinity false
  | Zneg _ => (exists m e, RoundZ n = S754_finite true m e) \/ RoundZ n = S754_infinity true
  end.
Proof.
  destruct n as [|p|p]; [reflexivity| |]; apply encode_shape, round_pair_pos; lia.
Qed.

Lemma RoundZ_num (n : Z) : SFnum (RoundZ n) = true.
Proof.
  pose proof (RoundZ_shape n) as H.
  destruct n; [by rewrite H| |]; destruct H as [(m & e & ->)| ->]; reflexivity.
Qed.

Lemma RoundZ_mono (n n' : Z) : n <= n' -> SFleb (RoundZ n) (RoundZ n') = true.
Proof.
  intros Hle. pose proof (RoundZ_shape n) as H. pose proof (RoundZ_shape n') as H'.
  destruct n as [|p|p], n' as [|p'|p']; try lia.
  - reflexivity.
  - rewrite H. destruct H' as [(m & e & ->)| ->]; reflexivity.
  - apply encode_leb_pos; try (apply round_pair_pos; lia). apply round_pair_mono. lia.
  - rewrite H'. destruct H as [(m & e & ->)| ->]; reflexivity.
  - destruct H as [(m & e & ->)| ->], H' as [(m' & e' & ->)| ->]; reflexivity.
  - apply encode_leb_neg; try (apply round_pair_pos; lia). apply round_pair_mono. lia.
Qed.

Lemma binary_normalize_char (M e : Z) :
  -1074 <= e -> binary_normalize prec emax M e false = RoundZ (M * 2 ^ (e + 1074)).
Proof.
  intros He. assert (0 < 2 ^ (e + 1074)) as Hp by (apply Z.pow_pos_nonneg; lia).
  destruct M as [|m|m]; cbn [binary_normalize].
  - reflexivity.
  - rewrite binary_round_char by done.
    destruct (Zpos m * 2 ^ (e + 1074)) as [|p|p] eqn:E; try lia. reflexivity.
  - rewrite binary_round_char by done.
    destruct (Zneg m * 2 ^ (e + 1074)) as [|p|p] eqn:E; try lia.
    replace (Zpos m * 2 ^ (e + 1074)) with (Zpos p) by lia. reflexivity.
Qed.

Lemma bounded_spec (m : positive) (e : Z) :
  SpecFloat.bounded prec emax m e = true ->
  -1074 <= e <= 971 /\ Zpos (digits2_pos m) <= 53 /\
  (-1074 < e -> Zpos (digits2_pos m) = 53).
Proof.
  unfold SpecFloat.bounded, canonical_mantissa. rewrite andb_true_iff, Z.eqb_eq, Z.leb_le, fexp_eq.
  change (emax - prec) with 971. lia.
Qed.

Lemma mantissa_bounds (m : positive) (e : Z) :
  SpecFloat.bounded prec emax m e = true ->
  Zpos m < 2 ^ 53 /\ (-1074 < e -> 2 ^ 52 <= Zpos m).
Proof.
  intros H. apply bounded_spec in H as (He & Hd & Hn).
  pose proof (digits2_pos_bounds m) as [H1 H2]. split.
  - eapply Z.lt_le_trans; [exact H2|]. apply Z.pow_le_mono_r; lia.
  - intros Hlt. rewrite (Hn Hlt) in H1. exact H1.
Qed.

Lemma RoundZ_IV (s : bool) (m : positive) (e : Z) :
  SpecFloat.bounded prec emax m e = true -> RoundZ (IV (S754_finite s m e)) = S754_finite s m e.
Proof.
  intros Hb. pose proof (mantissa_bounds m e Hb) as [Hm _].
  apply bounded_spec in Hb as (He & Hd & Hn).
  assert (0 < 2 ^ (e + 1074)) as Hp by (apply Z.pow_pos_nonneg; lia).
  assert (round_pair (Zpos m * 2 ^ (e + 1074)) = (Zpos m, e)) as Hr.
  { unfold round_pair. rewrite Zdigits2_scaled by lia.
    replace (Z.max (Zpos (digits2_pos m) + (e + 1074) - 53) 0) with (e + 1074) by lia.
    rewrite <- (Z.mul_1_l (2 ^ (e + 1074))) at 2.
    rewrite rne_quotient_scale, rne_quotient_exact by lia.
    unfold normal_pair. destruct (Z.eqb_spec (Zpos m) (2 ^ 53)); [lia|]. f_equal. lia. }
  cbn [IV]. destruct s; cbn [cond_Zopp].
  - destruct (- (Zpos m * 2 ^ (e + 1074))) as [|p|p] eqn:E; try lia. cbn [RoundZ].
    replace (Zpos p) with (Zpos m * 2 ^ (e + 1074)) by lia. rewrite Hr.
    unfold encode. cbn [fst snd]. destruct (Z.leb_spec e 971); [reflexivity|lia].
  - destruct (Zpos m * 2 ^ (e + 1074)) as [|p|p] eqn:E; try lia. cbn [RoundZ].
    rewrite Hr. unfold encode. cbn [fst snd]. destruct (Z.leb_spec e 971); [reflexivity|lia].
Qed.

Lemma scaled_lt (m m' : positive) (e e' : Z) :
  SpecFloat.bounded prec emax m e = true -> SpecFloat.bounded prec emax m' e' = true -> e < e' ->
  Zpos m * 2 ^ (e + 1074) < Zpos m' * 2 ^ (e' + 1074).
Proof.
  intros Hb Hb' Hlt.
  pose proof (mantissa_bounds m e Hb) as [Hm _].
  pose proof (mantissa_bounds m' e' Hb') as [_ Hm'].
  apply bounded_spec in Hb as (He & _), Hb' as (He' & _).
  specialize (Hm' ltac:(lia)).
  assert (0 < 2 ^ (e + 1074)) as Hp by (apply Z.pow_pos_nonneg; lia).
  replace (e' + 1074) with ((e' - e - 1) + 1 + (e + 1074)) by lia.
  rewrite (Z.pow_add_r 2 (e' - e - 1 + 1) (e + 1074)) by lia.
  rewrite (Z.pow_add_r 2 (e' - e - 1) 1) by lia.
  assert (1 <= 2 ^ (e' - e - 1)) by (apply (Z.pow_le_mono_r 2 0); lia).
  change (2 ^ 1) with 2. change (2 ^ 53) with (2 ^ 52 * 2) in Hm.
  set (P := 2 ^ (e + 1074)) in *. set (Q := 2 ^ (e' - e - 1)) in *.
  set (T := 2 ^ 52) in *.
  assert (Zpos m * P < T * 2 * P) by nia.
  assert (T * (2 * P) <= Zpos m' * (2 * P)) by (apply Z.mul_le_mono_nonneg_r; lia).
  assert (Zpos m' * (2 * P) * 1 <= Zpos m' * (2 * P) * Q)
    by (apply Z.mul_le_mono_nonneg_l; lia).
  lia.
Qed.

Lemma IV_mono (x y : spec_float) :
  SpecFloat.valid_binary prec emax x = true -> SpecFloat.valid_binary prec emax y = true ->
  SFfinite x = true -> SFfinite y = true ->
  SFleb x y = true -> IV x <= IV y.
Proof.
  destruct x as [sx| | |sx mx ex], y as [sy| | |sy my ey]; try done; cbn [SpecFloat.valid_binary IV];
    intros Hx Hy _ _; unfold SFleb; cbn [SFcompare].
  - destruct sy; [done|]. intros _. cbn [cond_Zopp].
    apply bounded_spec in Hy as (He & _).
    assert (0 < 2 ^ (ey + 1074)) by (apply Z.pow_pos_nonneg; lia). lia.
  - destruct sx; [|done]. intros _. cbn [cond_Zopp].
    apply bounded_spec in Hx as (He & _).
    assert (0 < 2 ^ (ex + 1074)) by (apply Z.pow_pos_nonneg; lia). lia.
  - pose proof (bounded_spec _ _ Hx) as (Hex & _). pose proof (bounded_spec _ _ Hy) as (Hey & _).
    assert (0 < 2 ^ (ex + 1074)) by (apply Z.pow_pos_nonneg; lia).
    assert (0 < 2 ^ (ey + 1074)) by (apply Z.pow_pos_nonneg; lia).
    change (Pos.compare_cont Eq mx my) with (mx ?= my)%positive.
    destruct sx, sy; cbn [cond_Zopp]; try done; try lia.
    + destruct (Z.compare_spec ex ey) as [E|E|E]; try done.
      * subst ey. destruct (Pos.compare_spec mx my); try done; intros _; nia.
      * intros _. pose proof (scaled_lt _ _ _ _ Hy Hx E). lia.
    + destruct (Z.compare_spec ex ey) as [E|E|E]; try done.
      * subst ey. destruct (Pos.compare_spec mx my); try done; intros _; nia.
      * intros _. pose proof (scaled_lt _ _ _ _ Hx Hy E). lia.
Qed.

Lemma shl_align_fst (m : positive) (e ez : Z) :
  ez <= e -> Zpos (fst (shl_align m e ez)) = Zpos m * 2 ^ (e - ez).
Proof.
  intros H. unfold shl_align. destruct (ez - e) as [|p|p] eqn:E; cbn [fst]; try lia.
  - replace (e - ez) with 0 by lia. lia.
  - rewrite pos_iter_xO. f_equal. f_equal. lia.
Qed.

Lemma cond_Zopp_mul (s : bool) (a b : Z) : cond_Zopp s a * b = cond_Zopp s (a * b).
Proof. destruct s; cbn [cond_Zopp]; lia. Qed.

(** Subtraction of finite doubles rounds the difference of their values. *)
Lemma SFsub_char (x : spec_float) (sy : bool) (my : positive) (ey : Z) :
  SpecFloat.valid_binary prec emax x = true -> SpecFloat.bounded prec emax my ey = true ->
  SFfinite x = true ->
  SFsub prec emax x (S754_finite sy my ey) = RoundZ (IV x - IV (S754_finite sy my ey)).
Proof.
  intros Hx Hy Hf. destruct x as [sx| | |sx mx ex]; try done.
  - cbn [SFsub]. cbn [IV].
    replace (0 - cond_Zopp sy (Zpos my * 2 ^ (ey + 1074)))
      with (IV (S754_finite (negb sy) my ey)) by (destruct sy; cbn [IV negb cond_Zopp]; lia).
    by rewrite RoundZ_IV.
  - cbn [SpecFloat.valid_binary] in Hx.
    pose proof (bounded_spec _ _ Hx) as (Hex & _). pose proof (bounded_spec _ _ Hy) as (Hey & _).
    cbn [SFsub]. cbv zeta. set (ez := Z.min ex ey).
    rewrite binary_normalize_char by lia. f_equal.
    rewrite Z.mul_sub_distr_r, !cond_Zopp_mul, !shl_align_fst by lia.
    cbn [IV]. rewrite <- !Z.mul_assoc, <- !Z.pow_add_r by lia.
    replace (ex - ez + (ez + 1074)) with (ex + 1074) by lia.
    replace (ey - ez + (ez + 1074)) with (ey + 1074) by lia. reflexivity.
Qed.

Lemma SFsub_num (x : spec_float) (sy : bool) (my : positive) (ey : Z) :
  SpecFloat.valid_binary prec emax x = true -> SpecFloat.bounded prec emax my ey = true ->
  SFnum x = true -> SFnum (SFsub prec emax x (S754_finite sy my ey)) = true.
Proof.
  intros Hx Hy Hn. destruct x as [sx|sx| |sx mx ex] eqn:E; try done.
  rewrite SFsub_char by done. apply RoundZ_num.
Qed.

Lemma SFleb_neg_infinity (f : spec_float) :
  SFnum f = true -> SFleb (S754_infinity true) f = true.
Proof. by destruct f as [s|[]| |s m e]. Qed.

Lemma SFleb_infinity (f : spec_float) :
  SFnum f = true -> SFleb f (S754_infinity false) = true.
Proof. by destruct f as [s|[]| |[] m e]. Qed.

(** Subtracting a finite double is monotone. *)
Lemma SFsub_mono (x x' : spec_float) (sy : bool) (my : positive) (ey : Z) :
  SpecFloat.valid_binary prec emax x = true -> SpecFloat.valid_binary prec emax x' = true ->
  SpecFloat.bounded prec emax my ey = true ->
  SFleb x x' = true ->
  SFleb (SFsub prec emax x (S754_finite sy my ey))
        (SFsub prec emax x' (S754_finite sy my ey)) = true.
Proof.
  intros Hx Hx' Hy Hle.
  destruct (SFfinite x) eqn:Hf, (SFfinite x') eqn:Hf'.
  - rewrite !SFsub_char by done. apply RoundZ_mono.
    pose proof (IV_mono x x' Hx Hx' Hf Hf' Hle). lia.
  - destruct x' as [s'|[]| |s' m' e']; try done.
    + by destruct x as [s|s| |[] m e].
    + apply SFleb_infinity, SFsub_num; try done. by destruct x.
    + by destruct x.
  - destruct x as [s|[]| |s m e]; try done.
    + apply SFleb_neg_infinity, SFsub_num; try done. by destruct x'.
    + by destruct x' as [s'|[]| |[] m' e'].
  - destruct x as [s|[]| |s m e], x' as [s'|[]| |s' m' e']; try done.
Qed.

(** Subtracting a positive finite double never gives more. *)
Lemma SFsub_le (x : spec_float) (my : positive) (ey : Z) :
  SpecFloat.valid_binary prec emax x = true -> SpecFloat.bounded prec emax my ey = true ->
  SFnum x = true ->
  SFleb (SFsub prec emax x (S754_finite false my ey)) x = true.
Proof.
  intros Hx Hy Hn.
  assert (0 <= IV (S754_finite false my ey)) as Hpos.
  { cbn [IV cond_Zopp]. apply bounded_spec in Hy as (He & _).
    assert (0 < 2 ^ (ey + 1074)) by (apply Z.pow_pos_nonneg; lia). lia. }
  destruct x as [s|[]| |s m e] eqn:E; try done.
  rewrite SFsub_char by done. rewrite <- (RoundZ_IV s m e) at 2 by done.
  apply RoundZ_mono. lia.
Qed.

(** ** Comparison of doubles *)

Section Binary64Order.
Import Binary64.

Lemma SFcompare_refl (f : spec_float) : SFnum f = true -> SFcompare f f = Some Eq.
Proof.
  destruct f as [s|s| |s m e]; intros H; try done; simpl.
  - by destruct s.
  - rewrite Z.compare_refl. change (Pos.compare_cont Eq m m) with (m ?= m)%positive.
    rewrite Pos.compare_refl. by destruct s.
Qed.

Lemma SFleb_num (f1 f2 : spec_float) :
  SFleb f1 f2 = true -> SFnum f1 = true /\ SFnum f2 = true.
Proof. unfold SFleb. destruct f1, f2; simpl; done. Qed.

Lemma SFltb_num (f1 f2 : spec_float) :
  SFltb f1 f2 = true -> SFnum f1 = true /\ SFnum f2 = true.
Proof. unfold SFltb. destruct f1, f2; simpl; done. Qed.

Lemma SFltb_leb (f1 f2 : spec_float) : SFltb f1 f2 = true -> SFleb f1 f2 = true.
Proof. unfold SFltb, SFleb. by destruct (SFcompare f1 f2) as [[]|]. Qed.

Ltac compare_cases :=
  repeat match goal with
  | |- context [Z.compare ?a ?b] => destruct (Z.compare_spec a b)
  | H : context [Z.compare ?a ?b] |- _ => destruct (Z.compare_spec a b)
  | |- context [Pos.compare ?a ?b] => destruct (Pos.compare_spec a b)
  | H : context [Pos.compare ?a ?b] |- _ => destruct (Pos.compare_spec a b)
  end.

Lemma SFleb_total (f1 f2 : spec_float) :
  SFnum f1 = true -> SFnum f2 = true -> SFltb f1 f2 = false -> SFleb f2 f1 = true.
Proof.
  unfold SFltb, SFleb.
  destruct f1 as [s1|s1| |s1 m1 e1], f2 as [s2|s2| |s2 m2 e2]; try done; simpl;
    try (destruct s1; done); try (destruct s2; done); try (by destruct s1, s2).
  change (Pos.compare_cont Eq m1 m2) with (m1 ?= m2)%positive.
  change (Pos.compare_cont Eq m2 m1) with (m2 ?= m1)%positive.
  intros _ _. destruct s1, s2; try done; compare_cases; simpl; try done; lia.
Qed.

Lemma SFleb_trans (f1 f2 f3 : spec_float) :
  SFleb f1 f2 = true -> SFleb f2 f3 = true -> SFleb f1 f3 = true.
Proof.
  unfold SFleb.
  destruct f1 as [s1|s1| |s1 m1 e1], f2 as [s2|s2| |s2 m2 e2], f3 as [s3|s3| |s3 m3 e3];
    try done; simpl;
    try (destruct s1; done); try (destruct s2; done); try (destruct s3; done);
    try (by destruct s1, s2); try (by destruct s1, s3); try (by destruct s2, s3);
    try (by destruct s1, s2, s3).
  all: change (Pos.compare_cont Eq ?a ?b) with (a ?= b)%positive.
  all: destruct s1, s2, s3; try done; compare_cases; simpl; try done; try lia.
Qed.

Lemma is_nan_num (x : float) : PrimFloat.is_nan x = false <-> SFnum (Prim2SF x) = true.
Proof.
  unfold PrimFloat.is_nan. rewrite FloatAxioms.eqb_spec. unfold SFeqb. split.
  - intros H. destruct (Prim2SF x); done.
  - intros H. by rewrite SFcompare_refl.
Qed.

Lemma epsilon64_finite :
  Prim2SF epsilon64 = S754_finite false 4951760157141521 (-92).
Proof. reflexivity. Qed.

Lemma sub_epsilon64_le (x : float) :
  PrimFloat.is_nan x = false -> PrimFloat.leb (PrimFloat.sub x epsilon64) x = true.
Proof.
  intros Hx. rewrite FloatAxioms.leb_spec, FloatAxioms.sub_spec, epsilon64_finite.
  apply SFsub_le; [apply Prim2SF_valid|reflexivity|by apply is_nan_num].
Qed.

Lemma sub_epsilon64_mono (x y : float) :
  PrimFloat.leb x y = true ->
  PrimFloat.leb (PrimFloat.sub x epsilon64) (PrimFloat.sub y epsilon64) = true.
Proof.
  rewrite !FloatAxioms.leb_spec, !FloatAxioms.sub_spec, epsilon64_finite.
  apply SFsub_mono; [apply Prim2SF_valid|apply Prim2SF_valid|reflexivity].
Qed.

(** binary64 satisfies the order laws: comparison of doubles is a total
    preorder away from NaN, and subtracting the tolerance is monotone and
    never gives more. *)
#[global] Instance binary64_order : @PyFloatOrder float binary64.
Proof.
  split; simpl.
  - reflexivity.
  - reflexivity.
  - intros x Hx. rewrite FloatAxioms.leb_spec. apply is_nan_num in Hx.
    change (Prim2SF PrimFloat.neg_infinity) with (S754_infinity true).
    by destruct (Prim2SF x) as [s|[]| |].
  - intros x y. rewrite FloatAxioms.leb_spec, !is_nan_num. apply SFleb_num.
  - intros x y. rewrite FloatAxioms.ltb_spec, !is_nan_num. apply SFltb_num.
  - intros x Hx. rewrite FloatAxioms.leb_spec. apply is_nan_num in Hx.
    unfold SFleb. by rewrite SFcompare_refl.
  - intros x y z. rewrite !FloatAxioms.leb_spec. apply SFleb_trans.
  - intros x y. rewrite FloatAxioms.leb_spec, FloatAxioms.ltb_spec. apply SFltb_leb.
  - intros x y. rewrite FloatAxioms.leb_spec, FloatAxioms.ltb_spec, !is_nan_num.
    apply SFleb_total.
  - exact sub_epsilon64_le.
  - exact sub_epsilon64_mono.
Qed.

End Binary64Order.

(** ** Products and sums of the sampler, in binary64 *)

Section Binary64Sampler.
Import Binary64.

Lemma pow2_pos (a : Z) : 0 <= a -> 0 < 2 ^ a.
Proof. intros H. apply Z.pow_pos_nonneg; lia. Qed.

Lemma encode_finite (s : bool) (m1 e : Z) :
  0 <= m1 -> (m1 = 2 ^ 53 -> e + 1 <= 971) -> e <= 971 ->
  SFfinite (encode s (normal_pair m1 e)) = true.
Proof.
  intros Hm Hc He. unfold normal_pair. destruct (Z.eqb_spec m1 (2 ^ 53)) as [E|E].
  - unfold encode. cbn [fst snd]. change (2 ^ 52) with (Zpos (2 ^ 52)).
    destruct (Z.leb_spec (e + 1) 971); [reflexivity|]. specialize (Hc E). lia.
  - unfold encode. cbn [fst snd]. destruct m1 as [|p|p]; [reflexivity| |lia].
    destruct (Z.leb_spec e 971); [reflexivity|lia].
Qed.

(** A finite double times a weight in [[0, 1]] is finite. *)
Lemma SFmul_weight (x w : spec_float) :
  SpecFloat.valid_binary prec emax x = true -> SpecFloat.valid_binary prec emax w = true ->
  SFfinite x = true -> SFfinite w = true -> 0 <= IV w <= 2 ^ 1074 ->
  SFfinite (SFmul prec emax x w) = true.
Proof.
  intros Hx Hw Hfx Hfw HIV.
  destruct x as [sx| | |sx mx ex], w as [sw| | |sw mw ew]; try done.
  cbn [SpecFloat.valid_binary] in Hx, Hw. cbn [SFmul].
  pose proof (mantissa_bounds _ _ Hx) as [Hmx Hnx].
  pose proof (bounded_spec _ _ Hx) as (Hex & _).
  pose proof (bounded_spec _ _ Hw) as (Hew & _).
  pose proof (pow2_pos (ew + 1074) ltac:(lia)) as Hpw.
  cbn [IV] in HIV. destruct sw; cbn [cond_Zopp] in HIV; [lia|].
  assert (ew <= 0) as Hew0.
  { destruct (Z.le_gt_cases ew 0); [done|].
    assert (2 ^ 1074 < 2 ^ (ew + 1074)) by (apply Z.pow_lt_mono_r; lia). nia. }
  assert (Zpos mw <= 2 ^ (- ew)) as Hmw.
  { pose proof (pow2_pos (- ew) ltac:(lia)).
    replace (2 ^ 1074) with (2 ^ (- ew) * 2 ^ (ew + 1074)) in HIV
      by (rewrite <- Z.pow_add_r by lia; f_equal; lia).
    nia. }
  set (P := (mx * mw)%positive). set (ez := ex + ew).
  pose proof (digits2_pos_bounds P) as [HdP1 HdP2]. set (dP := Zpos (digits2_pos P)) in *.
  assert (Zpos P = Zpos mx * Zpos mw) as HP by (subst P; lia).
  pose proof (pow2_pos (- ew) ltac:(lia)) as Hpe.
  assert (Zpos P < 2 ^ (53 - ew)) as HPlt.
  { replace (53 - ew) with (53 + - ew) by lia. rewrite Z.pow_add_r by lia. nia. }
  assert (dP <= 53 - ew) as HdP.
  { assert (dP - 1 < 53 - ew) by (apply pow2_lt_inv; lia). lia. }
  set (e' := Z.max (dP + ez - 53) (-1074)).
  assert (ez <= e') as Hn.
  { destruct (Z.le_gt_cases 53 dP); [lia|].
    assert (Zpos P < 2 ^ 52).
    { eapply Z.lt_le_trans; [exact HdP2|]. apply Z.pow_le_mono_r; lia. }
    assert (Zpos mx < 2 ^ 52) by nia.
    assert (ex = -1074) by (destruct (Z.eq_dec ex (-1074)); [done|]; specialize (Hnx ltac:(lia)); lia).
    lia. }
  assert (e' <= ex) as He' by lia.
  rewrite binary_round_aux_char by (rewrite fexp_eq; fold P dP ez e'; lia).
  rewrite fexp_eq. fold P dP ez e'. replace (ez + (e' - ez)) with e' by lia.
  set (n := e' - ez). pose proof (pow2_pos n ltac:(lia)) as Hpn.
  pose proof (pow2_pos (ex - e') ltac:(lia)) as Hpc.
  set (c := Zpos mx * 2 ^ (ex - e')).
  assert (rne_quotient (Zpos P) (2 ^ n) <= c) as Hm1.
  { rewrite <- (rne_quotient_exact c). rewrite <- (rne_quotient_scale c 1 (2 ^ n)) by lia.
    rewrite Z.mul_1_l. apply rne_quotient_mono; [lia|].
    subst c n. rewrite <- Z.mul_assoc, <- Z.pow_add_r by lia.
    replace (ex - e' + (e' - ez)) with (- ew) by lia. nia. }
  pose proof (rne_quotient_bounds (Zpos P) (2 ^ n) Hpn) as [Hq _].
  assert (0 <= Zpos P / 2 ^ n) by (apply Z.div_pos; lia).
  apply encode_finite; [lia| |lia].
  intros E. rewrite E in Hm1.
  destruct (Z.eq_dec ex e') as [Ee|Ee]; [|lia].
  subst c. rewrite Ee, Z.sub_diag in Hm1. change (2 ^ 0) with 1 in Hm1. lia.
Qed.

(** Adding a finite double to a number gives a number. *)
Lemma SFadd_num (x y : spec_float) :
  SpecFloat.valid_binary prec emax x = true -> SpecFloat.valid_binary prec emax y = true ->
  SFnum x = true -> SFfinite y = true -> SFnum (SFadd prec emax x y) = true.
Proof.
  intros Hx Hy Hn Hf.
  destruct x as [sx|sx| |sx mx ex], y as [sy| | |sy my ey]; try done.
  - cbn [SFadd]. by destruct sx, sy.
  - cbn [SpecFloat.valid_binary] in Hx, Hy.
    pose proof (bounded_spec _ _ Hx) as (Hex & _). pose proof (bounded_spec _ _ Hy) as (Hey & _).
    cbn [SFadd]. cbv zeta. rewrite binary_normalize_char by lia. apply RoundZ_num.
Qed.

(** Rounded values are valid doubles. *)
Lemma encode_valid (s : bool) (V : Z) :
  0 < V -> SpecFloat.valid_binary prec emax (encode s (round_pair V)) = true.
Proof.
  intros HV. pose proof (round_quotient_bounds V HV) as (Hk & [Hq1 Hq2] & Hn & _).
  cbv zeta in *. unfold round_pair.
  set (k := Z.max (Zdigits2 V - 53) 0) in *.
  pose proof (rne_quotient_bounds V _ Hk) as Hm. set (m1 := rne_quotient V (2 ^ k)) in *.
  unfold normal_pair. destruct (Z.eqb_spec m1 (2 ^ 53)) as [E|E].
  - unfold encode. cbn [fst snd]. change (2 ^ 52) with (Zpos (2 ^ 52)). cbv iota.
    destruct (Z.leb_spec (k - 1074 + 1) 971) as [Hle|Hgt]; [|reflexivity].
    cbn [SpecFloat.valid_binary]. unfold SpecFloat.bounded, canonical_mantissa.
    rewrite fexp_eq. change (Zpos (digits2_pos (2 ^ 52))) with 53.
    apply andb_true_iff. split; [apply Z.eqb_eq; lia|apply Z.leb_le; exact Hle].
  - unfold encode. cbn [fst snd]. destruct m1 as [|p|p] eqn:Em; try lia.
    destruct (Z.leb_spec (k - 1074) 971) as [Hle|Hgt]; [|reflexivity].
    cbn [SpecFloat.valid_binary]. unfold SpecFloat.bounded, canonical_mantissa.
    rewrite fexp_eq. apply andb_true_iff. split; [|apply Z.leb_le; exact Hle].
    apply Z.eqb_eq. pose proof (digits2_pos_bounds p) as [Hd1 Hd2].
    assert (Zpos (digits2_pos p) <= 53) as Hd.
    { assert (Zpos (digits2_pos p) - 1 < 53) by (apply pow2_lt_inv; lia). lia. }
    destruct (Z.eq_dec k 0) as [E0|E0]; [lia|].
    assert (2 ^ 52 <= Zpos p) by (specialize (Hn ltac:(lia)); lia).
    assert (52 < Zpos (digits2_pos p)) by (apply pow2_lt_inv; lia). lia.
Qed.

Lemma RoundZ_valid (n : Z) : SpecFloat.valid_binary prec emax (RoundZ n) = true.
Proof. destruct n; [reflexivity| |]; apply encode_valid; lia. Qed.

(** An integer with at most 53 significant bits, within range, is a double. *)
Lemma RoundZ_exact (s : bool) (a j : Z) :
  0 < a < 2 ^ 53 -> 0 <= j <= 2045 ->
  exists m e, encode s (round_pair (a * 2 ^ j)) = S754_finite s m e /\
    Zpos m * 2 ^ (e + 1074) = a * 2 ^ j.
Proof.
  intros Ha Hj. pose proof (pow2_pos j ltac:(lia)) as Hpj.
  assert (0 < a * 2 ^ j) as HV by nia.
  pose proof (round_quotient_bounds _ HV) as (Hk & [Hq1 Hq2] & Hn & [Hd1 Hd2] & Hd).
  cbv zeta in *. unfold round_pair.
  set (V := a * 2 ^ j) in *. set (k := Z.max (Zdigits2 V - 53) 0) in *.
  assert (Zdigits2 V <= 53 + j) as HdV.
  { assert (Zdigits2 V - 1 < 53 + j); [|lia]. apply pow2_lt_inv; [lia|].
    eapply Z.le_lt_trans; [exact Hd1|]. subst V. rewrite Z.pow_add_r by lia. nia. }
  assert (k <= j) as Hkj by lia.
  assert (V = a * 2 ^ (j - k) * 2 ^ k) as EV.
  { subst V. rewrite <- Z.mul_assoc, <- Z.pow_add_r by lia. do 2 f_equal. lia. }
  assert (rne_quotient V (2 ^ k) = a * 2 ^ (j - k)) as Em.
  { rewrite EV at 1. rewrite <- (Z.mul_1_l (2 ^ k)) at 2.
    rewrite rne_quotient_scale by lia. apply rne_quotient_exact. }
  assert (V / 2 ^ k = a * 2 ^ (j - k)) as Eq by (rewrite EV at 1; apply Z.div_mul; lia).
  rewrite Em. unfold normal_pair.
  destruct (Z.eqb_spec (a * 2 ^ (j - k)) (2 ^ 53)) as [E|E]; [lia|].
  unfold encode. cbn [fst snd].
  destruct (a * 2 ^ (j - k)) as [|p|p] eqn:Ep; try lia.
  destruct (Z.leb_spec (k - 1074) 971) as [Hle|Hgt]; [|lia].
  exists p, (k - 1074). split; [reflexivity|].
  replace (k - 1074 + 1074) with k by lia. lia.
Qed.

Lemma RoundZ_one : RoundZ (2 ^ 1074) = S754_finite false (2 ^ 52) (-52).
Proof.
  change (2 ^ 1074) with (IV (S754_finite false (2 ^ 52) (-52))). by apply RoundZ_IV.
Qed.

Lemma RoundZ_weight (D : Z) : 0 <= D <= 2 ^ 1074 -> SFweight (RoundZ D).
Proof.
  intros [H0 H1]. pose proof (RoundZ_valid D) as Hv.
  pose proof (RoundZ_mono 0 D H0) as Hlo. pose proof (RoundZ_mono D _ H1) as Hhi.
  rewrite RoundZ_one in Hhi. change (RoundZ 0) with (S754_zero false) in Hlo.
  assert (SFfinite (RoundZ D) = true) as Hf.
  { destruct (RoundZ D) as [s|[]| |s m e]; done. }
  split; [exact Hv|]. split; [exact Hf|]. split.
  - by apply (IV_mono (S754_zero false) (RoundZ D)).
  - change (2 ^ 1074) with (IV (S754_finite false (2 ^ 52) (-52))).
    by apply (IV_mono (RoundZ D)).
Qed.

Lemma floor64_spec (x : float) :
  SFfinite (Prim2SF x) = true -> floor64 x = IV (Prim2SF x) / 2 ^ 1074.
Proof.
  intros Hf. unfold floor64. pose proof (Prim2SF_valid x) as Hv.
  destruct (Prim2SF x) as [s| | |s m e]; try done.
  cbn [IV]. change (SpecFloat.bounded prec emax m e = true) in Hv.
  apply bounded_spec in Hv as (He & _).
  assert ((if s then Zneg m else Zpos m) = cond_Zopp s (Zpos m)) as -> by (by destruct s).
  rewrite <- cond_Zopp_mul.
  destruct (Z.leb_spec 0 e).
  - rewrite Z.pow_add_r by lia. rewrite Z.mul_assoc, Z.div_mul by lia. reflexivity.
  - rewrite Z.shiftr_div_pow2 by lia.
    replace (2 ^ 1074) with (2 ^ (- e) * 2 ^ (e + 1074))
      by (rewrite <- Z.pow_add_r by lia; f_equal; lia).
    rewrite Z.div_mul_cancel_r; [reflexivity| |]; apply Z.pow_nonzero; lia.
Qed.

Lemma of_int64_spec (n : Z) : Prim2SF (of_int64 n) = RoundZ (n * 2 ^ 1074).
Proof.
  unfold of_int64. rewrite Prim2SF_SF2Prim; rewrite binary_normalize_char by lia.
  - reflexivity.
  - apply RoundZ_valid.
Qed.

Lemma RoundZ_small (n : Z) :
  Z.abs n < 2 ^ 53 ->
  SFfinite (RoundZ (n * 2 ^ 1074)) = true /\ IV (RoundZ (n * 2 ^ 1074)) = n * 2 ^ 1074.
Proof.
  intros Hn. pose proof (pow2_pos 1074 ltac:(lia)) as Hp.
  destruct (n * 2 ^ 1074) as [|p|p] eqn:E.
  - split; reflexivity.
  - destruct (RoundZ_exact false n 1074 ltac:(nia) ltac:(lia)) as (m & e & Hm & Hv).
    cbn [RoundZ]. rewrite <- E, Hm. cbn [SFfinite IV cond_Zopp]. split; [reflexivity|lia].
  - destruct (RoundZ_exact true (- n) 1074 ltac:(nia) ltac:(lia)) as (m & e & Hm & Hv).
    cbn [RoundZ]. replace (Zpos p) with (- n * 2 ^ 1074) by lia. rewrite Hm.
    cbn [SFfinite IV cond_Zopp]. split; [reflexivity|lia].
Qed.

(** The floor of a finite double converts back to a double without rounding. *)
Lemma of_int64_floor64 (x : float) :
  SFfinite (Prim2SF x) = true ->
  SFfinite (Prim2SF (of_int64 (floor64 x))) = true /\
  IV (Prim2SF (of_int64 (floor64 x))) = floor64 x * 2 ^ 1074.
Proof.
  intros Hf. rewrite of_int64_spec. pose proof (floor64_spec x Hf) as Hfl.
  pose proof (Prim2SF_valid x) as Hv. pose proof (pow2_pos 1074 ltac:(lia)) as Hp.
  destruct (Prim2SF x) as [s| | |s m e] eqn:E; try done.
  - cbn [IV] in Hfl. rewrite Z.div_0_l in Hfl by lia. rewrite Hfl. split; reflexivity.
  - change (SpecFloat.bounded prec emax m e = true) in Hv.
    pose proof (mantissa_bounds _ _ Hv) as [Hm _].
    pose proof (bounded_spec _ _ Hv) as (He & _).
    destruct (Z.leb_spec 0 e) as [Hpos|Hneg].
    + assert (floor64 x * 2 ^ 1074 = IV (S754_finite s m e)) as ->.
      { rewrite Hfl. cbn [IV]. rewrite <- cond_Zopp_mul, Z.pow_add_r, Z.mul_assoc by lia.
        rewrite Z.div_mul by lia. reflexivity. }
      rewrite RoundZ_IV by done. split; reflexivity.
    + apply RoundZ_small. rewrite Hfl. cbn [IV].
      rewrite <- cond_Zopp_mul.
      replace (2 ^ 1074) with (2 ^ (- e) * 2 ^ (e + 1074)) at 1
        by (rewrite <- Z.pow_add_r by lia; f_equal; lia).
      pose proof (pow2_pos (- e) ltac:(lia)). pose proof (pow2_pos (e + 1074) ltac:(lia)).
      rewrite Z.div_mul_cancel_r by lia.
      destruct s; cbn [cond_Zopp].
      * assert (- Zpos m <= - Zpos m / 2 ^ (- e) <= 0); [|lia]. split.
        -- apply Z.div_le_lower_bound; [lia|]. nia.
        -- apply Z.div_le_upper_bound; [lia|]. nia.
      * assert (0 <= Zpos m / 2 ^ (- e) <= Zpos m); [|lia]. split.
        -- apply Z.div_pos; lia.
        -- apply Z.div_le_upper_bound; [lia|]. nia.
Qed.

(** The fractional part of a finite double, as the sampler computes it, is a
    weight. *)
Lemma frac_weight (x : float) :
  SFfinite (Prim2SF x) = true ->
  SFweight (Prim2SF (PrimFloat.sub x (of_int64 (floor64 x)))).
Proof.
  intros Hf. destruct (of_int64_floor64 x Hf) as [HfY HIY].
  pose proof (floor64_spec x Hf) as Hfl. pose proof (pow2_pos 1074 ltac:(lia)) as Hp.
  pose proof (Prim2SF_valid x) as Hv. pose proof (Prim2SF_valid (of_int64 (floor64 x))) as HvY.
  pose proof (Z.div_mod (IV (Prim2SF x)) (2 ^ 1074) ltac:(lia)) as Hdm.
  pose proof (Z.mod_pos_bound (IV (Prim2SF x)) (2 ^ 1074) Hp) as Hmod.
  rewrite FloatAxioms.sub_spec.
  destruct (Prim2SF (of_int64 (floor64 x))) as [sy| | |sy my ey] eqn:EY; try done.
  - cbn [IV] in HIY.
    assert (0 <= IV (Prim2SF x) < 2 ^ 1074) as HX by nia.
    destruct (Prim2SF x) as [s| | |s m e] eqn:EX; try done.
    + unfold SFweight. change (SF64sub (S754_zero s) (S754_zero sy))
        with (SFsub prec emax (S754_zero s) (S754_zero sy)).
      cbn [SFsub]. destruct s, sy; repeat split; try reflexivity; cbn [IV]; lia.
    + change (SF64sub (S754_finite s m e) (S754_zero sy)) with (S754_finite s m e).
      split; [exact Hv|]. split; [reflexivity|]. lia.
  - change (SF64sub ?a ?b) with (SFsub prec emax a b).
    rewrite SFsub_char by done. apply RoundZ_weight. rewrite HIY. nia.
Qed.

Lemma one64 : Prim2SF (of_int64 1) = S754_finite false (2 ^ 52) (-52).
Proof. reflexivity. Qed.

(** The complement of a weight is a weight. *)
Lemma complement_weight (w : float) :
  SFweight (Prim2SF w) -> SFweight (Prim2SF (PrimFloat.sub (of_int64 1) w)).
Proof.
  intros (Hv & Hf & HIV). rewrite FloatAxioms.sub_spec, one64.
  change (SF64sub ?a ?b) with (SFsub prec emax a b).
  destruct (Prim2SF w) as [s| | |s m e] eqn:E; try done.
  rewrite SFsub_char by done. apply RoundZ_weight.
  change (IV (S754_finite false (2 ^ 52) (-52))) with (2 ^ 1074). lia.
Qed.

Lemma SFfinite_num (f : spec_float) : SFfinite f = true -> SFnum f = true.
Proof. by destruct f. Qed.

Lemma is_finite_spec (x : float) :
  PrimFloat.is_nan x = false -> PrimFloat.is_infinity x = false ->
  SFfinite (Prim2SF x) = true.
Proof.
  unfold PrimFloat.is_infinity. rewrite FloatAxioms.eqb_spec, FloatAxioms.abs_spec.
  intros Hn Hi. apply is_nan_num in Hn.
  change (Prim2SF PrimFloat.infinity) with (S754_infinity false) in Hi.
  destruct (Prim2SF x) as [s|s| |s m e]; try done.
Qed.

(** A corner times its two weights is finite. *)
Lemma term_finite (e w1 w2 : float) :
  SFfinite (Prim2SF e) = true -> SFweight (Prim2SF w1) -> SFweight (Prim2SF w2) ->
  SFfinite (Prim2SF (e * w1 * w2)%float) = true.
Proof.
  intros He (Hv1 & Hf1 & HI1) (Hv2 & Hf2 & HI2).
  rewrite (FloatAxioms.mul_spec (e * w1)%float w2).
  change (SF64mul ?a ?b) with (SFmul prec emax a b).
  apply SFmul_weight; try done; [apply Prim2SF_valid|].
  rewrite FloatAxioms.mul_spec. change (SF64mul ?a ?b) with (SFmul prec emax a b).
  apply SFmul_weight; try done. apply Prim2SF_valid.
Qed.

Lemma sum_num (a b : float) :
  SFnum (Prim2SF a) = true -> SFfinite (Prim2SF b) = true ->
  SFnum (Prim2SF (a + b)%float) = true.
Proof.
  intros Ha Hb. rewrite FloatAxioms.add_spec.
  change (SF64add ?a ?b) with (SFadd prec emax a b).
  apply SFadd_num; try done; apply Prim2SF_valid.
Qed.

Lemma elevation_finite64 (dem : ndarray float) (r c : Z) :
  finite_grid64 dem -> PrimFloat.is_nan (elevation dem r c) = false ->
  SFfinite (Prim2SF (elevation dem r c)) = true.
Proof.
  intros Hg Hn. apply is_finite_spec; [exact Hn|].
  unfold elevation, getitem2 in *. destruct (shape2 dem) as [rows cols].
  destruct (in_bounds rows cols r c); [|done].
  destruct (data dem !! flat_index cols r c) as [x|] eqn:E; [|done].
  simpl. eapply Forall_lookup_1 in Hg; [|exact E]. exact Hg.
Qed.

End Binary64Sampler.

(** ** Missing data: skipped by the radial engine, occluding in the baseline *)

Lemma elem_of_range_from (lo hi z : Z) : z ∈ range_from lo hi <-> lo <= z < hi.
Proof.
  unfold range_from. rewrite list_elem_of_fmap. split.
  - intros (k & -> & Hk). apply elem_of_seq in Hk. lia.
  - intros Hz. exists (Z.to_nat (z - lo)). split; [lia|]. apply elem_of_seq. lia.
Qed.

Section MissingData.
Context {F : Type} {PF : PyFloat F} {PA : PyAtan2 F} {PO : PyFloatOrder F}.

Lemma los_loop_nan_sample (dem : ndarray F) (oe te : F) (obs_r obs_c dr dc steps : Z)
    (td : F) (curv : bool) (todo : list Z) (step : Z) :
  step ∈ todo ->
  isnan (_bilinear_sample dem (sample_coordinate obs_r dr steps step)
           (sample_coordinate obs_c dc steps step)) = true ->
  los_loop dem oe te obs_r obs_c dr dc steps td curv todo = false.
Proof.
  intros Hin Hnan. induction todo as [|s todo IH]; [by apply elem_of_nil in Hin|].
  cbn [los_loop]. apply elem_of_cons in Hin as [<-|Hin].
  - unfold sample_coordinate in Hnan. by rewrite Hnan.
  - fold (@sample_coordinate F PF obs_r dr steps s).
    fold (@sample_coordinate F PF obs_c dc steps s).
    destruct (isnan (_bilinear_sample dem (sample_coordinate obs_r dr steps s)
                       (sample_coordinate obs_c dc steps s))); [reflexivity|].
    match goal with |- (if ?b then _ else _) = _ => destruct b end; [reflexivity|].
    by apply IH.
Qed.

(** C10: on every valid input, replacing the elevation of a cell other than
    the observer's by NaN never turns another cell of the radial engine's
    mask from visible to not visible; in the baseline engine, a NaN terrain
    sample anywhere on the line of sight makes the target not visible.
    This holds in every arithmetic with the order laws, of which binary64
    ([binary64_order]) and the exact reals ([exact_order]) are instances,
    and for every [atan2]. *)
Theorem nan_cell_never_occludes_radial (dem : ndarray F) (observer_rc : Z * Z)
    (h cs : F) (curv : bool) (k : Z * Z) :
  valid_input dem observer_rc h cs -> k <> observer_rc ->
  (exists m m',
     _compute_viewshed_radial dem observer_rc h cs curv = Ok m /\
     _compute_viewshed_radial (setitem2 dem k.1 k.2 nan) observer_rc h cs curv = Ok m' /\
     forall r c, (r, c) <> k -> visible m r c -> visible m' r c) /\
  (forall (oe target : F) (target_rc : Z * Z) (step : Z),
     let dr := target_rc.1 - observer_rc.1 in
     let dc := target_rc.2 - observer_rc.2 in
     let steps := Z.max (Z.abs dr) (Z.abs dc) in
     1 <= step < steps ->
     isnan (_bilinear_sample dem (sample_coordinate observer_rc.1 dr steps step)
              (sample_coordinate observer_rc.2 dc steps step)) = true ->
     _line_of_sight dem oe target observer_rc target_rc cs curv = false).
Proof.
  intros Hv Hk. split.
  - pose proof (radial_checked dem observer_rc h cs curv) as E.
    rewrite (checked_call_valid _ _ _ _ _ Hv) in E.
    destruct (radial_nan_never_occludes dem observer_rc h cs curv k _ Hk E)
      as (m' & E' & Hm).
    eexists _, m'. split; [exact E|]. split; [exact E'|exact Hm].
  - intros oe target [tr tc] step dr dc steps Hstep Hnan.
    unfold _line_of_sight. destruct observer_rc as [obs_r obs_c]. simpl in *.
    fold dr dc steps. destruct (Z.eqb_spec steps 0); [lia|].
    eapply los_loop_nan_sample; [|exact Hnan]. by apply elem_of_range_from.
Qed.

End MissingData.

Section OrderWitnesses.
Import Exact Scenarios.

Lemma valid_bump_exact : valid_input dem_bump_exact (0, 0) (XFin 1) (XFin 10).
Proof.
  repeat split; try reflexivity; simpl.
  - apply Rleb_false. lra.
  - apply Rltb_false. lra.
Qed.

Lemma nan_cell_never_occludes_radial_witness :
  (exists m m',
     @_compute_viewshed_radial float Binary64.binary64 slope_atan2
       dem_bump (0, 0) 1%float 10%float true = Ok m /\
     @_compute_viewshed_radial float Binary64.binary64 slope_atan2
       (setitem2 dem_bump 0 1 PrimFloat.nan) (0, 0) 1%float 10%float true = Ok m' /\
     forall r c, (r, c) <> (0, 1) -> visible m r c -> visible m' r c) /\
  (forall (oe target : float) (target_rc : Z * Z) (step : Z),
     let dr := target_rc.1 - 0 in
     let dc := target_rc.2 - 0 in
     let steps := Z.max (Z.abs dr) (Z.abs dc) in
     1 <= step < steps ->
     isnan (_bilinear_sample dem_bump (sample_coordinate 0 dr steps step)
              (sample_coordinate 0 dc steps step)) = true ->
     _line_of_sight dem_bump oe target (0, 0) target_rc 10%float true = false).
Proof.
  apply (@nan_cell_never_occludes_radial float Binary64.binary64 slope_atan2
           binary64_order dem_bump (0, 0) 1%float 10%float true (0, 1)).
  - repeat split; vm_compute; reflexivity.
  - discriminate.
Defined.

End OrderWitnesses.

(** ** Curvature in exact arithmetic: the baseline engine *)

Section ExactCurvature.
Import Exact.
Local Open Scope R_scope.

Lemma exact_of_int (n : Z) : @of_int xreal exact n = XFin (IZR n).
Proof. reflexivity. Qed.
Lemma exact_add (a b : R) : @fadd xreal exact (XFin a) (XFin b) = XFin (a + b).
Proof. reflexivity. Qed.
Lemma exact_sub (a b : R) : @fsub xreal exact (XFin a) (XFin b) = XFin (a - b).
Proof. reflexivity. Qed.
Lemma exact_mul (a b : R) : @fmul xreal exact (XFin a) (XFin b) = XFin (a * b).
Proof. reflexivity. Qed.
Lemma exact_div (a b : R) : @fdiv xreal exact (XFin a) (XFin b) = XFin (a / b).
Proof. reflexivity. Qed.
Lemma exact_lt (a b : R) : @flt xreal exact (XFin a) (XFin b) = Rltb a b.
Proof. reflexivity. Qed.
Lemma exact_le (a b : R) : @fle xreal exact (XFin a) (XFin b) = Rleb a b.
Proof. reflexivity. Qed.
Lemma exact_isnan_fin (a : R) : @isnan xreal exact (XFin a) = false.
Proof. reflexivity. Qed.
Lemma exact_hypot (a b : R) : @hypot xreal exact (XFin a) (XFin b) = XFin (sqrt (a * a + b * b)).
Proof. reflexivity. Qed.


Lemma step_fraction_exact (step steps : Z) :
  (1 <= step < steps)%Z -> 0 < IZR step / IZR steps < 1.
Proof.
  intros H.
  assert (0 < IZR steps) by (apply (IZR_lt 0); lia).
  assert (0 < IZR step) by (apply (IZR_lt 0); lia).
  assert (IZR step < IZR steps) by (apply IZR_lt; lia).
  split; [by apply Rdiv_lt_0_compat|].
  apply (Rmult_lt_reg_r (IZR steps)); [done|]. field_simplify; lra.
Qed.



End ExactCurvature.

Section ExactBaseline.
Import Exact Scenarios.
Local Open Scope R_scope.

Lemma elevation_finite (dem : ndarray xreal) (r c : Z) :
  finite_grid dem -> finite_or_nan (elevation dem r c).
Proof.
  intros Hf. unfold elevation, getitem2. destruct (shape2 dem) as [rows cols].
  destruct (in_bounds rows cols r c); [|done].
  destruct (data dem !! flat_index cols r c) as [x|] eqn:E; [|done].
  simpl. eapply Forall_lookup_1; [exact Hf|exact E].
Qed.

Lemma elevation_real (dem : ndarray xreal) (r c : Z) :
  finite_grid dem -> isnan (elevation dem r c) = false ->
  exists x, elevation dem r c = XFin x.
Proof.
  intros Hf Hn. pose proof (elevation_finite dem r c Hf) as H.
  destruct (elevation dem r c) as [| |x]; [done|done|by exists x].
Qed.



Lemma finite_bump_exact : finite_grid dem_bump_exact.
Proof. repeat constructor. Qed.

End ExactBaseline.

(** ** When the sampler returns NaN *)

Section SamplerCases.
Import Exact Scenarios.
Local Open Scope R_scope.

Lemma bilinear_sample_nan_iff_exact (dem : ndarray xreal) (x y : R) :
  finite_grid dem ->
  let rows := (shape2 dem).1 in
  let cols := (shape2 dem).2 in
  let r0 := floor (XFin x) in
  let c0 := floor (XFin y) in
  let r1 := Z.min (r0 + 1) (Z.of_nat rows - 1) in
  let c1 := Z.min (c0 + 1) (Z.of_nat cols - 1) in
  isnan (_bilinear_sample dem (XFin x) (XFin y)) = true <->
  in_bounds rows cols r0 c0 = false \/
  existsb isnan [elevation dem r0 c0; elevation dem r1 c0;
                 elevation dem r0 c1; elevation dem r1 c1] = true.
Proof.
  intros Hf rows cols r0 c0 r1 c1.
  pose proof (bilinear_sample_unfold dem (XFin x) (XFin y)) as [Hout Hin].
  cbv zeta in Hout, Hin. fold rows cols r0 c0 r1 c1 in Hout, Hin.
  destruct (in_bounds rows cols r0 c0) eqn:Hb.
  - destruct (Hin eq_refl) as (Hnan & Hval & _). clear Hin Hout.
    destruct (existsb isnan _) eqn:Hex.
    + rewrite Hnan by done. split; [by right|done].
    + rewrite Hval by done. clear Hnan Hval.
      cbn [existsb] in Hex. rewrite !orb_false_iff in Hex.
      destruct Hex as (H00 & H10 & H01 & H11 & _).
      destruct (elevation_real dem r0 c0 Hf H00) as [e00 ->].
      destruct (elevation_real dem r1 c0 Hf H10) as [e10 ->].
      destruct (elevation_real dem r0 c1 Hf H01) as [e01 ->].
      destruct (elevation_real dem r1 c1 Hf H11) as [e11 ->].
      rewrite !exact_of_int, !exact_sub, !exact_mul, !exact_add, exact_isnan_fin.
      split; [done|]. intros [H|H]; done.
  - rewrite Hout by done. split; [by left|done].
Qed.

(** In binary64, at a finite coordinate of a grid without infinite
    elevations, the sampler returns NaN exactly when the floor of the
    coordinate lies outside the grid or a corner is NaN. *)
Lemma bilinear_sample_nan_iff64 (dem : ndarray float) (row col : float) :
  finite_grid64 dem ->
  PrimFloat.is_nan row = false -> PrimFloat.is_infinity row = false ->
  PrimFloat.is_nan col = false -> PrimFloat.is_infinity col = false ->
  let rows := (shape2 dem).1 in
  let cols := (shape2 dem).2 in
  let r0 := floor row in
  let c0 := floor col in
  let r1 := Z.min (r0 + 1) (Z.of_nat rows - 1) in
  let c1 := Z.min (c0 + 1) (Z.of_nat cols - 1) in
  isnan (_bilinear_sample dem row col) = true <->
  in_bounds rows cols r0 c0 = false \/
  existsb isnan [elevation dem r0 c0; elevation dem r1 c0;
                 elevation dem r0 c1; elevation dem r1 c1] = true.
Proof.
  intros Hg Hrn Hri Hcn Hci rows cols r0 c0 r1 c1.
  pose proof (bilinear_sample_unfold dem row col) as [Hout Hin].
  cbv zeta in Hout, Hin. fold rows cols r0 c0 r1 c1 in Hout, Hin.
  destruct (in_bounds rows cols r0 c0) eqn:Hb.
  - destruct (Hin eq_refl) as (Hnan & Hval & _). clear Hin Hout.
    destruct (existsb isnan _) eqn:Hex.
    + rewrite Hnan by done. split; [by right|done].
    + rewrite Hval by done. clear Hnan Hval.
      cbn [existsb] in Hex. rewrite !orb_false_iff in Hex.
      destruct Hex as (H00 & H10 & H01 & H11 & _).
      apply (elevation_finite64 dem _ _ Hg) in H00, H10, H01, H11.
      pose proof (frac_weight row (is_finite_spec row Hrn Hri)) as Hdr.
      pose proof (frac_weight col (is_finite_spec col Hcn Hci)) as Hdc.
      pose proof (complement_weight _ Hdr) as Hdr'.
      pose proof (complement_weight _ Hdc) as Hdc'.
      split; [|intros [H|H]; done]. intros H. exfalso.
      assert (isnan
        (fadd (fadd (fadd
           (fmul (fmul (elevation dem r0 c0) (fsub (of_int 1) (fsub row (of_int r0))))
              (fsub (of_int 1) (fsub col (of_int c0))))
           (fmul (fmul (elevation dem r1 c0) (fsub row (of_int r0)))
              (fsub (of_int 1) (fsub col (of_int c0)))))
           (fmul (fmul (elevation dem r0 c1) (fsub (of_int 1) (fsub row (of_int r0))))
              (fsub col (of_int c0))))
           (fmul (fmul (elevation dem r1 c1) (fsub row (of_int r0)))
              (fsub col (of_int c0)))) = false) as Hnum; [|congruence].
      apply is_nan_num.
      repeat apply sum_num; try (by apply term_finite).
      by apply SFfinite_num, term_finite.
  - rewrite Hout by done. split; [by left|done].
Qed.

(** C7, as amended: at a finite coordinate (Python raises on the floor of a
    NaN or an infinite one) the sampler returns NaN when the floor of the
    queried coordinate lies outside the grid and when one of the four corner
    values is NaN; the [+1] neighbour is clamped to the last row and column,
    so at the far edges the edge value is used twice; in every other case the
    result is the weighted sum of the four corners as the arithmetic computes
    it.  On a grid without infinite elevations the result is NaN if and only
    if the floor lies outside the grid or one of the four corners is NaN.
    In binary64, and in exact arithmetic likewise. *)
Theorem bilinear_sample_cases :
  (forall (dem : ndarray float) (row col : float),
     PrimFloat.is_nan row = false -> PrimFloat.is_infinity row = false ->
     PrimFloat.is_nan col = false -> PrimFloat.is_infinity col = false ->
     let rows := (shape2 dem).1 in
     let cols := (shape2 dem).2 in
     let r0 := @floor float Binary64.binary64 row in
     let c0 := @floor float Binary64.binary64 col in
     let r1 := Z.min (r0 + 1) (Z.of_nat rows - 1) in
     let c1 := Z.min (c0 + 1) (Z.of_nat cols - 1) in
     let dr := fsub row (of_int r0) in
     let dc := fsub col (of_int c0) in
     let e00 := elevation dem r0 c0 in
     let e10 := elevation dem r1 c0 in
     let e01 := elevation dem r0 c1 in
     let e11 := elevation dem r1 c1 in
     (in_bounds rows cols r0 c0 = false -> _bilinear_sample dem row col = nan) /\
     (in_bounds rows cols r0 c0 = true ->
        (existsb isnan [e00; e10; e01; e11] = true ->
           _bilinear_sample dem row col = nan) /\
        (existsb isnan [e00; e10; e01; e11] = false ->
           _bilinear_sample dem row col =
             fadd (fadd (fadd (fmul (fmul e00 (fsub (of_int 1) dr)) (fsub (of_int 1) dc))
                              (fmul (fmul e10 dr) (fsub (of_int 1) dc)))
                        (fmul (fmul e01 (fsub (of_int 1) dr)) dc))
                  (fmul (fmul e11 dr) dc)) /\
        in_bounds rows cols r1 c1 = true /\
        (r0 < Z.of_nat rows - 1 -> r1 = r0 + 1)%Z /\
        (r0 = Z.of_nat rows - 1 -> r1 = r0)%Z /\
        (c0 < Z.of_nat cols - 1 -> c1 = c0 + 1)%Z /\
        (c0 = Z.of_nat cols - 1 -> c1 = c0)%Z) /\
     (finite_grid64 dem ->
        (isnan (_bilinear_sample dem row col) = true <->
         in_bounds rows cols r0 c0 = false \/
         existsb isnan [e00; e10; e01; e11] = true))) /\
  (forall (dem : ndarray xreal) (x y : R),
     let row := XFin x in
     let col := XFin y in
     let rows := (shape2 dem).1 in
     let cols := (shape2 dem).2 in
     let r0 := floor row in
     let c0 := floor col in
     let r1 := Z.min (r0 + 1) (Z.of_nat rows - 1) in
     let c1 := Z.min (c0 + 1) (Z.of_nat cols - 1) in
     let dr := fsub row (of_int r0) in
     let dc := fsub col (of_int c0) in
     let e00 := elevation dem r0 c0 in
     let e10 := elevation dem r1 c0 in
     let e01 := elevation dem r0 c1 in
     let e11 := elevation dem r1 c1 in
     (in_bounds rows cols r0 c0 = false -> _bilinear_sample dem row col = nan) /\
     (in_bounds rows cols r0 c0 = true ->
        (existsb isnan [e00; e10; e01; e11] = true ->
           _bilinear_sample dem row col = nan) /\
        (existsb isnan [e00; e10; e01; e11] = false ->
           _bilinear_sample dem row col =
             fadd (fadd (fadd (fmul (fmul e00 (fsub (of_int 1) dr)) (fsub (of_int 1) dc))
                              (fmul (fmul e10 dr) (fsub (of_int 1) dc)))
                        (fmul (fmul e01 (fsub (of_int 1) dr)) dc))
                  (fmul (fmul e11 dr) dc)) /\
        in_bounds rows cols r1 c1 = true /\
        (r0 < Z.of_nat rows - 1 -> r1 = r0 + 1)%Z /\
        (r0 = Z.of_nat rows - 1 -> r1 = r0)%Z /\
        (c0 < Z.of_nat cols - 1 -> c1 = c0 + 1)%Z /\
        (c0 = Z.of_nat cols - 1 -> c1 = c0)%Z) /\
     (finite_grid dem ->
        (isnan (_bilinear_sample dem row col) = true <->
         in_bounds rows cols r0 c0 = false \/
         existsb isnan [e00; e10; e01; e11] = true))).
Proof.
  split.
  - intros dem row col Hrn Hri Hcn Hci.
    pose proof (bilinear_sample_unfold dem row col) as [Hout Hin].
    cbv zeta in *. split; [exact Hout|]. split; [exact Hin|].
    intros Hg. by apply bilinear_sample_nan_iff64.
  - intros dem x y.
    pose proof (bilinear_sample_unfold dem (XFin x) (XFin y)) as [Hout Hin].
    cbv zeta in *. split; [exact Hout|]. split; [exact Hin|].
    intros Hf. by apply bilinear_sample_nan_iff_exact.
Qed.

Lemma bilinear_sample_cases_witness :
  let r0 := @floor float Binary64.binary64 0%float in
  let c0 := @floor float Binary64.binary64 0.5%float in
  let r1 := Z.min (r0 + 1) (1 - 1) in
  let c1 := Z.min (c0 + 1) (3 - 1) in
  _bilinear_sample dem_bump 0%float 0.5%float = 2.5%float /\
  (isnan (_bilinear_sample dem_bump 0%float 0.5%float) = true <->
   in_bounds 1 3 r0 c0 = false \/
   existsb isnan [elevation dem_bump r0 c0; elevation dem_bump r1 c0;
                  elevation dem_bump r0 c1; elevation dem_bump r1 c1] = true).
Proof.
  destruct (proj1 bilinear_sample_cases dem_bump 0%float 0.5%float
              eq_refl eq_refl eq_refl eq_refl) as (_ & Hin & Hiff).
  split.
  - destruct (Hin eq_refl) as (_ & Hval & _). rewrite (Hval eq_refl).
    vm_compute. reflexivity.
  - apply Hiff. repeat constructor.
Defined.

End SamplerCases.

(** ** A flat plane in exact arithmetic *)

Lemma mask_all_true (rows cols : nat) (m : ndarray bool) :
  is_mask rows cols m ->
  (forall r c, in_bounds rows cols r c = true -> visible m r c) ->
  m = full rows cols true.
Proof.
  intros [Hs Hl] Hall. destruct m as [sh dat]. simpl in *. subst sh. unfold full. f_equal.
  symmetry. apply replicate_as_Forall. split; [done|].
  apply Forall_lookup_2. intros i x Hi.
  assert (i < rows * cols)%nat as Hlt by (rewrite <- Hl; eapply lookup_lt_Some, Hi).
  assert (0 < cols)%nat as Hc by (destruct cols; lia).
  set (r := (Z.of_nat i / Z.of_nat cols)%Z). set (c := (Z.of_nat i mod Z.of_nat cols)%Z).
  assert (in_bounds rows cols r c = true) as Hb.
  { apply in_bounds_spec. subst r c.
    pose proof (Z.mod_pos_bound (Z.of_nat i) (Z.of_nat cols) ltac:(lia)).
    pose proof (Z.div_pos (Z.of_nat i) (Z.of_nat cols) ltac:(lia) ltac:(lia)).
    assert (Z.of_nat i / Z.of_nat cols < Z.of_nat rows)%Z
      by (apply Z.div_lt_upper_bound; nia).
    lia. }
  specialize (Hall r c Hb). unfold visible, getitem2 in Hall. simpl in Hall.
  rewrite Hb in Hall.
  replace (flat_index cols r c) with i in Hall.
  - rewrite Hi in Hall. by injection Hall.
  - unfold flat_index. subst r c.
    pose proof (Z.div_mod (Z.of_nat i) (Z.of_nat cols) ltac:(lia)). lia.
Qed.

Section ExactFlat.
Import Exact.
Local Open Scope R_scope.

Lemma Int_part_between (x : R) (a b : Z) :
  IZR a <= x <= IZR b -> (a <= Int_part x <= b)%Z.
Proof.
  intros [Ha Hb]. destruct (base_Int_part x) as [H1 H2]. split.
  - assert (IZR (a - 1) < IZR (Int_part x)) as H by (rewrite minus_IZR; lra).
    apply lt_IZR in H. lia.
  - apply le_IZR. lra.
Qed.

Lemma sample_between (o d n : Z) (t : R) :
  (0 <= o < n)%Z -> (0 <= o + d < n)%Z -> 0 < t < 1 ->
  IZR 0 <= IZR o + IZR d * t <= IZR (n - 1).
Proof.
  intros Ho Hd Ht.
  assert (0 <= IZR o) by (apply (IZR_le 0); lia).
  assert (IZR o <= IZR (n - 1)) by (apply IZR_le; lia).
  assert (0 <= IZR o + IZR d) by (rewrite <- plus_IZR; apply (IZR_le 0); lia).
  assert (IZR o + IZR d <= IZR (n - 1)) by (rewrite <- plus_IZR; apply IZR_le; lia).
  destruct (Rle_dec 0 (IZR d)); nra.
Qed.

Lemma elevation_uniform (rows cols : nat) (E : R) (r c : Z) :
  in_bounds rows cols r c = true -> elevation (uniform_grid rows cols E) r c = XFin E.
Proof.
  intros Hb. unfold elevation, getitem2, uniform_grid. simpl. rewrite Hb.
  rewrite lookup_replicate_2; [reflexivity|]. eapply flat_index_lt, Hb.
Qed.

Lemma bilinear_sample_uniform (rows cols : nat) (E x y : R) :
  IZR 0 <= x <= IZR (Z.of_nat rows - 1) -> IZR 0 <= y <= IZR (Z.of_nat cols - 1) ->
  _bilinear_sample (uniform_grid rows cols E) (XFin x) (XFin y) = XFin E.
Proof.
  intros Hx Hy.
  apply Int_part_between in Hx, Hy.
  pose proof (bilinear_sample_unfold (uniform_grid rows cols E) (XFin x) (XFin y))
    as [_ H]. cbv zeta in H.
  change (shape2 (uniform_grid rows cols E)).1 with rows in H.
  change (shape2 (uniform_grid rows cols E)).2 with cols in H.
  change (@floor xreal exact (XFin x)) with (Int_part x) in H.
  change (@floor xreal exact (XFin y)) with (Int_part y) in H.
  assert (in_bounds rows cols (Int_part x) (Int_part y) = true) as Hb
    by (apply in_bounds_spec; lia).
  destruct (H Hb) as (_ & Hval & Hb1 & _). clear H.
  assert (in_bounds rows cols (Z.min (Int_part x + 1) (Z.of_nat rows - 1)) (Int_part y)
          = true) as Hb10 by (apply in_bounds_spec; lia).
  assert (in_bounds rows cols (Int_part x) (Z.min (Int_part y + 1) (Z.of_nat cols - 1))
          = true) as Hb01 by (apply in_bounds_spec; lia).
  rewrite !elevation_uniform in Hval by done.
  rewrite Hval by reflexivity.
  rewrite !exact_of_int, !exact_sub, !exact_mul, !exact_add. f_equal. ring.
Qed.

Lemma los_loop_uniform (rows cols : nat) (E hh D : R) (obs_r obs_c dr dc steps : Z)
    (todo : list Z) :
  0 <= hh ->
  (0 <= obs_r < Z.of_nat rows)%Z -> (0 <= obs_r + dr < Z.of_nat rows)%Z ->
  (0 <= obs_c < Z.of_nat cols)%Z -> (0 <= obs_c + dc < Z.of_nat cols)%Z ->
  (forall s, s ∈ todo -> (1 <= s < steps)%Z) ->
  los_loop (uniform_grid rows cols E) (XFin (E + hh)) (XFin E) obs_r obs_c dr dc steps
    (XFin D) false todo = true.
Proof.
  intros Hh Hr Hr' Hc Hc' Hs. induction todo as [|s todo IH]; [done|].
  assert (forall s0, s0 ∈ todo -> (1 <= s0 < steps)%Z) as Hs'
    by (intros; apply Hs, elem_of_cons; by right).
  specialize (IH Hs').
  pose proof (step_fraction_exact s steps (Hs s ltac:(apply elem_of_cons; by left))) as Ht.
  cbn [los_loop]. rewrite !exact_of_int, !exact_div, !exact_mul, !exact_add.
  set (t := IZR s / IZR steps) in *.
  rewrite bilinear_sample_uniform by (by apply sample_between).
  rewrite exact_isnan_fin. cbv iota. rewrite andb_false_l.
  rewrite exact_sub, exact_mul, exact_add, exact_lt.
  assert (Rltb (E + hh + (E - (E + hh)) * t) E = false) as -> by (apply Rltb_false; nra).
  exact IH.
Qed.

Lemma line_of_sight_uniform (rows cols : nat) (E hh c : R) (observer_rc target_rc : Z * Z) :
  0 <= hh ->
  in_bounds rows cols observer_rc.1 observer_rc.2 = true ->
  in_bounds rows cols target_rc.1 target_rc.2 = true ->
  _line_of_sight (uniform_grid rows cols E) (XFin (E + hh)) (XFin E)
    observer_rc target_rc (XFin c) false = true.
Proof.
  intros Hh Ho Ht. apply in_bounds_spec in Ho, Ht.
  unfold _line_of_sight. destruct observer_rc as [obs_r obs_c], target_rc as [tr tc].
  simpl in Ho, Ht.
  set (dr := (tr - obs_r)%Z). set (dc := (tc - obs_c)%Z).
  set (steps := Z.max (Z.abs dr) (Z.abs dc)).
  destruct (Z.eqb_spec steps 0); [done|].
  rewrite !exact_of_int, exact_hypot, exact_mul. rewrite andb_false_l.
  apply (los_loop_uniform rows cols); try done; try (subst dr dc; lia).
  intros s Hs. by apply elem_of_range_from in Hs.
Qed.

Lemma valid_uniform (rows cols : nat) (E hh c : R) (observer_rc : Z * Z) :
  0 <= hh -> 0 < c -> in_bounds rows cols observer_rc.1 observer_rc.2 = true ->
  valid_input (uniform_grid rows cols E) observer_rc (XFin hh) (XFin c).
Proof.
  intros Hh Hc Hb. split; [reflexivity|]. split; [apply Rleb_false; simpl; lra|].
  split; [apply Rltb_false; simpl; lra|]. split; [exact Hb|].
  by rewrite elevation_uniform.
Qed.

(** The general statement of C8 for the baseline engine, in exact arithmetic. *)
Lemma baseline_flat_exact (rows cols : nat) (E hh c : R) (observer_rc : Z * Z) :
  0 < hh -> 0 < c -> in_bounds rows cols observer_rc.1 observer_rc.2 = true ->
  _compute_viewshed_baseline (uniform_grid rows cols E) observer_rc (XFin hh) (XFin c) false
    = Ok (full rows cols true).
Proof.
  intros Hh Hc Hb.
  assert (valid_input (uniform_grid rows cols E) observer_rc (XFin hh) (XFin c)) as Hv
    by (apply valid_uniform; (done || lra)).
  rewrite baseline_checked, (checked_call_valid _ _ _ _ _ Hv). f_equal.
  unfold baseline_mask.
  destruct (grown_mask _ observer_rc (XFin hh) (XFin c)
              (List.filter
                 (baseline_visible (uniform_grid rows cols E)
                    (fadd (elevation (uniform_grid rows cols E) observer_rc.1 observer_rc.2)
                       (XFin hh)) observer_rc.1 observer_rc.2 (XFin c) false)
                 (cells rows cols)) Hv) as (Hm & _ & Hvis).
  apply mask_all_true; [exact Hm|]. intros r c0 Hrc. apply Hvis.
  destruct (decide ((r, c0) = observer_rc)) as [<-|Hne]; [by left|]. right.
  split; [|exact Hrc]. apply list_elem_of_In, filter_In.
  split; [by apply list_elem_of_In, elem_of_cells|].
  unfold baseline_visible. cbn [fst snd].
  rewrite !elevation_uniform by done. rewrite exact_isnan_fin, exact_add.
  rewrite <- surjective_pairing.
  rewrite (line_of_sight_uniform rows cols E hh c observer_rc (r, c0)) by (done || lra).
  rewrite !andb_true_r. apply negb_true_iff, andb_false_iff.
  destruct observer_rc as [obs_r obs_c]. simpl.
  destruct (Z.eqb_spec r obs_r), (Z.eqb_spec c0 obs_c); auto. congruence.
Qed.

End ExactFlat.

(** ** A ray whose angles never decrease is visible throughout *)

Section RisingRay.
Context {F : Type} {PF : PyFloat F} {PO : PyFloatOrder F}.
Implicit Types (e : @entry F) (es : list (@entry F)) (M : F).

Lemma marked_rising es M :
  isnan M = false ->
  (forall e, e ∈ es -> fle M (entry_angle e) = true) ->
  StronglySorted (fun e1 e2 => fle (entry_angle e1) (entry_angle e2) = true) es ->
  marked es M = map entry_cell es.
Proof.
  revert M. induction es as [|e es IH]; intros M HM Hle Hs; [reflexivity|].
  apply StronglySorted_inv in Hs as [Hs He].
  assert (fle M (entry_angle e) = true) as Hea by (apply Hle, elem_of_cons; by left).
  rewrite marked_cons.
  rewrite (fle_trans _ _ _ (sub_epsilon_le M HM) Hea). cbn [app map]. f_equal.
  apply IH; [by apply sweep_step_not_nan| |exact Hs].
  intros e' He'. destruct (sweep_step_cases M e) as [->|[-> _]].
  - apply Hle, elem_of_cons. by right.
  - eapply Forall_forall in He; [exact He|exact He'].
Qed.

Lemma StronglySorted_within {A} (R R' : A -> A -> Prop) (l : list A) :
  (forall x y, x ∈ l -> y ∈ l -> R x y -> R' x y) ->
  StronglySorted R l -> StronglySorted R' l.
Proof.
  induction l as [|x l IH]; intros HR Hs; [constructor|].
  apply StronglySorted_inv in Hs as [Hs Hx]. constructor.
  - apply IH; [|exact Hs]. intros y z Hy Hz. apply HR; apply elem_of_cons; by right.
  - apply Forall_forall. intros y Hy. apply HR.
    + apply elem_of_cons. by left.
    + apply elem_of_cons. by right.
    + eapply Forall_forall in Hx; [exact Hx|exact Hy].
Qed.

End RisingRay.

Section ExactFlatRadial.
Import Exact.
Local Open Scope R_scope.

Lemma exact_atan2_fin (y x : R) :
  @atan2 xreal exact_atan2 (XFin y) (XFin x) = XFin (Ratan2 y x).
Proof. reflexivity. Qed.

Lemma Ratan2_pos (y x : R) : 0 < x -> Ratan2 y x = atan (y / x).
Proof. intros H. unfold Ratan2. destruct (Rlt_dec 0 x); [done|lra]. Qed.

Lemma atan_le (x y : R) : x <= y -> atan x <= atan y.
Proof.
  intros [H| ->]; [|lra]. left. by apply atan_increasing.
Qed.

Lemma hypot_multiple (g d1 d2 : Z) :
  (0 < g)%Z ->
  sqrt (IZR (g * d1) * IZR (g * d1) + IZR (g * d2) * IZR (g * d2)) =
  IZR g * sqrt (IZR d1 * IZR d1 + IZR d2 * IZR d2).
Proof.
  intros Hg. assert (0 < IZR g) by (apply (IZR_lt 0); lia).
  rewrite !mult_IZR.
  replace (IZR g * IZR d1 * (IZR g * IZR d1) + IZR g * IZR d2 * (IZR g * IZR d2))
    with (IZR g * IZR g * (IZR d1 * IZR d1 + IZR d2 * IZR d2)) by ring.
  rewrite sqrt_mult by nra. rewrite sqrt_square by lra. reflexivity.
Qed.

Lemma hypot_direction_pos (d1 d2 : Z) :
  (d1, d2) <> (0, 0)%Z -> 0 < sqrt (IZR d1 * IZR d1 + IZR d2 * IZR d2).
Proof.
  intros Hd. apply sqrt_lt_R0.
  destruct (Z.eq_dec d1 0%Z) as [->|H1].
  - assert (d2 <> 0%Z) as H2 by congruence. apply (not_0_IZR d2) in H2. nra.
  - apply (not_0_IZR d1) in H1. nra.
Qed.

(** Along one direction, with the eye above the plane, the angle to the plane
    rises with the distance multiplier. *)
Lemma flat_angle_mono (y c : R) (g1 g2 d1 d2 : Z) :
  y <= 0 -> 0 < c -> (0 < g1 <= g2)%Z -> (d1, d2) <> (0, 0)%Z ->
  Ratan2 y (sqrt (IZR (g1 * d1) * IZR (g1 * d1) + IZR (g1 * d2) * IZR (g1 * d2)) * c) <=
  Ratan2 y (sqrt (IZR (g2 * d1) * IZR (g2 * d1) + IZR (g2 * d2) * IZR (g2 * d2)) * c).
Proof.
  intros Hy Hc Hg Hd. rewrite !hypot_multiple by lia.
  pose proof (hypot_direction_pos d1 d2 Hd) as HL.
  set (L := sqrt (IZR d1 * IZR d1 + IZR d2 * IZR d2)) in *.
  assert (0 < IZR g1) by (apply (IZR_lt 0); lia).
  assert (IZR g1 <= IZR g2) by (apply IZR_le; lia).
  assert (0 < IZR g1 * L * c) as Ha by (apply Rmult_lt_0_compat; nra).
  assert (IZR g1 * L * c <= IZR g2 * L * c) as Hab by nra.
  rewrite !Ratan2_pos by lra. apply atan_le.
  unfold Rdiv. pose proof (Rinv_le_contravar _ _ Ha Hab) as Hinv.
  assert (0 < / (IZR g2 * L * c)) by (apply Rinv_0_lt_compat; lra).
  nra.
Qed.

Lemma radial_entry_uniform (rows cols : nat) (E hh c : R) (obs_r obs_c r c0 : Z) :
  in_bounds rows cols r c0 = true -> (r, c0) <> (obs_r, obs_c) ->
  let dr := (r - obs_r)%Z in
  let dc := (c0 - obs_c)%Z in
  let g := Z.gcd (Z.abs dr) (Z.abs dc) in
  radial_entry (uniform_grid rows cols E) (XFin (E + hh)) obs_r obs_c (XFin c) false (r, c0)
  = Some ((dr / g, dc / g)%Z,
          (g, r, c0,
           XFin (Ratan2 (E - (E + hh)) (sqrt (IZR dr * IZR dr + IZR dc * IZR dc) * c)))).
Proof.
  intros Hb Hne dr dc g. unfold radial_entry. fold dr dc g.
  assert ((r =? obs_r) && (c0 =? obs_c) = false)%Z as ->.
  { apply andb_false_iff. destruct (Z.eqb_spec r obs_r), (Z.eqb_spec c0 obs_c); auto.
    congruence. }
  rewrite elevation_uniform by done. rewrite exact_isnan_fin.
  destruct (Z.eqb_spec g 0%Z) as [Hg|Hg].
  - exfalso. apply Z.gcd_eq_0 in Hg as [H1 H2]. apply Hne. f_equal; subst dr dc; lia.
  - rewrite andb_false_l, !exact_of_int, exact_hypot, exact_mul, exact_sub,
      exact_atan2_fin. reflexivity.
Qed.

Lemma uniform_entry_shape (rows cols : nat) (E hh c : R) (obs_r obs_c : Z)
    (d : Z * Z) (e : @entry xreal) :
  (d, e) ∈ radial_entries (uniform_grid rows cols E) (XFin (E + hh)) obs_r obs_c
             (XFin c) false ->
  (0 < entry_g e)%Z /\ d <> (0, 0)%Z /\
  entry_angle e =
    XFin (Ratan2 (E - (E + hh))
            (sqrt (IZR (entry_g e * d.1) * IZR (entry_g e * d.1)
                   + IZR (entry_g e * d.2) * IZR (entry_g e * d.2)) * c)).
Proof.
  intros H. apply radial_entries_cell in H as (He & Hb & Hne).
  destruct (entry_cell e) as [r c0] eqn:Hcell. cbn [fst snd] in Hb.
  change (shape2 (uniform_grid rows cols E)).1 with rows in Hb.
  change (shape2 (uniform_grid rows cols E)).2 with cols in Hb.
  rewrite (radial_entry_uniform rows cols E hh c obs_r obs_c r c0 Hb Hne) in He.
  injection He as <- <-. unfold entry_g, entry_angle. cbn [fst snd].
  set (dr := (r - obs_r)%Z). set (dc := (c0 - obs_c)%Z).
  set (g := Z.gcd (Z.abs dr) (Z.abs dc)).
  assert (0 < g)%Z as Hg.
  { pose proof (Z.gcd_nonneg (Z.abs dr) (Z.abs dc)).
    destruct (Z.eq_dec g 0%Z) as [E0|]; [|subst g; lia].
    apply Z.gcd_eq_0 in E0 as [H1 H2]. exfalso. apply Hne. f_equal; subst dr dc; lia. }
  assert (g * (dr / g) = dr)%Z as Hdr.
  { symmetry. apply Znumtheory.Zdivide_Zdiv_eq; [lia|].
    apply Z.divide_abs_r. apply Z.gcd_divide_l. }
  assert (g * (dc / g) = dc)%Z as Hdc.
  { symmetry. apply Znumtheory.Zdivide_Zdiv_eq; [lia|].
    apply Z.divide_abs_r. apply Z.gcd_divide_r. }
  split; [exact Hg|]. split.
  - intros Hd. injection Hd as H1 H2. rewrite H1 in Hdr. rewrite H2 in Hdc.
    apply Hne. f_equal; subst dr dc; lia.
  - by rewrite Hdr, Hdc.
Qed.

(** The general statement of C8 for the radial engine, in exact arithmetic. *)
Lemma radial_flat_exact (rows cols : nat) (E hh c : R) (observer_rc : Z * Z) :
  0 < hh -> 0 < c -> in_bounds rows cols observer_rc.1 observer_rc.2 = true ->
  _compute_viewshed_radial (uniform_grid rows cols E) observer_rc (XFin hh) (XFin c) false
    = Ok (full rows cols true).
Proof.
  intros Hh Hc Hb.
  assert (valid_input (uniform_grid rows cols E) observer_rc (XFin hh) (XFin c)) as Hv
    by (apply valid_uniform; (done || lra)).
  rewrite radial_checked, (checked_call_valid _ _ _ _ _ Hv). f_equal.
  unfold radial_mask. rewrite elevation_uniform by done. rewrite exact_add.
  set (des := radial_entries (uniform_grid rows cols E) (XFin (E + hh))
                observer_rc.1 observer_rc.2 (XFin c) false).
  destruct (grown_mask _ observer_rc (XFin hh) (XFin c) (radial_marked (group des)) Hv)
    as (Hm & _ & Hvis).
  apply mask_all_true; [exact Hm|]. intros r c0 Hrc. apply Hvis.
  destruct (decide ((r, c0) = (observer_rc.1, observer_rc.2))) as [Heq|Hne];
    [injection Heq as -> ->; by left|]. right.
  split; [|exact Hrc].
  pose proof (radial_entry_uniform rows cols E hh c observer_rc.1 observer_rc.2 r c0
                Hrc Hne) as He. cbv zeta in He.
  match type of He with _ = Some (?d0, ?e0) => set (d := d0) in *; set (e := e0) in * end.
  assert ((d, e) ∈ des) as Hde.
  { subst des. unfold radial_entries. apply list_elem_of_omap. exists (r, c0).
    split; [by apply elem_of_cells|exact He]. }
  set (es := entries_of d des).
  assert (e ∈ es) as Hes.
  { subst es. unfold entries_of. apply list_elem_of_fmap. exists (d, e). split; [done|].
    apply list_elem_of_In, filter_In. split; [by apply list_elem_of_In|].
    apply direction_eqb_refl. }
  assert ((d, es) ∈ group des) as Hray.
  { apply (rays_of_group des). split; [done|]. intros Hnil. rewrite Hnil in Hes.
    by apply elem_of_nil in Hes. }
  apply elem_of_radial_marked. exists d, es. split; [exact Hray|].
  assert (forall x, x ∈ sort_entries es -> (d, x) ∈ des) as Horigin.
  { intros x Hx. rewrite sort_entries_perm in Hx. by apply (group_entry_origin des d es). }
  rewrite (marked_rising (sort_entries es) neg_inf).
  - apply list_elem_of_fmap. exists e. split; [reflexivity|]. by rewrite sort_entries_perm.
  - reflexivity.
  - intros x Hx. apply Horigin, uniform_entry_shape in Hx as (_ & _ & ->). reflexivity.
  - apply (StronglySorted_within g_le); [|apply sort_entries_sorted].
    intros x y Hx Hy Hxy.
    apply Horigin, uniform_entry_shape in Hx as (Hgx & Hd & ->).
    apply Horigin, uniform_entry_shape in Hy as (Hgy & _ & ->).
    rewrite exact_le. apply Rleb_true. destruct d as [d1 d2].
    apply flat_angle_mono; try done; lra.
Qed.

End ExactFlatRadial.

(** ** Curvature in exact arithmetic: the radial engine and its tolerance *)

Section ExactSteep.
Import Exact Scenarios.
Local Open Scope R_scope.











End ExactSteep.

(** ** The flat 5 x 5 scenario under the radial engine, in binary64 *)

Section Binary64Flat.
Import Binary64 Scenarios.

Lemma leb_neg_infinity (a : float) :
  PrimFloat.is_nan a = false -> PrimFloat.leb PrimFloat.neg_infinity a = true.
Proof.
  unfold PrimFloat.is_nan. rewrite FloatAxioms.eqb_spec, FloatAxioms.leb_spec.
  change (Prim2SF PrimFloat.neg_infinity) with (S754_infinity true).
  destruct (Prim2SF a) as [s|s| |s m e]; try reflexivity.
  - destruct s; reflexivity.
  - discriminate.
Qed.

(** The scenario of C8 for the radial engine: all 25 cells are true for
    every [atan2] that returns a number on numbers and that, below the
    horizontal, does not fall by more than the tolerance as the distance
    grows. *)
Lemma radial_flat_5x5 (PA : PyAtan2 float) :
  (forall y x, PrimFloat.is_nan y = false -> PrimFloat.is_nan x = false ->
     PrimFloat.is_nan (atan2 y x) = false) ->
  (forall y x1 x2, PrimFloat.ltb y 0 = true -> PrimFloat.ltb 0 x1 = true ->
     PrimFloat.leb x1 x2 = true ->
     PrimFloat.leb (PrimFloat.sub (atan2 y x1) epsilon64) (atan2 y x2) = true) ->
  @_compute_viewshed_radial float binary64 PA dem_flat_5x5 (2, 2) height_1_7 10%float false
    = Ok (full 5 5 true).
Proof.
  intros Hnum Hrise.
  assert (forall y x, PrimFloat.is_nan y = false -> PrimFloat.is_nan x = false ->
            PrimFloat.leb PrimFloat.neg_infinity (atan2 y x) = true) as Hfirst
    by (intros; by apply leb_neg_infinity, Hnum).
  rewrite radial_checked, checked_call_valid by (repeat split; vm_compute; reflexivity).
  f_equal. unfold radial_mask, radial_marked.
  set (rays := group _).
  assert (map (fun ray : (Z * Z) * list (@entry float) =>
                 marked (sort_entries ray.2) neg_inf) rays =
          map (fun ray : (Z * Z) * list (@entry float) =>
                 map entry_cell (sort_entries ray.2)) rays) as ->.
  { vm_compute in rays. subst rays.
    cbv [map snd sort_entries foldr insert_entry entry_g fst Z.leb Z.compare Pos.compare
         Pos.compare_cont].
    repeat first
      [ reflexivity
      | apply (f_equal2 cons);
        [apply marked_all_direct;
           [repeat constructor; apply Hfirst; reflexivity
           |repeat constructor; apply Hrise; reflexivity]|] ]. }
  vm_compute. reflexivity.
Qed.

Lemma level_atan2_number (y x : float) :
  PrimFloat.is_nan y = false -> PrimFloat.is_nan x = false ->
  PrimFloat.is_nan (@atan2 float level_atan2 y x) = false.
Proof.
  intros _ _. simpl. destruct (PrimFloat.ltb y 0); [reflexivity|].
  destruct (PrimFloat.ltb 0 y); reflexivity.
Qed.

Lemma level_atan2_rises (y x1 x2 : float) :
  PrimFloat.ltb y 0 = true -> PrimFloat.ltb 0 x1 = true -> PrimFloat.leb x1 x2 = true ->
  PrimFloat.leb (PrimFloat.sub (@atan2 float level_atan2 y x1) epsilon64)
    (@atan2 float level_atan2 y x2) = true.
Proof. intros Hy _ _. simpl. rewrite Hy. reflexivity. Qed.

End Binary64Flat.

(** * Further properties of the engines and of the mask filter *)

(** ** The baseline engine, cell by cell *)

Section BaselineCells.
Context {F : Type} {PF : PyFloat F}.

Lemma range_from_empty (lo hi : Z) : hi <= lo -> range_from lo hi = [].
Proof. intros H. unfold range_from. replace (Z.to_nat (hi - lo)) with 0%nat by lia. done. Qed.

Lemma baseline_mask_visible (dem : ndarray F) (observer_rc : Z * Z) (h cs : F)
    (curv : bool) (r c : Z) :
  valid_input dem observer_rc h cs ->
  visible (baseline_mask dem observer_rc h cs curv) r c <->
  (r, c) = observer_rc \/
  (in_bounds (shape2 dem).1 (shape2 dem).2 r c = true /\
   isnan (elevation dem r c) = false /\
   _line_of_sight dem (fadd (elevation dem observer_rc.1 observer_rc.2) h)
     (elevation dem r c) observer_rc (r, c) cs curv = true).
Proof.
  intros Hv. unfold baseline_mask.
  rewrite (proj2 (proj2 (grown_mask dem observer_rc h cs _ Hv))).
  destruct observer_rc as [obs_r obs_c]. cbn [fst snd]. split.
  - intros [[-> ->]|[Hin Hb]]; [by left|].
    apply list_elem_of_In, filter_In in Hin as [_ Hvis]. unfold baseline_visible in Hvis.
    cbn [fst snd] in Hvis. apply andb_true_iff in Hvis as [Hvis Hlos].
    apply andb_true_iff in Hvis as [Hobs Hnan]. apply negb_true_iff in Hnan.
    right. done.
  - intros [H|(Hb & Hnan & Hlos)]; [injection H as -> ->; by left|].
    destruct (decide ((r, c) = (obs_r, obs_c))) as [H|Hne]; [injection H as -> ->; by left|].
    right. split; [|exact Hb]. apply list_elem_of_In, filter_In. split.
    + apply list_elem_of_In, elem_of_cells, Hb.
    + unfold baseline_visible. cbn [fst snd]. rewrite Hnan, Hlos.
      destruct (Z.eqb_spec r obs_r), (Z.eqb_spec c obs_c); simpl; congruence.
Qed.

(** X1: every cell is decided on its own: a cell other than the observer's is
    visible in the baseline mask exactly when it holds data and its own line
    of sight is clear. *)
Theorem baseline_cell_rule (dem : ndarray F) (observer_rc : Z * Z) (h cs : F)
    (curv : bool) (m : ndarray bool) (r c : Z) :
  _compute_viewshed_baseline dem observer_rc h cs curv = Ok m ->
  visible m r c <->
  (r, c) = observer_rc \/
  (in_bounds (shape2 dem).1 (shape2 dem).2 r c = true /\
   isnan (elevation dem r c) = false /\
   _line_of_sight dem (fadd (elevation dem observer_rc.1 observer_rc.2) h)
     (elevation dem r c) observer_rc (r, c) cs curv = true).
Proof.
  rewrite baseline_checked. intros H. apply checked_call_ok in H as [-> Hv].
  by apply baseline_mask_visible.
Qed.

(** No sample is taken between the observer and a cell next to it. *)
Lemma line_of_sight_adjacent (dem : ndarray F) (oe te : F) (obs_r obs_c r c : Z) (cs : F)
    (curv : bool) :
  Z.abs (r - obs_r) <= 1 -> Z.abs (c - obs_c) <= 1 ->
  _line_of_sight dem oe te (obs_r, obs_c) (r, c) cs curv = true.
Proof.
  intros Hr Hc. unfold _line_of_sight.
  destruct (Z.eqb_spec (Z.max (Z.abs (r - obs_r)) (Z.abs (c - obs_c))) 0); [reflexivity|].
  rewrite range_from_empty by lia. reflexivity.
Qed.

(** X3: the eight neighbours of the observer are visible whenever they hold
    data, whatever the terrain, the heights and the curvature flag. *)
Theorem baseline_neighbours_visible (dem : ndarray F) (observer_rc : Z * Z) (h cs : F)
    (curv : bool) (m : ndarray bool) (r c : Z) :
  _compute_viewshed_baseline dem observer_rc h cs curv = Ok m ->
  Z.abs (r - observer_rc.1) <= 1 -> Z.abs (c - observer_rc.2) <= 1 ->
  in_bounds (shape2 dem).1 (shape2 dem).2 r c = true ->
  isnan (elevation dem r c) = false ->
  visible m r c.
Proof.
  rewrite baseline_checked. intros H. apply checked_call_ok in H as [-> Hv].
  intros Hr Hc Hb Hnan. apply baseline_mask_visible; [done|]. right.
  split; [done|]. split; [done|]. destruct observer_rc as [obs_r obs_c].
  by apply line_of_sight_adjacent.
Qed.

(** Without curvature the sample loop never reads the distance. *)
Lemma los_loop_distance (dem : ndarray F) (oe te : F) (obs_r obs_c dr dc steps : Z)
    (td td' : F) (todo : list Z) :
  los_loop dem oe te obs_r obs_c dr dc steps td false todo =
  los_loop dem oe te obs_r obs_c dr dc steps td' false todo.
Proof.
  induction todo as [|step todo IH]; [reflexivity|]. cbn [los_loop andb].
  destruct (isnan _); [reflexivity|]. destruct (flt _ _); [reflexivity|]. exact IH.
Qed.

Lemma line_of_sight_cell_size (dem : ndarray F) (oe te : F) (o t : Z * Z) (cs cs' : F) :
  _line_of_sight dem oe te o t cs false = _line_of_sight dem oe te o t cs' false.
Proof.
  unfold _line_of_sight. destruct o as [obs_r obs_c], t as [r c]. cbn [andb].
  destruct (_ =? 0); [reflexivity|]. apply los_loop_distance.
Qed.

(** X4: with curvature disabled the baseline mask does not depend on the cell
    size: any two positive cell sizes give the same result. *)
Theorem baseline_cell_size_irrelevant (dem : ndarray F) (observer_rc : Z * Z)
    (h cs cs' : F) :
  fle cs (of_int 0) = false -> fle cs' (of_int 0) = false ->
  _compute_viewshed_baseline dem observer_rc h cs false =
  _compute_viewshed_baseline dem observer_rc h cs' false.
Proof.
  intros Hcs Hcs'. rewrite !baseline_unfold.
  assert (_validate_inputs dem observer_rc h cs = _validate_inputs dem observer_rc h cs') as ->.
  { unfold _validate_inputs. by rewrite Hcs, Hcs'. }
  destruct (_validate_inputs dem observer_rc h cs'); [|reflexivity].
  destruct (isnan _); [reflexivity|]. do 2 f_equal.
  apply filter_ext. intros rc. unfold baseline_visible. f_equal.
  apply line_of_sight_cell_size.
Qed.

End BaselineCells.

Section EngineErrors.
Context {F : Type} {PF : PyFloat F} {PA : PyAtan2 F}.

(** X6: the two engines fail alike: on every input, and whatever the curvature
    flags, one raises an exception exactly when the other raises the same,
    and one returns a mask exactly when the other does. *)
Theorem engines_fail_alike (dem : ndarray F) (observer_rc : Z * Z) (h cs : F)
    (curv curv' : bool) :
  (forall e, _compute_viewshed_baseline dem observer_rc h cs curv = Raise e <->
             _compute_viewshed_radial dem observer_rc h cs curv' = Raise e) /\
  ((exists m, _compute_viewshed_baseline dem observer_rc h cs curv = Ok m) <->
   (exists m, _compute_viewshed_radial dem observer_rc h cs curv' = Ok m)).
Proof.
  rewrite baseline_checked, radial_checked. unfold checked_call.
  destruct (_validate_inputs dem observer_rc h cs).
  - destruct (isnan _).
    + split; [done|]. split; intros [m H]; discriminate.
    + split; [split; discriminate|]. split; intros _; eexists; reflexivity.
  - split; [done|]. split; intros [m H]; discriminate.
Qed.

End EngineErrors.

Section NanParameters.
Context {F : Type} {PF : PyFloat F} {PA : PyAtan2 F} {PO : PyFloatOrder F}.

(** X7: a NaN cell size or a NaN observer height is not rejected: both
    comparisons of the validator are false on NaN, so on a 2D grid with the
    observer on a cell that holds data both engines return a mask. *)
Theorem nan_parameters_accepted (dem : ndarray F) (observer_rc : Z * Z) (h cs : F)
    (curv : bool) :
  ndim dem = 2%nat ->
  in_bounds (shape2 dem).1 (shape2 dem).2 observer_rc.1 observer_rc.2 = true ->
  isnan (elevation dem observer_rc.1 observer_rc.2) = false ->
  (isnan cs = true \/ fle cs (of_int 0) = false) ->
  (isnan h = true \/ flt h (of_int 0) = false) ->
  (exists m, _compute_viewshed_baseline dem observer_rc h cs curv = Ok m) /\
  (exists m, _compute_viewshed_radial dem observer_rc h cs curv = Ok m).
Proof.
  intros Hnd Hb Hobs Hcs Hh.
  assert (valid_input dem observer_rc h cs) as Hv.
  { split; [done|]. split; [|split; [|done]].
    - destruct Hcs as [Hcs|Hcs]; [|done].
      destruct (fle cs (of_int 0)) eqn:E; [|done].
      apply fle_not_nan in E as [E _]. congruence.
    - destruct Hh as [Hh|Hh]; [|done].
      destruct (flt h (of_int 0)) eqn:E; [|done].
      apply flt_not_nan in E as [E _]. congruence. }
  rewrite baseline_checked, radial_checked, !(checked_call_valid _ _ _ _ _ Hv).
  split; eexists; reflexivity.
Qed.

End NanParameters.

Section Binary64Baseline.
Import Binary64 Scenarios.

Lemma baseline_cell_rule_witness :
  visible (mk_ndarray [1; 3]%nat [true; true; false]) 0 2 <->
  (0, 2) = (0, 0) \/
  (in_bounds (shape2 dem_bump).1 (shape2 dem_bump).2 0 2 = true /\
   isnan (elevation dem_bump 0 2) = false /\
   _line_of_sight dem_bump (fadd (elevation dem_bump 0 0) 1%float)
     (elevation dem_bump 0 2) (0, 0) (0, 2) 10%float false = true).
Proof.
  apply (@baseline_cell_rule float binary64 dem_bump (0, 0) 1%float 10%float false
           (mk_ndarray [1; 3]%nat [true; true; false]) 0 2).
  vm_compute. reflexivity.
Defined.

Lemma baseline_neighbours_visible_witness :
  visible (mk_ndarray [1; 3]%nat [true; true; false]) 0 1.
Proof.
  apply (@baseline_neighbours_visible float binary64 dem_bump (0, 0) 1%float 10%float
           false (mk_ndarray [1; 3]%nat [true; true; false]) 0 1).
  - vm_compute. reflexivity.
  - simpl. lia.
  - simpl. lia.
  - reflexivity.
  - reflexivity.
Defined.

Lemma baseline_cell_size_irrelevant_witness :
  @_compute_viewshed_baseline float binary64 dem_bump (0, 0) 1%float 10%float false =
  @_compute_viewshed_baseline float binary64 dem_bump (0, 0) 1%float 30%float false.
Proof.
  apply (@baseline_cell_size_irrelevant float binary64 dem_bump (0, 0) 1%float
           10%float 30%float); reflexivity.
Defined.

Lemma nan_parameters_accepted_witness :
  (exists m, @_compute_viewshed_baseline float binary64 dem_bump (0, 0)
               PrimFloat.nan PrimFloat.nan true = Ok m) /\
  (exists m, @_compute_viewshed_radial float binary64 slope_atan2 dem_bump (0, 0)
               PrimFloat.nan PrimFloat.nan true = Ok m).
Proof.
  apply (@nan_parameters_accepted float binary64 slope_atan2 binary64_order dem_bump
           (0, 0) PrimFloat.nan PrimFloat.nan true).
  - reflexivity.
  - reflexivity.
  - reflexivity.
  - left. reflexivity.
  - left. reflexivity.
Defined.

End Binary64Baseline.

(** ** The sample loop of the baseline engine *)

Section SampleLoop.
Context {F : Type} {PF : PyFloat F}.

Lemma los_loop_forallb (dem : ndarray F) (oe te : F) (obs_r obs_c dr dc steps : Z)
    (td : F) (curv : bool) (todo : list Z) :
  los_loop dem oe te obs_r obs_c dr dc steps td curv todo =
    forallb (sample_clear dem oe te obs_r obs_c dr dc steps td curv) todo.
Proof.
  induction todo as [|step todo IH]; [reflexivity|].
  cbn [los_loop forallb]. unfold sample_clear at 1.
  destruct (isnan _); [reflexivity|]. destruct (flt _ _); [reflexivity|]. exact IH.
Qed.

(** X2: the line of sight is clear exactly when every sample strictly between
    the observer and the target passes the test: it holds data and the
    terrain there (lowered by the curvature drop when enabled) is not above
    the sight line.  The loop stops at the first sample that fails. *)
Theorem line_of_sight_rule (dem : ndarray F) (oe te : F) (obs_r obs_c r c : Z) (cs : F)
    (curv : bool) :
  let dr := r - obs_r in
  let dc := c - obs_c in
  let steps := Z.max (Z.abs dr) (Z.abs dc) in
  let total_distance := fmul (hypot (of_int dr) (of_int dc)) cs in
  let target_effective :=
    if curv && flt (of_int 0) total_distance
    then fsub te (_curvature_drop total_distance) else te in
  _line_of_sight dem oe te (obs_r, obs_c) (r, c) cs curv = true <->
  forall step, 1 <= step < steps ->
    sample_clear dem oe target_effective obs_r obs_c dr dc steps total_distance curv step
      = true.
Proof.
  intros dr dc steps total_distance target_effective. unfold _line_of_sight.
  fold dr dc steps total_distance target_effective.
  destruct (Z.eqb_spec steps 0) as [E|E].
  - split; [|done]. intros _ step Hstep. lia.
  - rewrite los_loop_forallb, forallb_forall. split.
    + intros H step Hstep. apply H, list_elem_of_In, elem_of_range_from. lia.
    + intros H step Hstep. apply H. by apply list_elem_of_In, elem_of_range_from in Hstep.
Qed.

End SampleLoop.

(** ** The rays in any order *)

Lemma setitem2_true_commute (m : ndarray bool) (r c r' c' : Z) :
  setitem2 (setitem2 m r c true) r' c' true = setitem2 (setitem2 m r' c' true) r c true.
Proof.
  unfold setitem2 at 1 3. rewrite !shape2_setitem2.
  unfold setitem2. destruct (shape2 m) as [rows cols].
  destruct (in_bounds rows cols r c), (in_bounds rows cols r' c'); try reflexivity.
  cbn [shape data]. f_equal.
  destruct (decide (flat_index cols r c = flat_index cols r' c')) as [->|Hne];
    [reflexivity|]. by apply list_insert_insert_ne.
Qed.


Lemma mark_cells_perm (l l' : list (Z * Z)) (m : ndarray bool) :
  l ≡ₚ l' -> mark_cells l m = mark_cells l' m.
Proof.
  intros H. revert m. induction H as [|x l l' H IH|x y l|l l' l'' H1 IH1 H2 IH2]; intros m.
  - reflexivity.
  - cbn [mark_cells fold_left]. apply IH.
  - cbn [mark_cells fold_left]. f_equal. apply setitem2_true_commute.
  - by rewrite IH1.
Qed.

Section RayOrder.
Context {F : Type} {PF : PyFloat F}.

(** X12: the sweeps of different rays commute: visiting the rays of the
    dictionary in any other order gives the same mask. *)
Theorem sweep_order_irrelevant (rays rays' : list ((Z * Z) * list (@entry F)))
    (visibility : ndarray bool) :
  rays ≡ₚ rays' ->
  fold_left sweep_ray rays visibility = fold_left sweep_ray rays' visibility.
Proof.
  intros H. rewrite !sweep_rays_marked. apply mark_cells_perm.
  unfold radial_marked. by rewrite H.
Qed.

End RayOrder.

Section Binary64Rays.
Import Binary64 Scenarios.

Lemma sweep_order_irrelevant_witness :
  let up : (Z * Z) * list (@entry float) := ((-1, 0), [(1, 0, 1, 1%float)]) in
  let down : (Z * Z) * list (@entry float) :=
    ((1, 0), [(1, 2, 1, (-1)%float); (2, 3, 1, (-2)%float)]) in
  fold_left sweep_ray [up; down] (zeros 4 2) = fold_left sweep_ray [down; up] (zeros 4 2).
Proof.
  intros up down. apply (@sweep_order_irrelevant float binary64 [up; down] [down; up]).
  apply perm_swap.
Defined.

End Binary64Rays.

(** ** The cells a line of sight reads *)

Lemma forallb_agree {A} (f g : A -> bool) (l : list A) :
  (forall x, x ∈ l -> f x = g x) -> forallb f l = forallb g l.
Proof.
  induction l as [|x l IH]; intros H; [reflexivity|]. cbn [forallb].
  rewrite (H x), IH; [reflexivity| |apply elem_of_cons; by left].
  intros y Hy. apply H, elem_of_cons. by right.
Qed.

Section BaselineFrame.
Context {F : Type} {PF : PyFloat F}.

Lemma bilinear_sample_setitem2 (dem : ndarray F) (k : Z * Z) (v : F) (row col : F) :
  k ∉ corners dem row col ->
  _bilinear_sample (setitem2 dem k.1 k.2 v) row col = _bilinear_sample dem row col.
Proof.
  unfold corners, _bilinear_sample. rewrite shape2_setitem2.
  destruct (shape2 dem) as [rows cols]. intros Hk.
  rewrite !not_elem_of_cons in Hk. destruct Hk as (H00 & H10 & H01 & H11 & _).
  destruct k as [kr kc]. cbn [fst snd].
  rewrite !elevation_setitem2_ne by (intros E; symmetry in E; done).
  reflexivity.
Qed.

Lemma sample_clear_setitem2 (dem : ndarray F) (k : Z * Z) (v : F) (oe te : F)
    (obs_r obs_c dr dc steps : Z) (td : F) (curv : bool) (step : Z) :
  k ∉ corners dem (sample_coordinate obs_r dr steps step)
        (sample_coordinate obs_c dc steps step) ->
  sample_clear (setitem2 dem k.1 k.2 v) oe te obs_r obs_c dr dc steps td curv step =
  sample_clear dem oe te obs_r obs_c dr dc steps td curv step.
Proof.
  intros Hk. unfold sample_clear.
  fold (@sample_coordinate F PF obs_r dr steps step).
  fold (@sample_coordinate F PF obs_c dc steps step).
  by rewrite bilinear_sample_setitem2.
Qed.

Lemma line_of_sight_setitem2 (dem : ndarray F) (k : Z * Z) (v : F) (oe te : F)
    (obs_r obs_c r c : Z) (cs : F) (curv : bool) :
  (forall step, 1 <= step < Z.max (Z.abs (r - obs_r)) (Z.abs (c - obs_c)) ->
     k ∉ corners dem
           (sample_coordinate obs_r (r - obs_r)
              (Z.max (Z.abs (r - obs_r)) (Z.abs (c - obs_c))) step)
           (sample_coordinate obs_c (c - obs_c)
              (Z.max (Z.abs (r - obs_r)) (Z.abs (c - obs_c))) step)) ->
  _line_of_sight (setitem2 dem k.1 k.2 v) oe te (obs_r, obs_c) (r, c) cs curv =
  _line_of_sight dem oe te (obs_r, obs_c) (r, c) cs curv.
Proof.
  intros Hk. unfold _line_of_sight. destruct (_ =? 0); [reflexivity|].
  rewrite !los_loop_forallb. apply forallb_agree. intros step Hstep.
  apply sample_clear_setitem2, Hk. by apply elem_of_range_from in Hstep.
Qed.

(** X5: a line of sight reads the target and the corner cells of its samples,
    and nothing else: changing the elevation of any other cell [k], to any
    value, leaves the baseline engine's verdict on the target unchanged. *)
Theorem baseline_occlusion_is_local (dem : ndarray F) (observer_rc : Z * Z) (h cs : F)
    (curv : bool) (k : Z * Z) (v : F) (m : ndarray bool) (r c : Z) :
  let dr := r - observer_rc.1 in
  let dc := c - observer_rc.2 in
  let steps := Z.max (Z.abs dr) (Z.abs dc) in
  _compute_viewshed_baseline dem observer_rc h cs curv = Ok m ->
  k <> observer_rc -> (r, c) <> k ->
  (forall step, 1 <= step < steps ->
     k ∉ corners dem (sample_coordinate observer_rc.1 dr steps step)
           (sample_coordinate observer_rc.2 dc steps step)) ->
  exists m',
    _compute_viewshed_baseline (setitem2 dem k.1 k.2 v) observer_rc h cs curv = Ok m' /\
    (visible m' r c <-> visible m r c).
Proof.
  intros dr dc steps. rewrite !baseline_checked. intros H Hk Hrc Hsamples.
  apply checked_call_ok in H as [-> Hv].
  pose proof (valid_input_setitem2 dem observer_rc h cs k v Hk Hv) as Hv'.
  rewrite (checked_call_valid _ _ _ _ _ Hv'). eexists. split; [reflexivity|].
  rewrite !baseline_mask_visible by done. rewrite shape2_setitem2.
  rewrite (elevation_setitem2_ne dem k.1 k.2 observer_rc.1 observer_rc.2)
    by (destruct k, observer_rc; simpl; congruence).
  rewrite (elevation_setitem2_ne dem k.1 k.2 r c) by (destruct k; simpl; congruence).
  destruct observer_rc as [obs_r obs_c]. cbn [fst snd] in *.
  by rewrite line_of_sight_setitem2.
Qed.

End BaselineFrame.

Section Binary64Frame.
Import Binary64 Scenarios.

Lemma baseline_occlusion_is_local_witness :
  exists m',
    @_compute_viewshed_baseline float binary64
      (setitem2 dem_flat_5x5 0 0 7%float) (2, 2) 1%float 10%float false = Ok m' /\
    (visible m' 2 4 <-> visible (full 5 5 true) 2 4).
Proof.
  apply (@baseline_occlusion_is_local float binary64 dem_flat_5x5 (2, 2) 1%float 10%float
           false (0, 0) 7%float (full 5 5 true) 2 4).
  - vm_compute. reflexivity.
  - discriminate.
  - discriminate.
  - intros step Hstep. change (1 <= step < 2) in Hstep. assert (step = 1) as -> by lia.
    vm_compute. intros H. repeat (apply elem_of_cons in H as [H|H]; [discriminate|]).
    by apply elem_of_nil in H.
Defined.

End Binary64Frame.

(** ** The geometry of a ray *)

Lemma gcd_direction (dr dc : Z) :
  Z.gcd (Z.abs dr) (Z.abs dc) <> 0 ->
  Z.gcd (dr / Z.gcd (Z.abs dr) (Z.abs dc)) (dc / Z.gcd (Z.abs dr) (Z.abs dc)) = 1 /\
  dr = Z.gcd (Z.abs dr) (Z.abs dc) * (dr / Z.gcd (Z.abs dr) (Z.abs dc)) /\
  dc = Z.gcd (Z.abs dr) (Z.abs dc) * (dc / Z.gcd (Z.abs dr) (Z.abs dc)).
Proof.
  rewrite Z.gcd_abs_l, Z.gcd_abs_r. intros Hg. split; [by apply Z.gcd_div_gcd|].
  split; apply Z.div_exact; try done; apply Z.mod_divide; try done.
  - apply Z.gcd_divide_l.
  - apply Z.gcd_divide_r.
Qed.

Lemma gcd_multiple (k d1 d2 : Z) :
  0 < k -> Z.gcd d1 d2 = 1 ->
  Z.gcd (Z.abs (k * d1)) (Z.abs (k * d2)) = k /\ k * d1 / k = d1 /\ k * d2 / k = d2.
Proof.
  intros Hk Hd. rewrite Z.gcd_abs_l, Z.gcd_abs_r, Z.gcd_mul_mono_l_nonneg, Hd by lia.
  split; [lia|]. split; rewrite Z.mul_comm; apply Z.div_mul; lia.
Qed.

Lemma ray_cell_between (rows cols : nat) (obs_r obs_c : Z) (d : Z * Z) (k g : Z) :
  in_bounds rows cols obs_r obs_c = true ->
  in_bounds rows cols (ray_cell obs_r obs_c d g).1 (ray_cell obs_r obs_c d g).2 = true ->
  0 <= k <= g ->
  in_bounds rows cols (ray_cell obs_r obs_c d k).1 (ray_cell obs_r obs_c d k).2 = true.
Proof.
  rewrite !in_bounds_spec. destruct d as [d1 d2]. cbn [ray_cell fst snd].
  intros Ho Hg Hk.
  assert (forall x, (0 <= k * x <= g * x) \/ (g * x <= k * x <= 0)) as H.
  { intros x. destruct (Z.le_gt_cases 0 x); [left|right]; nia. }
  destruct (H d1), (H d2); lia.
Qed.

Section RayMembers.
Context {F : Type} {PF : PyFloat F} {PA : PyAtan2 F}.
Implicit Types (e : @entry F) (es : list (@entry F)).

Lemma radial_entry_char (dem : ndarray F) (oe : F) (obs_r obs_c : Z) (cs : F)
    (curv : bool) (rc : Z * Z) (d : Z * Z) e :
  radial_entry dem oe obs_r obs_c cs curv rc = Some (d, e) <->
  rc <> (obs_r, obs_c) /\ isnan (elevation dem rc.1 rc.2) = false /\
  Z.gcd (Z.abs (rc.1 - obs_r)) (Z.abs (rc.2 - obs_c)) <> 0 /\
  d = ((rc.1 - obs_r) / Z.gcd (Z.abs (rc.1 - obs_r)) (Z.abs (rc.2 - obs_c)),
       (rc.2 - obs_c) / Z.gcd (Z.abs (rc.1 - obs_r)) (Z.abs (rc.2 - obs_c))) /\
  e = (Z.gcd (Z.abs (rc.1 - obs_r)) (Z.abs (rc.2 - obs_c)), rc.1, rc.2,
       cell_angle dem oe obs_r obs_c cs curv rc).
Proof.
  unfold radial_entry, cell_angle. destruct rc as [r c]. cbn [fst snd].
  destruct ((r =? obs_r) && (c =? obs_c)) eqn:Hobs.
  { split; [discriminate|]. intros (Hne & _). exfalso. apply Hne.
    apply andb_true_iff in Hobs as [->%Z.eqb_eq ->%Z.eqb_eq]. done. }
  destruct (isnan (elevation dem r c)) eqn:Hnan.
  { split; [discriminate|]. intros (_ & ? & _). discriminate. }
  destruct (Z.eqb_spec (Z.gcd (Z.abs (r - obs_r)) (Z.abs (c - obs_c))) 0) as [Hg|Hg].
  { split; [discriminate|]. intros (_ & _ & ? & _). done. }
  split.
  - intros H. injection H as <- <-. split; [|done].
    intros H. injection H as -> ->. by rewrite !Z.eqb_refl in Hobs.
  - intros (_ & _ & _ & -> & ->). reflexivity.
Qed.

(** The members of the bucket of a direction are the cells with data at the
    positive multiples of the direction, each with the multiple as its
    distance multiplier. *)
Lemma radial_entries_ray (dem : ndarray F) (oe : F) (obs_r obs_c : Z) (cs : F)
    (curv : bool) (d : Z * Z) e :
  (d, e) ∈ radial_entries dem oe obs_r obs_c cs curv <->
  Z.gcd d.1 d.2 = 1 /\ 1 <= entry_g e /\
  in_bounds (shape2 dem).1 (shape2 dem).2
    (ray_cell obs_r obs_c d (entry_g e)).1 (ray_cell obs_r obs_c d (entry_g e)).2 = true /\
  isnan (elevation dem (ray_cell obs_r obs_c d (entry_g e)).1
           (ray_cell obs_r obs_c d (entry_g e)).2) = false /\
  e = (entry_g e, (ray_cell obs_r obs_c d (entry_g e)).1,
       (ray_cell obs_r obs_c d (entry_g e)).2,
       cell_angle dem oe obs_r obs_c cs curv (ray_cell obs_r obs_c d (entry_g e))).
Proof.
  unfold radial_entries. rewrite list_elem_of_omap. split.
  - intros ([r c] & Hin & He). apply elem_of_cells in Hin.
    apply radial_entry_char in He as (Hne & Hnan & Hg & -> & ->). cbn [fst snd] in *.
    destruct (gcd_direction _ _ Hg) as (H1 & Hr & Hc).
    pose proof (Z.gcd_nonneg (Z.abs (r - obs_r)) (Z.abs (c - obs_c))).
    unfold entry_g, ray_cell. cbn [fst snd]. rewrite <- Hr, <- Hc.
    replace (obs_r + (r - obs_r)) with r by lia.
    replace (obs_c + (c - obs_c)) with c by lia.
    split; [done|]. split; [lia|]. done.
  - destruct d as [d1 d2]. cbn [fst snd ray_cell].
    intros (Hd & Hk & Hb & Hnan & He). exists (ray_cell obs_r obs_c (d1, d2) (entry_g e)).
    cbn [fst snd ray_cell]. split; [by apply elem_of_cells|].
    destruct (gcd_multiple (entry_g e) d1 d2) as (Hg & H1 & H2); [lia|done|].
    apply radial_entry_char. unfold ray_cell. cbn [fst snd].
    replace (obs_r + entry_g e * d1 - obs_r) with (entry_g e * d1) by lia.
    replace (obs_c + entry_g e * d2 - obs_c) with (entry_g e * d2) by lia.
    rewrite Hg, H1, H2. split; [|split; [done|split; [lia|split; [done|exact He]]]].
    intros H. injection H as Hr Hc.
    assert (d1 = 0) as -> by nia. assert (d2 = 0) as -> by nia. discriminate.
Qed.

(** The members of one bucket have distinct multipliers. *)
Lemma NoDup_bucket_g (dem : ndarray F) (oe : F) (obs_r obs_c : Z) (cs : F)
    (curv : bool) (d : Z * Z) :
  NoDup (map entry_g (entries_of d (radial_entries dem oe obs_r obs_c cs curv))).
Proof.
  set (des := radial_entries dem oe obs_r obs_c cs curv).
  pose proof (NoDup_entries_of des d (NoDup_radial_entries dem oe obs_r obs_c cs curv))
    as Hnd.
  apply NoDup_fmap_2_strong; [|by apply NoDup_fmap_1 in Hnd].
  intros e1 e2 H1 H2 Hg.
  assert (forall e, e ∈ entries_of d des -> (d, e) ∈ des) as Hin.
  { intros e He. unfold entries_of in He.
    apply list_elem_of_fmap in He as ([d' e'] & -> & He).
    apply list_elem_of_In, filter_In in He as [He Hd]. simpl in Hd.
    apply direction_eqb_eq in Hd as ->. by apply list_elem_of_In. }
  apply Hin, radial_entries_ray in H1 as (_ & _ & _ & _ & E1).
  apply Hin, radial_entries_ray in H2 as (_ & _ & _ & _ & E2).
  rewrite E1, E2, Hg. reflexivity.
Qed.

End RayMembers.

(** ** A sorted ray without ties *)

Section SortedRay.
Context {F : Type}.
Implicit Types (e : @entry F) (es : list (@entry F)).

Lemma sorted_distinct_strict es :
  StronglySorted g_le es -> NoDup (map entry_g es) -> StronglySorted g_lt es.
Proof.
  induction 1 as [|e es Hs IH He]; intros Hnd; [constructor|].
  cbn [map] in Hnd. apply NoDup_cons in Hnd as [Hne Hnd].
  constructor; [by apply IH|].
  apply Forall_forall. intros e' He'. unfold g_lt.
  assert (entry_g e <= entry_g e') as Hle.
  { eapply Forall_forall in He; [exact He|done]. }
  assert (entry_g e <> entry_g e'); [|lia].
  intros E. apply Hne. rewrite E. apply list_elem_of_fmap. by exists e'.
Qed.

(** In a ray sorted without ties the members before a member are those of
    smaller multiplier. *)
Lemma sorted_take_smaller es k e e' :
  StronglySorted g_lt es -> es !! k = Some e ->
  e' ∈ take k es <-> e' ∈ es /\ entry_g e' < entry_g e.
Proof.
  intros Hs Hk. rewrite <- (take_drop_middle _ _ _ Hk) in Hs |- * at 2.
  revert Hs. generalize (take k es) (drop (S k) es). intros l1 l2 Hs.
  assert (Forall (fun x => g_lt x e) l1 /\ Forall (g_lt e) l2) as [H1 H2].
  { induction l1 as [|x l1 IH]; cbn [app] in Hs.
    - apply StronglySorted_inv in Hs as [_ Hs]. by split.
    - apply StronglySorted_inv in Hs as [Hs Hx]. destruct (IH Hs) as [IH1 IH2].
      split; [|done]. constructor; [|done].
      eapply Forall_forall in Hx; [exact Hx|]. apply elem_of_app. right.
      apply elem_of_cons. by left. }
  rewrite elem_of_app, elem_of_cons. split.
  - intros H. split; [by left|]. eapply Forall_forall in H1; [exact H1|done].
  - intros [[H|[->|H]] Hlt]; [done| lia |].
    eapply Forall_forall in H2; [|exact H]. unfold g_lt in H2. lia.
Qed.

End SortedRay.

(** ** The horizon is the greatest angle met so far *)

Section HorizonBound.
Context {F : Type} {PF : PyFloat F} {PO : PyFloatOrder F}.
Implicit Types (e : @entry F) (es : list (@entry F)) (M a : F).

Lemma sweep_step_bound M e a :
  isnan M = false ->
  fle (fsub (sweep_step M e) epsilon) a = true <->
  fle (fsub M epsilon) a = true /\
  (isnan (entry_angle e) = false -> fle (fsub (entry_angle e) epsilon) a = true).
Proof.
  intros HM. unfold sweep_step.
  destruct (flt M (entry_angle e)) eqn:Hgt.
  - pose proof (flt_not_nan _ _ Hgt) as [_ Hna]. pose proof (flt_fle _ _ Hgt) as Hle.
    rewrite (fle_trans _ _ _ (sub_epsilon_le M HM) Hle). split.
    + intros H. split; [|done]. eapply fle_trans; [|exact H]. by apply sub_epsilon_mono.
    + intros [_ H]. by apply H.
  - assert ((if fle (fsub M epsilon) (entry_angle e) then M else M) = M) as ->
      by (by destruct (fle _ _)).
    split; [|tauto]. intros H. split; [done|]. intros Hna.
    eapply fle_trans; [|exact H]. apply sub_epsilon_mono. by apply fle_total.
Qed.

Lemma horizon_bound es M a :
  isnan M = false ->
  fle (fsub (horizon es M) epsilon) a = true <->
  fle (fsub M epsilon) a = true /\
  forall e, e ∈ es -> isnan (entry_angle e) = false ->
    fle (fsub (entry_angle e) epsilon) a = true.
Proof.
  revert M. induction es as [|e es IH]; intros M HM.
  - cbn [horizon]. split; [|tauto]. intros H. split; [done|].
    intros e He. by apply elem_of_nil in He.
  - rewrite horizon_cons, IH by (by apply sweep_step_not_nan).
    rewrite sweep_step_bound by done. split.
    + intros [[H1 H2] H3]. split; [done|]. intros e' He'.
      apply elem_of_cons in He' as [->|He']; [done|by apply H3].
    + intros [H1 H2]. split; [split; [done|]|].
      * apply H2. apply elem_of_cons. by left.
      * intros e' He'. apply H2. apply elem_of_cons. by right.
Qed.

Lemma neg_inf_bound a : fle (fsub neg_inf epsilon) a = true <-> isnan a = false.
Proof.
  split.
  - intros H. by apply fle_not_nan in H as [_ H].
  - intros H. eapply fle_trans; [apply sub_epsilon_le, neg_inf_not_nan|].
    by apply neg_inf_le.
Qed.

End HorizonBound.

(** ** The radial engine, cell by cell *)

Lemma elem_of_entries_of {F : Type} (d : Z * Z) (des : list ((Z * Z) * @entry F))
    (e : @entry F) :
  e ∈ entries_of d des <-> (d, e) ∈ des.
Proof.
  unfold entries_of. rewrite list_elem_of_fmap. split.
  - intros ([d' e'] & -> & He). apply list_elem_of_In, filter_In in He as [He Hd].
    simpl in Hd. apply direction_eqb_eq in Hd as ->. by apply list_elem_of_In.
  - intros H. exists (d, e). split; [done|]. apply list_elem_of_In, filter_In.
    split; [by apply list_elem_of_In|]. apply direction_eqb_refl.
Qed.

Section RadialCells.
Context {F : Type} {PF : PyFloat F} {PA : PyAtan2 F} {PO : PyFloatOrder F}.
Implicit Types (e : @entry F) (es : list (@entry F)).

(** A cell with data is marked by the sweeps exactly when its angle is a
    number and lies within the tolerance of the angle of every nearer cell
    of its ray. *)
Lemma radial_marked_char (dem : ndarray F) (oe : F) (obs_r obs_c : Z) (cs : F)
    (curv : bool) (r c : Z) :
  let angle := cell_angle dem oe obs_r obs_c cs curv in
  let g := Z.gcd (Z.abs (r - obs_r)) (Z.abs (c - obs_c)) in
  let d := ((r - obs_r) / g, (c - obs_c) / g) in
  in_bounds (shape2 dem).1 (shape2 dem).2 obs_r obs_c = true ->
  in_bounds (shape2 dem).1 (shape2 dem).2 r c = true ->
  (r, c) <> (obs_r, obs_c) -> isnan (elevation dem r c) = false ->
  (r, c) ∈ radial_marked (group (radial_entries dem oe obs_r obs_c cs curv)) <->
  isnan (angle (r, c)) = false /\
  forall k, 1 <= k < g ->
    isnan (elevation dem (ray_cell obs_r obs_c d k).1 (ray_cell obs_r obs_c d k).2) = false ->
    isnan (angle (ray_cell obs_r obs_c d k)) = false ->
    fle (fsub (angle (ray_cell obs_r obs_c d k)) epsilon) (angle (r, c)) = true.
Proof.
  intros angle g d Hobs Hb Hne Hnan.
  set (des := radial_entries dem oe obs_r obs_c cs curv).
  set (e := (g, r, c, angle (r, c)) : @entry F).
  assert (g <> 0) as Hg.
  { subst g. intros H0. apply Z.gcd_eq_0 in H0 as [H1 H2]. apply Hne. f_equal; lia. }
  destruct (gcd_direction _ _ Hg) as (Hd & Hr & Hc). fold g in Hd, Hr, Hc.
  assert (0 < g) as Hpos.
  { pose proof (Z.gcd_nonneg (Z.abs (r - obs_r)) (Z.abs (c - obs_c))). subst g. lia. }
  assert (ray_cell obs_r obs_c d g = (r, c)) as Hcell.
  { unfold ray_cell, d. cbn [fst snd]. f_equal; lia. }
  assert (radial_entry dem oe obs_r obs_c cs curv (r, c) = Some (d, e)) as He
    by (by apply radial_entry_char).
  assert ((d, e) ∈ des) as Hde.
  { apply list_elem_of_omap. exists (r, c). split; [by apply elem_of_cells|done]. }
  set (es := entries_of d des).
  assert (e ∈ es) as Hes by (by apply elem_of_entries_of).
  assert ((d, es) ∈ group des) as Hray.
  { apply (rays_of_group des). split; [done|]. intros Hnil. fold es in Hnil.
    rewrite Hnil in Hes. by apply elem_of_nil in Hes. }
  pose proof (NoDup_radial_entries dem oe obs_r obs_c cs curv) as Hnd. fold des in Hnd.
  set (sorted := sort_entries es).
  assert (StronglySorted g_lt sorted) as Hsorted.
  { apply sorted_distinct_strict; [apply sort_entries_sorted|].
    unfold sorted. rewrite sort_entries_perm. apply NoDup_bucket_g. }
  assert (NoDup (map entry_cell sorted)) as Hnds.
  { unfold sorted. rewrite sort_entries_perm. by apply NoDup_entries_of. }
  assert (e ∈ sorted) as Hin by (unfold sorted; by rewrite sort_entries_perm).
  apply list_elem_of_lookup in Hin as (k & Hk).
  change (r, c) with (entry_cell e) at 1.
  rewrite (radial_marked_own_ray des d es e Hnd Hray Hes). fold sorted.
  rewrite (marked_position sorted neg_inf k e Hnds Hk).
  rewrite horizon_bound by apply neg_inf_not_nan. rewrite neg_inf_bound.
  change (entry_angle e) with (angle (r, c)).
  apply and_iff_compat_l. split.
  - intros H j Hj Hnj Haj.
    set (e' := (j, (ray_cell obs_r obs_c d j).1, (ray_cell obs_r obs_c d j).2,
                angle (ray_cell obs_r obs_c d j)) : @entry F).
    apply (H e'); [|exact Haj].
    apply (sorted_take_smaller sorted k e e' Hsorted Hk).
    split; [|change (entry_g e') with j; change (entry_g e) with g; lia].
    unfold sorted. rewrite sort_entries_perm. apply elem_of_entries_of.
    apply radial_entries_ray. change (entry_g e') with j.
    split; [done|]. split; [lia|]. split; [|done].
    apply (ray_cell_between _ _ obs_r obs_c d j g); [done| |lia]. by rewrite Hcell.
  - intros H e' He' Ha'.
    apply (sorted_take_smaller sorted k e e' Hsorted Hk) in He' as [He' Hlt].
    unfold sorted in He'. rewrite sort_entries_perm in He'.
    apply elem_of_entries_of, radial_entries_ray in He' as (_ & H1 & _ & Hn' & E').
    change (entry_g e) with g in Hlt. rewrite E' in Ha' |- *.
    change (entry_angle (?a, ?b, ?c, ?x)) with x in *.
    apply H; [lia|done|done].
Qed.

Lemma radial_mask_visible (dem : ndarray F) (observer_rc : Z * Z) (h cs : F)
    (curv : bool) (r c : Z) :
  let oe := fadd (elevation dem observer_rc.1 observer_rc.2) h in
  let angle := cell_angle dem oe observer_rc.1 observer_rc.2 cs curv in
  let g := Z.gcd (Z.abs (r - observer_rc.1)) (Z.abs (c - observer_rc.2)) in
  let d := ((r - observer_rc.1) / g, (c - observer_rc.2) / g) in
  let on_ray := ray_cell observer_rc.1 observer_rc.2 d in
  valid_input dem observer_rc h cs ->
  visible (radial_mask dem observer_rc h cs curv) r c <->
  (r, c) = observer_rc \/
  (in_bounds (shape2 dem).1 (shape2 dem).2 r c = true /\
   isnan (elevation dem r c) = false /\
   isnan (angle (r, c)) = false /\
   forall k, 1 <= k < g ->
     isnan (elevation dem (on_ray k).1 (on_ray k).2) = false ->
     isnan (angle (on_ray k)) = false ->
     fle (fsub (angle (on_ray k)) epsilon) (angle (r, c)) = true).
Proof.
  intros oe angle g d on_ray Hv. unfold radial_mask.
  rewrite (proj2 (proj2 (grown_mask dem observer_rc h cs _ Hv))).
  destruct observer_rc as [obs_r obs_c]. cbn [fst snd] in *.
  destruct (decide ((r, c) = (obs_r, obs_c))) as [Heq|Hne].
  { split; intros _; left; [done|]. by injection Heq. }
  assert (~ (r = obs_r /\ c = obs_c)) as Hne' by (intros [-> ->]; done).
  destruct (in_bounds (shape2 dem).1 (shape2 dem).2 r c) eqn:Hb.
  2:{ split; (intros [H|H]; [done|]); [by destruct H|by destruct H]. }
  destruct (isnan (elevation dem r c)) eqn:Hnan.
  { split.
    - intros [H|[Hin _]]; [done|]. exfalso.
      apply radial_marked_origin in Hin as (d' & e' & He').
      apply radial_entry_some in He' as (_ & _ & Hn & _). cbn [fst snd] in Hn. congruence.
    - intros [H|(_ & H & _)]; [done|discriminate]. }
  destruct Hv as (_ & _ & _ & Hobs & _). cbn [fst snd] in Hobs.
  pose proof (radial_marked_char dem oe obs_r obs_c cs curv r c Hobs Hb Hne Hnan) as Hchar.
  cbv zeta in Hchar. fold angle g d on_ray in Hchar. fold oe. rewrite Hchar. split.
  - intros [H|[H _]]; [done|]. right. tauto.
  - intros [H|(_ & _ & H)]; [done|]. right. tauto.
Qed.

(** X10: a cell other than the observer's is visible in the radial mask exactly
    when it holds data, its angle is a number, and no nearer cell of its ray
    that holds data has an angle (a number) exceeding it by more than the
    tolerance. *)
Theorem radial_cell_rule (dem : ndarray F) (observer_rc : Z * Z) (h cs : F)
    (curv : bool) (m : ndarray bool) (r c : Z) :
  let oe := fadd (elevation dem observer_rc.1 observer_rc.2) h in
  let angle := cell_angle dem oe observer_rc.1 observer_rc.2 cs curv in
  let g := Z.gcd (Z.abs (r - observer_rc.1)) (Z.abs (c - observer_rc.2)) in
  let d := ((r - observer_rc.1) / g, (c - observer_rc.2) / g) in
  let on_ray := ray_cell observer_rc.1 observer_rc.2 d in
  _compute_viewshed_radial dem observer_rc h cs curv = Ok m ->
  visible m r c <->
  (r, c) = observer_rc \/
  (in_bounds (shape2 dem).1 (shape2 dem).2 r c = true /\
   isnan (elevation dem r c) = false /\
   isnan (angle (r, c)) = false /\
   forall k, 1 <= k < g ->
     isnan (elevation dem (on_ray k).1 (on_ray k).2) = false ->
     isnan (angle (on_ray k)) = false ->
     fle (fsub (angle (on_ray k)) epsilon) (angle (r, c)) = true).
Proof.
  intros oe angle g d on_ray. rewrite radial_checked. intros H.
  apply checked_call_ok in H as [-> Hv]. by apply radial_mask_visible.
Qed.

End RadialCells.

Section RadialBuckets.
Context {F : Type} {PF : PyFloat F} {PA : PyAtan2 F}.
Implicit Types (e : @entry F) (es : list (@entry F)).

Lemma radial_rays_member (dem : ndarray F) (oe : F) (obs_r obs_c : Z) (cs : F)
    (curv : bool) (d : Z * Z) e :
  (exists es, (d, es) ∈ radial_rays dem oe obs_r obs_c cs curv /\ e ∈ es) <->
  (d, e) ∈ radial_entries dem oe obs_r obs_c cs curv.
Proof.
  rewrite radial_rays_group. split.
  - intros (es & Hray & He). by eapply group_entry_origin.
  - intros Hde. exists (entries_of d (radial_entries dem oe obs_r obs_c cs curv)).
    assert (e ∈ entries_of d (radial_entries dem oe obs_r obs_c cs curv)) as He
      by (by apply elem_of_entries_of).
    split; [|exact He]. apply rays_of_group. split; [done|].
    intros Hnil. rewrite Hnil in He. by apply elem_of_nil in He.
Qed.

(** X8: the dictionary of rays is the partition of the cells with data by
    direction: the bucket of the key [d] holds an entry [(g, r, c, angle)]
    exactly when [d] is a primitive direction (its components are coprime),
    [g >= 1], [(r, c)] is the cell [g] steps of [d] away from the observer,
    lies in the grid and holds data, and [angle] is the angle of that cell.
    In particular no appended entry has [g = 0]. *)
Theorem radial_bucket_members (dem : ndarray F) (oe : F) (obs_r obs_c : Z) (cs : F)
    (curv : bool) (d : Z * Z) (g r c : Z) (angle : F) :
  (exists es, (d, es) ∈ radial_rays dem oe obs_r obs_c cs curv /\ (g, r, c, angle) ∈ es) <->
  Z.gcd d.1 d.2 = 1 /\ 1 <= g /\ (r, c) = ray_cell obs_r obs_c d g /\
  in_bounds (shape2 dem).1 (shape2 dem).2 r c = true /\
  isnan (elevation dem r c) = false /\
  angle = cell_angle dem oe obs_r obs_c cs curv (r, c).
Proof.
  rewrite radial_rays_member, radial_entries_ray. change (entry_g (g, r, c, angle)) with g.
  destruct d as [d1 d2]. unfold ray_cell. cbn [fst snd]. split.
  - intros (Hd & Hg & Hb & Hnan & E). injection E as Hr Hc Ha.
    rewrite <- Hr, <- Hc in Hb, Hnan, Ha |- *. done.
  - intros (Hd & Hg & Hcell & Hb & Hnan & Ha). injection Hcell as Hr Hc.
    rewrite <- Hr, <- Hc, <- Ha. done.
Qed.

(** X9: within a bucket no two members share a multiplier, so the sort on the
    multiplier has no ties: the sorted ray is strictly ascending, and the
    sweep meets the cells of a ray strictly by distance from the observer. *)
Theorem ray_sorted_without_ties (dem : ndarray F) (oe : F) (obs_r obs_c : Z) (cs : F)
    (curv : bool) (d : Z * Z) es :
  (d, es) ∈ radial_rays dem oe obs_r obs_c cs curv ->
  NoDup (map entry_g es) /\ StronglySorted g_lt (sort_entries es).
Proof.
  rewrite radial_rays_group. intros Hray. apply rays_of_group in Hray as [-> _].
  pose proof (NoDup_bucket_g dem oe obs_r obs_c cs curv d) as Hnd.
  split; [exact Hnd|]. apply sorted_distinct_strict; [apply sort_entries_sorted|].
  by rewrite sort_entries_perm.
Qed.

Lemma cell_angle_setitem2_ne (dem : ndarray F) (oe : F) (obs_r obs_c : Z) (cs : F)
    (curv : bool) (k rc : Z * Z) (v : F) :
  rc <> k ->
  cell_angle (setitem2 dem k.1 k.2 v) oe obs_r obs_c cs curv rc =
  cell_angle dem oe obs_r obs_c cs curv rc.
Proof.
  intros Hne. unfold cell_angle. rewrite elevation_setitem2_ne; [reflexivity|].
  destruct rc, k. done.
Qed.

End RadialBuckets.

Section RadialLocality.
Context {F : Type} {PF : PyFloat F} {PA : PyAtan2 F} {PO : PyFloatOrder F}.

(** X11: terrain occludes only along its own ray and only beyond itself:
    changing the elevation of a cell [k] other than the observer's, to any value,
    leaves the radial engine's verdict on every other cell unchanged, unless
    [k] lies on that cell's ray strictly between the observer and the cell. *)
Theorem radial_occlusion_is_local (dem : ndarray F) (observer_rc : Z * Z) (h cs : F)
    (curv : bool) (k : Z * Z) (v : F) (m : ndarray bool) (r c : Z) :
  let g := Z.gcd (Z.abs (r - observer_rc.1)) (Z.abs (c - observer_rc.2)) in
  let d := ((r - observer_rc.1) / g, (c - observer_rc.2) / g) in
  _compute_viewshed_radial dem observer_rc h cs curv = Ok m ->
  k <> observer_rc -> (r, c) <> k ->
  (forall j, 1 <= j < g -> ray_cell observer_rc.1 observer_rc.2 d j <> k) ->
  exists m',
    _compute_viewshed_radial (setitem2 dem k.1 k.2 v) observer_rc h cs curv = Ok m' /\
    (visible m' r c <-> visible m r c).
Proof.
  intros g d. rewrite !radial_checked. intros H Hk Hrc Hray.
  apply checked_call_ok in H as [-> Hv].
  pose proof (valid_input_setitem2 dem observer_rc h cs k v Hk Hv) as Hv'.
  rewrite (checked_call_valid _ _ _ _ _ Hv'). eexists. split; [reflexivity|].
  pose proof (radial_mask_visible dem observer_rc h cs curv r c) as H1.
  pose proof (radial_mask_visible (setitem2 dem k.1 k.2 v) observer_rc h cs curv r c) as H2.
  cbv zeta in H1, H2. rewrite (H1 Hv), (H2 Hv'). clear H1 H2. fold g d.
  rewrite shape2_setitem2.
  rewrite (elevation_setitem2_ne dem k.1 k.2 observer_rc.1 observer_rc.2)
    by (destruct k, observer_rc; simpl; congruence).
  rewrite (elevation_setitem2_ne dem k.1 k.2 r c) by (destruct k; simpl; congruence).
  rewrite (cell_angle_setitem2_ne dem _ _ _ _ _ k (r, c)) by done.
  apply or_iff_compat_l. do 3 apply and_iff_compat_l.
  split; intros H j Hj; specialize (H j Hj); specialize (Hray j Hj);
    rewrite (cell_angle_setitem2_ne dem _ _ _ _ _ k) in * by done;
    rewrite (elevation_setitem2_ne dem k.1 k.2) in *
      by (destruct k, (ray_cell observer_rc.1 observer_rc.2 d j); simpl in *; congruence);
    exact H.
Qed.

End RadialLocality.

Section Binary64Cells.
Import Binary64 Scenarios.

Lemma radial_cell_rule_witness :
  let angle := @cell_angle float binary64 slope_atan2 dem_bump (0 + 1)%float 0 0 10%float
                 false in
  let g := Z.gcd (Z.abs (0 - 0)) (Z.abs (2 - 0)) in
  let d := ((0 - 0) / g, (2 - 0) / g) in
  let on_ray := ray_cell 0 0 d in
  visible (mk_ndarray [1; 3]%nat [true; true; false]) 0 2 <->
  (0, 2) = (0, 0) \/
  (in_bounds 1 3 0 2 = true /\
   isnan (elevation dem_bump 0 2) = false /\
   isnan (angle (0, 2)) = false /\
   forall k, 1 <= k < g ->
     isnan (elevation dem_bump (on_ray k).1 (on_ray k).2) = false ->
     isnan (angle (on_ray k)) = false ->
     fle (fsub (angle (on_ray k)) epsilon) (angle (0, 2)) = true).
Proof.
  apply (@radial_cell_rule float binary64 slope_atan2 binary64_order dem_bump (0, 0)
           1%float 10%float false (mk_ndarray [1; 3]%nat [true; true; false]) 0 2).
  vm_compute. reflexivity.
Defined.

Lemma ray_sorted_without_ties_witness :
  let es : list (@entry float) :=
    [(1, 0, 1, (PrimFloat.sub 5 1 / 10)%float);
     (2, 0, 2, (PrimFloat.sub 0 1 / 20)%float)] in
  NoDup (map entry_g es) /\ StronglySorted g_lt (sort_entries es).
Proof.
  intros es.
  apply (@ray_sorted_without_ties float binary64 slope_atan2 dem_bump 1%float 0 0
           10%float false (0, 1) es).
  vm_compute. apply list_elem_of_here.
Defined.

Lemma radial_occlusion_is_local_witness :
  exists m',
    @_compute_viewshed_radial float binary64 slope_atan2
      (setitem2 dem_flat_5x5 0 0 7%float) (2, 2) 1%float 10%float false = Ok m' /\
    (visible m' 2 4 <-> visible (full 5 5 true) 2 4).
Proof.
  apply (@radial_occlusion_is_local float binary64 slope_atan2 binary64_order dem_flat_5x5
           (2, 2) 1%float 10%float false (0, 0) 7%float (full 5 5 true) 2 4).
  - vm_compute. reflexivity.
  - discriminate.
  - discriminate.
  - intros j Hj. change (1 <= j < 2) in Hj. assert (j = 1) as -> by lia. discriminate.
Defined.

End Binary64Cells.

(** ** The sampler at a grid node, in binary64 *)

Section Binary64Nodes.
Import Binary64.

(** A finite double times one is the double itself. *)
Lemma SFmul_one (x : spec_float) :
  SpecFloat.valid_binary prec emax x = true -> SFfinite x = true ->
  SFmul prec emax x (S754_finite false (2 ^ 52) (-52)) = x.
Proof.
  intros Hv Hf. destruct x as [s| | |s m e]; try done.
  - cbn [SFmul]. by destruct s.
  - cbn [SFmul]. change (SpecFloat.bounded prec emax m e = true) in Hv.
    pose proof (mantissa_bounds _ _ Hv) as [Hm Hn].
    pose proof (bounded_spec _ _ Hv) as (He & Hd & Hd').
    assert (Zpos (m * 2 ^ 52) = Zpos m * 2 ^ 52) as HP by lia.
    pose proof (digits2_pos_shift m 52 (m * 2 ^ 52) ltac:(lia) HP) as Hdp.
    assert (Z.max (Zpos (digits2_pos m) + e - 53) (-1074) = e) as Hfe.
    { destruct (Z.eq_dec e (-1074)) as [->|Hne]; [lia|]. rewrite Hd' by lia. lia. }
    rewrite xorb_false_r.
    rewrite binary_round_aux_char; rewrite fexp_eq, Hdp;
      replace (Zpos (digits2_pos m) + 52 + (e + -52) - 53)
        with (Zpos (digits2_pos m) + e - 53) by lia;
      rewrite Hfe; [|lia].
    replace (e - (e + -52)) with 52 by lia. replace (e + -52 + 52) with e by lia.
    rewrite HP. rewrite <- (Z.mul_1_l (2 ^ 52)) at 2.
    rewrite rne_quotient_scale, rne_quotient_exact by lia.
    unfold normal_pair. destruct (Z.eqb_spec (Zpos m) (2 ^ 53)); [lia|].
    unfold encode. cbn [fst snd]. destruct (Z.leb_spec e 971); [reflexivity|lia].
Qed.

Lemma mul_one64 (x : float) :
  SFfinite (Prim2SF x) = true -> (x * 1)%float = x.
Proof.
  intros Hf. apply FloatAxioms.Prim2SF_inj. rewrite FloatAxioms.mul_spec.
  change (Prim2SF 1) with (S754_finite false (2 ^ 52) (-52)).
  change (SF64mul ?a ?b) with (SFmul prec emax a b).
  apply SFmul_one; [apply Prim2SF_valid|exact Hf].
Qed.

(** A finite double times zero is a zero. *)
Lemma mul_zero64 (x : float) :
  SFfinite (Prim2SF x) = true -> exists s, Prim2SF (x * 0)%float = S754_zero s.
Proof.
  intros Hf. rewrite FloatAxioms.mul_spec. change (Prim2SF 0) with (S754_zero false).
  change (SF64mul ?a ?b) with (SFmul prec emax a b).
  destruct (Prim2SF x) as [s| | |s m e]; try done; cbn [SFmul]; eexists; reflexivity.
Qed.

Lemma zero_mul64 (z y : float) (s : bool) :
  Prim2SF z = S754_zero s -> SFfinite (Prim2SF y) = true ->
  exists s', Prim2SF (z * y)%float = S754_zero s'.
Proof.
  intros Hz Hf. rewrite FloatAxioms.mul_spec, Hz.
  change (SF64mul ?a ?b) with (SFmul prec emax a b).
  destruct (Prim2SF y) as [sy| | |sy m e]; try done; cbn [SFmul]; eexists; reflexivity.
Qed.

Lemma SFadd_zero (a b : spec_float) (s : bool) :
  same_double a b -> SFfinite b = true ->
  same_double (SFadd prec emax a (S754_zero s)) b.
Proof.
  intros [->|(s1 & s2 & -> & ->)] Hf.
  - destruct b as [sb| | |sb m e]; try done; cbn [SFadd]; [|by left].
    right. destruct sb, s; eexists _, _; split; reflexivity.
  - right. cbn [SFadd]. destruct s1, s; eexists _, _; split; reflexivity.
Qed.

Lemma same_double_eqb (a b : spec_float) :
  same_double a b -> SFfinite b = true -> SFeqb a b = true.
Proof.
  intros [->|(s1 & s2 & -> & ->)] Hf; [|reflexivity].
  unfold SFeqb. rewrite SFcompare_refl; [done|]. by destruct b.
Qed.

Lemma floor64_of_int64 (n : Z) : Z.abs n < 2 ^ 53 -> floor64 (of_int64 n) = n.
Proof.
  intros Hn. destruct (RoundZ_small n Hn) as [Hf HIV].
  rewrite floor64_spec by (by rewrite of_int64_spec).
  rewrite of_int64_spec, HIV. apply Z.div_mul. lia.
Qed.

Lemma sub_self64 (x : float) : SFfinite (Prim2SF x) = true -> (x - x)%float = 0%float.
Proof.
  intros Hf. apply FloatAxioms.Prim2SF_inj. rewrite FloatAxioms.sub_spec.
  change (SF64sub ?a ?b) with (SFsub prec emax a b).
  pose proof (Prim2SF_valid x) as Hv.
  destruct (Prim2SF x) as [s| | |s m e] eqn:E; try done.
  - by destruct s.
  - rewrite SFsub_char by done. by rewrite Z.sub_diag.
Qed.

(** X13: at a grid node the sampler returns the elevation of the cell: for a cell
    [(r, c)] of a grid of finite or missing elevations whose four corner
    values hold data, [_bilinear_sample(dem, float(r), float(c))] is equal
    ([==]) to [dem[r, c]]. *)
Theorem bilinear_sample_at_node64 (dem : ndarray float) (r c : Z) :
  let rows := (shape2 dem).1 in
  let cols := (shape2 dem).2 in
  let r1 := Z.min (r + 1) (Z.of_nat rows - 1) in
  let c1 := Z.min (c + 1) (Z.of_nat cols - 1) in
  finite_grid64 dem -> in_bounds rows cols r c = true -> r < 2 ^ 53 -> c < 2 ^ 53 ->
  existsb isnan [elevation dem r c; elevation dem r1 c;
                 elevation dem r c1; elevation dem r1 c1] = false ->
  PrimFloat.eqb (_bilinear_sample dem (of_int r) (of_int c)) (elevation dem r c) = true.
Proof.
  intros rows cols r1 c1 Hg Hb Hr Hc Hnan.
  pose proof Hb as Hb'. apply in_bounds_spec in Hb' as [Hr0 Hc0].
  assert (floor (of_int r : float) = r) as Hfr by (apply floor64_of_int64; lia).
  assert (floor (of_int c : float) = c) as Hfc by (apply floor64_of_int64; lia).
  pose proof (bilinear_sample_unfold dem (of_int r) (of_int c)) as [_ H].
  cbv zeta in H. rewrite Hfr, Hfc in H. fold rows cols r1 c1 in H.
  destruct (H Hb) as (_ & Hs & _). rewrite (Hs Hnan). clear H Hs.
  cbn [existsb] in Hnan. rewrite !orb_false_iff in Hnan.
  destruct Hnan as (H00 & H10 & H01 & H11 & _).
  pose proof (elevation_finite64 dem r c Hg H00) as F00.
  pose proof (elevation_finite64 dem r1 c Hg H10) as F10.
  pose proof (elevation_finite64 dem r c1 Hg H01) as F01.
  pose proof (elevation_finite64 dem r1 c1 Hg H11) as F11.
  assert (forall n : Z, Z.abs n < 2 ^ 53 -> fsub (of_int n : float) (of_int n) = 0%float)
    as Hself.
  { intros n Hn. apply sub_self64. rewrite of_int64_spec. by apply RoundZ_small. }
  rewrite !Hself by lia.
  change (fsub (of_int 1 : float) 0%float) with 1%float.
  change (@fmul float binary64) with PrimFloat.mul.
  change (@fadd float binary64) with PrimFloat.add.
  rewrite !(mul_one64 (elevation dem r c)) by done.
  destruct (mul_zero64 _ F10) as [s1 Z1].
  destruct (zero_mul64 _ 1%float _ Z1 eq_refl) as [s1' Z1'].
  rewrite (mul_one64 (elevation dem r c1)) by done.
  destruct (mul_zero64 _ F01) as [s2 Z2].
  destruct (mul_zero64 _ F11) as [s3 Z3].
  destruct (zero_mul64 _ 0%float _ Z3 eq_refl) as [s3' Z3'].
  rewrite FloatAxioms.eqb_spec. apply same_double_eqb; [|exact F00].
  rewrite !FloatAxioms.add_spec, Z1', Z2, Z3'.
  change (SF64add ?a ?b) with (SFadd prec emax a b).
  repeat apply SFadd_zero; try done. by left.
Qed.

Lemma bilinear_sample_at_node64_witness :
  PrimFloat.eqb (_bilinear_sample Scenarios.dem_2x2 (of_int 0) (of_int 1))
    (elevation Scenarios.dem_2x2 0 1) = true.
Proof.
  apply (bilinear_sample_at_node64 Scenarios.dem_2x2 0 1).
  - repeat constructor.
  - reflexivity.
  - lia.
  - lia.
  - reflexivity.
Defined.

End Binary64Nodes.

(** ** The majority filter, cell by cell *)

(** Unfold one pass of an iteration. *)
Ltac iter_step := rewrite ?Nat.iter_succ; change (Nat.iter 0 ?f ?x) with x.

Lemma item_ge_uint8 (rows cols : nat) (a : ndarray Z) (required r c : Z) :
  shape a = [rows; cols] -> length (data a) = (rows * cols)%nat ->
  item_or_0 (ge_uint8 a required) r c =
    if in_bounds rows cols r c
    then (if required <=? item_or_0 a r c then 1 else 0) else 0.
Proof.
  intros Hs Hl. unfold item_or_0, getitem2.
  change (shape2 (ge_uint8 a required)) with (shape2 a). unfold shape2. rewrite Hs.
  destruct (in_bounds rows cols r c) eqn:Hb; [|reflexivity].
  unfold ge_uint8. cbn [data]. rewrite list_lookup_fmap.
  destruct (data a !! flat_index cols r c) as [x|] eqn:E; [reflexivity|].
  apply lookup_ge_None in E. pose proof (flat_index_lt _ _ _ _ Hb). lia.
Qed.

Lemma window_total_bounds (rows cols : nat) (a : ndarray Z) (r c : Z) :
  is_uint8_mask rows cols a -> 0 <= window_total a r c <= 9.
Proof.
  intros Ha. unfold window_total.
  pose proof (fun r c => item_uint8_mask rows cols a r c Ha) as H.
  pose proof (H (r - 1) (c - 1)). pose proof (H (r - 1) c). pose proof (H (r - 1) (c + 1)).
  pose proof (H r (c - 1)). pose proof (H r c). pose proof (H r (c + 1)).
  pose proof (H (r + 1) (c - 1)). pose proof (H (r + 1) c). pose proof (H (r + 1) (c + 1)).
  lia.
Qed.

(** One pass, read at one cell: 1 exactly when the zero-padded 3 x 3
    neighbourhood holds the required number of ones. *)
Lemma item_smooth_pass (rows cols : nat) (threshold : option Z) (a : ndarray Z) (r c : Z) :
  is_uint8_mask rows cols a ->
  item_or_0 (smooth_pass threshold a) r c =
    if in_bounds rows cols r c
    then (if required_votes threshold <=? window_total a r c then 1 else 0) else 0.
Proof.
  intros Ha. pose proof Ha as (Hs & Hl & _).
  pose proof (shape_np_pad rows cols a Hs) as Hp.
  assert (forall dr dc, shape (window (np_pad a) dr dc) = [rows; cols] /\
            length (data (window (np_pad a) dr dc)) = (rows * cols)%nat) as Hw
    by (intros; by apply shape_window).
  unfold smooth_pass. fold (required_votes threshold).
  rewrite (item_ge_uint8 rows cols)
    by (repeat apply shape_uint8_add; apply Hw).
  destruct (in_bounds rows cols r c) eqn:Hb; [|reflexivity].
  repeat
    (rewrite item_uint8_add;
     [|etransitivity; [|symmetry; apply Hw]; repeat apply shape_uint8_add; apply Hw
      |etransitivity; [|symmetry; apply Hw]; repeat apply shape_uint8_add; apply Hw]).
  rewrite !(item_window rows cols) by done. rewrite Hb.
  rewrite !(item_np_pad rows cols) by done.
  replace (r + 0 - 1) with (r - 1) by lia. replace (c + 0 - 1) with (c - 1) by lia.
  replace (r + 1 - 1) with r by lia. replace (c + 1 - 1) with c by lia.
  replace (r + 2 - 1) with (r + 1) by lia. replace (c + 2 - 1) with (c + 1) by lia.
  pose proof (fun r c => item_uint8_mask rows cols a r c Ha) as H.
  pose proof (H (r - 1) (c - 1)). pose proof (H (r - 1) c). pose proof (H (r - 1) (c + 1)).
  pose proof (H r (c - 1)). pose proof (H r c). pose proof (H r (c + 1)).
  pose proof (H (r + 1) (c - 1)). pose proof (H (r + 1) c). pose proof (H (r + 1) (c + 1)).
  unfold window_total.
  generalize dependent (item_or_0 a (r - 1) (c - 1)). intros a1 ?.
  generalize dependent (item_or_0 a (r - 1) c). intros a2 ?.
  generalize dependent (item_or_0 a (r - 1) (c + 1)). intros a3 ?.
  generalize dependent (item_or_0 a r (c - 1)). intros a4 ?.
  generalize dependent (item_or_0 a r c). intros a5 ?.
  generalize dependent (item_or_0 a r (c + 1)). intros a6 ?.
  generalize dependent (item_or_0 a (r + 1) (c - 1)). intros a7 ?.
  generalize dependent (item_or_0 a (r + 1) c). intros a8 ?.
  generalize dependent (item_or_0 a (r + 1) (c + 1)). intros a9 ?.
  rewrite (Z.mod_small (a1 + a2)) by lia.
  rewrite (Z.mod_small (a1 + a2 + a3)) by lia.
  rewrite (Z.mod_small (a1 + a2 + a3 + a4)) by lia.
  rewrite (Z.mod_small (a1 + a2 + a3 + a4 + a5)) by lia.
  rewrite (Z.mod_small (a1 + a2 + a3 + a4 + a5 + a6)) by lia.
  rewrite (Z.mod_small (a1 + a2 + a3 + a4 + a5 + a6 + a7)) by lia.
  rewrite (Z.mod_small (a1 + a2 + a3 + a4 + a5 + a6 + a7 + a8)) by lia.
  rewrite (Z.mod_small (a1 + a2 + a3 + a4 + a5 + a6 + a7 + a8 + a9)) by lia.
  reflexivity.
Qed.

Lemma item_astype_uint8 (mask : ndarray bool) (r c : Z) :
  item_or_0 (astype_uint8 mask) r c = vote mask r c.
Proof.
  unfold item_or_0, vote, getitem2. change (shape2 (astype_uint8 mask)) with (shape2 mask).
  destruct (shape2 mask) as [rows cols]. destruct (in_bounds rows cols r c); [|reflexivity].
  unfold astype_uint8. cbn [data]. rewrite list_lookup_fmap.
  by destruct (data mask !! flat_index cols r c) as [[]|].
Qed.

Lemma window_total_astype_uint8 (mask : ndarray bool) (r c : Z) :
  window_total (astype_uint8 mask) r c = votes mask r c.
Proof. unfold window_total, votes. by rewrite !item_astype_uint8. Qed.

Lemma visible_astype_bool_iff (rows cols : nat) (a : ndarray Z) (r c : Z) :
  shape a = [rows; cols] -> length (data a) = (rows * cols)%nat ->
  visible (astype_bool a) r c <-> in_bounds rows cols r c = true /\ item_or_0 a r c <> 0.
Proof.
  intros Hs Hl. unfold visible, item_or_0, getitem2.
  change (shape2 (astype_bool a)) with (shape2 a). unfold shape2. rewrite Hs.
  destruct (in_bounds rows cols r c) eqn:Hb; [|split; [done|intros [? _]; done]].
  unfold astype_bool. cbn [data]. rewrite list_lookup_fmap.
  destruct (data a !! flat_index cols r c) as [x|] eqn:E.
  - simpl. destruct (Z.eqb_spec x 0); split; intros H; try done; by destruct H.
  - apply lookup_ge_None in E. pose proof (flat_index_lt _ _ _ _ Hb). lia.
Qed.

Lemma smooth_iter_mask (rows cols : nat) (threshold : option Z) (a : ndarray Z) (n : nat) :
  is_uint8_mask rows cols a ->
  is_uint8_mask rows cols (Nat.iter n (smooth_pass threshold) a).
Proof.
  intros Ha. induction n as [|n IH]; [exact Ha|]. simpl.
  apply smooth_pass_uint8_mask. by destruct IH.
Qed.

Lemma smooth_unfold (rows cols : nat) (mask : ndarray bool) (passes : Z)
    (threshold : option Z) :
  shape mask = [rows; cols] -> 1 <= passes ->
  smooth_visibility_mask mask passes threshold =
    Ok (astype_bool (Nat.iter (Z.to_nat passes) (smooth_pass threshold) (astype_uint8 mask))).
Proof.
  intros Hs Hp. unfold smooth_visibility_mask.
  assert (ndim mask = 2%nat) as -> by (unfold ndim; by rewrite Hs).
  simpl negb. cbv iota. destruct (Z.ltb_spec passes 1); [lia|reflexivity].
Qed.

(** X15: the majority filter: after one pass a cell is set exactly when it lies
    in the mask and at least [threshold] (5 when [None]) of the nine cells
    of its 3 x 3 neighbourhood were set, cells outside the mask counting as
    unset. *)
Theorem smooth_one_pass_majority (rows cols : nat) (mask : ndarray bool)
    (threshold : option Z) (m : ndarray bool) (r c : Z) :
  is_mask rows cols mask ->
  smooth_visibility_mask mask 1 threshold = Ok m ->
  visible m r c <->
  in_bounds rows cols r c = true /\ required_votes threshold <= votes mask r c.
Proof.
  intros Hm. rewrite (smooth_unfold rows cols) by (lia || apply Hm).
  intros H. injection H as <-. change (Z.to_nat 1) with 1%nat. iter_step.
  pose proof (astype_uint8_mask rows cols mask Hm) as Ha.
  destruct (smooth_pass_shape rows cols threshold (astype_uint8 mask)) as [Hs Hl];
    [apply Ha|].
  rewrite (visible_astype_bool_iff rows cols) by done.
  rewrite (item_smooth_pass rows cols) by done. rewrite window_total_astype_uint8.
  destruct (in_bounds rows cols r c); [|split; intros [? _]; done].
  destruct (Z.leb_spec (required_votes threshold) (votes mask r c)); split;
    intros [_ H']; (split; [done|]); (done || lia).
Qed.

(** ** Checks and shape *)

Lemma shape_smooth_iter (rows cols : nat) (threshold : option Z) (a : ndarray Z) (n : nat) :
  shape a = [rows; cols] -> shape (Nat.iter n (smooth_pass threshold) a) = [rows; cols].
Proof.
  intros Ha. induction n as [|n IH]; [exact Ha|]. iter_step.
  apply (smooth_pass_shape rows cols threshold _ IH).
Qed.

(** X14: the filter rejects a mask that is not 2D with a ValueError, returns the
    mask itself when [passes < 1], and otherwise returns a mask of the shape
    of its input, whatever the threshold. *)
Theorem smooth_checks_and_shape (mask : ndarray bool) (passes : Z) (threshold : option Z) :
  (ndim mask <> 2%nat ->
     smooth_visibility_mask mask passes threshold =
       Raise (ValueError "mask must be a 2D array.")) /\
  (ndim mask = 2%nat -> passes < 1 ->
     smooth_visibility_mask mask passes threshold = Ok mask) /\
  (ndim mask = 2%nat ->
     exists m, smooth_visibility_mask mask passes threshold = Ok m /\
       shape m = shape mask /\
       (wf_array mask -> wf_array m)).
Proof.
  unfold smooth_visibility_mask.
  destruct (Nat.eqb_spec (ndim mask) 2) as [Hnd|Hnd]; simpl negb; cbv iota.
  2:{ split; [done|]. split; intros H; done. }
  split; [done|]. split.
  - intros _ Hp. destruct (Z.ltb_spec passes 1); [done|lia].
  - intros _. destruct (Z.ltb_spec passes 1) as [Hp|Hp]; [by exists mask|].
    eexists. split; [reflexivity|].
    pose proof (shape_of_ndim2 mask Hnd) as Hs.
    destruct (Z.to_nat passes) as [|n] eqn:E; [lia|]. iter_step.
    destruct (smooth_pass_shape (shape2 mask).1 (shape2 mask).2 threshold
                (Nat.iter n (smooth_pass threshold) (astype_uint8 mask))) as [H1 H2].
    { apply shape_smooth_iter. exact Hs. }
    split.
    + unfold astype_bool. cbn [shape]. by rewrite H1, Hs.
    + intros _. unfold wf_array, astype_bool. cbn [shape data].
      rewrite length_map, H1, H2. simpl. lia.
Qed.

(** ** Passes compose *)

Lemma astype_uint8_bool_ge (a : ndarray Z) (required : Z) :
  astype_uint8 (astype_bool (ge_uint8 a required)) = ge_uint8 a required.
Proof.
  unfold astype_uint8, astype_bool, ge_uint8. cbn [shape data]. f_equal.
  rewrite !map_map. apply map_ext. intros x. by destruct (required <=? x).
Qed.

Lemma astype_uint8_bool_iter (threshold : option Z) (a : ndarray Z) (n : nat) :
  (0 < n)%nat ->
  astype_uint8 (astype_bool (Nat.iter n (smooth_pass threshold) a)) =
  Nat.iter n (smooth_pass threshold) a.
Proof.
  destruct n as [|n]; [lia|]. intros _. iter_step.
  unfold smooth_pass at 1 3.
  apply astype_uint8_bool_ge.
Qed.

Lemma smooth_2d (mask : ndarray bool) (passes : Z) (threshold : option Z) :
  ndim mask = 2%nat ->
  smooth_visibility_mask mask passes threshold =
    if passes <? 1 then Ok mask
    else Ok (astype_bool
               (Nat.iter (Z.to_nat passes) (smooth_pass threshold) (astype_uint8 mask))).
Proof. intros H. unfold smooth_visibility_mask. by rewrite H. Qed.

Lemma smooth_not_2d (mask : ndarray bool) (passes : Z) (threshold : option Z) :
  ndim mask <> 2%nat ->
  smooth_visibility_mask mask passes threshold =
    Raise (ValueError "mask must be a 2D array.").
Proof.
  intros H. unfold smooth_visibility_mask.
  by destruct (Nat.eqb_spec (ndim mask) 2).
Qed.

(** X16: running [a] passes and then [b] passes on the result is running
    [a + b] passes, for the same threshold. *)
Theorem smooth_passes_compose (mask : ndarray bool) (a b : Z) (threshold : option Z) :
  0 <= a -> 0 <= b ->
  smooth_visibility_mask mask (a + b) threshold =
    (smooth_visibility_mask mask a threshold ≫=
       fun m => smooth_visibility_mask m b threshold).
Proof.
  intros Ha Hb. destruct (decide (ndim mask = 2%nat)) as [Hnd|Hnd].
  2:{ by rewrite !smooth_not_2d. }
  rewrite (smooth_2d mask (a + b)), (smooth_2d mask a) by done.
  destruct (Z.ltb_spec a 1) as [Ha0|Ha1].
  - assert (a = 0) as -> by lia. rewrite Z.add_0_l. unfold mbind, result_bind.
    by rewrite smooth_2d.
  - destruct (Z.ltb_spec (a + b) 1); [lia|]. unfold mbind, result_bind.
    pose proof (shape_of_ndim2 mask Hnd) as Hs.
    rewrite smooth_2d.
    2:{ unfold ndim, astype_bool. cbn [shape].
        by rewrite (shape_smooth_iter (shape2 mask).1 (shape2 mask).2). }
    destruct (Z.ltb_spec b 1) as [Hb0|Hb1].
    + assert (b = 0) as -> by lia. by rewrite Z.add_0_r.
    + rewrite astype_uint8_bool_iter by lia.
      replace (Z.to_nat (a + b)) with (Z.to_nat b + Z.to_nat a)%nat by lia.
      by rewrite Nat.iter_add.
Qed.

(** ** Monotonicity and the extreme thresholds *)

Lemma smooth_pass_mono (rows cols : nat) (threshold : option Z) (a b : ndarray Z) :
  is_uint8_mask rows cols a -> is_uint8_mask rows cols b ->
  (forall r c, item_or_0 a r c <= item_or_0 b r c) ->
  forall r c, item_or_0 (smooth_pass threshold a) r c
              <= item_or_0 (smooth_pass threshold b) r c.
Proof.
  intros Ha Hb Hle r c. rewrite !(item_smooth_pass rows cols) by done.
  destruct (in_bounds rows cols r c); [|lia].
  assert (window_total a r c <= window_total b r c) as Hw.
  { unfold window_total.
    pose proof (Hle (r - 1) (c - 1)). pose proof (Hle (r - 1) c).
    pose proof (Hle (r - 1) (c + 1)). pose proof (Hle r (c - 1)). pose proof (Hle r c).
    pose proof (Hle r (c + 1)). pose proof (Hle (r + 1) (c - 1)).
    pose proof (Hle (r + 1) c). pose proof (Hle (r + 1) (c + 1)). lia. }
  destruct (Z.leb_spec (required_votes threshold) (window_total a r c)),
    (Z.leb_spec (required_votes threshold) (window_total b r c)); lia.
Qed.

Lemma smooth_iter_mono (rows cols : nat) (threshold : option Z) (a b : ndarray Z) (n : nat) :
  is_uint8_mask rows cols a -> is_uint8_mask rows cols b ->
  (forall r c, item_or_0 a r c <= item_or_0 b r c) ->
  forall r c, item_or_0 (Nat.iter n (smooth_pass threshold) a) r c
              <= item_or_0 (Nat.iter n (smooth_pass threshold) b) r c.
Proof.
  intros Ha Hb Hle. induction n as [|n IH]; [exact Hle|]. iter_step.
  apply (smooth_pass_mono rows cols); [by apply smooth_iter_mask..|exact IH].
Qed.

Lemma vote_visible (mask : ndarray bool) (r c : Z) :
  vote mask r c = 1 <-> visible mask r c.
Proof.
  unfold vote, visible. destruct (getitem2 mask r c) as [[]|]; split; done.
Qed.

Lemma vote_bounds (mask : ndarray bool) (r c : Z) : 0 <= vote mask r c <= 1.
Proof. unfold vote. destruct (getitem2 mask r c) as [[]|]; lia. Qed.

(** X17: the filter is monotone: a mask with more cells set comes back with more
    cells set, for every number of passes and every threshold. *)
Theorem smooth_monotone (rows cols : nat) (mask1 mask2 : ndarray bool) (passes : Z)
    (threshold : option Z) (m1 m2 : ndarray bool) :
  is_mask rows cols mask1 -> is_mask rows cols mask2 ->
  (forall r c, visible mask1 r c -> visible mask2 r c) ->
  smooth_visibility_mask mask1 passes threshold = Ok m1 ->
  smooth_visibility_mask mask2 passes threshold = Ok m2 ->
  forall r c, visible m1 r c -> visible m2 r c.
Proof.
  intros H1 H2 Hsub. destruct (Z.lt_ge_cases passes 1) as [Hp|Hp].
  - unfold smooth_visibility_mask.
    assert (ndim mask1 = 2%nat) as -> by (unfold ndim; by destruct H1 as [-> _]).
    assert (ndim mask2 = 2%nat) as -> by (unfold ndim; by destruct H2 as [-> _]).
    simpl negb. cbv iota. destruct (Z.ltb_spec passes 1); [|lia].
    intros E1 E2. injection E1 as <-. injection E2 as <-. exact Hsub.
  - rewrite !(smooth_unfold rows cols) by (done || apply H1 || apply H2).
    intros E1 E2. injection E1 as <-. injection E2 as <-. intros r c.
    pose proof (astype_uint8_mask rows cols mask1 H1) as Ha1.
    pose proof (astype_uint8_mask rows cols mask2 H2) as Ha2.
    pose proof (smooth_iter_mask rows cols threshold _ (Z.to_nat passes) Ha1) as (S1 & L1 & _).
    pose proof (smooth_iter_mask rows cols threshold _ (Z.to_nat passes) Ha2) as (S2 & L2 & _).
    rewrite !(visible_astype_bool_iff rows cols) by done.
    intros [Hb Hne]. split; [exact Hb|].
    pose proof (smooth_iter_mono rows cols threshold _ _ (Z.to_nat passes) Ha1 Ha2) as Hle.
    pose proof (item_uint8_mask rows cols _ r c
                  (smooth_iter_mask rows cols threshold _ (Z.to_nat passes) Ha1)).
    specialize (Hle ltac:(intros r' c'; rewrite !item_astype_uint8;
      pose proof (vote_bounds mask1 r' c'); pose proof (vote_bounds mask2 r' c');
      destruct (decide (vote mask1 r' c' = 1)) as [E|E];
        [apply vote_visible, Hsub, vote_visible in E; lia|lia]) r c).
    lia.
Qed.

(** X18: the extreme thresholds: with a threshold of 0 or less every cell comes
    back set after at least one pass, and with a threshold of 10 or more
    (above the nine votes of a neighbourhood) none does. *)
Theorem smooth_extreme_thresholds (rows cols : nat) (mask : ndarray bool) (passes t : Z)
    (m : ndarray bool) :
  is_mask rows cols mask -> 1 <= passes ->
  smooth_visibility_mask mask passes (Some t) = Ok m ->
  (t <= 0 -> forall r c, in_bounds rows cols r c = true -> visible m r c) /\
  (10 <= t -> forall r c, ~ visible m r c).
Proof.
  intros Hm Hp. rewrite (smooth_unfold rows cols) by (done || apply Hm).
  intros E. injection E as <-.
  destruct (Z.to_nat passes) as [|n] eqn:En; [lia|]. iter_step.
  pose proof (smooth_iter_mask rows cols (Some t) _ n (astype_uint8_mask rows cols mask Hm))
    as Ha.
  destruct (smooth_pass_shape rows cols (Some t)
              (Nat.iter n (smooth_pass (Some t)) (astype_uint8 mask))) as [Hs Hl];
    [apply Ha|].
  pose proof (fun r c => window_total_bounds rows cols _ r c Ha) as Hw.
  split; intros Ht r c.
  - intros Hb. apply (visible_astype_bool_iff rows cols); [done..|]. split; [done|].
    rewrite (item_smooth_pass rows cols) by done. rewrite Hb. specialize (Hw r c).
    cbn [required_votes].
    match goal with |- context [t <=? ?w] => destruct (Z.leb_spec t w) end; lia.
  - intros Hv. apply (visible_astype_bool_iff rows cols) in Hv as [Hb Hne]; [|done..].
    apply Hne. rewrite (item_smooth_pass rows cols) by done. rewrite Hb. specialize (Hw r c).
    cbn [required_votes].
    match goal with |- context [t <=? ?w] => destruct (Z.leb_spec t w) end; lia.
Qed.

(** ** Witnesses *)

Lemma smooth_one_pass_majority_witness :
  visible (mk_ndarray [3; 3]%nat
             [false; true; false; true; true; true; false; true; false]) 1 1 <->
  in_bounds 3 3 1 1 = true /\ required_votes None <= votes (full 3 3 true) 1 1.
Proof.
  apply (smooth_one_pass_majority 3 3 (full 3 3 true) None).
  - apply is_mask_full.
  - vm_compute. reflexivity.
Defined.

Lemma smooth_passes_compose_witness :
  smooth_visibility_mask (full 3 3 true) (1 + 2) None =
    (smooth_visibility_mask (full 3 3 true) 1 None ≫=
       fun m => smooth_visibility_mask m 2 None).
Proof. apply (smooth_passes_compose (full 3 3 true) 1 2 None); lia. Defined.

Lemma smooth_monotone_witness :
  visible (mk_ndarray [3; 3]%nat
             [false; true; false; true; true; true; false; true; false]) 1 1.
Proof.
  apply (smooth_monotone 3 3
           (mk_ndarray [3; 3]%nat [true; true; true; true; true; true; true; true; false])
           (full 3 3 true) 1 None
           (mk_ndarray [3; 3]%nat
              [false; true; false; true; true; true; false; true; false])).
  - split; reflexivity.
  - apply is_mask_full.
  - intros r c H. apply getitem2_full.
    eapply (visible_in_bounds 3 3); [|exact H]. split; reflexivity.
  - vm_compute. reflexivity.
  - vm_compute. reflexivity.
  - reflexivity.
Defined.

Lemma smooth_extreme_thresholds_witness :
  ((0 <= 0 -> forall r c, in_bounds 3 3 r c = true -> visible (full 3 3 true) r c) /\
   (10 <= 0 -> forall r c, ~ visible (full 3 3 true) r c)) /\
  ((10 <= 0 -> forall r c, in_bounds 3 3 r c = true -> visible (full 3 3 false) r c) /\
   (10 <= 10 -> forall r c, ~ visible (full 3 3 false) r c)).
Proof.
  split.
  - apply (smooth_extreme_thresholds 3 3 (full 3 3 false) 2 0 (full 3 3 true)).
    + apply is_mask_full.
    + lia.
    + vm_compute. reflexivity.
  - apply (smooth_extreme_thresholds 3 3 (full 3 3 true) 2 10 (full 3 3 false)).
    + apply is_mask_full.
    + lia.
    + vm_compute. reflexivity.
Defined.

(** * Rounding is monotone: the flat plane and the curvature correction in binary64 *)

(** ** Sums of doubles *)

Lemma SFleb_zero_l (s s' : bool) (f : spec_float) :
  SFleb (S754_zero s) f = SFleb (S754_zero s') f.
Proof. by destruct f. Qed.

Lemma SFleb_zero_r (s s' : bool) (f : spec_float) :
  SFleb f (S754_zero s) = SFleb f (S754_zero s').
Proof. by destruct f. Qed.

(** The sum of two finite doubles rounds the sum of their values; the sign of
    a zero sum apart, which no comparison sees. *)
Lemma SFadd_finite (x y : spec_float) :
  SpecFloat.valid_binary prec emax x = true -> SpecFloat.valid_binary prec emax y = true ->
  SFfinite x = true -> SFfinite y = true ->
  SFadd prec emax x y = RoundZ (IV x + IV y) \/
  exists s, SFadd prec emax x y = S754_zero s /\ RoundZ (IV x + IV y) = S754_zero false.
Proof.
  intros Hx Hy Hfx Hfy.
  destruct x as [sx| | |sx mx ex], y as [sy| | |sy my ey]; try done.
  - right. cbn [SFadd IV]. destruct sx, sy; eexists; split; reflexivity.
  - left. cbn [SFadd]. change (IV (S754_zero sx)) with 0. rewrite Z.add_0_l.
    by rewrite RoundZ_IV.
  - left. cbn [SFadd]. change (IV (S754_zero sy)) with 0. rewrite Z.add_0_r.
    by rewrite RoundZ_IV.
  - left. cbn [SpecFloat.valid_binary] in Hx, Hy.
    pose proof (bounded_spec _ _ Hx) as (Hex & _). pose proof (bounded_spec _ _ Hy) as (Hey & _).
    cbn [SFadd]. cbv zeta. set (ez := Z.min ex ey).
    rewrite binary_normalize_char by lia. f_equal.
    rewrite Z.mul_add_distr_r, !cond_Zopp_mul, !shl_align_fst by lia.
    cbn [IV]. rewrite <- !Z.mul_assoc, <- !Z.pow_add_r by lia.
    replace (ex - ez + (ez + 1074)) with (ex + 1074) by lia.
    replace (ey - ez + (ez + 1074)) with (ey + 1074) by lia. reflexivity.
Qed.

Lemma SFadd_finite_l (x y f : spec_float) :
  SpecFloat.valid_binary prec emax x = true -> SpecFloat.valid_binary prec emax y = true ->
  SFfinite x = true -> SFfinite y = true ->
  SFleb (SFadd prec emax x y) f = SFleb (RoundZ (IV x + IV y)) f.
Proof.
  intros Hx Hy Hfx Hfy.
  destruct (SFadd_finite x y Hx Hy Hfx Hfy) as [->|(s & -> & ->)]; [done|].
  apply SFleb_zero_l.
Qed.

Lemma SFadd_finite_r (x y f : spec_float) :
  SpecFloat.valid_binary prec emax x = true -> SpecFloat.valid_binary prec emax y = true ->
  SFfinite x = true -> SFfinite y = true ->
  SFleb f (SFadd prec emax x y) = SFleb f (RoundZ (IV x + IV y)).
Proof.
  intros Hx Hy Hfx Hfy.
  destruct (SFadd_finite x y Hx Hy Hfx Hfy) as [->|(s & -> & ->)]; [done|].
  apply SFleb_zero_r.
Qed.




Lemma SFnonneg_IV (f : spec_float) :
  SpecFloat.valid_binary prec emax f = true -> SFnonneg f = true -> 0 <= IV f.
Proof.
  intros Hv H. destruct f as [s|[]| |[] m e]; try done. cbn [IV cond_Zopp].
  apply bounded_spec in Hv as (He & _). pose proof (pow2_pos (e + 1074) ltac:(lia)). lia.
Qed.

Lemma RoundZ_nonneg (n : Z) : 0 <= n -> SFnonneg (RoundZ n) = true.
Proof. intros H. apply (RoundZ_mono 0 n H). Qed.

(** The sum of doubles that are not negative is monotone in both. *)
Lemma SFadd_mono_nonneg (a a' b b' : spec_float) :
  SpecFloat.valid_binary prec emax a = true -> SpecFloat.valid_binary prec emax a' = true ->
  SpecFloat.valid_binary prec emax b = true -> SpecFloat.valid_binary prec emax b' = true ->
  SFnonneg a = true -> SFnonneg b = true -> SFleb a a' = true -> SFleb b b' = true ->
  SFleb (SFadd prec emax a b) (SFadd prec emax a' b') = true /\
  SFnonneg (SFadd prec emax a b) = true.
Proof.
  intros Ha Ha' Hb Hb' Ha0 Hb0 Hle Hle'.
  assert (SFnonneg a' = true) as Ha0' by (apply (SFleb_trans _ a); assumption).
  assert (SFnonneg b' = true) as Hb0' by (apply (SFleb_trans _ b); assumption).
  assert (forall u v, SpecFloat.valid_binary prec emax u = true ->
            SpecFloat.valid_binary prec emax v = true ->
            SFnonneg u = true -> SFnonneg v = true ->
            SFnonneg (SFadd prec emax u v) = true) as Hsum.
  { intros u v Hu Hv Hu0 Hv0.
    destruct (SFfinite u) eqn:Hfu, (SFfinite v) eqn:Hfv.
    - unfold SFnonneg. rewrite SFadd_finite_r by done. apply RoundZ_nonneg.
      pose proof (SFnonneg_IV u Hu Hu0). pose proof (SFnonneg_IV v Hv Hv0). lia.
    - destruct u as [s|[]| |[] m e], v as [s'|[]| |[] m' e']; done.
    - destruct u as [s|[]| |[] m e], v as [s'|[]| |[] m' e']; done.
    - destruct u as [s|[]| |[] m e], v as [s'|[]| |[] m' e']; done. }
  split; [|by apply Hsum].
  destruct (SFfinite a') eqn:Hfa', (SFfinite b') eqn:Hfb'.
  - assert (SFfinite a = true) as Hfa
      by (destruct a as [s|[]| |[] m e], a' as [s'|[]| |[] m' e']; done).
    assert (SFfinite b = true) as Hfb
      by (destruct b as [s|[]| |[] m e], b' as [s'|[]| |[] m' e']; done).
    rewrite SFadd_finite_l, SFadd_finite_r by done. apply RoundZ_mono.
    pose proof (IV_mono a a' Ha Ha' Hfa Hfa' Hle).
    pose proof (IV_mono b b' Hb Hb' Hfb Hfb' Hle'). lia.
  - assert (SFadd prec emax a' b' = S754_infinity false) as ->
      by (destruct a' as [s|[]| |[] m e], b' as [s'|[]| |[] m' e']; done).
    apply SFleb_infinity. specialize (Hsum a b Ha Hb Ha0 Hb0).
    by destruct (SFadd prec emax a b).
  - assert (SFadd prec emax a' b' = S754_infinity false) as ->
      by (destruct a' as [s|[]| |[] m e], b' as [s'|[]| |[] m' e']; done).
    apply SFleb_infinity. specialize (Hsum a b Ha Hb Ha0 Hb0).
    by destruct (SFadd prec emax a b).
  - assert (SFadd prec emax a' b' = S754_infinity false) as ->
      by (destruct a' as [s|[]| |[] m e], b' as [s'|[]| |[] m' e']; done).
    apply SFleb_infinity. specialize (Hsum a b Ha Hb Ha0 Hb0).
    by destruct (SFadd prec emax a b).
Qed.

(** ** Products of doubles *)

Lemma round_quotient2_bounds (V : Z) :
  0 < V ->
  let k := Z.max (Zdigits2 V - 53) 1074 in
  0 < 2 ^ k /\ 0 <= V / 2 ^ k < 2 ^ 53 /\ (1074 < k -> 2 ^ 52 <= V / 2 ^ k) /\
  2 ^ (Zdigits2 V - 1) <= V < 2 ^ Zdigits2 V /\ 0 < Zdigits2 V.
Proof.
  intros HV k. destruct V as [|p|p]; try lia. cbn [Zdigits2] in *.
  pose proof (digits2_pos_bounds p) as [H1 H2]. set (d := Zpos (digits2_pos p)) in *.
  assert (0 < 2 ^ k) as Hk by (apply Z.pow_pos_nonneg; lia).
  split; [exact Hk|]. split; [|split; [|split; [split; assumption|lia]]].
  - split.
    + apply Z.div_pos; lia.
    + apply Z.div_lt_upper_bound; [lia|]. rewrite <- Z.pow_add_r by lia.
      eapply Z.lt_le_trans; [exact H2|]. apply Z.pow_le_mono_r; lia.
  - intros Hpos. apply Z.div_le_lower_bound; [lia|]. rewrite <- Z.pow_add_r by lia.
    eapply Z.le_trans; [|exact H1]. apply Z.pow_le_mono_r; lia.
Qed.

Lemma round_pair2_nonneg (V : Z) : 0 < V -> 0 <= (round_pair2 V).1.
Proof.
  intros HV. unfold round_pair2, normal_pair.
  pose proof (round_quotient2_bounds V HV) as (Hk & [Hq1 Hq2] & _). cbv zeta in *.
  pose proof (rne_quotient_bounds V _ Hk).
  destruct (_ =? 2 ^ 53); cbn [fst]; lia.
Qed.

Lemma round_pair2_mono (V V' : Z) : 0 < V <= V' -> lex_le (round_pair2 V) (round_pair2 V').
Proof.
  intros [HV Hle]. assert (0 < V') as HV' by lia.
  pose proof (round_quotient2_bounds V HV) as (Hk & [Hq1 Hq2] & Hn & [Hd1 Hd2] & Hd).
  pose proof (round_quotient2_bounds V' HV') as (Hk' & [Hq1' Hq2'] & Hn' & [Hd1' Hd2'] & Hd').
  cbv zeta in *. unfold round_pair2.
  set (k := Z.max (Zdigits2 V - 53) 1074) in *. set (k' := Z.max (Zdigits2 V' - 53) 1074) in *.
  pose proof (rne_quotient_bounds V _ Hk) as Hm. pose proof (rne_quotient_bounds V' _ Hk') as Hm'.
  assert (Zdigits2 V <= Zdigits2 V') as Hdd.
  { assert (Zdigits2 V - 1 < Zdigits2 V') by (apply pow2_lt_inv; lia). lia. }
  assert (k <= k') as Hkk by lia.
  unfold lex_le, normal_pair.
  destruct (Z.eq_dec k k') as [E|E].
  - rewrite <- E in *. pose proof (rne_quotient_mono V V' (2 ^ k) Hk Hle).
    destruct (Z.eqb_spec (rne_quotient V (2 ^ k)) (2 ^ 53)),
      (Z.eqb_spec (rne_quotient V' (2 ^ k)) (2 ^ 53)); cbn [fst snd]; lia.
  - assert (1074 < k') as Hpos by lia. specialize (Hn' Hpos).
    destruct (Z.eqb_spec (rne_quotient V (2 ^ k)) (2 ^ 53)),
      (Z.eqb_spec (rne_quotient V' (2 ^ k')) (2 ^ 53)); cbn [fst snd]; lia.
Qed.

(** The order of two encoded pairs whose mantissas may be zero. *)
Lemma encode_leb_nonneg (a b : Z * Z) :
  0 <= a.1 -> 0 <= b.1 -> lex_le a b -> (a.1 = 0 \/ 0 < b.1) ->
  SFleb (encode false a) (encode false b) = true.
Proof.
  intros Ha Hb Hle Hz.
  destruct (Z.eq_dec a.1 0) as [E|E].
  - destruct a as [a1 a2], b as [[|m|m] e]; cbn [fst snd] in *; try lia; subst a1.
    + reflexivity.
    + unfold encode. cbn [fst snd]. by destruct (e <=? 971).
  - apply encode_leb_pos; [lia|lia|done].
Qed.

Lemma encode_geb_nonneg (a b : Z * Z) :
  0 <= a.1 -> 0 <= b.1 -> lex_le a b -> (a.1 = 0 \/ 0 < b.1) ->
  SFleb (encode true b) (encode true a) = true.
Proof.
  intros Ha Hb Hle Hz.
  destruct (Z.eq_dec a.1 0) as [E|E].
  - destruct a as [a1 a2], b as [[|m|m] e]; cbn [fst snd] in *; try lia; subst a1.
    + reflexivity.
    + unfold encode. cbn [fst snd]. by destruct (e <=? 971).
  - apply encode_leb_neg; [lia|lia|done].
Qed.

(** A rounded mantissa is zero only when the later, larger one may be: the
    pair of a larger value is not zero when the pair of a smaller one is
    not. *)
Lemma round_pair2_zero (V V' : Z) :
  0 < V <= V' -> (round_pair2 V).1 = 0 \/ 0 < (round_pair2 V').1.
Proof.
  intros [HV Hle]. assert (0 < V') as HV' by lia.
  pose proof (round_pair2_nonneg V HV). pose proof (round_pair2_nonneg V' HV').
  pose proof (round_pair2_mono V V' ltac:(lia)) as Hlex.
  destruct (Z.eq_dec (round_pair2 V).1 0) as [E|E]; [by left|right].
  destruct (Z.eq_dec (round_pair2 V').1 0) as [E'|E']; [|lia].
  exfalso. revert Hlex E E'. unfold round_pair2.
  pose proof (round_quotient2_bounds V HV) as (Hk & [Hq1 Hq2] & Hn & [Hd1 Hd2] & Hd).
  pose proof (round_quotient2_bounds V' HV') as (Hk' & [Hq1' Hq2'] & Hn' & [Hd1' Hd2'] & Hd').
  cbv zeta in *.
  set (k := Z.max (Zdigits2 V - 53) 1074) in *. set (k' := Z.max (Zdigits2 V' - 53) 1074) in *.
  pose proof (rne_quotient_bounds V _ Hk) as Hm. pose proof (rne_quotient_bounds V' _ Hk') as Hm'.
  assert (Zdigits2 V <= Zdigits2 V') as Hdd.
  { assert (Zdigits2 V - 1 < Zdigits2 V') by (apply pow2_lt_inv; lia). lia. }
  unfold lex_le, normal_pair.
  destruct (Z.eqb_spec (rne_quotient V (2 ^ k)) (2 ^ 53)),
    (Z.eqb_spec (rne_quotient V' (2 ^ k')) (2 ^ 53)); cbn [fst snd]; lia.
Qed.

Lemma RoundZ2_shape (n : Z) :
  match n with
  | Z0 => RoundZ2 n = S754_zero false
  | Zpos _ => (exists m e, RoundZ2 n = S754_finite false m e) \/
              RoundZ2 n = S754_infinity false \/ RoundZ2 n = S754_zero false
  | Zneg _ => (exists m e, RoundZ2 n = S754_finite true m e) \/
              RoundZ2 n = S754_infinity true \/ RoundZ2 n = S754_zero true
  end.
Proof.
  destruct n as [|p|p]; [reflexivity| |]; cbn [RoundZ2];
    pose proof (round_pair2_nonneg (Zpos p) ltac:(lia)) as H;
    destruct (round_pair2 (Zpos p)) as [[|m|m] e]; cbn [fst] in H; try lia;
    unfold encode; cbn [fst snd]; auto;
    destruct (e <=? 971); eauto.
Qed.

Lemma RoundZ2_num (n : Z) : SFnum (RoundZ2 n) = true.
Proof.
  pose proof (RoundZ2_shape n) as H.
  destruct n; [by rewrite H| |]; destruct H as [(m & e & ->)|[->| ->]]; reflexivity.
Qed.

(** Rounding a product is monotone. *)
Lemma RoundZ2_mono (n n' : Z) : n <= n' -> SFleb (RoundZ2 n) (RoundZ2 n') = true.
Proof.
  intros Hle. pose proof (RoundZ2_shape n) as H. pose proof (RoundZ2_shape n') as H'.
  destruct n as [|p|p], n' as [|p'|p']; try lia.
  - reflexivity.
  - rewrite H. destruct H' as [(m & e & ->)|[->| ->]]; reflexivity.
  - cbn [RoundZ2]. apply encode_leb_nonneg.
    + apply round_pair2_nonneg; lia.
    + apply round_pair2_nonneg; lia.
    + apply round_pair2_mono. lia.
    + apply round_pair2_zero. lia.
  - rewrite H'. destruct H as [(m & e & ->)|[->| ->]]; reflexivity.
  - destruct H as [(m & e & ->)|[->| ->]], H' as [(m' & e' & ->)|[->| ->]]; reflexivity.
  - cbn [RoundZ2]. apply encode_geb_nonneg.
    + apply round_pair2_nonneg; lia.
    + apply round_pair2_nonneg; lia.
    + apply round_pair2_mono. lia.
    + apply round_pair2_zero. lia.
Qed.

(** The product of two finite doubles rounds the product of their values. *)
Lemma SFmul_char (sx st : bool) (mx mt : positive) (ex et : Z) :
  SpecFloat.bounded prec emax mx ex = true -> SpecFloat.bounded prec emax mt et = true ->
  SFmul prec emax (S754_finite sx mx ex) (S754_finite st mt et) =
    RoundZ2 (IV (S754_finite sx mx ex) * IV (S754_finite st mt et)).
Proof.
  intros Hx Ht. cbn [SFmul IV].
  pose proof (bounded_spec _ _ Hx) as (Hex & Hdx & Hnx).
  pose proof (bounded_spec _ _ Ht) as (Het & Hdt & Hnt).
  pose proof (digits2_pos_bounds mx) as [Hx1 Hx2].
  pose proof (digits2_pos_bounds mt) as [Ht1 Ht2].
  pose proof (digits2_pos_bounds (mx * mt)) as [HP1 HP2].
  set (dx := Zpos (digits2_pos mx)) in *. set (dt := Zpos (digits2_pos mt)) in *.
  set (dP := Zpos (digits2_pos (mx * mt))) in *. set (ez := ex + et).
  assert (0 < dx /\ 0 < dt) as [Hdx0 Hdt0] by (subst dx dt; lia).
  assert (dx + dt - 1 <= dP) as HdP.
  { assert (dx + dt - 2 < dP); [|lia]. apply pow2_lt_inv; [lia|].
    eapply Z.le_lt_trans; [|exact HP2].
    replace (dx + dt - 2) with (dx - 1 + (dt - 1)) by lia.
    rewrite Z.pow_add_r, Pos2Z.inj_mul by lia.
    apply Z.mul_le_mono_nonneg; try lia; apply Z.pow_nonneg; lia. }
  set (n := Z.max (dP + ez - 53) (-1074) - ez).
  assert (0 <= n) as Hn.
  { subst n ez. destruct (Z.eq_dec ex (-1074)), (Z.eq_dec et (-1074)); lia. }
  rewrite binary_round_aux_char by (rewrite fexp_eq; fold dP ez n; lia).
  rewrite fexp_eq. fold dP ez n.
  pose proof (pow2_pos (ex + 1074) ltac:(lia)) as Hpx.
  pose proof (pow2_pos (et + 1074) ltac:(lia)) as Hpt.
  pose proof (pow2_pos (ez + 2148) ltac:(lia)) as Hpz.
  assert (Zpos mx * 2 ^ (ex + 1074) * (Zpos mt * 2 ^ (et + 1074))
          = Zpos (mx * mt) * 2 ^ (ez + 2148)) as HV.
  { subst ez. replace (ex + et + 2148) with (ex + 1074 + (et + 1074)) by lia.
    rewrite (Z.pow_add_r 2 (ex + 1074) (et + 1074)), Pos2Z.inj_mul by lia. ring. }
  assert (round_pair2 (Zpos (mx * mt) * 2 ^ (ez + 2148))
          = normal_pair (rne_quotient (Zpos (mx * mt)) (2 ^ n)) (ez + n)) as Hr.
  { unfold round_pair2. rewrite Zdigits2_scaled by lia. fold dP.
    replace (Z.max (dP + (ez + 2148) - 53) 1074) with (n + (ez + 2148)) by (subst n; lia).
    rewrite (Z.pow_add_r 2 n) by lia.
    rewrite rne_quotient_scale by (try apply pow2_pos; lia).
    f_equal. lia. }
  assert (0 < Zpos (mx * mt) * 2 ^ (ez + 2148)) as Hpos by lia.
  destruct sx, st; cbn [cond_Zopp xorb].
  - replace (- (Zpos mx * 2 ^ (ex + 1074)) * - (Zpos mt * 2 ^ (et + 1074)))
      with (Zpos (mx * mt) * 2 ^ (ez + 2148)) by lia.
    destruct (Zpos (mx * mt) * 2 ^ (ez + 2148)) as [|p|p] eqn:E; try lia.
    cbn [RoundZ2]. by rewrite Hr.
  - replace (- (Zpos mx * 2 ^ (ex + 1074)) * (Zpos mt * 2 ^ (et + 1074)))
      with (- (Zpos (mx * mt) * 2 ^ (ez + 2148))) by lia.
    destruct (Zpos (mx * mt) * 2 ^ (ez + 2148)) as [|p|p] eqn:E; try lia.
    change (- Zpos p) with (Zneg p). cbn [RoundZ2]. by rewrite Hr.
  - replace (Zpos mx * 2 ^ (ex + 1074) * - (Zpos mt * 2 ^ (et + 1074)))
      with (- (Zpos (mx * mt) * 2 ^ (ez + 2148))) by lia.
    destruct (Zpos (mx * mt) * 2 ^ (ez + 2148)) as [|p|p] eqn:E; try lia.
    change (- Zpos p) with (Zneg p). cbn [RoundZ2]. by rewrite Hr.
  - rewrite HV.
    destruct (Zpos (mx * mt) * 2 ^ (ez + 2148)) as [|p|p] eqn:E; try lia.
    cbn [RoundZ2]. by rewrite Hr.
Qed.

(** A number times a positive finite double. *)
Lemma SFmul_num (x : spec_float) (mt : positive) (et : Z) :
  SpecFloat.valid_binary prec emax x = true -> SpecFloat.bounded prec emax mt et = true ->
  SFnum x = true -> SFnum (SFmul prec emax x (S754_finite false mt et)) = true.
Proof.
  intros Hx Ht Hn. destruct x as [s|s| |s m e]; try done.
  rewrite SFmul_char by done. apply RoundZ2_num.
Qed.

(** Multiplying by a positive finite double is monotone. *)
Lemma SFmul_mono (x x' : spec_float) (mt : positive) (et : Z) :
  SpecFloat.valid_binary prec emax x = true -> SpecFloat.valid_binary prec emax x' = true ->
  SpecFloat.bounded prec emax mt et = true ->
  SFleb x x' = true ->
  SFleb (SFmul prec emax x (S754_finite false mt et))
        (SFmul prec emax x' (S754_finite false mt et)) = true.
Proof.
  intros Hx Hx' Ht Hle.
  pose proof (bounded_spec _ _ Ht) as (Het & _).
  pose proof (pow2_pos (et + 1074) ltac:(lia)) as Hpt.
  assert (0 < IV (S754_finite false mt et)) as HIt by (cbn [IV cond_Zopp]; lia).
  assert (forall y, SpecFloat.valid_binary prec emax y = true -> SFfinite y = true ->
            forall f, SFleb (SFmul prec emax y (S754_finite false mt et)) f
                      = SFleb (RoundZ2 (IV y * IV (S754_finite false mt et))) f) as HL.
  { intros [s| | |s m e] Hy Hf f; try done. by rewrite SFmul_char. }
  assert (forall y, SpecFloat.valid_binary prec emax y = true -> SFfinite y = true ->
            forall f, SFleb f (SFmul prec emax y (S754_finite false mt et))
                      = SFleb f (RoundZ2 (IV y * IV (S754_finite false mt et)))) as HR.
  { intros [s| | |s m e] Hy Hf f; try done. by rewrite SFmul_char. }
  destruct (SFfinite x) eqn:Hf, (SFfinite x') eqn:Hf'.
  - rewrite HL, HR by done. apply RoundZ2_mono.
    pose proof (IV_mono x x' Hx Hx' Hf Hf' Hle). nia.
  - destruct x' as [s'|[]| |s' m' e']; try done.
    + by destruct x as [s|s| |[] m e].
    + cbn [SFmul xorb]. apply SFleb_infinity, SFmul_num; try done. by destruct x.
    + by destruct x.
  - destruct x as [s|[]| |s m e]; try done.
    + cbn [SFmul xorb]. apply SFleb_neg_infinity, SFmul_num; try done. by destruct x'.
    + by destruct x' as [s'|[]| |[] m' e'].
  - destruct x as [s|[]| |s m e], x' as [s'|[]| |s' m' e']; try done.
Qed.

(** ** The square root of a double *)

(** The position of the leading bit of a positive double, from its value. *)
Lemma Zdigits2_IV (m : positive) (e : Z) :
  -1074 <= e -> Zdigits2 (Zpos m * 2 ^ (e + 1074)) = Zpos (digits2_pos m) + e + 1074.
Proof. intros He. rewrite Zdigits2_scaled by lia. lia. Qed.

Lemma Zdigits2_mono (a b : Z) : 0 < a <= b -> Zdigits2 a <= Zdigits2 b.
Proof.
  intros [Ha Hab]. destruct a as [|p|p], b as [|q|q]; try lia. cbn [Zdigits2].
  pose proof (digits2_pos_bounds p) as [H1 _]. pose proof (digits2_pos_bounds q) as [_ H2].
  assert (Zpos (digits2_pos p) - 1 < Zpos (digits2_pos q)) by (apply pow2_lt_inv; lia). lia.
Qed.

Lemma div2_half (a : Z) : 2 * Z.div2 a <= a <= 2 * Z.div2 a + 1.
Proof. rewrite Z.div2_div. pose proof (Z.div_mod a 2 ltac:(lia)).
  pose proof (Z.mod_pos_bound a 2 ltac:(lia)). lia. Qed.

(** The integer root the square-root algorithm hands to the rounding: for a
    valid double it has 53 bits, so that no bit is shifted out afterwards. *)
Lemma sqrt_core_char (m : positive) (e : Z) :
  SpecFloat.bounded prec emax m e = true ->
  let j := Z.div2 (Zpos (digits2_pos m) + e + 1) in
  let s := e - 2 * (j - 53) in
  let m' := Zpos m * 2 ^ s in
  0 <= s /\ 2 ^ 104 <= m' < 2 ^ 106 /\
  SFsqrt_core_binary prec emax (Zpos m) e =
    (Z.sqrt m', j - 53,
     if m' - Z.sqrt m' * Z.sqrt m' =? 0 then loc_Exact
     else loc_Inexact (if m' - Z.sqrt m' * Z.sqrt m' <=? Z.sqrt m' then Lt else Gt)).
Proof.
  intros Hb j s m'. pose proof (bounded_spec _ _ Hb) as (He & Hd & Hn).
  pose proof (digits2_pos_bounds m) as [Hm1 Hm2].
  set (d := Zpos (digits2_pos m)) in *.
  pose proof (div2_half (d + e + 1)) as Hj. fold j in Hj.
  pose proof (div2_half e) as He2.
  assert (0 < d) as Hd0 by (subst d; lia).
  assert (j - 53 <= Z.div2 e) as Hle by lia.
  assert (-1074 <= j - 53) as Hlo by lia.
  assert (0 <= s) as Hs by (subst s; lia).
  assert (d + s = 105 \/ d + s = 106) as Hds by (subst s; lia).
  assert (2 ^ 104 <= m' < 2 ^ 106) as Hm'.
  { subst m'. pose proof (pow2_pos s Hs).
    assert (2 ^ (d - 1 + s) <= Zpos m * 2 ^ s < 2 ^ (d + s)) as [H1 H2].
    { rewrite !Z.pow_add_r by lia. nia. }
    split.
    - eapply Z.le_trans; [|exact H1]. apply Z.pow_le_mono_r; lia.
    - eapply Z.lt_le_trans; [exact H2|]. apply Z.pow_le_mono_r; lia. }
  split; [exact Hs|]. split; [exact Hm'|].
  unfold SFsqrt_core_binary. cbn [Zdigits2]. fold d. rewrite fexp_eq. fold j.
  replace (Z.min (Z.max (j - 53) (-1074)) (Z.div2 e)) with (j - 53) by lia.
  fold s.
  assert (match s with 0 => Zpos m | Zpos _ => Z.shiftl (Zpos m) s | Zneg _ => 0 end = m')
    as ->.
  { subst m'. destruct s as [|p|p] eqn:Es; [lia| |lia]. by rewrite Z.shiftl_mul_pow2. }
  pose proof (Z.sqrtrem_spec m' ltac:(lia)) as Hsr.
  rewrite <- (Z.sqrtrem_sqrt m') by lia.
  destruct (Z.sqrtrem m') as [q r]. cbn [fst]. destruct Hsr as [Hq Hr].
  replace (m' - q * q) with r by lia. reflexivity.
Qed.

Lemma sqrt_nearest_bounds (n : Z) : Z.sqrt n <= sqrt_nearest n <= Z.sqrt n + 1.
Proof. unfold sqrt_nearest. destruct (_ <? _); lia. Qed.

Lemma sqrt_nearest_mono (n n' : Z) : 0 <= n <= n' -> sqrt_nearest n <= sqrt_nearest n'.
Proof.
  intros [H0 Hle]. pose proof (Z.sqrt_le_mono n n' Hle) as Hq.
  pose proof (sqrt_nearest_bounds n). pose proof (sqrt_nearest_bounds n').
  destruct (Z.eq_dec (Z.sqrt n) (Z.sqrt n')) as [E|E]; [|lia].
  unfold sqrt_nearest. rewrite <- E.
  destruct (Z.ltb_spec (Z.sqrt n) (n - Z.sqrt n * Z.sqrt n)),
    (Z.ltb_spec (Z.sqrt n) (n' - Z.sqrt n * Z.sqrt n)); lia.
Qed.

Lemma sqrt_range (n : Z) : 2 ^ 104 <= n < 2 ^ 106 -> 2 ^ 52 <= Z.sqrt n < 2 ^ 53.
Proof.
  intros [H1 H2]. split.
  - change (2 ^ 52) with (Z.sqrt (2 ^ 104)). by apply Z.sqrt_le_mono.
  - apply Z.sqrt_lt_square; lia.
Qed.

(** The square root of a positive double: the root of the mantissa, scaled to
    106 bits, rounded to the nearest integer. *)
Lemma SFsqrt_char (m : positive) (e : Z) :
  SpecFloat.bounded prec emax m e = true ->
  let j := Z.div2 (Zpos (digits2_pos m) + e + 1) in
  SFsqrt prec emax (S754_finite false m e) =
    encode false (normal_pair (sqrt_nearest (Zpos m * 2 ^ (e - 2 * (j - 53)))) (j - 53)).
Proof.
  intros Hb j. destruct (sqrt_core_char m e Hb) as (Hs & Hm' & Hcore). cbv zeta in *.
  fold j in Hs, Hm', Hcore. set (m' := Zpos m * 2 ^ (e - 2 * (j - 53))) in *.
  pose proof (sqrt_range m' Hm') as Hq. set (q := Z.sqrt m') in *.
  pose proof (bounded_spec _ _ Hb) as (He & Hd & Hn).
  pose proof (div2_half (Zpos (digits2_pos m) + e + 1)) as Hj. fold j in Hj.
  cbn [SFsqrt]. rewrite Hcore. clear Hcore.
  assert (Zdigits2 q = 53) as Hdq.
  { destruct q as [|p|p] eqn:Eq; try lia. cbn [Zdigits2]. apply digits_unique; lia. }
  pose proof (sqrt_nearest_bounds m') as HM. fold q in HM.
  rewrite <- finish_char by lia.
  unfold binary_round_aux, finish, shr_fexp at 1. rewrite Hdq, fexp_eq.
  rewrite shr_no_shift by lia.
  assert (round_nearest_even
            (shr_m (shr_record_of_loc q
               (if m' - q * q =? 0 then loc_Exact
                else loc_Inexact (if m' - q * q <=? q then Lt else Gt))))
            (loc_of_shr_record (shr_record_of_loc q
               (if m' - q * q =? 0 then loc_Exact
                else loc_Inexact (if m' - q * q <=? q then Lt else Gt))))
          = sqrt_nearest m') as ->; [|reflexivity].
  unfold sqrt_nearest. fold q.
  destruct (Z.eqb_spec (m' - q * q) 0) as [E0|E0].
  - cbn. destruct (Z.ltb_spec q (m' - q * q)); [lia|reflexivity].
  - destruct (Z.leb_spec (m' - q * q) q), (Z.ltb_spec q (m' - q * q)); try lia;
      reflexivity.
Qed.

Lemma div2_mono (a b : Z) : a <= b -> Z.div2 a <= Z.div2 b.
Proof. intros H. pose proof (div2_half a). pose proof (div2_half b). lia. Qed.

Lemma scaled_le (m m0 : positive) (e e0 c : Z) :
  -1074 <= e -> -1074 <= e0 -> 0 <= e + c -> 0 <= e0 + c ->
  Zpos m * 2 ^ (e + 1074) <= Zpos m0 * 2 ^ (e0 + 1074) ->
  Zpos m * 2 ^ (e + c) <= Zpos m0 * 2 ^ (e0 + c).
Proof.
  intros He He0 Hc Hc0 Hle.
  destruct (Z.le_gt_cases 1074 c) as [H|H].
  - replace (e + c) with (e + 1074 + (c - 1074)) by lia.
    replace (e0 + c) with (e0 + 1074 + (c - 1074)) by lia.
    rewrite (Z.pow_add_r 2 (e + 1074)), (Z.pow_add_r 2 (e0 + 1074)), !Z.mul_assoc by lia.
    apply Z.mul_le_mono_nonneg_r; [|done]. apply Z.pow_nonneg; lia.
  - replace (e + 1074) with (e + c + (1074 - c)) in Hle by lia.
    replace (e0 + 1074) with (e0 + c + (1074 - c)) in Hle by lia.
    rewrite (Z.pow_add_r 2 (e + c)), (Z.pow_add_r 2 (e0 + c)), !Z.mul_assoc in Hle by lia.
    pose proof (pow2_pos (1074 - c) ltac:(lia)). nia.
Qed.

(** The square root is monotone on positive doubles. *)
Lemma SFsqrt_mono_pos (m m0 : positive) (e e0 : Z) :
  SpecFloat.bounded prec emax m e = true -> SpecFloat.bounded prec emax m0 e0 = true ->
  SFleb (S754_finite false m e) (S754_finite false m0 e0) = true ->
  SFleb (SFsqrt prec emax (S754_finite false m e))
        (SFsqrt prec emax (S754_finite false m0 e0)) = true.
Proof.
  intros Hb Hb0 Hle.
  pose proof (IV_mono (S754_finite false m e) (S754_finite false m0 e0)
                Hb Hb0 eq_refl eq_refl Hle) as HV. cbn [IV cond_Zopp] in HV.
  pose proof (bounded_spec _ _ Hb) as (He & Hd & Hn).
  pose proof (bounded_spec _ _ Hb0) as (He0 & Hd0 & Hn0).
  rewrite !SFsqrt_char by done.
  destruct (sqrt_core_char m e Hb) as (Hs & Hm' & _).
  destruct (sqrt_core_char m0 e0 Hb0) as (Hs0 & Hm0' & _). cbv zeta in *.
  set (j := Z.div2 (Zpos (digits2_pos m) + e + 1)) in *.
  set (j0 := Z.div2 (Zpos (digits2_pos m0) + e0 + 1)) in *.
  set (m' := Zpos m * 2 ^ (e - 2 * (j - 53))) in *.
  set (m0' := Zpos m0 * 2 ^ (e0 - 2 * (j0 - 53))) in *.
  pose proof (sqrt_range m' Hm') as Hq. pose proof (sqrt_range m0' Hm0') as Hq0.
  pose proof (sqrt_nearest_bounds m') as HM. pose proof (sqrt_nearest_bounds m0') as HM0.
  assert (j <= j0) as Hjj.
  { apply div2_mono.
    assert (Zdigits2 (Zpos m * 2 ^ (e + 1074)) <= Zdigits2 (Zpos m0 * 2 ^ (e0 + 1074))) as H.
    { apply Zdigits2_mono. split; [|done]. pose proof (pow2_pos (e + 1074) ltac:(lia)). lia. }
    rewrite !Zdigits2_IV in H by lia. lia. }
  apply encode_leb_pos.
  - unfold normal_pair. destruct (_ =? _); cbn [fst]; lia.
  - unfold normal_pair. destruct (_ =? _); cbn [fst]; lia.
  - unfold lex_le, normal_pair.
    destruct (Z.eq_dec j j0) as [E|E].
    + assert (m' <= m0') as Hmm.
      { subst m' m0'. rewrite <- E.
        replace (e - 2 * (j - 53)) with (e + (- 2 * (j - 53))) by lia.
        replace (e0 - 2 * (j - 53)) with (e0 + (- 2 * (j - 53))) by lia.
        apply scaled_le; lia. }
      pose proof (sqrt_nearest_mono m' m0' ltac:(lia)) as Hmono.
      destruct (Z.eqb_spec (sqrt_nearest m') (2 ^ 53)),
        (Z.eqb_spec (sqrt_nearest m0') (2 ^ 53)); cbn [fst snd]; lia.
    + destruct (Z.eqb_spec (sqrt_nearest m') (2 ^ 53)),
        (Z.eqb_spec (sqrt_nearest m0') (2 ^ 53)); cbn [fst snd]; lia.
Qed.

(** The square root is monotone on the doubles that are not negative. *)
Lemma SFsqrt_mono (x x' : spec_float) :
  SpecFloat.valid_binary prec emax x = true -> SpecFloat.valid_binary prec emax x' = true ->
  SFleb (S754_zero false) x = true -> SFleb x x' = true ->
  SFleb (SFsqrt prec emax x) (SFsqrt prec emax x') = true.
Proof.
  intros Hv Hv' H0 Hle.
  destruct x as [s|[]| |[] m e], x' as [s'|[]| |[] m' e']; try done.
  - destruct (sqrt_core_char m' e' Hv') as (_ & Hm' & _). cbv zeta in Hm'.
    rewrite SFsqrt_char by done. cbn [SFsqrt].
    pose proof (sqrt_range _ Hm'). pose proof (sqrt_nearest_bounds (Zpos m' * 2 ^ (e' - 2 * (Z.div2 (Zpos (digits2_pos m') + e' + 1) - 53)))).
    unfold normal_pair, encode. destruct (_ =? _); cbn [fst snd].
    + change (2 ^ 52) with (Zpos (2 ^ 52)). cbv iota. by destruct (_ <=? _).
    + destruct (sqrt_nearest _) as [|p|p] eqn:E; try lia. by destruct (_ <=? _).
  - destruct (sqrt_core_char m e Hv) as (_ & Hm' & _). cbv zeta in Hm'.
    rewrite SFsqrt_char by done. cbn [SFsqrt].
    pose proof (sqrt_range _ Hm'). pose proof (sqrt_nearest_bounds (Zpos m * 2 ^ (e - 2 * (Z.div2 (Zpos (digits2_pos m) + e + 1) - 53)))).
    unfold normal_pair, encode. destruct (_ =? _); cbn [fst snd].
    + change (2 ^ 52) with (Zpos (2 ^ 52)). cbv iota. by destruct (_ <=? _).
    + destruct (sqrt_nearest _) as [|p|p] eqn:E; try lia. by destruct (_ <=? _).
  - by apply SFsqrt_mono_pos.
Qed.

(** ** Quotients of doubles *)









(** ** The distance to a cell, in binary64 *)

Section Binary64Distance.
Import Binary64.

Lemma RoundZ2_nonneg (n : Z) : 0 <= n -> SFnonneg (RoundZ2 n) = true.
Proof. intros H. apply (RoundZ2_mono 0 n H). Qed.

(** The square of a double that is not negative is monotone. *)
Lemma SFsquare_mono (a a' : spec_float) :
  SpecFloat.valid_binary prec emax a = true -> SpecFloat.valid_binary prec emax a' = true ->
  SFnonneg a = true -> SFleb a a' = true ->
  SFleb (SFmul prec emax a a) (SFmul prec emax a' a') = true /\
  SFnonneg (SFmul prec emax a a) = true.
Proof.
  intros Ha Ha' H0 Hle.
  assert (SFnonneg a' = true) as H0' by (apply (SFleb_trans _ a); assumption).
  assert (forall u, SpecFloat.valid_binary prec emax u = true -> SFnonneg u = true ->
            SFnonneg (SFmul prec emax u u) = true) as Hsq.
  { intros [s|[]| |[] m e] Hu Hu0; try done.
    rewrite SFmul_char by done. apply RoundZ2_nonneg. nia. }
  split; [|by apply Hsq].
  destruct a' as [s'|[]| |[] m' e']; try done.
  - destruct a as [s|[]| |[] m e]; done.
  - apply SFleb_infinity. specialize (Hsq a Ha H0). by destruct (SFmul prec emax a a).
  - destruct a as [s|[]| |[] m e]; try done.
    + apply (Hsq (S754_finite false m' e') Ha' H0').
    + rewrite !SFmul_char by done. apply RoundZ2_mono.
      pose proof (IV_mono _ _ Ha Ha' eq_refl eq_refl Hle) as HV.
      pose proof (SFnonneg_IV _ Ha H0). nia.
Qed.

Lemma SFmul_square_abs (x : spec_float) :
  SFmul prec emax x x = SFmul prec emax (SFabs x) (SFabs x).
Proof. destruct x as [[]|[]| |[] m e]; reflexivity. Qed.

Lemma SFabs_valid (x : spec_float) :
  SpecFloat.valid_binary prec emax x = true -> SpecFloat.valid_binary prec emax (SFabs x) = true.
Proof. by destruct x. Qed.

Lemma SFabs_encode (s : bool) (a : Z * Z) : 0 < a.1 -> SFabs (encode s a) = encode false a.
Proof.
  destruct a as [[|m|m] e]; cbn [fst]; try lia. intros _. unfold encode. cbn [fst snd].
  by destruct (e <=? 971).
Qed.

Lemma RoundZ_abs (n : Z) : SFabs (RoundZ n) = RoundZ (Z.abs n).
Proof.
  destruct n as [|p|p]; [reflexivity| |]; cbn [RoundZ Z.abs];
    apply SFabs_encode, round_pair_pos; lia.
Qed.

Lemma leb64 (x y : float) : PrimFloat.leb x y = SFleb (Prim2SF x) (Prim2SF y).
Proof. apply FloatAxioms.leb_spec. Qed.

(** The squares of integer offsets, as doubles, grow with the offsets. *)
Lemma square64_mono (a b : Z) :
  Z.abs a <= Z.abs b ->
  SFleb (Prim2SF (of_int64 a * of_int64 a)) (Prim2SF (of_int64 b * of_int64 b)) = true /\
  SFnonneg (Prim2SF (of_int64 a * of_int64 a)) = true.
Proof.
  intros Hab. rewrite !FloatAxioms.mul_spec.
  change (SF64mul ?u ?v) with (SFmul prec emax u v).
  rewrite (SFmul_square_abs (Prim2SF (of_int64 a))), (SFmul_square_abs (Prim2SF (of_int64 b))).
  rewrite !of_int64_spec, !RoundZ_abs.
  apply SFsquare_mono; try apply RoundZ_valid.
  - apply RoundZ_nonneg. lia.
  - apply RoundZ_mono. lia.
Qed.

(** [math.hypot] of integer offsets grows with the offsets. *)
Lemma hypot64_mono (a1 a2 b1 b2 : Z) :
  Z.abs a1 <= Z.abs b1 -> Z.abs a2 <= Z.abs b2 ->
  SFleb (Prim2SF (hypot64 (of_int64 a1) (of_int64 a2)))
        (Prim2SF (hypot64 (of_int64 b1) (of_int64 b2))) = true.
Proof.
  intros H1 H2. unfold hypot64.
  destruct (square64_mono a1 b1 H1) as [Hs1 Hn1].
  destruct (square64_mono a2 b2 H2) as [Hs2 Hn2].
  rewrite !FloatAxioms.sqrt_spec, !FloatAxioms.add_spec.
  change (SF64sqrt ?u) with (SFsqrt prec emax u).
  change (SF64add ?u ?v) with (SFadd prec emax u v).
  destruct (SFadd_mono_nonneg _ _ _ _
              (Prim2SF_valid _) (Prim2SF_valid _) (Prim2SF_valid _) (Prim2SF_valid _)
              Hn1 Hn2 Hs1 Hs2) as [Hsum Hn].
  apply SFsqrt_mono; try done.
  - rewrite <- FloatAxioms.add_spec. apply Prim2SF_valid.
  - rewrite <- FloatAxioms.add_spec. apply Prim2SF_valid.
Qed.

(** Away from the observer the distance in cells is at least one. *)
Lemma hypot64_ge_1 (a1 a2 : Z) :
  1 <= Z.abs a1 \/ 1 <= Z.abs a2 ->
  SFleb (S754_finite false (2 ^ 52) (-52)) (Prim2SF (hypot64 (of_int64 a1) (of_int64 a2)))
    = true.
Proof.
  intros [H|H].
  - change (S754_finite false (2 ^ 52) (-52))
      with (Prim2SF (hypot64 (of_int64 1) (of_int64 0))).
    apply hypot64_mono; lia.
  - change (S754_finite false (2 ^ 52) (-52))
      with (Prim2SF (hypot64 (of_int64 0) (of_int64 1))).
    apply hypot64_mono; lia.
Qed.

(** A positive double: what [0 < x] says of [x]. *)
Lemma ltb_zero_cases (x : float) :
  PrimFloat.ltb (of_int64 0) x = true ->
  Prim2SF x = S754_infinity false \/ exists m e, Prim2SF x = S754_finite false m e.
Proof.
  rewrite FloatAxioms.ltb_spec. change (Prim2SF (of_int64 0)) with (S754_zero false).
  destruct (Prim2SF x) as [s|[]| |[] m e]; try done; eauto.
Qed.

(** The distance to a cell grows with its offsets, for every positive cell
    size. *)
Lemma distance64_mono (a1 a2 b1 b2 : Z) (cs : float) :
  Z.abs a1 <= Z.abs b1 -> Z.abs a2 <= Z.abs b2 -> 1 <= Z.abs a1 \/ 1 <= Z.abs a2 ->
  PrimFloat.ltb (of_int64 0) cs = true ->
  PrimFloat.leb (hypot64 (of_int64 a1) (of_int64 a2) * cs)
                (hypot64 (of_int64 b1) (of_int64 b2) * cs) = true.
Proof.
  intros H1 H2 Hpos Hcs. rewrite leb64, !FloatAxioms.mul_spec.
  change (SF64mul ?u ?v) with (SFmul prec emax u v).
  pose proof (hypot64_mono a1 a2 b1 b2 H1 H2) as Hle.
  pose proof (hypot64_ge_1 a1 a2 Hpos) as Hge.
  pose proof (Prim2SF_valid (hypot64 (of_int64 a1) (of_int64 a2))) as Hva.
  pose proof (Prim2SF_valid (hypot64 (of_int64 b1) (of_int64 b2))) as Hvb.
  pose proof (Prim2SF_valid cs) as Hvc.
  destruct (ltb_zero_cases cs Hcs) as [->|(m & e & Hc)].
  - pose proof (SFleb_trans _ _ _ Hge Hle) as Hge'.
    destruct (Prim2SF (hypot64 (of_int64 a1) (of_int64 a2))) as [s|[]| |[] ma ea];
      try done;
      destruct (Prim2SF (hypot64 (of_int64 b1) (of_int64 b2))) as [s'|[]| |[] mb eb];
      done.
  - rewrite Hc in *. by apply SFmul_mono.
Qed.

End Binary64Distance.

(** ** A flat plane under the radial engine, in binary64 *)

Section Binary64FlatRadial.
Import Binary64.

Lemma elevation_uniform64 (rows cols : nat) (E : float) (r c : Z) :
  in_bounds rows cols r c = true -> elevation (uniform_grid64 rows cols E) r c = E.
Proof.
  intros Hb. unfold elevation, getitem2, uniform_grid64. cbn [shape2 shape data]. rewrite Hb.
  rewrite lookup_replicate_2; [reflexivity|]. by apply (flat_index_lt rows cols).
Qed.

Lemma SFfinite_not_nan (x : float) :
  SFfinite (Prim2SF x) = true -> PrimFloat.is_nan x = false.
Proof. intros H. apply is_nan_num. by destruct (Prim2SF x). Qed.

Lemma ltb_not_leb (x y : float) : PrimFloat.ltb x y = true -> PrimFloat.leb y x = false.
Proof.
  rewrite FloatAxioms.ltb_spec, FloatAxioms.leb_spec. unfold SFltb, SFleb.
  destruct (Prim2SF x) as [s1|s1| |s1 m1 e1], (Prim2SF y) as [s2|s2| |s2 m2 e2]; try done;
    cbn [SFcompare]; try (by destruct s1); try (by destruct s2); try (by destruct s1, s2).
  change (Pos.compare_cont Eq ?a ?b) with (a ?= b)%positive.
  rewrite (Z.compare_antisym e1 e2), (Pos.compare_antisym m1 m2).
  destruct s1, s2; try done; destruct (e1 ?= e2); try done; destruct (m1 ?= m2)%positive; done.
Qed.

Lemma ltb_not_ltb (x y : float) : PrimFloat.ltb x y = true -> PrimFloat.ltb y x = false.
Proof.
  rewrite !FloatAxioms.ltb_spec. unfold SFltb.
  destruct (Prim2SF x) as [s1|s1| |s1 m1 e1], (Prim2SF y) as [s2|s2| |s2 m2 e2]; try done;
    cbn [SFcompare]; try (by destruct s1); try (by destruct s2); try (by destruct s1, s2).
  change (Pos.compare_cont Eq ?a ?b) with (a ?= b)%positive.
  rewrite (Z.compare_antisym e1 e2), (Pos.compare_antisym m1 m2).
  destruct s1, s2; try done; destruct (e1 ?= e2); try done; destruct (m1 ?= m2)%positive; done.
Qed.

(** Seen from above, the ground is not above the eye: for a finite ground
    elevation [E] and a height [h > 0], [E - (E + h) <= 0]. *)
Lemma sub_add_nonpos64 (E h : float) :
  SFfinite (Prim2SF E) = true -> PrimFloat.ltb (of_int64 0) h = true ->
  PrimFloat.leb (E - (E + h)) (of_int64 0) = true.
Proof.
  intros HE Hh. rewrite leb64, FloatAxioms.sub_spec.
  change (Prim2SF (of_int64 0)) with (S754_zero false).
  change (SF64sub ?u ?v) with (SFsub prec emax u v).
  pose proof (Prim2SF_valid E) as HvE. pose proof (Prim2SF_valid h) as Hvh.
  pose proof (Prim2SF_valid (E + h)) as Hvo.
  assert (SFleb (Prim2SF E) (Prim2SF (E + h)) = true) as Hle.
  { rewrite FloatAxioms.add_spec. change (SF64add ?u ?v) with (SFadd prec emax u v).
    destruct (ltb_zero_cases h Hh) as [->|(m & e & Hm)].
    - by destruct (Prim2SF E) as [s|[]| |s m e].
    - rewrite Hm in *. rewrite SFadd_finite_r by done.
      assert (0 < IV (S754_finite false m e)).
      { cbn [IV cond_Zopp]. apply bounded_spec in Hvh as (He & _).
        pose proof (pow2_pos (e + 1074) ltac:(lia)). lia. }
      destruct (Prim2SF E) as [s0| | |s0 m0 e0] eqn:EE; try done.
      + change (IV (S754_zero s0)) with 0. rewrite (SFleb_zero_l s0 false).
        apply (RoundZ_mono 0). lia.
      + rewrite <- (RoundZ_IV s0 m0 e0) at 1 by done. apply RoundZ_mono. lia. }
  destruct (Prim2SF (E + h)) as [so|[]| |so mo eo] eqn:Eo.
  - destruct (Prim2SF E) as [s0| | |[] m0 e0]; try done. by destruct s0, so.
  - by destruct (Prim2SF E) as [s|[]| |s m e].
  - by destruct (Prim2SF E) as [s|[]| |s m e].
  - by destruct (Prim2SF E).
  - rewrite SFsub_char by done. apply (RoundZ_mono _ 0).
    pose proof (IV_mono _ _ HvE Hvo HE eq_refl Hle). lia.
Qed.

(** Away from the observer the distance is positive. *)
Lemma distance64_pos (a1 a2 : Z) (cs : float) :
  1 <= Z.abs a1 \/ 1 <= Z.abs a2 -> PrimFloat.ltb (of_int64 0) cs = true ->
  PrimFloat.ltb (of_int64 0) (hypot64 (of_int64 a1) (of_int64 a2) * cs) = true.
Proof.
  intros Hpos Hcs. rewrite FloatAxioms.ltb_spec, FloatAxioms.mul_spec.
  change (Prim2SF (of_int64 0)) with (S754_zero false).
  change (SF64mul ?u ?v) with (SFmul prec emax u v).
  pose proof (hypot64_ge_1 a1 a2 Hpos) as Hge.
  pose proof (Prim2SF_valid (hypot64 (of_int64 a1) (of_int64 a2))) as Hva.
  pose proof (Prim2SF_valid cs) as Hvc.
  destruct (ltb_zero_cases cs Hcs) as [->|(m & e & Hc)].
  - by destruct (Prim2SF (hypot64 (of_int64 a1) (of_int64 a2))) as [s|[]| |[] ma ea].
  - rewrite Hc in *.
    destruct (Prim2SF (hypot64 (of_int64 a1) (of_int64 a2))) as [s|[]| |[] ma ea] eqn:EH;
      try done.
    rewrite SFmul_char by done.
    pose proof (IV_mono (S754_finite false (2 ^ 52) (-52)) (S754_finite false ma ea)
                  eq_refl Hva eq_refl eq_refl Hge) as HV.
    change (IV (S754_finite false (2 ^ 52) (-52))) with (2 ^ 1074) in HV.
    assert (1 <= IV (S754_finite false m e)) as Hc1.
    { cbn [IV cond_Zopp]. apply bounded_spec in Hvc as (He & _).
      pose proof (pow2_pos (e + 1074) ltac:(lia)). lia. }
    set (V := IV (S754_finite false ma ea) * IV (S754_finite false m e)).
    assert (2 ^ 1074 <= V) as HVV by (subst V; nia).
    destruct V as [|p|p] eqn:EV; try lia. cbn [RoundZ2].
    pose proof (round_quotient2_bounds (Zpos p) ltac:(lia)) as (Hk & [Hq1 Hq2] & Hn & _).
    cbv zeta in *. unfold round_pair2.
    set (k := Z.max (Zdigits2 (Zpos p) - 53) 1074) in *.
    pose proof (rne_quotient_bounds (Zpos p) _ Hk) as Hb.
    assert (1 <= Zpos p / 2 ^ k) as Hq.
    { destruct (Z.eq_dec k 1074) as [E|E]; [|lia].
      rewrite E. apply Z.div_le_lower_bound; lia. }
    unfold normal_pair, encode. destruct (_ =? _); cbn [fst snd].
    + change (2 ^ 52) with (Zpos (2 ^ 52)). cbv iota. by destruct (_ <=? _).
    + destruct (rne_quotient (Zpos p) (2 ^ k)) as [|q|q]; try lia. by destruct (_ <=? _).
Qed.

Lemma gcd_pos_offsets (dr dc : Z) :
  (dr, dc) <> (0, 0) -> 0 < Z.gcd (Z.abs dr) (Z.abs dc).
Proof.
  intros Hne. pose proof (Z.gcd_nonneg (Z.abs dr) (Z.abs dc)).
  destruct (Z.eq_dec (Z.gcd (Z.abs dr) (Z.abs dc)) 0) as [E|E]; [|lia].
  apply Z.gcd_eq_0 in E as [E1 E2]. exfalso. apply Hne. f_equal; lia.
Qed.

(** On a uniform grid of finite elevation, with curvature disabled, an
    observer height above 0 and a cell size above 0, the radial engine
    returns the mask that is true everywhere, for every [atan2] that does
    not fall by more than the tolerance as the distance grows, at or below
    the horizontal. *)
Lemma radial_flat64 (PA : PyAtan2 float) (rows cols : nat) (E h cs : float)
    (observer_rc : Z * Z) :
  (forall y x1 x2, PrimFloat.leb y 0 = true -> PrimFloat.ltb 0 x1 = true ->
     PrimFloat.leb x1 x2 = true ->
     PrimFloat.leb (PrimFloat.sub (atan2 y x1) epsilon64) (atan2 y x2) = true) ->
  PrimFloat.is_nan E = false -> PrimFloat.is_infinity E = false ->
  PrimFloat.ltb 0 h = true -> PrimFloat.ltb 0 cs = true ->
  in_bounds rows cols observer_rc.1 observer_rc.2 = true ->
  @_compute_viewshed_radial float binary64 PA (uniform_grid64 rows cols E) observer_rc
    h cs false = Ok (full rows cols true).
Proof.
  intros Hrise HEn HEi Hh Hcs Hb.
  pose proof (is_finite_spec E HEn HEi) as HE.
  set (dem := uniform_grid64 rows cols E).
  assert (valid_input dem observer_rc h cs) as Hv.
  { repeat split.
    - by apply ltb_not_leb.
    - by apply ltb_not_ltb.
    - exact Hb.
    - subst dem. by rewrite elevation_uniform64. }
  rewrite radial_checked, (checked_call_valid _ _ _ _ _ Hv). f_equal.
  destruct (grown_mask dem observer_rc h cs
              (radial_marked
                 (group (radial_entries dem
                           (fadd (elevation dem observer_rc.1 observer_rc.2) h)
                           observer_rc.1 observer_rc.2 cs false))) Hv) as (Hm & _ & _).
  apply mask_all_true; [exact Hm|]. intros r c Hrc.
  pose proof (@radial_mask_visible float binary64 PA binary64_order
                dem observer_rc h cs false r c) as Hchar.
  cbv zeta in Hchar. apply (Hchar Hv). clear Hchar.
  destruct observer_rc as [obs_r obs_c]. cbn [fst snd] in *.
  destruct (decide ((r, c) = (obs_r, obs_c))) as [Heq|Hne]; [by left|right].
  assert ((r - obs_r, c - obs_c) <> (0, 0)) as Hoff.
  { intros H. injection H as H1 H2. apply Hne. f_equal; lia. }
  pose proof (gcd_pos_offsets _ _ Hoff) as Hg.
  set (g := Z.gcd (Z.abs (r - obs_r)) (Z.abs (c - obs_c))) in *.
  destruct (gcd_direction (r - obs_r) (c - obs_c) ltac:(fold g; lia)) as (_ & Hdr & Hdc).
  fold g in Hdr, Hdc.
  set (d1 := (r - obs_r) / g) in *. set (d2 := (c - obs_c) / g) in *.
  assert ((d1, d2) <> (0, 0)) as Hd.
  { intros H. injection H as H1 H2. apply Hoff. f_equal; lia. }
  assert (elevation dem obs_r obs_c = E) as Hobs by (subst dem; by rewrite elevation_uniform64).
  set (y := fsub E (fadd E h)).
  assert (PrimFloat.leb y 0 = true) as Hy by (by apply sub_add_nonpos64).
  assert (forall k, 1 <= k <= g ->
            in_bounds rows cols (obs_r + k * d1) (obs_c + k * d2) = true) as Hin.
  { intros k Hk.
    apply (ray_cell_between rows cols obs_r obs_c (d1, d2) k g Hb); [|lia].
    unfold ray_cell. cbn [fst snd]. by replace (obs_r + g * d1) with r by lia;
      replace (obs_c + g * d2) with c by lia. }
  assert (forall k, 1 <= k <= g ->
            cell_angle dem (fadd (elevation dem obs_r obs_c) h) obs_r obs_c cs false
              (obs_r + k * d1, obs_c + k * d2)
            = atan2 y (fmul (hypot (of_int (k * d1)) (of_int (k * d2))) cs)) as Hangle.
  { intros k Hk. unfold cell_angle. cbn [fst snd andb]. rewrite Hobs.
    subst dem. rewrite elevation_uniform64 by (by apply Hin).
    replace (obs_r + k * d1 - obs_r) with (k * d1) by lia.
    replace (obs_c + k * d2 - obs_c) with (k * d2) by lia. reflexivity. }
  assert (forall k, 1 <= k -> 1 <= Z.abs (k * d1) \/ 1 <= Z.abs (k * d2)) as Hfar.
  { intros k Hk. destruct (Z.eq_dec d1 0) as [E1|E1].
    - right. assert (d2 <> 0) by (intros E2; apply Hd; by rewrite E1, E2). nia.
    - left. nia. }
  assert (forall k, 1 <= k <= g ->
            PrimFloat.leb
              (PrimFloat.sub (atan2 y (fmul (hypot (of_int (k * d1)) (of_int (k * d2))) cs))
                 epsilon64)
              (atan2 y (fmul (hypot (of_int (g * d1)) (of_int (g * d2))) cs)) = true)
    as Hstep.
  { intros k Hk. apply Hrise; [exact Hy| |].
    - apply distance64_pos; [apply Hfar; lia|exact Hcs].
    - apply distance64_mono; [nia|nia|apply Hfar; lia|exact Hcs]. }
  assert ((r, c) = (obs_r + g * d1, obs_c + g * d2)) as Hrc' by (f_equal; lia).
  split; [exact Hrc|]. split; [|split].
  - subst dem. rewrite elevation_uniform64 by done. exact HEn.
  - rewrite Hrc', Hangle by lia.
    pose proof (Hstep g ltac:(lia)) as H.
    apply (@fle_not_nan float binary64 binary64_order) in H as [_ H]. exact H.
  - intros k Hk _ _. unfold ray_cell. cbn [fst snd].
    rewrite Hrc', !Hangle by lia. apply Hstep. lia.
Qed.

End Binary64FlatRadial.

(** ** The sight line under the curvature correction, in binary64 *)

Section Binary64Curvature.
Import Binary64.










End Binary64Curvature.


Section Binary64CurvatureEngine.
Import Binary64.


End Binary64CurvatureEngine.

Section CurvatureClaim.
Import Binary64 Exact Scenarios.


End CurvatureClaim.

Section CurvatureWitness.
Import Binary64 Exact Scenarios.
Local Open Scope R_scope.


End CurvatureWitness.

Section CurvatureWitness64.
Import Binary64 Exact Scenarios.


End CurvatureWitness64.

Section FlatPlaneClaim.
Import Binary64 Scenarios.

Lemma level_atan2_rises_level (y x1 x2 : float) :
  PrimFloat.leb y 0 = true -> PrimFloat.ltb 0 x1 = true -> PrimFloat.leb x1 x2 = true ->
  PrimFloat.leb (PrimFloat.sub (@atan2 float level_atan2 y x1) epsilon64)
    (@atan2 float level_atan2 y x2) = true.
Proof.
  intros _ _ _. simpl. destruct (PrimFloat.ltb y 0); [reflexivity|].
  destruct (PrimFloat.ltb 0 y); reflexivity.
Qed.

(** C8, as amended.  On every uniform grid of finite elevation, with
    curvature disabled, an observer height above 0 and a cell size above 0,
    every cell of the returned mask is true: for the radial engine in
    binary64, with every [atan2] that, at or below the horizontal, does not
    fall by more than the tolerance as the distance grows; and for both
    engines in exact arithmetic.  For the baseline engine in binary64 the
    statement holds on the 5 x 5 all-zero grid with the observer at (2, 2),
    height 1.7 and cell size 10 (all 25 cells are true); on that grid the
    radial engine needs the condition on [atan2] below the horizontal
    only. *)
Theorem flat_plane_visibility :
  (forall (PA : PyAtan2 float) (rows cols : nat) (E h cs : float) (observer_rc : Z * Z),
     (forall y x1 x2, PrimFloat.leb y 0 = true -> PrimFloat.ltb 0 x1 = true ->
        PrimFloat.leb x1 x2 = true ->
        PrimFloat.leb (PrimFloat.sub (atan2 y x1) epsilon64) (atan2 y x2) = true) ->
     PrimFloat.is_nan E = false -> PrimFloat.is_infinity E = false ->
     PrimFloat.ltb 0 h = true -> PrimFloat.ltb 0 cs = true ->
     in_bounds rows cols observer_rc.1 observer_rc.2 = true ->
     @_compute_viewshed_radial float binary64 PA (uniform_grid64 rows cols E) observer_rc
       h cs false = Ok (full rows cols true)) /\
  (forall (rows cols : nat) (E h cs : R) (observer_rc : Z * Z),
     (0 < h)%R -> (0 < cs)%R ->
     in_bounds rows cols observer_rc.1 observer_rc.2 = true ->
     _compute_viewshed_baseline (uniform_grid rows cols E) observer_rc
       (Exact.XFin h) (Exact.XFin cs) false = Ok (full rows cols true) /\
     _compute_viewshed_radial (uniform_grid rows cols E) observer_rc
       (Exact.XFin h) (Exact.XFin cs) false = Ok (full rows cols true)) /\
  _compute_viewshed_baseline dem_flat_5x5 (2, 2) height_1_7 10%float false
    = Ok (full 5 5 true) /\
  (forall PA : PyAtan2 float,
     (forall y x, PrimFloat.is_nan y = false -> PrimFloat.is_nan x = false ->
        PrimFloat.is_nan (atan2 y x) = false) ->
     (forall y x1 x2, PrimFloat.ltb y 0 = true -> PrimFloat.ltb 0 x1 = true ->
        PrimFloat.leb x1 x2 = true ->
        PrimFloat.leb (PrimFloat.sub (atan2 y x1) epsilon64) (atan2 y x2) = true) ->
     @_compute_viewshed_radial float binary64 PA dem_flat_5x5 (2, 2) height_1_7 10%float
       false = Ok (full 5 5 true)).
Proof.
  split; [|split; [|split]].
  - exact radial_flat64.
  - intros rows cols E h cs observer_rc Hh Hc Hb. split.
    + by apply baseline_flat_exact.
    + by apply radial_flat_exact.
  - exact baseline_flat_5x5.
  - exact radial_flat_5x5.
Qed.

Lemma flat_plane_visibility_witness :
  @_compute_viewshed_radial float binary64 level_atan2 dem_uniform_3x4 (0, 0)
    height_1em13 10%float false = Ok (full 3 4 true) /\
  (_compute_viewshed_baseline (uniform_grid 5 5 0) (2, 2)
     (Exact.XFin (17 / 10)) (Exact.XFin 10) false = Ok (full 5 5 true) /\
   _compute_viewshed_radial (uniform_grid 5 5 0) (2, 2)
     (Exact.XFin (17 / 10)) (Exact.XFin 10) false = Ok (full 5 5 true)) /\
  @_compute_viewshed_radial float binary64 level_atan2 dem_flat_5x5 (2, 2) height_1_7
    10%float false = Ok (full 5 5 true).
Proof.
  split; [|split].
  - apply (proj1 flat_plane_visibility level_atan2 3%nat 4%nat
             0x1.f40cccccccccdp+9%float height_1em13 10%float (0, 0)).
    + exact level_atan2_rises_level.
    + reflexivity.
    + reflexivity.
    + reflexivity.
    + reflexivity.
    + reflexivity.
  - apply (proj1 (proj2 flat_plane_visibility) 5%nat 5%nat 0%R (17 / 10)%R 10%R (2, 2));
      [lra|lra|reflexivity].
  - apply (proj2 (proj2 (proj2 flat_plane_visibility)) level_atan2).
    + exact level_atan2_number.
    + exact level_atan2_rises.
Defined.

End FlatPlaneClaim.
